(** * Automata toolkit: a shallow embedding of nfa.py, dfa.py, parsing.py,
      distance.py and the elimination loop of test.py, with the properties
      of the design document checked against it.

    Conventions of the embedding.
    - A Python [set] is a duplicate-free list; its iteration order (which
      Python leaves unspecified) is the insertion order of the list.
    - A Python [dict] is an association list in insertion order with unique
      keys; a [defaultdict(set)] is such a list whose values are sets.
    - A Python [list] used as a stack has its top at the head of the list.
    - NFA states are Python ints ([Z]); a symbol is a Python [str], the
      empty string being the epsilon label.  State elimination with the
      symbolic combiners also labels edges with tuples; its automata have
      labels of type [parsing.label].
    - Exceptions are values of [outcome]; loops that Python runs until a
      condition fails take a fuel argument and answer [OutOfFuel] when it
      is exhausted. *)

From stdpp Require Import prelude strings.
From Stdlib Require Import ZArith Lia Ascii.

Local Open Scope string_scope.
Local Open Scope Z_scope.
Local Open Scope list_scope.

(** ** Outcomes of a Python call *)

Inductive exn :=
  ValueError | IndexError | KeyError | StopIteration | ZeroDivisionError.

Inductive outcome (A : Type) :=
  | Ret (a : A)
  | Raise (e : exn)
  | OutOfFuel.
Arguments Ret {A} a.
Arguments Raise {A} e.
Arguments OutOfFuel {A}.

Definition obind {A B} (m : outcome A) (k : A → outcome B) : outcome B :=
  match m with
  | Ret a => k a
  | Raise e => Raise e
  | OutOfFuel => OutOfFuel
  end.

Notation "x <- m ;; k" := (obind m (λ x, k))
  (at level 20, m at level 99, k at level 200, only parsing).
Notation "' pat <- m ;; k" := (obind m (λ pat, k))
  (at level 20, pat pattern, m at level 99, k at level 200, only parsing).

Definition returns {A} (m : outcome A) : Prop := ∃ a, m = Ret a.
Definition raises {A} (m : outcome A) : Prop := ∃ e, m = Raise e.

Global Instance exn_eq_dec : EqDecision exn.
Proof. solve_decision. Defined.

Global Instance outcome_eq_dec {A} `{EqDecision A} : EqDecision (outcome A).
Proof. solve_decision. Defined.

(** ** Python sets and dictionaries *)

Section pyset.
Context {A : Type} `{EqDecision A}.

(** [s.add(x)] *)
Definition set_add (x : A) (s : list A) : list A :=
  if decide (x ∈ s) then s else s ++ [x].

(** [s.update(xs)] *)
Definition set_update (s xs : list A) : list A :=
  foldl (λ acc x, set_add x acc) s xs.

(** [set(xs)] *)
Definition set_of (xs : list A) : list A := set_update [] xs.

(** [s.difference((x,))] *)
Definition set_discard (x : A) (s : list A) : list A :=
  filter (λ y, y ≠ x) s.

(** [s.remove(x)], which raises [KeyError] when [x] is absent *)
Definition set_remove (x : A) (s : list A) : outcome (list A) :=
  if decide (x ∈ s) then Ret (set_discard x s) else Raise KeyError.

(** [s == t] on sets *)
Definition set_eqb (s t : list A) : bool :=
  forallb (λ x, bool_decide (x ∈ t)) s && forallb (λ x, bool_decide (x ∈ s)) t.

(** [s in l] for a list [l] of sets *)
Definition set_in_list (s : list A) (l : list (list A)) : bool :=
  existsb (set_eqb s) l.

(** [l.index(s)] for a list [l] of sets *)
Fixpoint set_index (s : list A) (l : list (list A)) : option nat :=
  match l with
  | [] => None
  | t :: l' => if set_eqb t s then Some 0%nat else S <$> set_index s l'
  end.
End pyset.

Section pydict.
Context {K V : Type} `{EqDecision K}.

(** [d.get(k)] / [k in d] *)
Fixpoint dict_get (k : K) (d : list (K * V)) : option V :=
  match d with
  | [] => None
  | (k', v) :: d' => if decide (k = k') then Some v else dict_get k d'
  end.

(** [d[k] = v] *)
Fixpoint dict_set (k : K) (v : V) (d : list (K * V)) : list (K * V) :=
  match d with
  | [] => [(k, v)]
  | (k', v') :: d' =>
      if decide (k = k') then (k, v) :: d' else (k', v') :: dict_set k v d'
  end.

Definition dict_has (k : K) (d : list (K * V)) : bool :=
  bool_decide (is_Some (dict_get k d)).
End pydict.

Section defaultdict.
Context {K A : Type} `{EqDecision K} `{EqDecision A}.

(** [d[k].update(xs)] on a [defaultdict(set)] *)
Definition dd_update (d : list (K * list A)) (k : K) (xs : list A)
    : list (K * list A) :=
  dict_set k (set_update (default [] (dict_get k d)) xs) d.

(** [d[k].add(x)] on a [defaultdict(set)] *)
Definition dd_add (d : list (K * list A)) (k : K) (x : A) : list (K * list A) :=
  dd_update d k [x].
End defaultdict.

(** [max(s)] and [min(s)], which raise [ValueError] on an empty set *)
Definition py_max (l : list Z) : outcome Z :=
  match l with
  | [] => Raise ValueError
  | x :: r => Ret (foldl Z.max x r)
  end.

Definition py_min (l : list Z) : outcome Z :=
  match l with
  | [] => Raise ValueError
  | x :: r => Ret (foldl Z.min x r)
  end.

(** A [for] loop whose body may raise *)
Fixpoint foldM {A B} (f : A → B → outcome A) (a : A) (l : list B) : outcome A :=
  match l with
  | [] => Ret a
  | x :: l' => a' <- f a x;; foldM f a' l'
  end.

(** [l[i]] on a Python list, for an index that is not negative *)
Definition py_nth {A} (l : list A) (i : nat) : outcome A :=
  match l !! i with
  | Some x => Ret x
  | None => Raise IndexError
  end.

(** [d[k]] on a plain [dict] *)
Definition py_item {K V} `{EqDecision K} (d : list (K * V)) (k : K) : outcome V :=
  match dict_get k d with
  | Some v => Ret v
  | None => Raise KeyError
  end.

Abbreviation symbol := string (only parsing).
Definition eps : symbol := "".

(** ** dfa.py: class DFA (states are the indices handed out by [range]) *)

Module DFA.
Record t := mk {
  states : list nat;
  alphabet : list symbol;
  transitions : list ((nat * symbol) * nat);
  start_state : nat;
  final_states : list nat
}.

(** [DFA.__init__] *)
Definition init (sts : list nat) (al : list symbol)
    (tr : list ((nat * symbol) * nat)) (start : nat) (finals : list nat)
    : outcome t :=
  let sts' := set_of sts in
  let finals' := set_of finals in
  if decide (start ∈ sts') then
    if forallb (λ s, bool_decide (s ∈ sts')) finals' then
      Ret (mk sts' (set_of al) (foldl (λ d '(k, v), dict_set k v d) [] tr)
              start finals')
    else Raise ValueError
  else Raise ValueError.

(** [DFA.accept] *)
Fixpoint accept_from (D : t) (current_state : nat) (string : list symbol) : bool :=
  match string with
  | [] => bool_decide (current_state ∈ final_states D)
  | sym :: rest =>
      match dict_get (current_state, sym) (transitions D) with
      | None => false
      | Some dst => accept_from D dst rest
      end
  end.

Definition accept (D : t) (string : list symbol) : bool :=
  accept_from D (start_state D) string.

(** *** [DFA.minimize] *)

(** First [while] loop: the states reachable from the start state, the
    final ones kept apart. *)
Definition reach_sym (D : t) (curr : nat)
    (acc : list nat * list nat * list nat) (sym : symbol)
    : list nat * list nat * list nat :=
  let '(worklist, reachable_states, reachable_finals) := acc in
  match dict_get (curr, sym) (transitions D) with
  | Some dst =>
      if bool_decide (dst ∉ reachable_states) && bool_decide (dst ∉ reachable_finals)
      then
        if decide (dst ∈ final_states D)
        then (dst :: worklist, reachable_states, set_add dst reachable_finals)
        else (dst :: worklist, set_add dst reachable_states, reachable_finals)
      else acc
  | None => acc
  end.

Fixpoint reach_loop (D : t) (fuel : nat)
    (worklist reachable_states reachable_finals : list nat)
    : outcome (list nat * list nat) :=
  match worklist with
  | [] => Ret (reachable_states, reachable_finals)
  | curr :: worklist' =>
      match fuel with
      | O => OutOfFuel
      | S fuel' =>
          let '(wl, rs, rf) :=
            foldl (reach_sym D curr)
                  (worklist', reachable_states, reachable_finals) (alphabet D) in
          reach_loop D fuel' wl rs rf
      end
  end.

(** The state of the refinement loop *)
Record refinement := mk_refinement {
  partitions : list (list nat);
  part_finals : list nat;
  worklist : list nat
}.

(** [to_curr] and [not_to_curr] for one cell *)
Definition lands_in (D : t) (curr_part : list nat) (sym : symbol) (state : nat) : bool :=
  match dict_get (state, sym) (transitions D) with
  | Some dst => bool_decide (dst ∈ curr_part)
  | None => false
  end.

Definition split_cell (D : t) (curr_part : list nat) (sym : symbol)
    (part : list nat) : list nat * list nat :=
  foldl (λ '(to_curr, not_to_curr) state,
           if lands_in D curr_part sym state
           then (to_curr ++ [state], not_to_curr)
           else (to_curr, not_to_curr ++ [state]))
        ([], []) part.

(** The body of [for index in range(len(partitions))] *)
Definition refine_index (D : t) (curr_part : list nat) (sym : symbol)
    (r : refinement) (index : nat) : outcome refinement :=
  part <- py_nth (partitions r) index;;
  let '(to_curr, not_to_curr) := split_cell D curr_part sym part in
  if (length to_curr =? 0)%nat || (length not_to_curr =? 0)%nat then Ret r
  else
    let partitions' := <[index := to_curr]> (partitions r) ++ [not_to_curr] in
    let last := (length partitions' - 1)%nat in
    let finals' :=
      if decide (index ∈ part_finals r) then set_add last (part_finals r)
      else part_finals r in
    let worklist' :=
      if bool_decide (index ∈ worklist r)
         || (length not_to_curr <? length to_curr)%nat
      then last :: worklist r
      else index :: worklist r in
    Ret (mk_refinement partitions' finals' worklist').

(** The body of [for sym in self.alphabet]; [range] is evaluated once *)
Definition refine_sym (D : t) (curr_part : list nat)
    (r : refinement) (sym : symbol) : outcome refinement :=
  foldM (refine_index D curr_part sym) r (seq 0 (length (partitions r))).

(** Second [while] loop: partition refinement *)
Fixpoint refine_loop (D : t) (fuel : nat) (r : refinement) : outcome refinement :=
  match worklist r with
  | [] => Ret r
  | top :: worklist' =>
      match fuel with
      | O => OutOfFuel
      | S fuel' =>
          curr_part <- py_nth (partitions r) top;;
          r' <- foldM (refine_sym D curr_part)
                 (mk_refinement (partitions r) (part_finals r) worklist')
                 (alphabet D);;
          refine_loop D fuel' r'
      end
  end.

(** [enumerate(partitions)] *)
Definition enumerate {A} (l : list A) : list (nat * A) := zip (seq 0 (length l)) l.

Definition build_state_map (parts : list (list nat)) : list (nat * nat) :=
  foldl (λ m '(index, sts), foldl (λ m state, dict_set state index m) m sts)
        [] (enumerate parts).

Definition build_transitions (D : t) (parts : list (list nat))
    (state_map : list (nat * nat)) : outcome (list ((nat * symbol) * nat)) :=
  foldM (λ tr '(index, sts),
           foldM (λ tr state,
                    foldM (λ tr sym,
                             match dict_get (state, sym) (transitions D) with
                             | Some dst =>
                                 i <- py_item state_map dst;;
                                 Ret (dict_set (index, sym) i tr)
                             | None => Ret tr
                             end)
                          tr (alphabet D))
                 tr sts)
        [] (enumerate parts).

(** The partitions that the refinement loop ends with; [None] stands for
    the early return taken when no final state is reachable. *)
Definition minimize_partitions (fuel : nat) (D : t)
    : outcome (option refinement) :=
  let '(rs0, rf0) :=
    if decide (start_state D ∈ final_states D)
    then ([], [start_state D]) else ([start_state D], []) in
  '(reachable_states, reachable_finals) <-
    reach_loop D fuel [start_state D] rs0 rf0;;
  if (length reachable_finals =? 0)%nat then Ret None
  else
    let parts :=
      if (length reachable_states =? 0)%nat then [reachable_finals]
      else [reachable_finals; reachable_states] in
    r <- refine_loop D fuel
          (mk_refinement parts [0%nat] (rev (seq 0 (length parts))));;
    Ret (Some r).

(** [DFA.minimize]; the receiver is consumed and the result is its new
    value.  The fuel bounds each of the two [while] loops. *)
Definition minimize (fuel : nat) (D : t) : outcome t :=
  r <- minimize_partitions fuel D;;
  match r with
  | None => Ret (mk [0%nat] (alphabet D) [] 0%nat [])
  | Some r =>
      let state_map := build_state_map (partitions r) in
      tr <- build_transitions D (partitions r) state_map;;
      start <- py_item state_map (start_state D);;
      Ret (mk (set_of (seq 0 (length (partitions r)))) (alphabet D) tr start
               (part_finals r))
  end.
End DFA.

(** ** nfa.py: class NFA *)

Module NFA.
Record t := mk {
  states : list Z;
  alphabet : list symbol;
  transitions : list ((Z * symbol) * list Z);
  start_state : Z;
  final_state : Z
}.

(** [NFA.__init__] *)
Definition init (sts : list Z) (al : list symbol)
    (tr : list ((Z * symbol) * list Z)) (start final : Z) : outcome t :=
  let sts' := set_of sts in
  let tr' := foldl (λ d '(key, dsts), dd_update d key dsts) [] tr in
  if decide (start ∈ sts') then
    if decide (final ∈ sts') then Ret (mk sts' (set_of al) tr' start final)
    else Raise ValueError
  else Raise ValueError.

(** [NFA.copy] *)
Definition copy (self : t) : outcome t :=
  init (states self) (alphabet self) (transitions self)
       (start_state self) (final_state self).

(** [NFA.concat]; the receiver is consumed and the result is its new value *)
Definition concat (self other : t) : outcome t :=
  let alphabet' := set_update (alphabet self) (alphabet other) in
  max_s <- py_max (states self);;
  min_o <- py_min (states other);;
  let corr := max_s - min_o + 1 in
  let states' :=
    set_update (states self)
      ((λ state, state + corr) <$>
         filter (λ state, state ≠ start_state other) (states other)) in
  let transitions' :=
    foldl (λ tr '((src, sym), dst),
             let new_key :=
               (if decide (src = start_state other) then final_state self
                else src + corr, sym) in
             let new_dst :=
               (λ state, if decide (state = start_state other)
                         then final_state self else state + corr) <$> dst in
             dd_update tr new_key new_dst)
          (transitions self) (transitions other) in
  Ret (mk states' alphabet' transitions' (start_state self)
           (final_state other + corr)).

(** [NFA.__add__] *)
Definition add (self other : t) : outcome t :=
  c <- copy self;; concat c other.

(** [NFA.union] *)
Definition union (self other : t) : outcome t :=
  let alphabet' := set_update (alphabet self) (alphabet other) in
  max_s <- py_max (states self);;
  min_o <- py_min (states other);;
  let corr := max_s - min_o + 1 in
  let states' :=
    set_update (states self)
      ((λ state, state + corr) <$>
         filter (λ state, state ≠ start_state other ∧ state ≠ final_state other)
                (states other)) in
  let rename := λ st,
    if decide (st = final_state other) then final_state self
    else if decide (st = start_state other) then start_state self
    else st + corr in
  let transitions' :=
    foldl (λ tr '((src, sym), dsts),
             dd_update tr (rename src, sym) (rename <$> dsts))
          (transitions self) (transitions other) in
  Ret (mk states' alphabet' transitions' (start_state self) (final_state self)).

(** [NFA.__or__] *)
Definition or (self other : t) : outcome t :=
  c <- copy self;; union c other.

(** [NFA.star] *)
Definition star (self : t) : outcome t :=
  max_s <- py_max (states self);;
  let start := max_s + 1 in
  let final := max_s + 2 in
  let states' := set_update (states self) [start; final] in
  let tr1 := dd_update (transitions self) (start, eps) [start_state self; final] in
  let tr2 := dd_update tr1 (final_state self, eps) [start_state self; final] in
  Ret (mk states' (alphabet self) tr2 start final).

(** [NFA.plus] *)
Definition plus (self : t) : outcome t :=
  max_s <- py_max (states self);;
  let start := max_s + 1 in
  let final := max_s + 2 in
  let states' := set_update (states self) [start; final] in
  let tr1 := dd_add (transitions self) (start, eps) (start_state self) in
  let tr2 := dd_update tr1 (final_state self, eps) [start_state self; final] in
  Ret (mk states' (alphabet self) tr2 start final).

(** [NFA.opt] *)
Definition opt (self : t) : outcome t :=
  Ret (mk (states self) (alphabet self)
           (dd_add (transitions self) (start_state self, eps) (final_state self))
           (start_state self) (final_state self)).

(** The [while] loop of [NFA.eps_closure]; [worklist.pop()] takes the
    first element of the work set. *)
Fixpoint eps_loop (self : t) (fuel : nat) (worklist retval : list Z)
    : option (list Z) :=
  match worklist with
  | [] => Some retval
  | curr :: worklist' =>
      match fuel with
      | O => None
      | S fuel' =>
          let retval' := set_add curr retval in
          let worklist'' :=
            match dict_get (curr, eps) (transitions self) with
            | Some dsts =>
                foldl (λ wl st, if decide (st ∈ retval') then wl
                                else set_add st wl) worklist' dsts
            | None => worklist'
            end in
          eps_loop self fuel' worklist'' retval'
      end
  end.

(** Every state that the loop can pop is an epsilon destination, and it
    pops none twice, so this many iterations are enough
    (see [eps_loop_enough_fuel]). *)
Definition eps_fuel (self : t) : nat :=
  S (length (mjoin (snd <$> transitions self))).

(** [NFA.eps_closure] *)
Definition eps_closure (self : t) (state : Z) (include_state : bool) : list Z :=
  let retval := if include_state then [state] else [] in
  match dict_get (state, eps) (transitions self) with
  | None => retval
  | Some dsts => default retval (eps_loop self (eps_fuel self) (set_of dsts) retval)
  end.

(** [NFA.next_states] *)
Definition next_states (self : t) (current_state : Z) (sym : symbol)
    (incl_eps : bool) : list Z :=
  if decide (sym ∈ alphabet self) then
    foldl (λ retval state,
             match dict_get (state, sym) (transitions self) with
             | Some dsts =>
                 foldl (λ retval next_state,
                          let retval := set_add next_state retval in
                          if incl_eps
                          then set_update retval (eps_closure self next_state false)
                          else retval)
                       retval dsts
             | None => retval
             end)
          [] (current_state :: eps_closure self current_state false)
  else [].

(** [NFA._accept], on the suffix [string[start_index:]] *)
Fixpoint _accept (self : t) (string : list symbol) (current_state : Z) : bool :=
  match string with
  | [] =>
      bool_decide (current_state = final_state self)
      || bool_decide (final_state self ∈ eps_closure self current_state false)
  | sym :: rest =>
      existsb (_accept self rest) (next_states self current_state sym false)
  end.

(** [NFA.accept] *)
Definition accept (self : t) (string : list symbol) : bool :=
  _accept self string (start_state self).

(** *** [NFA.rip] *)

(** [_default_rip_combiner]; [str] is the identity on string labels *)
Definition _default_rip_combiner (a : symbol) (b : list symbol) (c : symbol)
    : symbol :=
  let pre := a in
  let post := c in
  let repeat := String.concat "|" b in
  let loop_pre := bool_decide (pre = repeat) in
  let loop_post := bool_decide (post = repeat) in
  if loop_pre && loop_post then
    if decide (repeat = "") then "" else "(" +:+ repeat +:+ ")+"
  else if loop_pre then
    if decide (repeat = "") then post else "(" +:+ repeat +:+ ")+" +:+ post
  else if loop_post then
    if decide (repeat = "") then pre else pre +:+ "(" +:+ repeat +:+ ")+"
  else
    pre +:+ (if decide (repeat = "") then "" else "(" +:+ repeat +:+ ")*") +:+ post.

(** What a call of [rip] hands back: an exception, [None], or the
    receiver itself. *)
Inductive rip_result := RipRaise (e : exn) | RipNone | RipSelf.

(** First loop of [rip]: [outgoing_transitions] and [self_loops] *)
Definition rip_outgoing (self : t) (state : Z)
    : list (symbol * list Z) * list symbol :=
  foldl (λ '(outgoing_transitions, self_loops) '((src, sym), dsts),
           if decide (src = state) then
             if decide (state ∈ dsts) then
               (if (1 <? length dsts)%nat
                then dict_set sym (set_discard state dsts) outgoing_transitions
                else outgoing_transitions,
                if decide (sym ≠ eps) then set_add sym self_loops else self_loops)
             else (dict_set sym dsts outgoing_transitions, self_loops)
           else (outgoing_transitions, self_loops))
        ([], []) (transitions self).

(** The parts of the heap that the second loop writes: the receiver's
    alphabet, the receiver's transition sets (mutated in place by
    [dsts.remove(state)]), and the local dictionary [transitions]. *)
Record rip_heap := mk_heap {
  self_alphabet : list symbol;
  self_transitions : list ((Z * symbol) * list Z);
  new_transitions : list ((Z * symbol) * list Z)
}.

(** A loop body either goes on or executes [return None] *)
Inductive flow := Continue (h : rip_heap) | ReturnNone (h : rip_heap).

Fixpoint for_each {B} (f : rip_heap → B → flow) (h : rip_heap) (l : list B)
    : flow :=
  match l with
  | [] => Continue h
  | x :: l' =>
      match f h x with
      | Continue h' => for_each f h' l'
      | ReturnNone h' => ReturnNone h'
      end
  end.

(** The body of [for out_sym, out_dsts in outgoing_transitions.items()] *)
Definition rip_pair (safe : bool)
    (combiner : symbol → list symbol → symbol → symbol)
    (self_loops : list symbol) (src : Z) (sym : symbol)
    (h : rip_heap) (out : symbol * list Z) : flow :=
  let '(out_sym, out_dsts) := out in
  if safe then
    if bool_decide (sym ≠ eps) && bool_decide (out_sym ≠ eps) then ReturnNone h
    else
      let new_sym := if decide (sym = eps) then out_sym else sym in
      Continue (mk_heap (self_alphabet h) (self_transitions h)
                  (dd_update (new_transitions h) (src, new_sym) out_dsts))
  else
    let new_sym := combiner sym self_loops out_sym in
    let alphabet' :=
      if negb (dict_has (src, new_sym) (new_transitions h))
         && bool_decide (new_sym ≠ eps)
      then set_add new_sym (self_alphabet h) else self_alphabet h in
    Continue (mk_heap alphabet' (self_transitions h)
                (dd_update (new_transitions h) (src, new_sym) out_dsts)).

(** The body of the second [for key, dsts in self.transitions.items()] *)
Definition rip_entry (safe : bool)
    (combiner : symbol → list symbol → symbol → symbol)
    (state : Z) (outgoing_transitions : list (symbol * list Z))
    (self_loops : list symbol)
    (h : rip_heap) (entry : (Z * symbol) * list Z) : flow :=
  let '((src, sym), dsts) := entry in
  if decide (src = state) then Continue h
  else if decide (state ∈ dsts) then
    match for_each (rip_pair safe combiner self_loops src sym) h
                   outgoing_transitions with
    | ReturnNone h' => ReturnNone h'
    | Continue h' =>
        let dsts' := set_discard state dsts in
        let self_tr :=
          if safe then self_transitions h'
          else dict_set (src, sym) dsts' (self_transitions h') in
        Continue (mk_heap (self_alphabet h') self_tr
                    (if (0 <? length dsts')%nat
                     then dd_update (new_transitions h') (src, sym) dsts'
                     else new_transitions h'))
    end
  else
    Continue (mk_heap (self_alphabet h) (self_transitions h)
                (if (0 <? length dsts)%nat
                 then dd_update (new_transitions h) (src, sym) dsts
                 else new_transitions h)).

(** [NFA.rip]: the result of the call, and the receiver as the call
    leaves it. *)
Definition rip (self : t) (state : Z) (safe : bool)
    (combiner : symbol → list symbol → symbol → symbol) : rip_result * t :=
  if bool_decide (state = start_state self) || bool_decide (state = final_state self)
  then (RipRaise ValueError, self)
  else
    let '(outgoing_transitions, self_loops) := rip_outgoing self state in
    match for_each (rip_entry safe combiner state outgoing_transitions self_loops)
                   (mk_heap (alphabet self) (transitions self) [])
                   (transitions self) with
    | ReturnNone h =>
        (RipNone,
         mk (states self) (self_alphabet h) (self_transitions h)
            (start_state self) (final_state self))
    | Continue h =>
        match set_remove state (states self) with
        | Ret states' =>
            (RipSelf,
             mk states' (self_alphabet h) (new_transitions h)
                (start_state self) (final_state self))
        | _ =>
            (RipRaise KeyError,
             mk (states self) (self_alphabet h) (self_transitions h)
                (start_state self) (final_state self))
        end
    end.

(** *** [NFA.to_dfa] *)

Record subset_build := mk_build {
  eps_memo : list (Z * list Z);
  state_list : list (list Z);
  dfa_transitions : list ((nat * symbol) * nat);
  worklist : list nat
}.

(** The body of the second [for sym in self.alphabet] *)
Definition to_dfa_sym (self : t) (complete : bool) (current_state : nat)
    (b : subset_build) (sym : symbol) : outcome subset_build :=
  current <- py_nth (state_list b) current_state;;
  let result_states :=
    foldl (λ rs state,
             match dict_get (state, sym) (transitions self) with
             | Some dsts => set_update rs dsts
             | None => rs
             end) [] current in
  let '(memo, next_state) :=
    foldl (λ '(memo, next_state) state,
             let '(memo', closure) :=
               match dict_get state memo with
               | Some c => (memo, c)
               | None =>
                   let c := eps_closure self state true in
                   (dict_set state c memo, c)
               end in
             (memo', set_update next_state closure))
          (eps_memo b, []) result_states in
  if negb complete && (length next_state =? 0)%nat then
    Ret (mk_build memo (state_list b) (dfa_transitions b) (worklist b))
  else
    match set_index next_state (state_list b) with
    | Some i =>
        Ret (mk_build memo (state_list b)
                (dict_set (current_state, sym) i (dfa_transitions b))
                (worklist b))
    | None =>
        let n := length (state_list b) in
        Ret (mk_build memo (state_list b ++ [next_state])
                (dict_set (current_state, sym) n (dfa_transitions b))
                (n :: worklist b))
    end.

Fixpoint to_dfa_loop (self : t) (complete : bool) (fuel : nat)
    (b : subset_build) : outcome subset_build :=
  match worklist b with
  | [] => Ret b
  | current_state :: worklist' =>
      match fuel with
      | O => OutOfFuel
      | S fuel' =>
          let b := mk_build (eps_memo b) (state_list b) (dfa_transitions b)
                     worklist' in
          current <- py_nth (state_list b) current_state;;
          if (length current =? 0)%nat then
            to_dfa_loop self complete fuel'
              (mk_build (eps_memo b) (state_list b)
                 (foldl (λ tr sym, dict_set (current_state, sym) current_state tr)
                        (dfa_transitions b) (alphabet self))
                 (worklist b))
          else
            b' <- foldM (to_dfa_sym self complete current_state) b (alphabet self);;
            to_dfa_loop self complete fuel' b'
      end
  end.

(** The subsets that the construction ends with *)
Definition to_dfa_build (fuel : nat) (self : t) (complete : bool)
    : outcome subset_build :=
  let c0 := eps_closure self (start_state self) true in
  to_dfa_loop self complete fuel
    (mk_build [(start_state self, c0)] [c0] [] [0%nat]).

(** [NFA.to_dfa]; the fuel bounds the [while] loop *)
Definition to_dfa (fuel : nat) (self : t) (complete : bool) : outcome DFA.t :=
  b <- to_dfa_build fuel self complete;;
  let final_states :=
    fst <$> filter (λ p, final_state self ∈ p.2) (DFA.enumerate (state_list b)) in
  DFA.init (seq 0 (length (state_list b))) (alphabet self)
           (dfa_transitions b) 0%nat final_states.
End NFA.

(** [DFA.to_nfa], which belongs to dfa.py and builds an [NFA] *)
Definition to_nfa (self : DFA.t) : outcome NFA.t :=
  max_s <- py_max (Z.of_nat <$> DFA.states self);;
  let final_state := max_s + 1 in
  let states := set_update (Z.of_nat <$> DFA.states self) [final_state] in
  let transitions :=
    (λ '((src, sym), val), ((Z.of_nat src, sym), [Z.of_nat val]))
      <$> DFA.transitions self in
  let transitions :=
    foldl (λ tr state, dict_set (Z.of_nat state, eps) [final_state] tr)
          transitions (DFA.final_states self) in
  NFA.init states (DFA.alphabet self) transitions
           (Z.of_nat (DFA.start_state self)) final_state.

(** ** parsing.py *)

Module parsing.
Record _OperatorParams := mk_op {
  id : Z;
  num_args : nat;
  precedence : Z;
  suffix : bool;
  commutative : bool
}.

Global Instance operator_params_eq_dec : EqDecision _OperatorParams.
Proof. solve_decision. Defined.

Definition op_concat := mk_op 0 2 2 false false.
Definition op_union := mk_op 1 2 1 false true.
Definition op_star := mk_op 2 1 3 true false.
Definition op_plus := mk_op 3 1 3 true false.
Definition op_opt := mk_op 4 1 3 true false.
Definition op_open := mk_op 5 0 0 false false.
Definition op_close := mk_op 6 0 0 false false.

(** [_operators], looked up with [None] or a string *)
Definition _operators_sym (sym : option string) : option _OperatorParams :=
  match sym with
  | None => Some op_concat
  | Some s =>
      if decide (s = "|") then Some op_union
      else if decide (s = "*") then Some op_star
      else if decide (s = "+") then Some op_plus
      else if decide (s = "?") then Some op_opt
      else if decide (s = "(") then Some op_open
      else if decide (s = ")") then Some op_close
      else None
  end.

(** [_operators], looked up with an operator id *)
Definition _operators_id (n : Z) : option _OperatorParams :=
  if decide (n = 0) then Some op_concat
  else if decide (n = 1) then Some op_union
  else if decide (n = 2) then Some op_star
  else if decide (n = 3) then Some op_plus
  else if decide (n = 4) then Some op_opt
  else if decide (n = 5) then Some op_open
  else if decide (n = 6) then Some op_close
  else None.

(** A postfix program is a [list[int | str]] *)
Inductive token :=
  | Op (n : Z)
  | Sym (s : string).

Global Instance token_eq_dec : EqDecision token.
Proof. solve_decision. Defined.

(** [regex[i]], a string of one character *)
Definition char_at (regex : string) (i : nat) : outcome string :=
  match String.get i regex with
  | Some c => Ret (String c EmptyString)
  | None => Raise IndexError
  end.

(** [while regex[current_pos - 1] != '>': current_pos += 1] *)
Fixpoint skip_group_name (regex : string) (fuel : nat) (current_pos : nat)
    : outcome nat :=
  c <- char_at regex (current_pos - 1);;
  if decide (c = ">") then Ret current_pos
  else
    match fuel with
    | O => OutOfFuel
    | S fuel' => skip_group_name regex fuel' (current_pos + 1)
    end.

(** [while stack[-1] != _operators['('].id: postfix_output.append(stack.pop())]
    followed by [stack.pop()] *)
Fixpoint pop_to_open (stack : list Z) (postfix_output : list token)
    : outcome (list Z * list token) :=
  match stack with
  | [] => Raise IndexError
  | top :: stack' =>
      if decide (top = id op_open) then Ret (stack', postfix_output)
      else pop_to_open stack' (postfix_output ++ [Op top])
  end.

(** [while len(stack) > 0 and (... precedence > op_param.precedence):
       postfix_output.append(stack.pop())] *)
Fixpoint pop_higher (prec : Z) (stack : list Z) (postfix_output : list token)
    : outcome (list Z * list token) :=
  match stack with
  | [] => Ret ([], postfix_output)
  | top :: stack' =>
      match _operators_id top with
      | None => Raise KeyError
      | Some p =>
          if decide (precedence p > prec)
          then pop_higher prec stack' (postfix_output ++ [Op top])
          else Ret (stack, postfix_output)
      end
  end.

Record parser := mk_parser {
  stack : list Z;
  postfix_output : list token;
  concatenate_next : bool;
  current_pos : nat
}.

(** One iteration of the [while current_pos < len(regex)] loop *)
Definition parse_step (regex : string) (st : parser) : outcome parser :=
  c <- char_at regex (current_pos st);;
  '(sym0, escape, pos1) <-
    (if decide (c = "\") then
       c2 <- char_at regex (current_pos st + 1);;
       Ret (c +:+ c2, true, (current_pos st + 1)%nat)
     else Ret (c, false, current_pos st) : outcome (string * bool * nat));;
  let '(sym, pos2) :=
    if concatenate_next st
       && (bool_decide (sym0 = "(")
           || negb (bool_decide (is_Some (_operators_sym (Some sym0)))))
    then (None, pos1)
    else (Some sym0, (pos1 + 1)%nat) in
  if decide (sym = Some "(") then
    let stack' := id op_open :: stack st in
    c3 <- char_at regex pos2;;
    pos3 <-
      (if decide (c3 = "?") then
         let pos := (pos2 + 2)%nat in
         c4 <- char_at regex (pos - 1);;
         if decide (c4 = "<") then
           c5 <- char_at regex pos;;
           if bool_decide (c5 ≠ "!") && bool_decide (c5 ≠ "=")
           then skip_group_name regex (String.length regex) pos
           else Ret pos
         else Ret pos
       else Ret pos2);;
    Ret (mk_parser stack' (postfix_output st) false pos3)
  else if decide (sym = Some ")") then
    '(stack', out') <- pop_to_open (stack st) (postfix_output st);;
    Ret (mk_parser stack' out' true pos2)
  else
    match _operators_sym sym with
    | Some op_param =>
        '(stack', out') <-
          pop_higher (precedence op_param) (stack st) (postfix_output st);;
        if suffix op_param
        then Ret (mk_parser stack' (out' ++ [Op (id op_param)]) true pos2)
        else Ret (mk_parser (id op_param :: stack') out' false pos2)
    | None =>
        let lit := if escape then String.substring 1 (String.length sym0 - 1)%nat sym0
                   else sym0 in
        Ret (mk_parser (stack st) (postfix_output st ++ [Sym lit]) true pos2)
    end.

Fixpoint parse_loop (regex : string) (fuel : nat) (st : parser)
    : outcome (list token) :=
  if (current_pos st <? String.length regex)%nat then
    match fuel with
    | O => OutOfFuel
    | S fuel' => st' <- parse_step regex st;; parse_loop regex fuel' st'
    end
  else Ret (postfix_output st ++ (Op <$> stack st)).

(** [parse_regex]: an iteration either consumes a character or inserts a
    concatenation before consuming one, so twice the length bounds the
    loop. *)
Definition parse_regex (regex : string) : outcome (list token) :=
  parse_loop regex (2 * String.length regex) (mk_parser [] [] false 0).

(** [stack.pop() for _ in range(n)] *)
Fixpoint pop_args {A} (n : nat) (stack : list A) : outcome (list A * list A) :=
  match n with
  | O => Ret ([], stack)
  | S n' =>
      match stack with
      | [] => Raise IndexError
      | x :: stack' =>
          '(args, rest) <- pop_args n' stack';;
          Ret (x :: args, rest)
      end
  end.

(** The two-state automaton of a literal *)
Definition literal (sym : string) : outcome NFA.t :=
  NFA.init [0; 1] [sym] [((0, sym), [1])] 0 1.

(** The body of [for sym in postfix] in [construct_nfa] *)
Definition construct_step (stack : list NFA.t) (sym : token)
    : outcome (list NFA.t) :=
  match sym with
  | Op n =>
      p <- (match _operators_id n with Some p => Ret p | None => Raise KeyError end);;
      '(syms, stack') <- pop_args (num_args p) stack;;
      if decide (n = 0) then
        a <- py_nth syms 1;; b <- py_nth syms 0;;
        r <- NFA.add a b;; Ret (r :: stack')
      else if decide (n = 1) then
        a <- py_nth syms 1;; b <- py_nth syms 0;;
        r <- NFA.or a b;; Ret (r :: stack')
      else if decide (n = 2) then
        a <- py_nth syms 0;; r <- NFA.star a;; Ret (r :: stack')
      else if decide (n = 3) then
        a <- py_nth syms 0;; r <- NFA.plus a;; Ret (r :: stack')
      else if decide (n = 4) then
        a <- py_nth syms 0;; r <- NFA.opt a;; Ret (r :: stack')
      else Ret stack'
  | Sym s => a <- literal s;; Ret (a :: stack)
  end.

(** [construct_nfa] *)
Definition construct_nfa (postfix : list token) : outcome NFA.t :=
  match postfix with
  | [] => NFA.init [0] [] [] 0 0
  | _ =>
      stack <- foldM construct_step [] postfix;;
      match stack with
      | [a] => Ret a
      | _ => Raise ValueError
      end
  end.

(** [parse_regex_as_nfa] *)
Definition parse_regex_as_nfa (regex : string) : outcome NFA.t :=
  postfix <- parse_regex regex;; construct_nfa postfix.

(** A Python [str] read as a sequence of one-character symbols *)
Fixpoint chars (s : string) : list symbol :=
  match s with
  | EmptyString => []
  | String c s' => String c EmptyString :: chars s'
  end.

(** *** [construct_string] *)

(** The body of [for _ in range(_operators[sym].num_args)]: pop an
    argument and parenthesize it when its operator binds less tightly. *)
Fixpoint pop_string_args (n : nat) (op_param : _OperatorParams)
    (stack : list (string * option Z))
    : outcome (list string * list (string * option Z)) :=
  match n with
  | O => Ret ([], stack)
  | S n' =>
      match stack with
      | [] => Raise IndexError
      | (arg, op) :: stack' =>
          arg' <- (match op with
                   | Some o =>
                       match _operators_id o with
                       | Some q =>
                           Ret (if precedence q <? precedence op_param
                                then "(" +:+ arg +:+ ")" else arg)
                       | None => Raise KeyError
                       end
                   | None => Ret arg
                   end);;
          '(args, rest) <- pop_string_args n' op_param stack';;
          Ret (arg' :: args, rest)
      end
  end.

(** The body of [for sym in postfix] in [construct_string] *)
Definition string_step (stack : list (string * option Z)) (sym : token)
    : outcome (list (string * option Z)) :=
  match sym with
  | Op n =>
      p <- (match _operators_id n with Some p => Ret p | None => Raise KeyError end);;
      '(args, stack') <- pop_string_args (num_args p) p stack;;
      if decide (n = 0) then
        a <- py_nth args 1;; b <- py_nth args 0;;
        Ret ((a +:+ b, Some n) :: stack')
      else if decide (n = 1) then
        a <- py_nth args 1;; b <- py_nth args 0;;
        Ret ((a +:+ "|" +:+ b, Some n) :: stack')
      else if decide (n = 2) then
        a <- py_nth args 0;; Ret ((a +:+ "*", Some n) :: stack')
      else if decide (n = 3) then
        a <- py_nth args 0;; Ret ((a +:+ "+", Some n) :: stack')
      else if decide (n = 4) then
        a <- py_nth args 0;; Ret ((a +:+ "?", Some n) :: stack')
      else Ret stack'
  | Sym s => Ret ((s, None) :: stack)
  end.

(** [construct_string] *)
Definition construct_string (postfix : list token) : outcome string :=
  match postfix with
  | [] => Ret ""
  | _ =>
      stack <- foldM string_step [] postfix;;
      match stack with
      | [(s, _)] => Ret s
      | _ => Raise ValueError
      end
  end.

(** *** The symbolic combiners *)

(** An edge label of the automata that state elimination works on: a
    plain symbol (a [str], the empty one being epsilon) or a postfix
    expression (a [tuple]).  A string and a tuple are never equal. *)
Inductive label :=
  | LStr (s : string)
  | LTup (l : list token).

Global Instance label_eq_dec : EqDecision label.
Proof. solve_decision. Defined.

(** [list(x)] for a tuple, [[]] for the empty string, [[x]] otherwise *)
Definition operand (x : label) : list token :=
  match x with
  | LTup l => l
  | LStr s => if decide (s = "") then [] else [Sym s]
  end.

(** [sorted(args, key=len)], which is stable *)
Fixpoint insert_by_len (a : list token) (l : list (list token))
    : list (list token) :=
  match l with
  | [] => [a]
  | b :: r =>
      if (length a <? length b)%nat then a :: l else b :: insert_by_len a r
  end.

Definition sorted_by_len (args : list (list token)) : list (list token) :=
  foldl (λ acc a, insert_by_len a acc) [] args.

(** [_duplicate_quantifiers.get((last, id))]; a key of the table is a pair
    of operator ids, so a symbol in first place finds nothing. *)
Definition _duplicate_quantifiers (last : token) (id : Z) : option Z :=
  match last with
  | Op a =>
      if decide (a = 2) then
        if decide (id = 2) then Some 2
        else if decide (id = 3) then Some 2
        else if decide (id = 4) then Some 2
        else None
      else if decide (a = 3) then
        if decide (id = 2) then Some 2
        else if decide (id = 3) then Some 3
        else if decide (id = 4) then Some 2
        else None
      else if decide (a = 4) then
        if decide (id = 2) then Some 2
        else if decide (id = 3) then Some 2
        else if decide (id = 4) then Some 4
        else None
      else None
  | Sym _ => None
  end.

(** [_op_if_nonempty(op, *args, simplify=simplify)] *)
Definition _op_if_nonempty (op : option string) (args : list (list token))
    (simplify : bool) : outcome (list token) :=
  op_param <- (match _operators_sym op with
               | Some p => Ret p
               | None => Raise KeyError
               end);;
  let '(rv, num_operands) :=
    foldl (λ '(rv, num_operands) arg,
             if (0 <? length arg)%nat then (rv ++ arg, num_operands + 1)
             else (rv, num_operands))
          ([], 0)
          (if commutative op_param then sorted_by_len args else args) in
  if decide (num_operands = 0) then Ret []
  else
    let n := Z.of_nat (num_args op_param) in
    _ <- (if decide (num_operands ≠ n) then
            if decide (n - 1 = 0) then Raise ZeroDivisionError
            else if decide ((num_operands - 1) mod (n - 1) ≠ 0)
                 then Raise ValueError
                 else Ret tt
          else (Ret tt : outcome unit));;
    let num_operators :=
      if decide (n = 1) then 1 else (num_operands - 1) / (n - 1) in
    let '(rv, op_id) :=
      match last rv with
      | Some l =>
          match (if simplify then _duplicate_quantifiers l (id op_param)
                 else None) with
          | Some i => (removelast rv, i)
          | None => (rv, id op_param)
          end
      | None => (rv, id op_param)
      end in
    Ret (rv ++ replicate (Z.to_nat num_operators) (Op op_id)).

(** [postfix_rip_combiner]; [star] is iterated in the order of the list *)
Definition postfix_rip_combiner (pre_t : label) (star : list label)
    (post_t : label) : outcome label :=
  let pre := operand pre_t in
  let post := operand post_t in
  repeat <- foldM (λ repeat loop,
                     match loop with
                     | LTup l => _op_if_nonempty (Some "|") [l; repeat] true
                     | LStr s =>
                         if decide (s ≠ "")
                         then _op_if_nonempty (Some "|") [[Sym s]; repeat] true
                         else Ret repeat
                     end) [] star;;
  let loop_pre := bool_decide (pre = repeat) in
  let loop_post := bool_decide (post = repeat) in
  new_sym <-
    (if loop_pre && loop_post then
       _op_if_nonempty (Some "+") [repeat] true
     else if loop_pre then
       r <- _op_if_nonempty (Some "+") [repeat] true;;
       _op_if_nonempty None [r; post] true
     else if loop_post then
       r <- _op_if_nonempty (Some "+") [repeat] true;;
       _op_if_nonempty None [pre; r] true
     else
       r <- _op_if_nonempty (Some "*") [repeat] true;;
       _op_if_nonempty None [pre; r; post] true);;
  Ret (LTup new_sym).

(** [postfix_union_combiner] *)
Definition postfix_union_combiner (options : list label) : outcome label :=
  '(union, optional) <-
    foldM (λ '(union, optional) loop,
             match loop with
             | LTup l =>
                 if decide (l = []) then Ret (union, true)
                 else
                   u <- _op_if_nonempty (Some "|") [union; l] true;;
                   Ret (u, optional)
             | LStr s =>
                 if decide (s = "") then Ret (union, true)
                 else
                   u <- _op_if_nonempty (Some "|") [union; [Sym s]] true;;
                   Ret (u, optional)
             end) ([], false) options;;
  union <- (if optional : bool then _op_if_nonempty (Some "?") [union] true
            else Ret union);;
  Ret (LTup union).
End parsing.

(** ** nfa.py: the methods of state elimination at the labels of the
       symbolic combiners

    [NFA] is generic in its symbols.  [rip] and [union_edges] with the
    combiners of parsing.py turn the symbols of an automaton into
    postfix expressions; [GNFA.t] is the class at that type of label.
    A call answers the automaton it returns; what an exception leaves
    behind in the receiver is not recorded here. *)

Module GNFA.
Import parsing.

Record t := mk {
  states : list Z;
  alphabet : list label;
  transitions : list ((Z * label) * list Z);
  start_state : Z;
  final_state : Z
}.

(** An automaton over plain symbols, seen at the wider type *)
Definition of_nfa (N : NFA.t) : t :=
  mk (NFA.states N) (LStr <$> NFA.alphabet N)
     ((λ '((src, sym), dsts), ((src, LStr sym), dsts)) <$> NFA.transitions N)
     (NFA.start_state N) (NFA.final_state N).

(** First loop of [rip]: [outgoing_transitions] and [self_loops] *)
Definition rip_outgoing (self : t) (state : Z)
    : list (label * list Z) * list label :=
  foldl (λ '(outgoing_transitions, self_loops) '((src, sym), dsts),
           if decide (src = state) then
             if decide (state ∈ dsts) then
               (if (1 <? length dsts)%nat
                then dict_set sym (set_discard state dsts) outgoing_transitions
                else outgoing_transitions,
                if decide (sym ≠ LStr "") then set_add sym self_loops
                else self_loops)
             else (dict_set sym dsts outgoing_transitions, self_loops)
           else (outgoing_transitions, self_loops))
        ([], []) (transitions self).

(** [NFA.rip(state, combiner=combiner)], that is with [safe=False]; the
    pair that the loops thread is the receiver's alphabet and the local
    dictionary [transitions]. *)
Definition rip (self : t) (state : Z)
    (combiner : label → list label → label → outcome label) : outcome t :=
  if bool_decide (state = start_state self)
     || bool_decide (state = final_state self)
  then Raise ValueError
  else
    let '(outgoing_transitions, self_loops) := rip_outgoing self state in
    '(alphabet', transitions') <-
      foldM (λ '(al, tr) '((src, sym), dsts),
               if decide (src = state) then Ret (al, tr)
               else if decide (state ∈ dsts) then
                 '(al, tr) <-
                   foldM (λ '(al, tr) '(out_sym, out_dsts),
                            new_sym <- combiner sym self_loops out_sym;;
                            let al' :=
                              if negb (dict_has (src, new_sym) tr)
                                 && bool_decide (new_sym ≠ LStr "")
                              then set_add new_sym al else al in
                            Ret (al', dd_update tr (src, new_sym) out_dsts))
                         (al, tr) outgoing_transitions;;
                 let dsts' := set_discard state dsts in
                 Ret (al, if (0 <? length dsts')%nat
                          then dd_update tr (src, sym) dsts' else tr)
               else
                 Ret (al, if (0 <? length dsts)%nat
                          then dd_update tr (src, sym) dsts else tr))
            (alphabet self, []) (transitions self);;
    states' <- set_remove state (states self);;
    Ret (mk states' alphabet' transitions' (start_state self) (final_state self)).

(** [NFA.union_edges(combiner=combiner)] *)
Definition union_edges (self : t) (combiner : list label → outcome label)
    : outcome t :=
  let edges :=
    foldl (λ edges '((src, sym), dsts),
             foldl (λ edges dst, dd_add edges (src, dst) sym) edges dsts)
          [] (transitions self) in
  '(alphabet', transitions') <-
    foldM (λ '(al, tr) '((src, dst), syms),
             new_sym <- combiner syms;;
             let al' := if decide (new_sym ≠ LStr "") then set_add new_sym al
                        else al in
             Ret (al', dd_add tr (src, new_sym) dst))
          (alphabet self, []) edges;;
  Ret (mk (states self) alphabet' transitions'
          (start_state self) (final_state self)).

(** [NFA.in_out_sets] *)
Definition in_out_sets (self : t) (state : Z)
    : list (Z * label) * list (Z * label) :=
  foldl (λ '(in_set, out_set) '((src, sym), dsts),
           let out_set :=
             if decide (src = state)
             then set_update out_set ((λ dst, (dst, sym)) <$> dsts)
             else out_set in
           let in_set :=
             if decide (state ∈ dsts) then set_add (src, sym) in_set
             else in_set in
           (in_set, out_set))
        ([], []) (transitions self).
End GNFA.

(** ** test.py: the state elimination loop *)

Module test.
Import parsing.

(** [len(sym)] of a label *)
Definition py_len (sym : label) : Z :=
  match sym with
  | LStr s => Z.of_nat (String.length s)
  | LTup l => Z.of_nat (length l)
  end.

(** [sum(xs)] *)
Definition py_sum (xs : list Z) : Z := foldl Z.add 0 xs.

(** The lambda [heuristic] *)
Definition heuristic (state : Z) (in_set out_set : list (Z * label)) : Z :=
  py_sum ((λ p, py_len p.2) <$> filter (λ p, p.1 ≠ state) in_set)
    * Z.of_nat (length out_set)
  + py_sum ((λ p, py_len p.2) <$> filter (λ p, p.1 ≠ state) out_set)
    * Z.of_nat (length in_set).

(** [min(xs, key=key)]: the first of the smallest elements *)
Definition py_min_by {A} (key : A → Z) (xs : list A) : outcome A :=
  match xs with
  | [] => Raise ValueError
  | x :: r => Ret (foldl (λ best y, if key y <? key best then y else best) x r)
  end.

(** [while len(nfa.states) > 2]; an iteration removes a state, so the
    number of states is enough fuel. *)
Fixpoint eliminate (fuel : nat) (nfa : GNFA.t) : outcome GNFA.t :=
  if (2 <? length (GNFA.states nfa))%nat then
    match fuel with
    | O => OutOfFuel
    | S fuel' =>
        rip_state <-
          py_min_by (λ s, let '(in_set, out_set) := GNFA.in_out_sets nfa s in
                          heuristic s in_set out_set)
                    (filter (λ state, state ≠ GNFA.start_state nfa
                                      ∧ state ≠ GNFA.final_state nfa)
                            (GNFA.states nfa));;
        nfa <- GNFA.rip nfa rip_state postfix_rip_combiner;;
        nfa <- GNFA.union_edges nfa postfix_union_combiner;;
        eliminate fuel' nfa
    end
  else Ret nfa.

(** [next(iter(nfa.transitions))[1]] *)
Definition first_label (nfa : GNFA.t) : outcome label :=
  match GNFA.transitions nfa with
  | ((_, sym), _) :: _ => Ret sym
  | [] => Raise StopIteration
  end.

(** The elements of a label, as [construct_string] and [construct_nfa]
    iterate over it *)
Definition postfix_of (sym : label) : list token :=
  match sym with
  | LTup l => l
  | LStr s => Sym <$> chars s
  end.

(** The elimination of test.py, for the automaton [nfa] it is given:
    [union_edges], the loop, and the label of the edge that is left. *)
Definition state_elimination (nfa : NFA.t) : outcome (list token) :=
  nfa <- GNFA.union_edges (GNFA.of_nfa nfa) postfix_union_combiner;;
  nfa <- eliminate (length (GNFA.states nfa)) nfa;;
  sym <- first_label nfa;;
  Ret (postfix_of sym).

(** [empty] *)
Definition empty : outcome NFA.t :=
  NFA.init [0; 1] [] [((0, eps), [1])] 0 1.

(** The automaton that test.py itself eliminates:
    [empty + onfa.to_dfa().minimize().to_nfa()] *)
Definition detour (fuel : nat) (onfa : NFA.t) : outcome NFA.t :=
  D <- NFA.to_dfa fuel onfa false;;
  M <- DFA.minimize fuel D;;
  nfa <- to_nfa M;;
  e <- empty;;
  NFA.add e nfa.

(** [onfa.rip(q1).rip(q2)...] with the default combiner *)
Definition rip_all (order : list Z) (onfa : NFA.t) : NFA.rip_result * NFA.t :=
  foldl (λ '(r, nfa) q,
           match r with
           | NFA.RipSelf => NFA.rip nfa q false NFA._default_rip_combiner
           | _ => (r, nfa)
           end)
        (NFA.RipSelf, onfa) order.
End test.

(** ** distance.py *)

Module distance.
(** A cost is a Python int or [math.inf]. *)
Inductive cost := Fin (n : Z) | Inf.

Global Instance cost_eq_dec : EqDecision cost.
Proof. solve_decision. Defined.

Definition cost_add (a b : cost) : cost :=
  match a, b with
  | Fin x, Fin y => Fin (x + y)
  | _, _ => Inf
  end.

Definition cost_ltb (a b : cost) : bool :=
  match a, b with
  | Fin x, Fin y => x <? y
  | Fin _, Inf => true
  | Inf, _ => false
  end.

Definition isinf (a : cost) : bool :=
  match a with Inf => true | Fin _ => false end.

(** [a - b] for a cost [a] and a bool [b] *)
Definition cost_sub_bool (a : cost) (b : bool) : cost :=
  match a with
  | Fin x => Fin (x - (if b then 1 else 0))
  | Inf => Inf
  end.

(** Tuples of two costs compare lexicographically. *)
Definition pair_ltb (a b : cost * cost) : bool :=
  cost_ltb a.1 b.1 || (bool_decide (a.1 = b.1) && cost_ltb a.2 b.2).

(** [min(a, b)] on such tuples: [a] unless [b] is smaller *)
Definition pair_min (a b : cost * cost) : cost * cost :=
  if pair_ltb b a then b else a.

Definition has_edge (nfa : NFA.t) (start : Z) (sym : symbol) (end_ : Z) : bool :=
  match dict_get (start, sym) (NFA.transitions nfa) with
  | Some dsts => bool_decide (end_ ∈ dsts)
  | None => false
  end.

Abbreviation path_table := (list ((Z * Z) * (cost * cost))) (only parsing).
Abbreviation sym_table := (list ((Z * Z * symbol) * bool)) (only parsing).

(** [included_syms] starts as a [defaultdict(bool)] and becomes a plain
    dictionary after the first pivot.  Reading a missing key of the
    former gives [False]; of the latter, [KeyError]. *)
Record included := mk_included {
  is_defaultdict : bool;
  entries : sym_table
}.

Definition included_item (inc : included) (key : Z * Z * symbol) : outcome bool :=
  match dict_get key (entries inc) with
  | Some b => Ret b
  | None => if is_defaultdict inc then Ret false else Raise KeyError
  end.

(** [a or b], where [b] is only evaluated when [a] is false *)
Definition lazy_or (a : outcome bool) (b : outcome bool) : outcome bool :=
  x <- a;; if x then Ret true else b.

(** First loop nest: the direct edges *)
Definition init_pair (nfa : NFA.t) (start : Z)
    (acc : path_table * sym_table) (end_ : Z) : path_table * sym_table :=
  let '(path_lengths, included_syms) := acc in
  if has_edge nfa start eps end_ then
    (dict_set (start, end_) (Fin 0, Fin 1) path_lengths, included_syms)
  else
    let '(path_lengths, included_syms) :=
      foldl (λ '(pl, inc) sym,
               if has_edge nfa start sym end_
               then (dict_set (start, end_) (Fin 1, Fin 0) pl,
                     dict_set (start, end_, sym) true inc)
               else (pl, inc))
            (path_lengths, included_syms) (NFA.alphabet nfa) in
    (match dict_get (start, end_) path_lengths with
     | Some _ => path_lengths
     | None => dict_set (start, end_) (Inf, Inf) path_lengths
     end, included_syms).

Definition init_tables (nfa : NFA.t) : path_table * sym_table :=
  foldl (λ acc start, foldl (init_pair nfa start) acc (NFA.states nfa))
        ([], []) (NFA.states nfa).

(** Second loop nest: one pivot [k] *)
Definition relax_pair (nfa : NFA.t) (path_lengths : path_table)
    (included_syms : included) (k start : Z)
    (acc : path_table * sym_table) (end_ : Z)
    : outcome (path_table * sym_table) :=
  let '(new_path_lengths, new_included_syms) := acc in
  current <- py_item path_lengths (start, end_);;
  sk <- py_item path_lengths (start, k);;
  ke <- py_item path_lengths (k, end_);;
  let thru_k := (cost_add sk.1 ke.1, cost_add sk.2 ke.2) in
  let new_path_lengths := dict_set (start, end_) (pair_min current thru_k)
                            new_path_lengths in
  new_included_syms <-
    foldM (λ inc sym,
             v <- (if cost_ltb current.1 thru_k.1
                      || (isinf current.1 && isinf thru_k.1)
                   then included_item included_syms (start, end_, sym)
                   else if cost_ltb thru_k.1 current.1
                   then lazy_or (included_item included_syms (start, k, sym))
                                (included_item included_syms (k, end_, sym))
                   else lazy_or (included_item included_syms (start, end_, sym))
                          (lazy_or (included_item included_syms (start, k, sym))
                                   (included_item included_syms (k, end_, sym))));;
             Ret (dict_set (start, end_, sym) v inc))
          new_included_syms (NFA.alphabet nfa);;
  Ret (new_path_lengths, new_included_syms).

Definition relax (nfa : NFA.t) (acc : path_table * included) (k : Z)
    : outcome (path_table * included) :=
  let '(path_lengths, included_syms) := acc in
  '(pl, inc) <-
    foldM (λ acc start,
             foldM (relax_pair nfa path_lengths included_syms k start) acc
                   (NFA.states nfa))
          ([], []) (NFA.states nfa);;
  Ret (pl, mk_included false inc).

Definition all_pairs (nfa : NFA.t) : outcome (path_table * included) :=
  let '(pl, inc) := init_tables nfa in
  foldM (relax nfa) (pl, mk_included true inc) (NFA.states nfa).

(** A row of [table]: a list of tuples (cost, predecessor state). *)
Abbreviation row := (list (cost * Z)) (only parsing).
Abbreviation dp_table := (list (Z * row)) (only parsing).

(** [min(min_val, (c, src))]: the initial [min_val = (inf, inf)] is
    [None]; an int [src] is below [inf], so the first candidate
    always replaces it. *)
Definition min_val_step (min_val : option (cost * Z)) (cand : cost * Z)
    : option (cost * Z) :=
  match min_val with
  | None => Some cand
  | Some m =>
      if pair_ltb (cand.1, Fin cand.2) (m.1, Fin m.2) then Some cand else Some m
  end.

(** The body of [for state in nfa.states] inside the loop over the
    string *)
Definition dp_state (nfa : NFA.t) (path_lengths : path_table)
    (included_syms : included) (ln : nat) (sym : symbol)
    (table : dp_table) (state : Z) : outcome dp_table :=
  min_val <-
    foldM (λ min_val src,
             r <- py_item table src;;
             prev <- py_nth r ln;;
             p <- py_item path_lengths (src, state);;
             let edge_cost :=
               if decide (p.1 = Fin 0) then Fin 1
               else cost_sub_bool p.1
                      (default false (dict_get (src, state, sym)
                                        (entries included_syms))) in
             Ret (min_val_step min_val (cost_add prev.1 edge_cost, src)))
          None (NFA.states nfa);;
  r <- py_item table state;;
  match min_val with
  | Some m => Ret (dict_set state (r ++ [m]) table)
  | None => Raise ValueError
  end.

(** The two backtracking loops that build the printed trace; they read
    [table[curr_state][i]] for [i] from the last column down to 0. *)
Fixpoint trace (table : dp_table) (curr_state : Z) (cols : list nat)
    : outcome Z :=
  match cols with
  | [] => Ret curr_state
  | i :: cols' =>
      r <- py_item table curr_state;;
      e <- py_nth r i;;
      trace table e.2 cols'
  end.

(** [range(n - 1, -1, -1)] *)
Definition down_from (n : nat) : list nat := rev (seq 0 n).

(** [distance_table]; printing is modelled only as far as it can raise *)
Definition distance_table (nfa : NFA.t) (string : string) : outcome dp_table :=
  '(path_lengths, included_syms) <- all_pairs nfa;;
  table0 <-
    foldM (λ t state,
             c <- (if decide (state = NFA.start_state nfa) then Ret (Fin 0)
                   else p <- py_item path_lengths (NFA.start_state nfa, state);;
                        Ret p.1);;
             Ret (dict_set state [(c, NFA.start_state nfa)] t))
          [] (NFA.states nfa);;
  table <-
    foldM (λ t '(ln, sym),
             foldM (dp_state nfa path_lengths included_syms ln sym) t
                   (NFA.states nfa))
          table0 (DFA.enumerate (parsing.chars string));;
  final_row <- py_item table (NFA.final_state nfa);;
  _ <- trace table (NFA.final_state nfa) (down_from (length final_row));;
  Ret table.

(** The computed correction distance, [table[nfa.final_state][len(string)][0]] *)
Definition correction_distance (nfa : NFA.t) (string : string) : outcome cost :=
  table <- distance_table nfa string;;
  r <- py_item table (NFA.final_state nfa);;
  e <- py_nth r (String.length string);;
  Ret e.1.

(** [string[i]] with Python's negative indices *)
Definition str_item (string : string) (i : Z) : outcome symbol :=
  let n := Z.of_nat (String.length string) in
  let j := if i <? 0 then i + n else i in
  if (0 <=? j) && (j <? n) then parsing.char_at string (Z.to_nat j)
  else Raise IndexError.

(** The body of the loop of [update_nfa], ending with its [print] *)
Definition update_step (string : string) (table : dp_table)
    (acc : NFA.t * Z) (i : nat) : outcome (NFA.t * Z) :=
  let '(nfa, curr_state) := acc in
  r <- py_item table curr_state;;
  e <- py_nth r i;;
  let prev_state := e.2 in
  sym <- (if decide (i = 0%nat) then Ret eps
          else str_item string (Z.of_nat i - 1));;
  let nfa' :=
    NFA.mk (NFA.states nfa) (NFA.alphabet nfa)
      (dd_add (NFA.transitions nfa) (prev_state, sym) curr_state)
      (NFA.start_state nfa) (NFA.final_state nfa) in
  match str_item string (Z.of_nat i - 1) with
  | Ret _ => Ret (nfa', prev_state)
  | Raise e => Raise e
  | OutOfFuel => OutOfFuel
  end.

(** [update_nfa] *)
Definition update_nfa (nfa : NFA.t) (string : string) : outcome NFA.t :=
  table <- distance_table nfa string;;
  let nfa1 :=
    NFA.mk (NFA.states nfa)
      (set_update (NFA.alphabet nfa) (parsing.chars string))
      (NFA.transitions nfa) (NFA.start_state nfa) (NFA.final_state nfa) in
  final_row <- py_item table (NFA.final_state nfa1);;
  '(nfa2, _) <-
    foldM (update_step string table) (nfa1, NFA.final_state nfa1)
          (down_from (length final_row));;
  Ret nfa2.
End distance.

(** ** Notions used to state the properties *)

(** The same automaton seen under another iteration order of its alphabet
    set (Python does not fix the order in which a set of strings is
    iterated). *)
Definition with_alphabet (N : NFA.t) (al : list symbol) : NFA.t :=
  NFA.mk (NFA.states N) al (NFA.transitions N) (NFA.start_state N)
         (NFA.final_state N).

(** The reading of "a split keeps the smaller piece in place": whenever the
    body of the refinement loop splits the cell at [index], the cell left
    at [index] is the piece that is not larger, and the other piece is the
    one appended. *)
Definition split_keeps_smaller_in_place : Prop :=
  ∀ (D : DFA.t) (curr_part : list nat) (sym : symbol) (r r' : DFA.refinement)
    (index : nat),
    DFA.refine_index D curr_part sym r index = Ret r' →
    DFA.partitions r' ≠ DFA.partitions r →
    ∃ small large,
      DFA.partitions r' = <[index := small]> (DFA.partitions r) ++ [large]
      ∧ (length small ≤ length large)%nat.

(** A chain of four states whose last state is final *)
Definition chain_dfa : DFA.t :=
  DFA.mk [0; 1; 2; 3]%nat ["a"]
    [((0, "a"), 1); ((1, "a"), 2); ((2, "a"), 3)]%nat 0%nat [3%nat].

(** Parentheses of a regex, read character by character: [paren_scan d s]
    is [None] when some [)] of [s] has no matching [(] (starting from
    nesting depth [d]), and otherwise the depth left open at the end. *)
Fixpoint paren_scan (depth : nat) (s : string) : option nat :=
  match s with
  | EmptyString => Some depth
  | String c s' =>
      if Ascii.eqb c "(" then paren_scan (S depth) s'
      else if Ascii.eqb c ")" then
        match depth with
        | O => None
        | S d => paren_scan d s'
        end
      else paren_scan depth s'
  end.

Definition unbalanced (regex : string) : Prop := paren_scan 0 regex ≠ Some 0%nat.

(** The reading of "unbalanced parentheses are a fatal parse error" *)
Definition unbalanced_always_raises : Prop :=
  ∀ regex, unbalanced regex → raises (parsing.parse_regex regex).

(** A regex without backslash escapes and without the [(?] group prefix *)
Fixpoint plain (s : string) : bool :=
  match s with
  | EmptyString => true
  | String c s' =>
      negb (Ascii.eqb c "\")
      && negb (Ascii.eqb c "("
               && match s' with
                  | String c' _ => Ascii.eqb c' "?"
                  | EmptyString => false
                  end)
      && plain s'
  end.

Fixpoint ends_with_open (s : string) : bool :=
  match s with
  | EmptyString => false
  | String c EmptyString => Ascii.eqb c "("
  | String _ s' => ends_with_open s'
  end.

(** [regex[n:]] *)
Fixpoint sdrop (n : nat) (s : string) : string :=
  match n, s with
  | O, _ => s
  | S n', String _ s' => sdrop n' s'
  | S _, EmptyString => EmptyString
  end.

(** What [parse_regex] pushes on its operator stack when the regex is
    plain: concatenation, alternation and group-open tags *)
Definition stack_ok (stack : list Z) : Prop :=
  Forall (λ x, x = 0 ∨ x = 1 ∨ x = 5) stack.

(** The effect of one consumed character on the nesting depth; [None]
    where [parse_regex] raises: a [(] at the very end, a [)] at depth 0 *)
Definition step_depth (c : ascii) (r : string) (d : nat) : option nat :=
  if Ascii.eqb c "(" then
    match r with EmptyString => None | _ => Some (S d) end
  else if Ascii.eqb c ")" then
    match d with O => None | S d' => Some d' end
  else Some d.

(** What the claim about parentheses says of a run of the parser from
    depth [d] on the rest [rest] of the regex *)
Definition paren_spec (d : nat) (rest : string) (res : outcome (list parsing.token))
    : Prop :=
  match paren_scan d rest with
  | None => res = Raise IndexError
  | Some O => True
  | Some (S _) =>
      if ends_with_open rest then res = Raise IndexError
      else ∃ out, res = Ret out ∧ parsing.Op 5 ∈ out
  end.

(** The number of group-open tags on the operator stack *)
Fixpoint count_open (stack : list Z) : nat :=
  match stack with
  | [] => O
  | x :: stack' => if decide (x = 5) then S (count_open stack') else count_open stack'
  end.

(** Well-formed automata: the sets and the dictionary are duplicate-free
    (they stand for Python sets and a dictionary), every state mentioned
    by a transition is a state of the automaton, every label other than
    epsilon is in the alphabet, and epsilon is not.  A stored destination
    set may be empty: [NFA.__init__] accepts one. *)
Definition entry_ok (N : NFA.t) (e : (Z * symbol) * list Z) : Prop :=
  NoDup e.2 ∧ e.1.1 ∈ NFA.states N
  ∧ Forall (λ d, d ∈ NFA.states N) e.2
  ∧ (e.1.2 ≠ eps → e.1.2 ∈ NFA.alphabet N).

Definition wf (N : NFA.t) : Prop :=
  NoDup (NFA.states N) ∧ NoDup (NFA.alphabet N) ∧ (eps ∉ NFA.alphabet N)
  ∧ NoDup (NFA.transitions N).*1
  ∧ Forall (entry_ok N) (NFA.transitions N)
  ∧ NFA.start_state N ∈ NFA.states N
  ∧ NFA.final_state N ∈ NFA.states N.

Global Instance entry_ok_dec N e : Decision (entry_ok N e).
Proof. unfold entry_ok. apply _. Defined.

Global Instance wf_dec N : Decision (wf N).
Proof. unfold wf. apply _. Defined.

(** [edge N p a q]: the automaton has a transition from [p] to [q]
    labelled [a] *)
Definition edge_in (tr : list ((Z * symbol) * list Z)) (p : Z) (a : symbol)
    (q : Z) : Prop :=
  ∃ dsts, ((p, a), dsts) ∈ tr ∧ q ∈ dsts.

Definition edge (N : NFA.t) (p : Z) (a : symbol) (q : Z) : Prop :=
  edge_in (NFA.transitions N) p a q.

(** The invariant of the automata built from literals: no transition
    targets the start state and none leaves the final state.  The
    combinators preserve it together with the facts that make their
    renumbering sound: the two distinguished states are distinct states
    of the automaton and every transition runs between its states. *)
Definition no_into_start (N : NFA.t) : Prop :=
  ∀ p a, ¬ edge N p a (NFA.start_state N).

Definition no_from_final (N : NFA.t) : Prop :=
  ∀ a q, ¬ edge N (NFA.final_state N) a q.

Definition closed (N : NFA.t) : Prop :=
  NFA.start_state N ∈ NFA.states N
  ∧ NFA.final_state N ∈ NFA.states N
  ∧ ∀ p a q, edge N p a q → p ∈ NFA.states N ∧ q ∈ NFA.states N.

Definition thompson (N : NFA.t) : Prop :=
  closed N ∧ NFA.start_state N ≠ NFA.final_state N
  ∧ no_into_start N ∧ no_from_final N.

(** A three-state automaton 0 -a-> 1 -b-> 2 and its variant whose second
    edge is an epsilon edge *)
Definition ab_nfa : NFA.t :=
  NFA.mk [0; 1; 2] ["a"; "b"] [((0, "a"), [1]); ((1, "b"), [2])] 0 2.







(** The entries of a list of sets are pairwise distinct as sets. *)
Definition distinct_sets (l : list (list Z)) : Prop :=
  ∀ i j s t, l !! i = Some s → l !! j = Some t → set_eqb s t = true → i = j.

(** The characteristic vector of a set over a list of candidates *)
Definition charvec (U s : list Z) : list bool :=
  (λ u, bool_decide (u ∈ s)) <$> U.

(** All vectors of booleans of a given length *)
Fixpoint all_vecs (n : nat) : list (list bool) :=
  match n with
  | O => [[]]
  | S n' => (cons true <$> all_vecs n') ++ (cons false <$> all_vecs n')
  end.

(** The invariant of the loop of [to_dfa]: the subsets are pairwise
    distinct sets of states of the automaton, there is at least one, the
    worklist holds indices of the list, and the memoised closures are
    sets of states. *)
Definition build_inv (N : NFA.t) (b : NFA.subset_build) : Prop :=
  distinct_sets (NFA.state_list b)
  ∧ Forall (λ s, ∀ x, x ∈ s → x ∈ NFA.states N) (NFA.state_list b)
  ∧ Forall (λ i, i < length (NFA.state_list b))%nat (NFA.worklist b)
  ∧ Forall (λ e, ∀ x, x ∈ e.2 → x ∈ NFA.states N) (NFA.eps_memo b)
  ∧ (0 < length (NFA.state_list b))%nat.

(** The states of a DFA that a run from the start state can visit *)
Inductive dfa_reachable (D : DFA.t) : nat → Prop :=
  | reach_start : dfa_reachable D (DFA.start_state D)
  | reach_step s sym d :
      dfa_reachable D s → sym ∈ DFA.alphabet D →
      dict_get (s, sym) (DFA.transitions D) = Some d →
      dfa_reachable D d.

(** Every successor of [x] under a symbol of the alphabet is in [S]. *)
Definition closed_at (D : DFA.t) (S : list nat) (x : nat) : Prop :=
  ∀ sym d, sym ∈ DFA.alphabet D →
           dict_get (x, sym) (DFA.transitions D) = Some d → d ∈ S.

(** The invariant of the first loop of [minimize]; [busy] holds the state
    popped by the iteration in progress. *)
Definition reach_inv (D : DFA.t) (busy worklist rs rf : list nat) : Prop :=
  NoDup (rs ++ rf)
  ∧ (∀ x, x ∈ rs ++ rf → dfa_reachable D x)
  ∧ (∀ x, x ∈ worklist → x ∈ rs ++ rf)
  ∧ (∀ x, x ∈ rs ++ rf → x ∈ worklist ∨ x ∈ busy ∨ closed_at D (rs ++ rf) x).

(** The invariant of the refinement loop, for the list [R] of reachable
    states: the cells are non-empty, together they hold each state of [R]
    once, and the worklist holds indices of cells. *)
Definition refine_inv (R : list nat) (r : DFA.refinement) : Prop :=
  Forall (λ c, c ≠ []) (DFA.partitions r)
  ∧ mjoin (DFA.partitions r) ≡ₚ R
  ∧ Forall (λ i, i < length (DFA.partitions r))%nat (DFA.worklist r).

(** What the loops of [rip] have left of the receiver: in safe mode they
    write nothing but the local dictionary. *)
Definition same_receiver (self : NFA.t) (h : NFA.rip_heap) : Prop :=
  NFA.self_alphabet h = NFA.alphabet self
  ∧ NFA.self_transitions h = NFA.transitions self.

(** What is left of the loop of [parse_regex]: two iterations for each
    character to read, and one more while a concatenation is due. *)
Definition parse_measure (regex : string) (st : parsing.parser) : nat :=
  (2 * (String.length regex - parsing.current_pos st)
   + (if parsing.concatenate_next st then 1 else 0))%nat.

(** *** Runs of an automaton *)

(** A transition, as [self.transitions[p, a]] holds it *)
Definition step (N : NFA.t) (p : Z) (a : symbol) (q : Z) : Prop :=
  ∃ dsts, dict_get (p, a) (NFA.transitions N) = Some dsts ∧ q ∈ dsts.

(** One or more epsilon transitions *)
Inductive eps_path (N : NFA.t) : Z → Z → Prop :=
  | eps_path_one p q : step N p eps q → eps_path N p q
  | eps_path_cons p q r : step N p eps q → eps_path N q r → eps_path N p r.

(** None or more *)
Definition eps_star (N : NFA.t) (p q : Z) : Prop := p = q ∨ eps_path N p q.

(** Reading a symbol of the alphabet: epsilon transitions, then a
    transition with the symbol. *)
Definition reads (N : NFA.t) (p : Z) (a : symbol) (q : Z) : Prop :=
  a ∈ NFA.alphabet N ∧ ∃ p', eps_star N p p' ∧ step N p' a q.

Inductive run (N : NFA.t) : Z → list symbol → Z → Prop :=
  | run_nil p : run N p [] p
  | run_cons p a q w r : reads N p a q → run N q w r → run N p (a :: w) r.

(** The strings that the automaton recognizes *)
Definition accepts (N : NFA.t) (w : list symbol) : Prop :=
  ∃ q, run N (NFA.start_state N) w q ∧ eps_star N q (NFA.final_state N).

(** The states that a transition with [a] from a state of [S], followed
    by epsilon transitions, reaches *)
Definition target (N : NFA.t) (S : list Z) (a : symbol) (q : Z) : Prop :=
  a ∈ NFA.alphabet N ∧ ∃ p q', p ∈ S ∧ step N p a q' ∧ eps_star N q' q.

(** The invariant of the subset construction.  The listed sets are closed
    under epsilon transitions, the memoised closures are closures, a
    transition of the table leads to the set of the targets, and a pair
    without transition either has no target (and with [complete] no
    symbol of the alphabet) or belongs to a set that waits in the worklist
    or is being worked on ([busy]). *)
Definition subset_inv (N : NFA.t) (complete : bool) (busy : option nat)
    (b : NFA.subset_build) : Prop :=
  (∀ i S, NFA.state_list b !! i = Some S →
          ∀ p q, p ∈ S → step N p eps q → q ∈ S)
  ∧ (∀ s c, dict_get s (NFA.eps_memo b) = Some c → c = NFA.eps_closure N s true)
  ∧ (∀ i a j, dict_get (i, a) (NFA.dfa_transitions b) = Some j →
       a ∈ NFA.alphabet N
       ∧ ∃ S S', NFA.state_list b !! i = Some S ∧ NFA.state_list b !! j = Some S'
                 ∧ ∀ q, q ∈ S' ↔ target N S a q)
  ∧ (∀ i S a, NFA.state_list b !! i = Some S →
       dict_get (i, a) (NFA.dfa_transitions b) = None →
       i ∈ NFA.worklist b ∨ busy = Some i
       ∨ ((∀ q, ¬ target N S a q)
          ∧ (complete = true → a ∉ NFA.alphabet N)))
  ∧ (∃ S0, NFA.state_list b !! 0%nat = Some S0
           ∧ ∀ q, q ∈ S0 ↔ eps_star N (NFA.start_state N) q)
  ∧ NoDup (NFA.dfa_transitions b).*1.

(** A well-formed DFA: the start state and the final states are states,
    and the transitions run between states on symbols of the alphabet. *)
Definition dfa_wf (D : DFA.t) : Prop :=
  DFA.start_state D ∈ DFA.states D
  ∧ (∀ f, f ∈ DFA.final_states D → f ∈ DFA.states D)
  ∧ NoDup (DFA.transitions D).*1
  ∧ ∀ s a d, dict_get (s, a) (DFA.transitions D) = Some d →
             s ∈ DFA.states D ∧ a ∈ DFA.alphabet D ∧ d ∈ DFA.states D.

(** Every state has a transition for every symbol of the alphabet. *)
Definition dfa_complete (D : DFA.t) : Prop :=
  ∀ s a, s ∈ DFA.states D → a ∈ DFA.alphabet D →
         is_Some (dict_get (s, a) (DFA.transitions D)).

(** The transitions of a table, as a lookup finds them *)
Definition step_in (tr : list ((Z * symbol) * list Z)) (p : Z) (a : symbol)
    (q : Z) : Prop :=
  ∃ dsts, dict_get (p, a) tr = Some dsts ∧ q ∈ dsts.

(** A path through the automaton and the string it reads: an epsilon
    transition reads nothing, a transition with a symbol of the alphabet
    reads that symbol. *)
Inductive path (N : NFA.t) : Z → list symbol → Z → Prop :=
  | path_refl p : path N p [] p
  | path_eps p q w r : step N p eps q → path N q w r → path N p w r
  | path_sym p a q w r :
      a ∈ NFA.alphabet N → step N p a q → path N q w r → path N p (a :: w) r.

(** The language of an automaton *)
Definition lang (N : NFA.t) (w : list symbol) : Prop :=
  path N (NFA.start_state N) w (NFA.final_state N).

(** The automata that [construct_nfa] builds from operands: besides the
    invariant [thompson], the transition dictionary has one entry for a
    key, epsilon is no symbol of the alphabet, and every transition is an
    epsilon transition or carries a symbol of the alphabet. *)
Definition tnfa (N : NFA.t) : Prop :=
  thompson N
  ∧ NoDup (NFA.transitions N).*1
  ∧ (eps ∉ NFA.alphabet N)
  ∧ (∀ p a q, step N p a q → a = eps ∨ a ∈ NFA.alphabet N).

(** Kleene star of a language *)
Inductive kstar (L : list symbol → Prop) : list symbol → Prop :=
  | kstar_nil : kstar L []
  | kstar_app u v : L u → kstar L v → kstar L (u ++ v).

(** The same invariant, read off the entries of the transition
    dictionary (decidable on a concrete automaton) *)
Definition tnfa_entry (N : NFA.t) (e : (Z * symbol) * list Z) : Prop :=
  e.1.1 ∈ NFA.states N ∧ e.1.1 ≠ NFA.final_state N
  ∧ (e.1.2 = eps ∨ e.1.2 ∈ NFA.alphabet N)
  ∧ Forall (λ q, q ∈ NFA.states N ∧ q ≠ NFA.start_state N) e.2.

Definition tnfa_entries (N : NFA.t) : Prop :=
  NFA.start_state N ∈ NFA.states N
  ∧ NFA.final_state N ∈ NFA.states N
  ∧ NFA.start_state N ≠ NFA.final_state N
  ∧ NoDup (NFA.transitions N).*1
  ∧ (eps ∉ NFA.alphabet N)
  ∧ Forall (tnfa_entry N) (NFA.transitions N).

Global Instance tnfa_entry_dec N e : Decision (tnfa_entry N e).
Proof. unfold tnfa_entry. apply _. Defined.

Global Instance tnfa_entries_dec N : Decision (tnfa_entries N).
Proof. unfold tnfa_entries. apply _. Defined.

(** Regular expressions over one-character symbols, the strings they
    match, and their postfix form as [parse_regex] writes it: the
    operands, then the operator id. *)
Inductive regex :=
  | RSym (s : symbol)
  | RCat (r1 r2 : regex)
  | RAlt (r1 r2 : regex)
  | RStar (r : regex)
  | RPlus (r : regex)
  | ROpt (r : regex).

Fixpoint matches (r : regex) (w : list symbol) : Prop :=
  match r with
  | RSym s => w = [s]
  | RCat r1 r2 => ∃ u v, w = u ++ v ∧ matches r1 u ∧ matches r2 v
  | RAlt r1 r2 => matches r1 w ∨ matches r2 w
  | RStar r => kstar (matches r) w
  | RPlus r => ∃ u v, w = u ++ v ∧ matches r u ∧ kstar (matches r) v
  | ROpt r => matches r w ∨ w = []
  end.

Fixpoint postfix_of_regex (r : regex) : list parsing.token :=
  match r with
  | RSym s => [parsing.Sym s]
  | RCat r1 r2 => postfix_of_regex r1 ++ postfix_of_regex r2 ++ [parsing.Op 0]
  | RAlt r1 r2 => postfix_of_regex r1 ++ postfix_of_regex r2 ++ [parsing.Op 1]
  | RStar r => postfix_of_regex r ++ [parsing.Op 2]
  | RPlus r => postfix_of_regex r ++ [parsing.Op 3]
  | ROpt r => postfix_of_regex r ++ [parsing.Op 4]
  end.

(** No operand is the empty string (which the automata read as the
    epsilon label). *)
Fixpoint nonempty_syms (r : regex) : Prop :=
  match r with
  | RSym s => s ≠ eps
  | RCat r1 r2 | RAlt r1 r2 => nonempty_syms r1 ∧ nonempty_syms r2
  | RStar r | RPlus r | ROpt r => nonempty_syms r
  end.

(** The automaton that [construct_nfa] pushes for the operand [s] *)
Definition operand_nfa (s : symbol) : NFA.t :=
  NFA.mk [0; 1] [s] [((0, s), [1])] 0 1.

(** Well-formedness of a DFA read off the entries of its transition
    dictionary (decidable on a concrete automaton) *)
Definition dfa_entries (D : DFA.t) : Prop :=
  DFA.start_state D ∈ DFA.states D
  ∧ Forall (λ f, f ∈ DFA.states D) (DFA.final_states D)
  ∧ NoDup (DFA.transitions D).*1
  ∧ Forall (λ e, e.1.1 ∈ DFA.states D ∧ e.1.2 ∈ DFA.alphabet D
                 ∧ e.2 ∈ DFA.states D) (DFA.transitions D).

Global Instance dfa_entries_dec D : Decision (dfa_entries D).
Proof. unfold dfa_entries. apply _. Defined.

(** The symbols of a written regular expression are single characters
    other than the operator characters and the backslash. *)
Definition ordinary_sym (s : symbol) : bool :=
  match s with
  | String c EmptyString =>
      bool_decide (parsing._operators_sym (Some s) = None)
      && negb (Ascii.eqb c "\")
  | _ => false
  end.

(** The grammar of written regular expressions, with the expression that
    a string denotes.  [written l r s]: the string [s] is an alternation
    (level 1), a concatenation (level 2), a suffixed operand (level 3) or
    an operand (level 4) that denotes [r]; concatenation and alternation
    nest to the right.
<<
      alt  ::= cat  | cat '|' alt
      cat  ::= post | post cat
      post ::= atom | post '*' | post '+' | post '?'
      atom ::= c    | '(' alt ')'
>> *)
Inductive written : nat → regex → string → Prop :=
  | written_sym l s :
      ordinary_sym s = true → written l (RSym s) s
  | written_paren l r s :
      written 1 r s → written l r ("(" +:+ s +:+ ")")
  | written_star l r s :
      (l ≤ 3)%nat → written 3 r s → written l (RStar r) (s +:+ "*")
  | written_plus l r s :
      (l ≤ 3)%nat → written 3 r s → written l (RPlus r) (s +:+ "+")
  | written_opt l r s :
      (l ≤ 3)%nat → written 3 r s → written l (ROpt r) (s +:+ "?")
  | written_cat l r1 r2 s1 s2 :
      (l ≤ 2)%nat → written 3 r1 s1 → written 2 r2 s2 →
      written l (RCat r1 r2) (s1 +:+ s2)
  | written_alt l r1 r2 s1 s2 :
      (l ≤ 1)%nat → written 2 r1 s1 → written 1 r2 s2 →
      written l (RAlt r1 r2) (s1 +:+ "|" +:+ s2).

(** Iterations of the loop of [parse_regex] *)
Inductive steps (regex : string) : parsing.parser → parsing.parser → Prop :=
  | steps_refl st : steps regex st st
  | steps_step st st' st'' :
      (parsing.current_pos st < String.length regex)%nat →
      parsing.parse_step regex st = Ret st' →
      steps regex st' st'' → steps regex st st''.

(** The operator stack on which a string of level [l] can start: its top
    is a group-open tag, an alternation, or (from level 2 on) a
    concatenation. *)
Definition stack_for (l : nat) (stack : list Z) : Prop :=
  match stack with
  | [] => True
  | x :: _ => x = 5 ∨ x = 1 ∨ (x = 0 ∧ (2 ≤ l)%nat)
  end.

(** The binary operators that a string of level [l] leaves on the stack *)
Definition pending_op (l : nat) (x : Z) : Prop :=
  (x = 0 ∧ (l ≤ 2)%nat) ∨ (x = 1 ∧ (l ≤ 1)%nat).

(** What the loop does on a written expression: it appends the operands
    and the operators that are complete to the output and leaves the
    pending binary operators [ops] on the stack. *)
Definition parses_content (l : nat) (r : regex) (s : string) : Prop :=
  ∀ regex pos rest stack out,
    sdrop pos regex = s +:+ rest → stack_for l stack →
    ∃ ops out' pos',
      steps regex (parsing.mk_parser stack out false pos)
                  (parsing.mk_parser (ops ++ stack) (out ++ out') true pos')
      ∧ sdrop pos' regex = rest
      ∧ out' ++ (parsing.Op <$> ops) = postfix_of_regex r
      ∧ Forall (pending_op l) ops.

(** The refinement of [DFA.minimize].  [goes D X sym s]: the
    [sym]-transition of [s] leads into the set [X]; a cell is stable for
    [X] and [sym] when its states agree on that, and a partition when
    its cells are. *)
Definition goes (D : DFA.t) (X : nat → Prop) (sym : symbol) (s : nat) : Prop :=
  ∃ d, dict_get (s, sym) (DFA.transitions D) = Some d ∧ X d.

Definition cell_stable (D : DFA.t) (X : nat → Prop) (sym : symbol)
    (c : list nat) : Prop :=
  ∀ s t, s ∈ c → t ∈ c → goes D X sym s → goes D X sym t.

Definition stable (D : DFA.t) (parts : list (list nat)) (X : nat → Prop)
    (sym : symbol) : Prop :=
  ∀ c, c ∈ parts → cell_stable D X sym c.

Definition in_cell (parts : list (list nat)) (i : nat) (d : nat) : Prop :=
  ∃ c, parts !! i = Some c ∧ d ∈ c.

Definition in_worklist_cell (r : DFA.refinement) (d : nat) : Prop :=
  ∃ j, j ∈ DFA.worklist r ∧ in_cell (DFA.partitions r) j d.

(** The flags of the final cells are right. *)
Definition final_ok (D : DFA.t) (r : DFA.refinement) : Prop :=
  (∀ i c s, DFA.partitions r !! i = Some c → s ∈ c →
            s ∈ DFA.final_states D ↔ i ∈ DFA.part_finals r)
  ∧ Forall (λ i, i < length (DFA.partitions r))%nat (DFA.part_finals r).

(** The invariant of the refinement loop between two splitters: a cell
    that is not queued lies in a set [X], made of the cell and of queued
    cells, for which the partition is stable. *)
Definition hop_inv (D : DFA.t) (r : DFA.refinement) : Prop :=
  NoDup (DFA.worklist r)
  ∧ final_ok D r
  ∧ ∀ i c, DFA.partitions r !! i = Some c → i ∉ DFA.worklist r →
      ∃ X : nat → Prop,
        (∀ d, d ∈ c → X d)
        ∧ (∀ d, X d → d ∈ c ∨ in_worklist_cell r d)
        ∧ ∀ a, a ∈ DFA.alphabet D → stable D (DFA.partitions r) X a.

(** The invariant while the splitter [A] is at work: [A] is made of
    cells, of which at most one is not queued; the set [X] of a cell
    outside [A] that is not queued may also hold [A]. *)
Definition hop_core (D : DFA.t) (A : list nat) (r : DFA.refinement) : Prop :=
  NoDup (DFA.worklist r)
  ∧ final_ok D r
  ∧ (∀ c, c ∈ DFA.partitions r →
          (∀ d, d ∈ c → d ∈ A) ∨ (∀ d, d ∈ c → d ∉ A))
  ∧ (∃ k0, ∀ k c d, DFA.partitions r !! k = Some c → d ∈ c → d ∈ A →
                    k = k0 ∨ k ∈ DFA.worklist r)
  ∧ ∀ i c, DFA.partitions r !! i = Some c → i ∉ DFA.worklist r →
      (∀ d, d ∈ c → d ∉ A) →
      ∃ X : nat → Prop,
        (∀ d, d ∈ c → X d)
        ∧ (∀ d, X d → d ∈ c ∨ in_worklist_cell r d ∨ d ∈ A)
        ∧ ∀ a, a ∈ DFA.alphabet D → stable D (DFA.partitions r) X a.

(** Every cell of [parts'] is part of a cell of [parts]. *)
Definition refines (parts parts' : list (list nat)) : Prop :=
  ∀ c', c' ∈ parts' → ∃ c, c ∈ parts ∧ ∀ d, d ∈ c' → d ∈ c.

(** A partition is a congruence when it is stable for each of its
    cells. *)
Definition congruence (D : DFA.t) (parts : list (list nat)) : Prop :=
  ∀ c a, c ∈ parts → a ∈ DFA.alphabet D → stable D parts (λ d, d ∈ c) a.

(** Every symbol of the expression is an ordinary character. *)
Fixpoint ordinary (r : regex) : bool :=
  match r with
  | RSym s => ordinary_sym s
  | RCat r1 r2 | RAlt r1 r2 => ordinary r1 && ordinary r2
  | RStar r | RPlus r | ROpt r => ordinary r
  end.

(** The level of the grammar at which [construct_string] has written a
    string whose last operator is [op] ([None] for a symbol) *)
Definition level_of (op : option Z) : nat :=
  match op with
  | None => 4
  | Some o => if decide (o = 0) then 2 else if decide (o = 1) then 1 else 3
  end.

(** [construct_string] puts an argument in parentheses when its operator
    binds less tightly than the operator applied to it. *)
Definition wrap (prec : Z) (arg : string * option Z) : string :=
  match arg.2 with
  | Some o =>
      match parsing._operators_id o with
      | Some q =>
          if parsing.precedence q <? prec then "(" +:+ arg.1 +:+ ")" else arg.1
      | None => arg.1
      end
  | None => arg.1
  end.

(** What a label of the symbolic automata stands for: the empty program
    (as the empty string) for the empty word alone, any other program
    for the words of the regular expression it is the postfix form of. *)
Definition denotes (p : list parsing.token) (L : list symbol → Prop) : Prop :=
  (p = [] ∧ ∀ w, L w ↔ w = [])
  ∨ ∃ r, p = postfix_of_regex r ∧ ∀ w, L w ↔ matches r w.

Definition label_denotes (x : parsing.label) (L : list symbol → Prop) : Prop :=
  denotes (parsing.operand x) L.

(** The accumulators [repeat] and [union] of the combiners: there the
    empty program stands for no word at all. *)
Definition collects (p : list parsing.token) (L : list symbol → Prop) : Prop :=
  (p = [] ∧ ∀ w, ¬ L w)
  ∨ ∃ r, p = postfix_of_regex r ∧ ∀ w, L w ↔ matches r w.

(** The words of one of the languages *)
Definition any_of (Ls : list (list symbol → Prop)) (w : list symbol) : Prop :=
  ∃ L, L ∈ Ls ∧ L w.

(** Concatenation, one or more repetitions *)
Definition lcat (L1 L2 : list symbol → Prop) (w : list symbol) : Prop :=
  ∃ u v, w = u ++ v ∧ L1 u ∧ L2 v.

Definition kplus (L : list symbol → Prop) : list symbol → Prop :=
  lcat L (kstar L).

(** * Properties *)

(** ** Sets and dictionaries *)

Lemma obind_ret {A B} (m : outcome A) (k : A → outcome B) (b : B) :
  obind m k = Ret b ↔ ∃ a, m = Ret a ∧ k a = Ret b.
Proof.
  destruct m; simpl; split.
  - eauto.
  - by intros (a0 & [= ->] & ?).
  - done.
  - by intros (? & ? & ?).
  - done.
  - by intros (? & ? & ?).
Qed.

Section set_facts.
Context {A : Type} `{EqDecision A}.
Implicit Types (x y : A) (s t xs : list A).

Lemma elem_of_set_add x y s : x ∈ set_add y s ↔ x = y ∨ x ∈ s.
Proof.
  unfold set_add. destruct (decide (y ∈ s)).
  - split; [by right|]. by intros [->|].
  - rewrite elem_of_app, list_elem_of_singleton. tauto.
Qed.

Lemma NoDup_set_add y s : NoDup s → NoDup (set_add y s).
Proof.
  unfold set_add. intros Hs. destruct (decide (y ∈ s)); [done|].
  apply NoDup_app. split_and!; [done| |apply NoDup_singleton].
  intros x Hx ->%list_elem_of_singleton. done.
Qed.

Lemma elem_of_set_update x s xs : x ∈ set_update s xs ↔ x ∈ s ∨ x ∈ xs.
Proof.
  unfold set_update. revert s. induction xs as [|y xs IH]; intros s; simpl.
  - rewrite elem_of_nil. tauto.
  - rewrite IH, elem_of_set_add, elem_of_cons. tauto.
Qed.

Lemma NoDup_set_update s xs : NoDup s → NoDup (set_update s xs).
Proof.
  unfold set_update. revert s. induction xs as [|y xs IH]; intros s Hs; simpl.
  - done.
  - by apply IH, NoDup_set_add.
Qed.

Lemma set_update_nil s : set_update s [] = s.
Proof. done. Qed.

Lemma set_update_nonempty s xs : s ≠ [] ∨ xs ≠ [] → set_update s xs ≠ [].
Proof.
  intros Hne Heq.
  assert (∀ x, x ∉ set_update s xs) as Hno by (rewrite Heq; apply not_elem_of_nil).
  destruct s as [|a s].
  - destruct xs as [|b xs]; [by destruct Hne|].
    apply (Hno b). rewrite elem_of_set_update. right. left.
  - apply (Hno a). rewrite elem_of_set_update. left. left.
Qed.

Lemma elem_of_set_of x xs : x ∈ set_of xs ↔ x ∈ xs.
Proof. unfold set_of. rewrite elem_of_set_update, elem_of_nil. tauto. Qed.

Lemma NoDup_set_of xs : NoDup (set_of xs).
Proof. apply NoDup_set_update, NoDup_nil_2. Qed.

Lemma set_add_id s x : x ∈ s → set_add x s = s.
Proof. unfold set_add. intros. by destruct (decide (x ∈ s)). Qed.

Lemma set_update_NoDup_nil xs : NoDup xs → set_update [] xs = xs.
Proof.
  assert (∀ s, NoDup (s ++ xs) → set_update s xs = s ++ xs) as Hgen.
  { unfold set_update. induction xs as [|y xs IH]; intros s Hnd; simpl.
    - by rewrite app_nil_r.
    - unfold set_add. destruct (decide (y ∈ s)) as [Hin|Hnin].
      + apply NoDup_app in Hnd as (_ & Hd & _). exfalso.
        apply (Hd y Hin). left.
      + rewrite IH; rewrite <- app_assoc; done. }
  intros Hnd. by apply (Hgen []).
Qed.




Lemma set_eqb_true s t : set_eqb s t = true ↔ (∀ x, x ∈ s ↔ x ∈ t).
Proof.
  unfold set_eqb. rewrite andb_true_iff, !forallb_forall.
  setoid_rewrite bool_decide_eq_true. setoid_rewrite <- list_elem_of_In. split.
  - intros [H1 H2] x. split; auto.
  - intros Heq. split; intros x; apply Heq.
Qed.

Lemma set_index_Some s l i :
  set_index s l = Some i → ∃ t, l !! i = Some t ∧ set_eqb t s = true.
Proof.
  revert i. induction l as [|t l IH]; intros i; simpl; [done|].
  destruct (set_eqb t s) eqn:Heq.
  - intros [= <-]. eauto.
  - destruct (set_index s l) as [j|]; simpl; [|done].
    intros [= <-]. by apply IH.
Qed.

Lemma set_index_None s l :
  set_index s l = None ↔ Forall (λ t, set_eqb t s = false) l.
Proof.
  induction l as [|t l IH]; simpl.
  - split; [constructor|done].
  - destruct (set_eqb t s) eqn:Heq.
    + split; [done|]. intros Hf. apply Forall_cons_1 in Hf as [Hf _]. congruence.
    + destruct (set_index s l); simpl.
      * split; [done|]. intros Hf. apply Forall_cons_1 in Hf as [_ Hf].
        by apply IH in Hf.
      * split; [|done]. intros _. constructor; [done|]. by apply IH.
Qed.
End set_facts.

Section dict_facts.
Context {K V : Type} `{EqDecision K}.
Implicit Types (k : K) (v : V) (d : list (K * V)).

Lemma dict_get_Some_elem k v d : dict_get k d = Some v → (k, v) ∈ d.
Proof.
  induction d as [|[k' v'] d IH]; simpl; [done|].
  destruct (decide (k = k')) as [->|].
  - intros [= ->]. left.
  - intros. right. auto.
Qed.

Lemma dict_get_None k d : dict_get k d = None ↔ k ∉ d.*1.
Proof.
  induction d as [|[k' v'] d IH]; simpl.
  - split; [intros _; apply not_elem_of_nil|done].
  - rewrite not_elem_of_cons. destruct (decide (k = k')); [|tauto].
    split; [done|tauto].
Qed.

Lemma dict_get_is_Some k d : is_Some (dict_get k d) ↔ k ∈ d.*1.
Proof.
  rewrite <- not_eq_None_Some, dict_get_None.
  destruct (decide (k ∈ d.*1)); tauto.
Qed.

Lemma dict_get_elem_NoDup k v d : NoDup d.*1 → (k, v) ∈ d → dict_get k d = Some v.
Proof.
  induction d as [|[k' v'] d IH]; simpl; intros Hnd Hin.
  - by apply elem_of_nil in Hin.
  - apply NoDup_cons in Hnd as [Hk' Hnd].
    apply elem_of_cons in Hin as [[= <- <-]|Hin].
    + by destruct (decide (k = k)).
    + destruct (decide (k = k')) as [->|]; [|auto].
      exfalso. apply Hk'. apply list_elem_of_fmap. by exists (k', v).
Qed.

Lemma dict_get_set k k' v d :
  dict_get k' (dict_set k v d) = if decide (k' = k) then Some v else dict_get k' d.
Proof.
  induction d as [|[k0 v0] d IH]; simpl.
  - by destruct (decide (k' = k)).
  - destruct (decide (k = k0)) as [->|Hne]; simpl.
    + by destruct (decide (k' = k0)).
    + destruct (decide (k' = k0)) as [->|].
      * by destruct (decide (k0 = k)) as [->|].
      * done.
Qed.

Lemma dict_set_keys k v d :
  (dict_set k v d).*1 = if decide (k ∈ d.*1) then d.*1 else d.*1 ++ [k].
Proof.
  induction d as [|[k0 v0] d IH].
  - done.
  - cbn [dict_set fmap list_fmap fst].
    destruct (decide (k = k0)) as [->|Hne].
    + rewrite decide_True; [done|left].
    + cbn [fmap list_fmap fst]. rewrite IH. destruct (decide (k ∈ d.*1)).
      * rewrite decide_True; [done|by right].
      * rewrite decide_False; [done|]. rewrite not_elem_of_cons. done.
Qed.

Lemma dict_set_NoDup k v d : NoDup d.*1 → NoDup (dict_set k v d).*1.
Proof.
  intros Hnd. rewrite dict_set_keys. destruct (decide _); [done|].
  apply NoDup_app. split_and!; [done| |apply NoDup_singleton].
  intros x Hx ->%list_elem_of_singleton. done.
Qed.

Lemma elem_of_dict_set kv k v d :
  kv ∈ dict_set k v d → kv = (k, v) ∨ (kv ∈ d ∧ kv.1 ≠ k) ∨ (kv ∈ d ∧ ¬ NoDup d.*1).
Proof.
  induction d as [|[k0 v0] d IH]; simpl.
  - intros ->%list_elem_of_singleton. by left.
  - destruct (decide (k = k0)) as [->|Hne].
    + intros [->|Hin]%elem_of_cons; [by left|].
      destruct (decide (kv.1 = k0)) as [Heq|Hne'].
      * right. right. split; [by right|].
        intros [Hk _]%NoDup_cons. apply Hk.
        apply list_elem_of_fmap. exists kv. done.
      * right. left. split; [by right|done].
    + intros [->|Hin]%elem_of_cons.
      * right. left. simpl. split; [left|done].
      * destruct (IH Hin) as [->|[[? ?]|[? Hd]]]; [by left| |].
        -- right. left. split; [by right|done].
        -- right. right. split; [by right|].
           intros [_ ?]%NoDup_cons. done.
Qed.

Lemma elem_of_dict_set_1 kv k v d :
  kv ∈ dict_set k v d → kv = (k, v) ∨ kv ∈ d.
Proof. intros [?|[[? ?]|[? ?]]]%elem_of_dict_set; auto. Qed.

Lemma dict_set_Forall (P : K * V → Prop) k v d :
  Forall P d → P (k, v) → Forall P (dict_set k v d).
Proof.
  rewrite !Forall_forall. intros Hd Hkv kv [->|Hin]%elem_of_dict_set_1; auto.
Qed.

Lemma dict_get_Forall (P : K * V → Prop) k v d :
  Forall P d → dict_get k d = Some v → P (k, v).
Proof.
  rewrite Forall_forall. intros Hd Hget. by apply Hd, dict_get_Some_elem.
Qed.

Lemma elem_of_dict_get kv d : NoDup d.*1 → kv ∈ d → dict_get kv.1 d = Some kv.2.
Proof. destruct kv. apply dict_get_elem_NoDup. Qed.
End dict_facts.

Lemma foldM_app {A B} (f : A → B → outcome A) (a : A) (l1 l2 : list B) :
  foldM f a (l1 ++ l2) = (a' <- foldM f a l1;; foldM f a' l2).
Proof.
  revert a. induction l1 as [|x l1 IH]; intros a; simpl; [done|].
  destruct (f a x); simpl; auto.
Qed.

(** An invariant of a [for] loop whose body may raise *)
Lemma foldM_inv {A B} (I : A → Prop) (f : A → B → outcome A) (a r : A)
    (l : list B) :
  I a →
  (∀ a x a', x ∈ l → I a → f a x = Ret a' → I a') →
  foldM f a l = Ret r → I r.
Proof.
  revert a. induction l as [|x l IH]; intros a Ha Hstep; simpl.
  - by intros [= <-].
  - intros (a' & Hf & Hr)%obind_ret. eapply IH; [|by eauto using list_elem_of_further|done].
    eapply Hstep; [left|done..].
Qed.

(** ** Fuel: a loop that has returned returns the same with more fuel *)

Lemma to_dfa_loop_more_fuel self complete fuel fuel' b r :
  NFA.to_dfa_loop self complete fuel b = Ret r → (fuel ≤ fuel')%nat →
  NFA.to_dfa_loop self complete fuel' b = Ret r.
Proof.
  revert fuel' b. induction fuel as [|fuel IH]; intros fuel' b H Hle.
  - destruct fuel'; simpl in *; destruct (NFA.worklist b); done.
  - destruct fuel' as [|fuel']; [lia|]. simpl in *.
    destruct (NFA.worklist b); [done|].
    destruct (py_nth _ _) as [cur| |]; simpl in *; try done.
    destruct (_ =? _)%nat.
    + apply IH; [done|lia].
    + destruct (foldM _ _ _); simpl in *; try done. apply IH; [done|lia].
Qed.

Lemma reach_loop_more_fuel D fuel fuel' wl rs rf r :
  DFA.reach_loop D fuel wl rs rf = Ret r → (fuel ≤ fuel')%nat →
  DFA.reach_loop D fuel' wl rs rf = Ret r.
Proof.
  revert fuel' wl rs rf. induction fuel as [|fuel IH]; intros fuel' wl rs rf H Hle.
  - destruct fuel'; simpl in *; destruct wl; done.
  - destruct fuel' as [|fuel']; [lia|]. simpl in *.
    destruct wl; [done|].
    destruct (foldl _ _ _) as [[? ?] ?]. apply IH; [done|lia].
Qed.

Lemma refine_loop_more_fuel D fuel fuel' r r' :
  DFA.refine_loop D fuel r = Ret r' → (fuel ≤ fuel')%nat →
  DFA.refine_loop D fuel' r = Ret r'.
Proof.
  revert fuel' r. induction fuel as [|fuel IH]; intros fuel' r H Hle.
  - destruct fuel'; simpl in *; destruct (DFA.worklist r); done.
  - destruct fuel' as [|fuel']; [lia|]. simpl in *.
    destruct (DFA.worklist r); [done|].
    destruct (py_nth _ _); simpl in *; try done.
    destruct (foldM _ _ _); simpl in *; try done. apply IH; [done|lia].
Qed.

Lemma to_dfa_more_fuel self complete fuel fuel' D :
  NFA.to_dfa fuel self complete = Ret D → (fuel ≤ fuel')%nat →
  NFA.to_dfa fuel' self complete = Ret D.
Proof.
  unfold NFA.to_dfa, NFA.to_dfa_build. intros H Hle.
  apply obind_ret in H as (b & Hb & H).
  by rewrite (to_dfa_loop_more_fuel _ _ _ _ _ _ Hb Hle).
Qed.

Lemma minimize_more_fuel fuel fuel' D M :
  DFA.minimize fuel D = Ret M → (fuel ≤ fuel')%nat →
  DFA.minimize fuel' D = Ret M.
Proof.
  unfold DFA.minimize, DFA.minimize_partitions. intros H Hle.
  apply obind_ret in H as (o & Ho & H).
  destruct (decide _) as [Hs|Hs].
  - apply obind_ret in Ho as ([rs rf] & Hr & Ho).
    rewrite (reach_loop_more_fuel _ _ _ _ _ _ _ Hr Hle). simpl.
    destruct (_ =? _)%nat; [by injection Ho as <-|].
    apply obind_ret in Ho as (r & Hrl & Ho).
    rewrite (refine_loop_more_fuel _ _ _ _ _ Hrl Hle). simpl.
    by injection Ho as <-.
  - apply obind_ret in Ho as ([rs rf] & Hr & Ho).
    rewrite (reach_loop_more_fuel _ _ _ _ _ _ _ Hr Hle). simpl.
    destruct (_ =? _)%nat; [by injection Ho as <-|].
    apply obind_ret in Ho as (r & Hrl & Ho).
    rewrite (refine_loop_more_fuel _ _ _ _ _ Hrl Hle). simpl.
    by injection Ho as <-.
Qed.

(** ** The scenario [a(aa)*b*] *)

Lemma perm_two {A} (x y : A) (l : list A) :
  l ≡ₚ [x; y] → l = [x; y] ∨ l = [y; x].
Proof.
  intros H. pose proof (Permutation_length H) as Hlen.
  destruct l as [|a [|b [|c l]]]; try discriminate.
  assert (Ha : a ∈ [x; y]) by (rewrite <- H; left).
  assert (Hb : b ∈ [x; y]) by (rewrite <- H; right; left).
  assert (Hx : x ∈ [a; b]) by (rewrite H; left).
  assert (Hy : y ∈ [a; b]) by (rewrite H; right; left).
  rewrite !elem_of_cons, elem_of_nil in Ha, Hb, Hx, Hy.
  destruct Ha as [->|[->|[]]], Hb as [->|[->|[]]]; auto;
    [destruct Hy as [->|[->|[]]] | destruct Hx as [->|[->|[]]]]; auto.
Qed.

(** C4. For the regex [a(aa)*b*], under either iteration order of the
    alphabet and with any fuel from 8 on: the compiled NFA and the DFA
    obtained by [to_dfa()] then [minimize()] both accept "a" and "aaab" and
    reject "b" and "", and the minimized DFA has exactly 3 states. *)
Theorem scenario_a_aa_star_b_star (al : list symbol) (fuel : nat) :
  al ≡ₚ ["a"; "b"] → (8 ≤ fuel)%nat →
  ∃ N D M,
    parsing.parse_regex_as_nfa "a(aa)*b*" = Ret N
    ∧ NFA.alphabet N ≡ₚ al
    ∧ NFA.to_dfa fuel (with_alphabet N al) false = Ret D
    ∧ DFA.minimize fuel D = Ret M
    ∧ NFA.accept (with_alphabet N al) (parsing.chars "a") = true
    ∧ NFA.accept (with_alphabet N al) (parsing.chars "aaab") = true
    ∧ NFA.accept (with_alphabet N al) (parsing.chars "b") = false
    ∧ NFA.accept (with_alphabet N al) (parsing.chars "") = false
    ∧ DFA.accept M (parsing.chars "a") = true
    ∧ DFA.accept M (parsing.chars "aaab") = true
    ∧ DFA.accept M (parsing.chars "b") = false
    ∧ DFA.accept M (parsing.chars "") = false
    ∧ length (DFA.states M) = 3%nat.
Proof.
  intros Hal Hfuel.
  destruct (parsing.parse_regex_as_nfa "a(aa)*b*") as [N| |] eqn:HN;
    try (vm_compute in HN; discriminate).
  exists N.
  destruct (perm_two _ _ _ Hal) as [-> | ->].
  - destruct (NFA.to_dfa 8 (with_alphabet N ["a"; "b"]) false) as [D| |] eqn:HD;
      try (vm_compute in HN; injection HN as <-; vm_compute in HD; discriminate).
    destruct (DFA.minimize 8 D) as [M| |] eqn:HM;
      try (vm_compute in HN; injection HN as <-; vm_compute in HD;
           injection HD as <-; vm_compute in HM; discriminate).
    exists D, M.
    split; [done|]. split; [vm_compute in HN; by injection HN as <-|].
    split; [by eapply to_dfa_more_fuel|].
    split; [by eapply minimize_more_fuel|].
    vm_compute in HN; injection HN as <-. vm_compute in HD; injection HD as <-.
    vm_compute in HM; injection HM as <-. vm_compute. tauto.
  - destruct (NFA.to_dfa 8 (with_alphabet N ["b"; "a"]) false) as [D| |] eqn:HD;
      try (vm_compute in HN; injection HN as <-; vm_compute in HD; discriminate).
    destruct (DFA.minimize 8 D) as [M| |] eqn:HM;
      try (vm_compute in HN; injection HN as <-; vm_compute in HD;
           injection HD as <-; vm_compute in HM; discriminate).
    exists D, M.
    split; [done|].
    split; [vm_compute in HN; injection HN as <-; apply Permutation_swap|].
    split; [by eapply to_dfa_more_fuel|].
    split; [by eapply minimize_more_fuel|].
    vm_compute in HN; injection HN as <-. vm_compute in HD; injection HD as <-.
    vm_compute in HM; injection HM as <-. vm_compute. tauto.
Qed.

Lemma scenario_a_aa_star_b_star_witness :
  ∃ N D M,
    parsing.parse_regex_as_nfa "a(aa)*b*" = Ret N
    ∧ NFA.alphabet N ≡ₚ ["b"; "a"]
    ∧ NFA.to_dfa 8 (with_alphabet N ["b"; "a"]) false = Ret D
    ∧ DFA.minimize 8 D = Ret M
    ∧ NFA.accept (with_alphabet N ["b"; "a"]) (parsing.chars "a") = true
    ∧ NFA.accept (with_alphabet N ["b"; "a"]) (parsing.chars "aaab") = true
    ∧ NFA.accept (with_alphabet N ["b"; "a"]) (parsing.chars "b") = false
    ∧ NFA.accept (with_alphabet N ["b"; "a"]) (parsing.chars "") = false
    ∧ DFA.accept M (parsing.chars "a") = true
    ∧ DFA.accept M (parsing.chars "aaab") = true
    ∧ DFA.accept M (parsing.chars "b") = false
    ∧ DFA.accept M (parsing.chars "") = false
    ∧ length (DFA.states M) = 3%nat.
Proof.
  apply (scenario_a_aa_star_b_star ["b"; "a"] 8).
  - apply Permutation_swap.
  - lia.
Defined.

(** ** The correction distance *)

(** C2 (the code at the failing input). The automaton compiled from [a?]
    accepts "a", yet the correction distance computed for "a", the entry
    [table[final_state][1]], is 1 and not 0: the epsilon edge from state 0
    to state 1 hides the parallel [a] edge when [path_lengths] is
    initialised. *)
Theorem correction_distance_opt_a :
  ∃ N,
    parsing.parse_regex_as_nfa "a?" = Ret N
    ∧ N = NFA.mk [0; 1] ["a"] [((0, "a"), [1]); ((0, eps), [1])] 0 1
    ∧ NFA.accept N (parsing.chars "a") = true
    ∧ distance.correction_distance N "a" = Ret (distance.Fin 1).
Proof.
  eexists. split; [vm_compute; reflexivity|]. split; [reflexivity|].
  split; vm_compute; reflexivity.
Qed.

(** ** Repairing an automaton *)

Lemma table0_rows (start : Z) (f : Z → outcome distance.cost) (sts : list Z)
    (t0 t : distance.dp_table) :
  foldM (λ t state, c <- f state;; Ret (dict_set state [(c, start)] t)) t0 sts
    = Ret t →
  Forall (λ kv, length kv.2 = 1%nat) t0 →
  Forall (λ kv, length kv.2 = 1%nat) t.
Proof.
  intros H H0. revert H. apply foldM_inv; [done|].
  intros a x a' _ Ha (c & _ & [= <-])%obind_ret.
  by apply dict_set_Forall.
Qed.

(** C3 (the code at the failing input). On the empty string [update_nfa]
    never returns an automaton: the loop runs once with [i = 0], adds the
    epsilon transition, and its [print] then evaluates [string[i - 1]],
    which is [""[-1]].  For the automaton of [a] the call ends in
    [IndexError]. *)
Theorem update_nfa_empty_string :
  (∀ N N', distance.update_nfa N "" ≠ Ret N')
  ∧ ∃ N, parsing.parse_regex_as_nfa "a" = Ret N
         ∧ distance.update_nfa N "" = Raise IndexError.
Proof.
  split.
  - intros N N' H. unfold distance.update_nfa in H.
    apply obind_ret in H as (table & Ht & H).
    unfold distance.distance_table in Ht.
    apply obind_ret in Ht as ([pl inc] & _ & Ht).
    apply obind_ret in Ht as (table0 & H0 & Ht).
    apply table0_rows in H0; [|constructor].
    simpl in Ht.
    apply obind_ret in Ht as (r0 & Hr0 & Ht).
    apply obind_ret in Ht as (? & _ & Ht). injection Ht as Ht. subst table.
    simpl in H. rewrite Hr0 in H. simpl in H.
    unfold py_item in Hr0.
    case_match eqn:Hr; [|discriminate].
    injection Hr0 as Hr0. subst.
    pose proof (dict_get_Forall _ _ _ _ H0 Hr) as Hlen. simpl in Hlen.
    destruct r0 as [|e [|? ?]]; try discriminate.
    simpl in H. unfold py_item in H. rewrite Hr in H. simpl in H. done.
  - eexists. split; [vm_compute; reflexivity|]. vm_compute. reflexivity.
Qed.

(** ** The refinement loop of [DFA.minimize] *)

Lemma split_cell_filter D curr_part sym part :
  DFA.split_cell D curr_part sym part
  = (filter (λ st, DFA.lands_in D curr_part sym st = true) part,
     filter (λ st, DFA.lands_in D curr_part sym st ≠ true) part).
Proof.
  unfold DFA.split_cell.
  assert (∀ a b,
    foldl (λ '(to_curr, not_to_curr) state,
             if DFA.lands_in D curr_part sym state
             then (to_curr ++ [state], not_to_curr)
             else (to_curr, not_to_curr ++ [state])) (a, b) part
    = (a ++ filter (λ st, DFA.lands_in D curr_part sym st = true) part,
       b ++ filter (λ st, DFA.lands_in D curr_part sym st ≠ true) part)) as H.
  { induction part as [|x part IH]; intros a b; simpl.
    - by rewrite !app_nil_r.
    - destruct (DFA.lands_in D curr_part sym x) eqn:Hx.
      + rewrite IH. rewrite filter_cons_True by exact Hx.
        rewrite filter_cons_False by (intros Hn; exact (Hn Hx)).
        by rewrite <- !app_assoc.
      + rewrite IH. rewrite filter_cons_False by (rewrite Hx; discriminate).
        rewrite filter_cons_True by (rewrite Hx; discriminate).
        by rewrite <- !app_assoc. }
  apply (H [] []).
Qed.

(** C5 (counterexample). In the first split of [minimize] on the chain
    0 -a-> 1 -a-> 2 -a-> 3 (3 final), the splitter is the cell [0; 1; 2];
    the piece [0; 1] whose [a]-transition lands in it replaces the cell at
    index 1 and the smaller piece [2] is appended. *)
Lemma split_keeps_smaller_in_place_fails : ¬ split_keeps_smaller_in_place.
Proof.
  intros H.
  destruct (H chain_dfa [0; 1; 2]%nat "a"
              (DFA.mk_refinement [[3]; [0; 1; 2]]%nat [0%nat] [0%nat])
              (DFA.mk_refinement [[3]; [0; 1]; [2]]%nat [0%nat] [2; 0]%nat)
              1%nat) as (small & large & Heq & Hle).
  - vm_compute. reflexivity.
  - simpl. discriminate.
  - simpl in Heq. injection Heq as <- <-. simpl in Hle. lia.
Qed.

Lemma refine_index_cases (D : DFA.t) (curr_part : list nat) (sym : symbol)
    (r r' : DFA.refinement) (index : nat) (part : list nat) :
  DFA.partitions r !! index = Some part →
  DFA.refine_index D curr_part sym r index = Ret r' →
  let to_curr := filter (λ st, DFA.lands_in D curr_part sym st = true) part in
  let not_to_curr := filter (λ st, DFA.lands_in D curr_part sym st ≠ true) part in
  let new := length (DFA.partitions r) in
  (to_curr = [] ∨ not_to_curr = [] → r' = r)
  ∧ (to_curr ≠ [] → not_to_curr ≠ [] →
     DFA.partitions r' = <[index := to_curr]> (DFA.partitions r) ++ [not_to_curr]
     ∧ DFA.part_finals r'
       = (if decide (index ∈ DFA.part_finals r)
          then set_add new (DFA.part_finals r) else DFA.part_finals r)
     ∧ DFA.worklist r'
       = (if bool_decide (index ∈ DFA.worklist r)
             || (length not_to_curr <? length to_curr)%nat
          then new :: DFA.worklist r else index :: DFA.worklist r)).
Proof.
  intros Hpart Hrun. unfold DFA.refine_index, py_nth in Hrun.
  rewrite Hpart in Hrun. simpl in Hrun. rewrite split_cell_filter in Hrun.
  intros to_curr not_to_curr new. fold to_curr not_to_curr in Hrun.
  assert (length (<[index:=to_curr]> (DFA.partitions r) ++ [not_to_curr]) - 1
          = new)%nat as Hnew.
  { rewrite length_app, length_insert. simpl. unfold new. lia. }
  rewrite Hnew in Hrun.
  destruct to_curr as [|x tc] eqn:Htc; simpl in Hrun.
  { injection Hrun as <-. split; [done|]. by intros []. }
  destruct not_to_curr as [|y ntc] eqn:Hntc; simpl in Hrun.
  { injection Hrun as <-. split; [done|]. by intros _ []. }
  injection Hrun as <-. split; [by intros [|]|]. intros _ _. simpl. done.
Qed.

(** C5 (amended). A split performed by the body of the refinement loop
    replaces the cell at [index] by [to_curr], the states of the cell whose
    [sym]-transition lands in the splitter, and appends [not_to_curr], the
    other states, as a new last cell, whatever their sizes.  The new cell
    is flagged final when the old one is, and the sizes only choose the
    index pushed on the worklist: the new index when [index] is already
    queued or [to_curr] is the larger piece, otherwise [index].  When one
    of the two pieces is empty nothing changes. *)
Theorem refine_index_split (D : DFA.t) (curr_part : list nat) (sym : symbol)
    (r r' : DFA.refinement) (index : nat) (part : list nat) :
  DFA.partitions r !! index = Some part →
  DFA.refine_index D curr_part sym r index = Ret r' →
  let to_curr := filter (λ st, DFA.lands_in D curr_part sym st = true) part in
  let not_to_curr := filter (λ st, DFA.lands_in D curr_part sym st ≠ true) part in
  let new := length (DFA.partitions r) in
  (to_curr = [] ∨ not_to_curr = [] → r' = r)
  ∧ (to_curr ≠ [] → not_to_curr ≠ [] →
     DFA.partitions r' = <[index := to_curr]> (DFA.partitions r) ++ [not_to_curr]
     ∧ DFA.part_finals r'
       = (if decide (index ∈ DFA.part_finals r)
          then set_add new (DFA.part_finals r) else DFA.part_finals r)
     ∧ DFA.worklist r'
       = (if bool_decide (index ∈ DFA.worklist r)
             || (length not_to_curr <? length to_curr)%nat
          then new :: DFA.worklist r else index :: DFA.worklist r)).
Proof. apply refine_index_cases. Qed.

Lemma refine_index_split_witness :
  let r := DFA.mk_refinement [[3]; [0; 1; 2]]%nat [0%nat] [0%nat] in
  let r' := DFA.mk_refinement [[3]; [0; 1]; [2]]%nat [0%nat] [2; 0]%nat in
  ([0; 1]%nat = [] ∨ [2%nat] = [] → r' = r)
  ∧ ([0; 1]%nat ≠ [] → [2%nat] ≠ [] →
     DFA.partitions r' = <[1%nat := [0; 1]%nat]> (DFA.partitions r) ++ [[2%nat]]
     ∧ DFA.part_finals r' = [0%nat]
     ∧ DFA.worklist r' = [2; 0]%nat).
Proof.
  exact (refine_index_split chain_dfa [0; 1; 2]%nat "a"
           (DFA.mk_refinement [[3]; [0; 1; 2]]%nat [0%nat] [0%nat])
           (DFA.mk_refinement [[3]; [0; 1]; [2]]%nat [0%nat] [2; 0]%nat)
           1%nat [0; 1; 2]%nat eq_refl eq_refl).
Defined.

(** ** Parentheses in [parse_regex] *)

Lemma get_sdrop n s :
  String.get n s = match sdrop n s with String c _ => Some c | EmptyString => None end.
Proof.
  revert s. induction n as [|n IH]; intros [|c s]; simpl; auto.
Qed.

Lemma sdrop_S n s c r : sdrop n s = String c r → sdrop (S n) s = r.
Proof.
  revert s. induction n as [|n IH]; intros [|c' s]; simpl; try done.
  - by intros [= ? ->].
  - apply IH.
Qed.

Lemma sdrop_length n s : String.length (sdrop n s) = (String.length s - n)%nat.
Proof.
  revert s. induction n as [|n IH]; intros [|c s]; simpl; auto.
Qed.

Lemma char_at_sdrop regex n :
  parsing.char_at regex n
  = match sdrop n regex with
    | String c _ => Ret (String c EmptyString)
    | EmptyString => Raise IndexError
    end.
Proof. unfold parsing.char_at. rewrite get_sdrop. by destruct (sdrop n regex). Qed.

Lemma pop_to_open_none stack out :
  count_open stack = 0%nat → parsing.pop_to_open stack out = Raise IndexError.
Proof.
  revert out. induction stack as [|x stack IH]; intros out; simpl; [done|].
  unfold parsing.op_open; simpl. destruct (decide (x = 5)); [done|]. apply IH.
Qed.

Lemma pop_to_open_some stack out d :
  stack_ok stack → count_open stack = S d →
  ∃ stack' out', parsing.pop_to_open stack out = Ret (stack', out')
                 ∧ count_open stack' = d ∧ stack_ok stack'.
Proof.
  revert out. induction stack as [|x stack IH]; intros out Hok; simpl; [done|].
  apply Forall_cons_1 in Hok as [_ Hok].
  unfold parsing.op_open; simpl. destruct (decide (x = 5)).
  - intros [= <-]. eauto.
  - intros Hc. apply IH; done.
Qed.

Lemma pop_higher_ok prec stack out :
  stack_ok stack → 0 ≤ prec →
  ∃ stack' out', parsing.pop_higher prec stack out = Ret (stack', out')
                 ∧ count_open stack' = count_open stack ∧ stack_ok stack'.
Proof.
  intros Hok Hprec. revert out.
  induction stack as [|x stack IH]; intros out; simpl.
  - exists [], out. done.
  - pose proof Hok as Hok'. apply Forall_cons_1 in Hok as [Hx Hok].
    destruct Hx as [-> | [-> | ->]]; simpl.
    + destruct (decide (2 > prec)); [apply IH; done|]. eexists _, _. done.
    + destruct (decide (1 > prec)); [apply IH; done|]. eexists _, _. done.
    + destruct (decide (0 > prec)); [lia|]. eexists _, _. done.
Qed.

(** A character is one of the six operator characters, a backslash, or a
    literal. *)
Lemma char_cases (c : ascii) :
  c = "("%char ∨ c = ")"%char ∨ c = "|"%char ∨ c = "*"%char ∨ c = "+"%char
  ∨ c = "?"%char ∨ c = "\"%char
  ∨ (parsing._operators_sym (Some (String c EmptyString)) = None
     ∧ c ≠ "\"%char ∧ c ≠ "("%char ∧ c ≠ ")"%char).
Proof.
  destruct c as [[] [] [] [] [] [] [] []];
    apply (bool_decide_unpack _); vm_compute; exact I.
Qed.

Lemma parse_step_plain regex st c r :
  sdrop (parsing.current_pos st) regex = String c r →
  plain (String c r) = true →
  stack_ok (parsing.stack st) →
  (parsing.concatenate_next st = true
   ∧ ∃ st', parsing.parse_step regex st = Ret st'
            ∧ parsing.current_pos st' = parsing.current_pos st
            ∧ parsing.concatenate_next st' = false
            ∧ stack_ok (parsing.stack st')
            ∧ count_open (parsing.stack st') = count_open (parsing.stack st))
  ∨ match step_depth c r (count_open (parsing.stack st)) with
    | None => parsing.parse_step regex st = Raise IndexError
    | Some d' =>
        ∃ st', parsing.parse_step regex st = Ret st'
               ∧ parsing.current_pos st' = S (parsing.current_pos st)
               ∧ stack_ok (parsing.stack st')
               ∧ count_open (parsing.stack st') = d'
    end.
Proof.
  intros Hrest Hplain Hok.
  destruct st as [stack out cn pos].
  cbn [parsing.current_pos parsing.stack parsing.postfix_output
       parsing.concatenate_next] in *.
  assert (Hconcat :
    ∃ st', ('(stack', out') <- parsing.pop_higher 2 stack out;;
            Ret (parsing.mk_parser (0 :: stack') out' false pos)) = Ret st'
           ∧ parsing.current_pos st' = pos
           ∧ parsing.concatenate_next st' = false
           ∧ stack_ok (parsing.stack st')
           ∧ count_open (parsing.stack st') = count_open stack).
  { destruct (pop_higher_ok 2 stack out Hok) as (s' & o' & -> & Hc & Hs); [lia|].
    simpl. eexists. split; [done|]. simpl. split_and!; try done.
    constructor; [by left|done]. }
  unfold parsing.parse_step.
  cbn [parsing.current_pos parsing.stack parsing.postfix_output
       parsing.concatenate_next].
  rewrite char_at_sdrop, Hrest. cbn [obind].
  destruct (char_cases c) as [->|[->|[->|[->|[->|[->|[->|(Hlit & Hbs & Hop & Hcl)]]]]]]].
  - (* ( *)
    destruct cn; simpl.
    + left. split; [done|]. exact Hconcat.
    + right. rewrite char_at_sdrop, Nat.add_1_r, (sdrop_S _ _ _ _ Hrest).
      destruct r as [|c3 r']; simpl; [done|].
      simpl in Hplain. destruct (Ascii.eqb c3 "?") eqn:Hq; [done|].
      apply Ascii.eqb_neq in Hq.
      rewrite decide_False by congruence. simpl.
      eexists. split; [done|]. simpl. split_and!; [lia| |done].
      constructor; [by right; right|done].
  - (* ) *)
    right. simpl. rewrite andb_false_r. simpl.
    destruct (count_open stack) as [|d] eqn:Hd.
    + by rewrite pop_to_open_none.
    + destruct (pop_to_open_some stack out d Hok Hd) as (s' & o' & -> & Hc & Hs).
      simpl. eexists. split; [done|]. simpl. split_and!; [lia|done..].
  - (* | *)
    right. simpl. rewrite andb_false_r. simpl.
    destruct (pop_higher_ok 1 stack out Hok) as (s' & o' & -> & Hc & Hs); [lia|].
    simpl. eexists. split; [done|]. simpl. split_and!; [lia| |done].
    constructor; [by right; left|done].
  - (* * *)
    right. simpl. rewrite andb_false_r. simpl.
    destruct (pop_higher_ok 3 stack out Hok) as (s' & o' & -> & Hc & Hs); [lia|].
    simpl. eexists. split; [done|]. simpl. split_and!; [lia|done..].
  - (* + *)
    right. simpl. rewrite andb_false_r. simpl.
    destruct (pop_higher_ok 3 stack out Hok) as (s' & o' & -> & Hc & Hs); [lia|].
    simpl. eexists. split; [done|]. simpl. split_and!; [lia|done..].
  - (* ? *)
    right. simpl. rewrite andb_false_r. simpl.
    destruct (pop_higher_ok 3 stack out Hok) as (s' & o' & -> & Hc & Hs); [lia|].
    simpl. eexists. split; [done|]. simpl. split_and!; [lia|done..].
  - (* backslash *)
    simpl in Hplain. done.
  - (* literal *)
    rewrite (decide_False (P := String c "" = "\")) by congruence.
    cbn [obind]. rewrite Hlit.
    rewrite (bool_decide_eq_false_2 (String c "" = "(")) by congruence.
    rewrite (bool_decide_eq_false_2 (is_Some None)) by (intros [? [=]]).
    cbn [negb orb].
    destruct cn; cbn [andb].
    + left. split; [done|].
      rewrite !(decide_False (P := None = Some _)) by congruence.
      exact Hconcat.
    + right.
      rewrite !(decide_False (P := Some (String c "") = Some _)) by congruence.
      rewrite Hlit. unfold step_depth.
      rewrite (proj2 (Ascii.eqb_neq _ _) Hop), (proj2 (Ascii.eqb_neq _ _) Hcl).
      eexists. split; [done|]. simpl. split_and!; [lia|done..].
Qed.

Lemma count_open_pos stack d : count_open stack = S d → 5 ∈ stack.
Proof.
  induction stack as [|x stack IH]; simpl; [done|].
  destruct (decide (x = 5)) as [->|]; [left|]. intros. right. auto.
Qed.

Lemma step_depth_scan c r d d' :
  step_depth c r d = Some d' →
  paren_scan d (String c r) = paren_scan d' r
  ∧ ends_with_open (String c r) = ends_with_open r.
Proof.
  unfold step_depth. simpl.
  destruct (Ascii.eqb c "(") eqn:Ho.
  - destruct r; [done|]. by intros [= <-].
  - destruct (Ascii.eqb c ")") eqn:Hc.
    + destruct d; [done|]. intros [= <-]. split; [done|]. by destruct r.
    + intros [= <-]. split; [done|]. by destruct r.
Qed.

Lemma step_depth_none c r d :
  step_depth c r d = None → paren_spec d (String c r) (Raise IndexError).
Proof.
  unfold step_depth, paren_spec. simpl.
  destruct (Ascii.eqb c "(") eqn:Ho.
  - destruct r; [|done]. intros _. simpl. done.
  - destruct (Ascii.eqb c ")") eqn:Hc; [|done]. by destruct d.
Qed.

Lemma parse_loop_plain regex fuel st :
  plain (sdrop (parsing.current_pos st) regex) = true →
  stack_ok (parsing.stack st) →
  (2 * String.length (sdrop (parsing.current_pos st) regex)
   ≤ fuel + (if parsing.concatenate_next st then 0 else 1))%nat →
  paren_spec (count_open (parsing.stack st))
             (sdrop (parsing.current_pos st) regex)
             (parsing.parse_loop regex fuel st).
Proof.
  revert st. induction fuel as [|fuel IH]; intros st Hplain Hok Hfuel.
  - destruct (sdrop (parsing.current_pos st) regex) as [|c r] eqn:Hrest.
    + simpl. pose proof (sdrop_length (parsing.current_pos st) regex) as Hl.
      rewrite Hrest in Hl. simpl in Hl.
      rewrite (proj2 (Nat.ltb_ge _ _)) by lia.
      unfold paren_spec. simpl.
      destruct (count_open (parsing.stack st)) eqn:Hc; [done|].
      eexists. split; [done|]. apply elem_of_app. right.
      apply list_elem_of_fmap_2. by eapply count_open_pos.
    + simpl in Hfuel. destruct (parsing.concatenate_next st); lia.
  - destruct (sdrop (parsing.current_pos st) regex) as [|c r] eqn:Hrest.
    + simpl. pose proof (sdrop_length (parsing.current_pos st) regex) as Hl.
      rewrite Hrest in Hl. simpl in Hl.
      rewrite (proj2 (Nat.ltb_ge _ _)) by lia.
      unfold paren_spec. simpl.
      destruct (count_open (parsing.stack st)) eqn:Hc; [done|].
      eexists. split; [done|]. apply elem_of_app. right.
      apply list_elem_of_fmap_2. by eapply count_open_pos.
    + pose proof (sdrop_length (parsing.current_pos st) regex) as Hl.
      rewrite Hrest in Hl. simpl in Hl. simpl.
      rewrite (proj2 (Nat.ltb_lt _ _)) by lia.
      destruct (parse_step_plain regex st c r Hrest Hplain Hok)
        as [(Hcn & st' & -> & Hpos & Hcn' & Hok' & Hcount)|Hstep].
      * simpl. rewrite <- Hcount, <- Hrest, <- Hpos. apply IH.
        -- by rewrite Hpos, Hrest.
        -- done.
        -- rewrite Hpos, Hrest, Hcn'. rewrite Hcn in Hfuel. simpl in *. lia.
      * destruct (step_depth c r (count_open (parsing.stack st))) as [d'|] eqn:Hd.
        -- destruct Hstep as (st' & -> & Hpos & Hok' & Hcount). simpl.
           apply step_depth_scan in Hd as [Hscan Hends].
           unfold paren_spec. rewrite Hscan, Hends.
           rewrite <- Hcount.
           pose proof (sdrop_S _ _ _ _ Hrest) as Hr. rewrite <- Hpos in Hr.
           rewrite <- Hr. apply IH.
           ++ rewrite Hr. simpl in Hplain.
              apply andb_true_iff in Hplain as [_ ?]. done.
           ++ done.
           ++ rewrite Hr. simpl in Hfuel.
              destruct (parsing.concatenate_next st), (parsing.concatenate_next st'); lia.
        -- rewrite Hstep. simpl. by apply step_depth_none.
Qed.

(** C7 (counterexample). ["(a"] has an opening parenthesis that is never
    closed, and [parse_regex] returns the postfix program [['a', 5]] for
    it. *)
Lemma unbalanced_always_raises_fails : ¬ unbalanced_always_raises.
Proof.
  intros H. destruct (H "(a") as [e He].
  - vm_compute. discriminate.
  - vm_compute in He. discriminate.
Qed.

(** C7 (amended). On a regex without backslash escapes and without the
    [(?] group prefix, [parse_regex] raises [IndexError] whenever some [)]
    has no matching [(].  When every [)] is matched and some [(] is never
    closed, it raises [IndexError] only if the regex ends with [(];
    otherwise it raises nothing and returns a postfix program that
    contains the group-open tag 5. *)
Theorem parse_regex_parentheses (regex : string) :
  plain regex = true →
  (paren_scan 0 regex = None → parsing.parse_regex regex = Raise IndexError)
  ∧ (∀ d, paren_scan 0 regex = Some (S d) →
       if ends_with_open regex
       then parsing.parse_regex regex = Raise IndexError
       else ∃ out, parsing.parse_regex regex = Ret out ∧ parsing.Op 5 ∈ out).
Proof.
  intros Hplain.
  pose proof (parse_loop_plain regex (2 * String.length regex)
                (parsing.mk_parser [] [] false 0)) as H.
  simpl in H. specialize (H Hplain (Forall_nil_2 _)).
  assert (paren_spec 0 regex (parsing.parse_regex regex)) as Hspec.
  { apply H. lia. }
  clear H. unfold paren_spec in Hspec. split.
  - intros Hs. by rewrite Hs in Hspec.
  - intros d Hs. by rewrite Hs in Hspec.
Qed.

Lemma parse_regex_parentheses_witness :
  (paren_scan 0 "(a|b" = None → parsing.parse_regex "(a|b" = Raise IndexError)
  ∧ (∀ d, paren_scan 0 "(a|b" = Some (S d) →
       if ends_with_open "(a|b"
       then parsing.parse_regex "(a|b" = Raise IndexError
       else ∃ out, parsing.parse_regex "(a|b" = Ret out ∧ parsing.Op 5 ∈ out).
Proof.
  apply (parse_regex_parentheses "(a|b"). reflexivity.
Defined.

(** ** Single-state elimination *)

Lemma for_each_inv {B} (P : NFA.rip_heap → Prop)
    (f : NFA.rip_heap → B → NFA.flow) (h : NFA.rip_heap) (l : list B) :
  P h →
  (∀ h x, x ∈ l → P h →
     match f h x with NFA.Continue h' | NFA.ReturnNone h' => P h' end) →
  match NFA.for_each f h l with NFA.Continue h' | NFA.ReturnNone h' => P h' end.
Proof.
  revert h. induction l as [|x l IH]; intros h Hh Hf; simpl; [done|].
  pose proof (Hf h x (list_elem_of_here _ _) Hh) as Hx.
  destruct (f h x) as [h'|h']; [|done].
  apply IH; [done|]. intros. apply Hf; [by right|done].
Qed.

Lemma rip_pair_safe_receiver self combiner self_loops src sym h out :
  same_receiver self h →
  match NFA.rip_pair true combiner self_loops src sym h out with
  | NFA.Continue h' | NFA.ReturnNone h' => same_receiver self h'
  end.
Proof.
  intros Hh. unfold NFA.rip_pair. destruct out as [out_sym out_dsts].
  destruct (_ && _); done.
Qed.

Lemma rip_entry_safe_receiver self combiner state outgoing self_loops h entry :
  same_receiver self h →
  match NFA.rip_entry true combiner state outgoing self_loops h entry with
  | NFA.Continue h' | NFA.ReturnNone h' => same_receiver self h'
  end.
Proof.
  intros Hh. unfold NFA.rip_entry. destruct entry as [[src sym] dsts].
  destruct (decide (src = state)); [done|].
  destruct (decide (state ∈ dsts)); [|done].
  pose proof (for_each_inv (same_receiver self)
                (NFA.rip_pair true combiner self_loops src sym) h outgoing Hh)
    as Hfe.
  destruct (NFA.for_each _ h outgoing) as [h'|h'].
  - apply Hfe. intros. by apply rip_pair_safe_receiver.
  - apply Hfe. intros. by apply rip_pair_safe_receiver.
Qed.

(** C10. Whenever [rip(q, safe=True)] returns [None], the receiver is
    left as it was: its state set, alphabet, transition relation, start
    state and final state are those before the call. *)
Theorem rip_safe_none_unchanged (self : NFA.t) (state : Z)
    (combiner : symbol → list symbol → symbol → symbol) :
  (NFA.rip self state true combiner).1 = NFA.RipNone →
  (NFA.rip self state true combiner).2 = self.
Proof.
  unfold NFA.rip. destruct (_ || _); [done|].
  destruct (NFA.rip_outgoing self state) as [outgoing self_loops].
  pose proof (for_each_inv (same_receiver self)
                (NFA.rip_entry true combiner state outgoing self_loops)
                (NFA.mk_heap (NFA.alphabet self) (NFA.transitions self) [])
                (NFA.transitions self)) as Hfe.
  destruct (NFA.for_each _ _ _) as [h|h].
  - destruct (set_remove state (NFA.states self)); done.
  - intros _. simpl. destruct Hfe as [Ha Ht]; [done| |].
    + intros. by apply rip_entry_safe_receiver.
    + rewrite Ha, Ht. by destruct self.
Qed.

Lemma rip_safe_none_unchanged_witness :
  (NFA.rip ab_nfa 1 true NFA._default_rip_combiner).1 = NFA.RipNone
  ∧ (NFA.rip ab_nfa 1 true NFA._default_rip_combiner).2 = ab_nfa.
Proof.
  split; [reflexivity|].
  apply (rip_safe_none_unchanged ab_nfa 1 NFA._default_rip_combiner).
  reflexivity.
Defined.

Lemma foldl_inv {A B} (I : A → Prop) (f : A → B → A) (a : A) (l : list B) :
  I a → (∀ a x, x ∈ l → I a → I (f a x)) → I (foldl f a l).
Proof.
  revert a. induction l as [|x l IH]; intros a Ha Hf; simpl; [done|].
  apply IH.
  - apply Hf; [left|done].
  - intros. apply Hf; [by right|done].
Qed.


Lemma for_each_continue {B} (P : NFA.rip_heap → Prop)
    (f : NFA.rip_heap → B → NFA.flow) (h : NFA.rip_heap) (l : list B) :
  P h →
  (∀ h x, x ∈ l → P h → ∃ h', f h x = NFA.Continue h' ∧ P h') →
  ∃ h', NFA.for_each f h l = NFA.Continue h' ∧ P h'.
Proof.
  revert h. induction l as [|x l IH]; intros h Hh Hf; simpl; [eauto|].
  destruct (Hf h x (list_elem_of_here _ _) Hh) as (h' & -> & Hh').
  apply IH; [done|]. intros. apply Hf; [by right|done].
Qed.



(** ** The safe mode of [rip] *)

Lemma edge_in_dd_update tr k xs p a q :
  edge_in (dd_update tr k xs) p a q →
  edge_in tr p a q ∨ ((p, a) = k ∧ q ∈ xs).
Proof.
  unfold dd_update. intros (ds & Hin & Hq).
  apply elem_of_dict_set_1 in Hin as [Heq|Hin].
  - injection Heq as Hk Hv. subst k ds.
    apply elem_of_set_update in Hq as [Hq|Hq]; [|by right].
    destruct (dict_get (p, a) tr) as [old|] eqn:Hget; simpl in Hq.
    + left. exists old. split; [|done]. by apply dict_get_Some_elem.
    + by apply elem_of_nil in Hq.
  - left. by exists ds.
Qed.













(** ** The invariant of the compiled automata *)

Lemma edge_in_renamed (f g : Z → Z) tr0 (l : list ((Z * symbol) * list Z)) p a q :
  edge_in (foldl (λ tr '((src, sym), dst), dd_update tr (f src, sym) (g <$> dst))
                 tr0 l) p a q →
  edge_in tr0 p a q ∨ ∃ src d, edge_in l src a d ∧ p = f src ∧ q = g d.
Proof.
  revert tr0. induction l as [|[[src sym] dst] l IH]; intros tr0; simpl.
  - by left.
  - intros [H|(src' & d & (ds & Hin & Hd) & -> & ->)]%IH.
    + apply edge_in_dd_update in H as [H|[[= -> ->] Hq]]; [by left|].
      right. apply list_elem_of_fmap in Hq as (d & -> & Hd).
      exists src, d. split; [|done]. exists dst. split; [left|done].
    + right. exists src', d. split; [|done]. exists ds. split; [by right|done].
Qed.

Lemma py_max_spec l m : py_max l = Ret m → ∀ x, x ∈ l → x ≤ m.
Proof.
  destruct l as [|a l]; [done|]. simpl. intros [= <-].
  assert (∀ l a, a ≤ foldl Z.max a l ∧ ∀ x, x ∈ l → x ≤ foldl Z.max a l) as H.
  { clear. induction l as [|b l IH]; intros a; simpl.
    - split; [lia|]. intros x Hx. by apply elem_of_nil in Hx.
    - destruct (IH (Z.max a b)) as [H1 H2]. split; [lia|].
      intros x [->|Hx]%elem_of_cons; [lia|auto]. }
  destruct (H l a) as [H1 H2]. intros x [->|Hx]%elem_of_cons; auto.
Qed.

Lemma py_min_spec l m : py_min l = Ret m → ∀ x, x ∈ l → m ≤ x.
Proof.
  destruct l as [|a l]; [done|]. simpl. intros [= <-].
  assert (∀ l a, foldl Z.min a l ≤ a ∧ ∀ x, x ∈ l → foldl Z.min a l ≤ x) as H.
  { clear. induction l as [|b l IH]; intros a; simpl.
    - split; [lia|]. intros x Hx. by apply elem_of_nil in Hx.
    - destruct (IH (Z.min a b)) as [H1 H2]. split; [lia|].
      intros x [->|Hx]%elem_of_cons; [lia|auto]. }
  destruct (H l a) as [H1 H2]. intros x [->|Hx]%elem_of_cons; auto.
Qed.

Lemma py_max_returns l x : x ∈ l → ∃ m, py_max l = Ret m.
Proof. destruct l; [by intros ?%elem_of_nil|]. simpl. eauto. Qed.

Lemma py_min_returns l x : x ∈ l → ∃ m, py_min l = Ret m.
Proof. destruct l; [by intros ?%elem_of_nil|]. simpl. eauto. Qed.

Lemma init_spec sts al tr start final :
  start ∈ sts → final ∈ sts →
  ∃ N, NFA.init sts al tr start final = Ret N
       ∧ NFA.start_state N = start ∧ NFA.final_state N = final
       ∧ (∀ x, x ∈ NFA.states N ↔ x ∈ sts)
       ∧ (∀ p a q, edge N p a q → edge_in tr p a q).
Proof.
  intros Hs Hf. unfold NFA.init.
  rewrite !decide_True by (by apply elem_of_set_of).
  eexists. split; [done|]. simpl. split_and!; try done.
  - intros x. apply elem_of_set_of.
  - intros p a q. unfold edge. simpl.
    assert (∀ tr0, edge_in (foldl (λ d '(key, dsts), dd_update d key dsts) tr0 tr)
                     p a q → edge_in tr0 p a q ∨ edge_in tr p a q) as H.
    { induction tr as [|[k ds] tr IH]; intros tr0; simpl; [by left|].
      intros [H|(ds' & Hin & Hq)]%IH.
      - apply edge_in_dd_update in H as [H|[<- Hq]]; [by left|].
        right. exists ds. split; [left|done].
      - right. exists ds'. split; [by right|done]. }
    intros [(? & []%elem_of_nil & _)|H']%H. done.
Qed.

Lemma copy_thompson N :
  thompson N → ∃ N', NFA.copy N = Ret N' ∧ thompson N'.
Proof.
  intros ((Hs & Hf & Hcl) & Hne & Hin & Hout). unfold NFA.copy.
  destruct (init_spec (NFA.states N) (NFA.alphabet N) (NFA.transitions N)
              (NFA.start_state N) (NFA.final_state N) Hs Hf)
    as (N' & -> & Hs' & Hf' & Hst & He).
  exists N'. split; [done|]. unfold thompson, closed, no_into_start, no_from_final.
  rewrite Hs', Hf'. split_and!; try done.
  - by apply Hst.
  - by apply Hst.
  - intros p a q H%He. rewrite !Hst. by apply (Hcl p a q).
  - intros p a H%He. by apply (Hin p a).
  - intros a q H%He. by apply (Hout a q).
Qed.

Lemma concat_thompson A B :
  thompson A → thompson B → ∃ N, NFA.concat A B = Ret N ∧ thompson N.
Proof.
  intros ((HsA & HfA & HclA) & HneA & HinA & HoutA)
         ((HsB & HfB & HclB) & HneB & HinB & HoutB).
  destruct (py_max_returns _ _ HsA) as [max_s Hmax].
  destruct (py_min_returns _ _ HsB) as [min_o Hmin].
  unfold NFA.concat. rewrite Hmax, Hmin. simpl.
  pose proof (py_max_spec _ _ Hmax) as Hle.
  pose proof (py_min_spec _ _ Hmin) as Hge.
  set (corr := max_s - min_o + 1).
  set (f := λ src, if decide (src = NFA.start_state B)
                   then NFA.final_state A else src + corr).
  eexists. split; [done|].
  assert (∀ x, x ∈ NFA.states B → x ≠ NFA.start_state B →
               x + corr ∈ set_update (NFA.states A)
                 ((λ state, state + corr) <$>
                    filter (λ state, state ≠ NFA.start_state B) (NFA.states B)))
    as Hshift.
  { intros x Hx Hne. apply elem_of_set_update. right.
    apply list_elem_of_fmap. exists x. split; [done|].
    by apply list_elem_of_filter. }
  assert (∀ x, x ∈ NFA.states B →
               f x ∈ set_update (NFA.states A)
                 ((λ state, state + corr) <$>
                    filter (λ state, state ≠ NFA.start_state B) (NFA.states B)))
    as Hf.
  { intros x Hx. unfold f. destruct (decide _); [|by apply Hshift].
    apply elem_of_set_update. by left. }
  assert (∀ p a q,
    edge_in (foldl (λ tr '((src, sym), dst), dd_update tr (f src, sym) (f <$> dst))
                   (NFA.transitions A) (NFA.transitions B)) p a q →
    edge A p a q ∨ ∃ src d, edge B src a d ∧ p = f src ∧ q = f d) as Hedges.
  { intros p a q. apply edge_in_renamed. }
  unfold thompson, closed, no_into_start, no_from_final, edge. simpl.
  fold f. split_and!.
  - apply elem_of_set_update. by left.
  - apply Hshift; [done|congruence].
  - intros p a q [H|(src & d & H & -> & ->)]%Hedges.
    + destruct (HclA _ _ _ H). rewrite !elem_of_set_update. auto.
    + destruct (HclB _ _ _ H). auto.
  - specialize (Hle _ HsA). specialize (Hge _ HfB). lia.
  - intros p a [H|(src & d & H & -> & Heq)]%Hedges.
    + by apply (HinA p a).
    + unfold f in Heq. destruct (decide (d = NFA.start_state B)) as [->|].
      * by apply (HinB src a).
      * destruct (HclB _ _ _ H) as [_ Hd].
        specialize (Hle _ HsA). specialize (Hge _ Hd). lia.
  - intros a q [H|(src & d & H & Heq & ->)]%Hedges.
    + destruct (HclA _ _ _ H) as [Hp _].
      specialize (Hle _ Hp). specialize (Hge _ HfB). lia.
    + unfold f in Heq. destruct (decide (src = NFA.start_state B)) as [->|].
      * specialize (Hle _ HfA). specialize (Hge _ HfB). lia.
      * assert (src = NFA.final_state B) as -> by lia.
        by apply (HoutB a d).
Qed.

Lemma union_thompson A B :
  thompson A → thompson B → ∃ N, NFA.union A B = Ret N ∧ thompson N.
Proof.
  intros ((HsA & HfA & HclA) & HneA & HinA & HoutA)
         ((HsB & HfB & HclB) & HneB & HinB & HoutB).
  destruct (py_max_returns _ _ HsA) as [max_s Hmax].
  destruct (py_min_returns _ _ HsB) as [min_o Hmin].
  unfold NFA.union. rewrite Hmax, Hmin. simpl.
  pose proof (py_max_spec _ _ Hmax) as Hle.
  pose proof (py_min_spec _ _ Hmin) as Hge.
  set (corr := max_s - min_o + 1).
  set (f := λ st, if decide (st = NFA.final_state B) then NFA.final_state A
                  else if decide (st = NFA.start_state B) then NFA.start_state A
                  else st + corr).
  eexists. split; [done|].
  assert (∀ x, x ∈ NFA.states B →
               f x ∈ set_update (NFA.states A)
                 ((λ state, state + corr) <$>
                    filter (λ state, state ≠ NFA.start_state B
                                     ∧ state ≠ NFA.final_state B) (NFA.states B)))
    as Hf.
  { intros x Hx. unfold f. apply elem_of_set_update.
    destruct (decide _); [by left|]. destruct (decide _); [by left|].
    right. apply list_elem_of_fmap. exists x. split; [done|].
    by apply list_elem_of_filter. }
  assert (∀ p a q,
    edge_in (foldl (λ tr '((src, sym), dsts), dd_update tr (f src, sym) (f <$> dsts))
                   (NFA.transitions A) (NFA.transitions B)) p a q →
    edge A p a q ∨ ∃ src d, edge B src a d ∧ p = f src ∧ q = f d) as Hedges.
  { intros p a q. apply edge_in_renamed. }
  unfold thompson, closed, no_into_start, no_from_final, edge. simpl.
  fold f. split_and!.
  - apply elem_of_set_update. by left.
  - apply elem_of_set_update. by left.
  - intros p a q [H|(src & d & H & -> & ->)]%Hedges.
    + destruct (HclA _ _ _ H). rewrite !elem_of_set_update. auto.
    + destruct (HclB _ _ _ H). auto.
  - done.
  - intros p a [H|(src & d & H & -> & Heq)]%Hedges.
    + by apply (HinA p a).
    + unfold f in Heq. destruct (decide (d = NFA.final_state B)) as [->|]; [done|].
      destruct (decide (d = NFA.start_state B)) as [->|].
      * by apply (HinB src a).
      * destruct (HclB _ _ _ H) as [_ Hd].
        specialize (Hle _ HsA). specialize (Hge _ Hd). lia.
  - intros a q [H|(src & d & H & Heq & ->)]%Hedges.
    + by apply (HoutA a q).
    + unfold f in Heq. destruct (decide (src = NFA.final_state B)) as [->|].
      * by apply (HoutB a d).
      * destruct (decide (src = NFA.start_state B)) as [->|]; [done|].
        destruct (HclB _ _ _ H) as [Hsrc _].
        specialize (Hle _ HfA). specialize (Hge _ Hsrc). lia.
Qed.

Lemma star_thompson A : thompson A → ∃ N, NFA.star A = Ret N ∧ thompson N.
Proof.
  intros ((HsA & HfA & HclA) & HneA & HinA & HoutA).
  destruct (py_max_returns _ _ HsA) as [max_s Hmax].
  unfold NFA.star. rewrite Hmax. simpl.
  pose proof (py_max_spec _ _ Hmax) as Hle.
  eexists. split; [done|].
  unfold thompson, closed, no_into_start, no_from_final, edge. simpl.
  assert (∀ p a q,
    edge_in (dd_update
               (dd_update (NFA.transitions A) (max_s + 1, eps)
                          [NFA.start_state A; max_s + 2])
               (NFA.final_state A, eps) [NFA.start_state A; max_s + 2]) p a q →
    edge A p a q
    ∨ ((p = max_s + 1 ∨ p = NFA.final_state A)
       ∧ (q = NFA.start_state A ∨ q = max_s + 2))) as Hedges.
  { intros p a q [[H|[[= -> ->] Hq]]%edge_in_dd_update|[[= -> ->] Hq]]%edge_in_dd_update.
    - by left.
    - right. rewrite !elem_of_cons, elem_of_nil in Hq. tauto.
    - right. rewrite !elem_of_cons, elem_of_nil in Hq. tauto. }
  specialize (Hle _ HsA) as HleS. specialize (Hle _ HfA) as HleF.
  split_and!.
  - rewrite !elem_of_set_add. tauto.
  - rewrite !elem_of_set_add. tauto.
  - intros p a q [H|[Hp Hq]]%Hedges; rewrite !elem_of_set_add.
    + destruct (HclA _ _ _ H). tauto.
    + split; [destruct Hp as [->| ->]|destruct Hq as [->| ->]]; tauto.
  - lia.
  - intros p a [H|[Hp Hq]]%Hedges.
    + destruct (HclA _ _ _ H) as [_ Hq]. specialize (Hle _ Hq). lia.
    + lia.
  - intros a q [H|[Hp Hq]]%Hedges.
    + destruct (HclA _ _ _ H) as [Hp _]. specialize (Hle _ Hp). lia.
    + lia.
Qed.

Lemma plus_thompson A : thompson A → ∃ N, NFA.plus A = Ret N ∧ thompson N.
Proof.
  intros ((HsA & HfA & HclA) & HneA & HinA & HoutA).
  destruct (py_max_returns _ _ HsA) as [max_s Hmax].
  unfold NFA.plus. rewrite Hmax. simpl.
  pose proof (py_max_spec _ _ Hmax) as Hle.
  eexists. split; [done|].
  unfold thompson, closed, no_into_start, no_from_final, edge. simpl.
  assert (∀ p a q,
    edge_in (dd_update
               (dd_add (NFA.transitions A) (max_s + 1, eps) (NFA.start_state A))
               (NFA.final_state A, eps) [NFA.start_state A; max_s + 2]) p a q →
    edge A p a q
    ∨ ((p = max_s + 1 ∨ p = NFA.final_state A)
       ∧ (q = NFA.start_state A ∨ q = max_s + 2))) as Hedges.
  { unfold dd_add.
    intros p a q [[H|[[= -> ->] Hq]]%edge_in_dd_update|[[= -> ->] Hq]]%edge_in_dd_update.
    - by left.
    - right. rewrite !elem_of_cons, elem_of_nil in Hq. tauto.
    - right. rewrite !elem_of_cons, elem_of_nil in Hq. tauto. }
  specialize (Hle _ HsA) as HleS. specialize (Hle _ HfA) as HleF.
  split_and!.
  - rewrite !elem_of_set_add. tauto.
  - rewrite !elem_of_set_add. tauto.
  - intros p a q [H|[Hp Hq]]%Hedges; rewrite !elem_of_set_add.
    + destruct (HclA _ _ _ H). tauto.
    + split; [destruct Hp as [->| ->]|destruct Hq as [->| ->]]; tauto.
  - lia.
  - intros p a [H|[Hp Hq]]%Hedges.
    + destruct (HclA _ _ _ H) as [_ Hq]. specialize (Hle _ Hq). lia.
    + lia.
  - intros a q [H|[Hp Hq]]%Hedges.
    + destruct (HclA _ _ _ H) as [Hp _]. specialize (Hle _ Hp). lia.
    + lia.
Qed.

Lemma opt_thompson A : thompson A → ∃ N, NFA.opt A = Ret N ∧ thompson N.
Proof.
  intros ((HsA & HfA & HclA) & HneA & HinA & HoutA).
  unfold NFA.opt. eexists. split; [done|].
  unfold thompson, closed, no_into_start, no_from_final, edge, dd_add. simpl.
  split_and!; try done.
  - intros p a q [H|[[= -> ->] Hq]]%edge_in_dd_update; [by apply (HclA p a q)|].
    apply list_elem_of_singleton in Hq as ->. done.
  - intros p a [H|[[= -> ->] Hq]]%edge_in_dd_update; [by apply (HinA p a)|].
    apply list_elem_of_singleton in Hq. congruence.
  - intros a q [H|[[= Heq ->] Hq]]%edge_in_dd_update; [by apply (HoutA a q)|].
    congruence.
Qed.

Lemma literal_thompson sym : ∃ N, parsing.literal sym = Ret N ∧ thompson N.
Proof.
  unfold parsing.literal.
  destruct (init_spec [0; 1] [sym] [((0, sym), [1])] 0 1)
    as (N & -> & Hs & Hf & Hst & He); [left|right; left|].
  exists N. split; [done|].
  assert (∀ p a q, edge N p a q → p = 0 ∧ q = 1) as He'.
  { intros p a q (ds & Hin & Hq)%He.
    apply list_elem_of_singleton in Hin as [= -> -> ->].
    by apply list_elem_of_singleton in Hq as ->. }
  unfold thompson, closed, no_into_start, no_from_final.
  rewrite Hs, Hf. split_and!; try done.
  - apply Hst. left.
  - apply Hst. right. left.
  - intros p a q [-> ->]%He'. rewrite !Hst, !elem_of_cons. tauto.
  - intros p a [_ ?]%He'. done.
  - intros a q [? _]%He'. done.
Qed.

Lemma add_thompson A B :
  thompson A → thompson B → ∃ N, NFA.add A B = Ret N ∧ thompson N.
Proof.
  intros HA HB. unfold NFA.add.
  destruct (copy_thompson A HA) as (A' & -> & HA'). simpl.
  by apply concat_thompson.
Qed.

Lemma or_thompson A B :
  thompson A → thompson B → ∃ N, NFA.or A B = Ret N ∧ thompson N.
Proof.
  intros HA HB. unfold NFA.or.
  destruct (copy_thompson A HA) as (A' & -> & HA'). simpl.
  by apply union_thompson.
Qed.

Lemma pop_args_spec {A} n (stack syms rest : list A) :
  parsing.pop_args n stack = Ret (syms, rest) →
  stack = syms ++ rest ∧ length syms = n.
Proof.
  revert stack syms rest. induction n as [|n IH]; intros stack syms rest; simpl.
  - by intros [= <- <-].
  - destruct stack as [|x stack]; [done|].
    destruct (parsing.pop_args n stack) as [[args r]| |] eqn:Hpop; simpl; try done.
    intros [= <- <-]. destruct (IH _ _ _ Hpop) as [-> <-]. done.
Qed.

Lemma construct_step_thompson stack tok stack' :
  Forall thompson stack →
  parsing.construct_step stack tok = Ret stack' →
  Forall thompson stack'.
Proof.
  intros Hstack. destruct tok as [n|s]; unfold parsing.construct_step.
  - destruct (parsing._operators_id n) as [p|] eqn:Hp; simpl; [|done].
    destruct (parsing.pop_args (parsing.num_args p) stack)
      as [[syms rest]| |] eqn:Hpop; simpl; try done.
    apply pop_args_spec in Hpop as [-> Hlen].
    apply Forall_app in Hstack as [Hsyms Hrest].
    unfold parsing._operators_id in Hp.
    repeat (destruct (decide (n = _)) as [->|]; [injection Hp as <-|]);
      try discriminate Hp; simpl in Hlen.
    + destruct syms as [|b [|a [|? ?]]]; try discriminate. simpl.
      apply Forall_cons_1 in Hsyms as [Hb [Ha _]%Forall_cons_1].
      destruct (add_thompson a b Ha Hb) as (N & -> & HN). simpl.
      intros [= <-]. by constructor.
    + destruct syms as [|b [|a [|? ?]]]; try discriminate. simpl.
      apply Forall_cons_1 in Hsyms as [Hb [Ha _]%Forall_cons_1].
      destruct (or_thompson a b Ha Hb) as (N & -> & HN). simpl.
      intros [= <-]. by constructor.
    + destruct syms as [|a [|? ?]]; try discriminate. simpl.
      apply Forall_cons_1 in Hsyms as [Ha _].
      destruct (star_thompson a Ha) as (N & -> & HN). simpl.
      intros [= <-]. by constructor.
    + destruct syms as [|a [|? ?]]; try discriminate. simpl.
      apply Forall_cons_1 in Hsyms as [Ha _].
      destruct (plus_thompson a Ha) as (N & -> & HN). simpl.
      intros [= <-]. by constructor.
    + destruct syms as [|a [|? ?]]; try discriminate. simpl.
      apply Forall_cons_1 in Hsyms as [Ha _].
      destruct (opt_thompson a Ha) as (N & HN' & HN).
      unfold NFA.opt in HN'. injection HN' as HN'. rewrite HN'.
      intros [= <-]. by constructor.
    + destruct syms; try discriminate. simpl. by intros [= <-].
    + destruct syms; try discriminate. simpl. by intros [= <-].
  - destruct (literal_thompson s) as (N & -> & HN). simpl.
    intros [= <-]. by constructor.
Qed.

(** C9. The automaton of a literal satisfies the invariant [thompson]: no
    transition targets its start state, none leaves its final state, the
    two states are distinct states of the automaton and every transition
    runs between its states.  [concat] (and [+]), [union] (and [|]),
    [star], [plus] and [opt] return on automata that satisfy the
    invariant, and their result satisfies it.  Hence in every automaton
    that [construct_nfa] returns no transition targets the start state
    and no transition leaves the final state. *)
Theorem thompson_invariant :
  (∀ sym, ∃ N, parsing.literal sym = Ret N ∧ thompson N)
  ∧ (∀ A B, thompson A → thompson B → ∃ N, NFA.concat A B = Ret N ∧ thompson N)
  ∧ (∀ A B, thompson A → thompson B → ∃ N, NFA.add A B = Ret N ∧ thompson N)
  ∧ (∀ A B, thompson A → thompson B → ∃ N, NFA.union A B = Ret N ∧ thompson N)
  ∧ (∀ A B, thompson A → thompson B → ∃ N, NFA.or A B = Ret N ∧ thompson N)
  ∧ (∀ A, thompson A → ∃ N, NFA.star A = Ret N ∧ thompson N)
  ∧ (∀ A, thompson A → ∃ N, NFA.plus A = Ret N ∧ thompson N)
  ∧ (∀ A, thompson A → ∃ N, NFA.opt A = Ret N ∧ thompson N)
  ∧ (∀ postfix N, parsing.construct_nfa postfix = Ret N →
       no_into_start N ∧ no_from_final N).
Proof.
  split_and!.
  - apply literal_thompson.
  - apply concat_thompson.
  - apply add_thompson.
  - apply union_thompson.
  - apply or_thompson.
  - apply star_thompson.
  - apply plus_thompson.
  - apply opt_thompson.
  - intros postfix N. unfold parsing.construct_nfa.
    destruct postfix as [|tok postfix].
    + destruct (init_spec [0] [] [] 0 0) as (N0 & -> & _ & _ & _ & He);
        [left|left|].
      intros [= <-]. split.
      * intros p a (? & []%elem_of_nil & _)%He.
      * intros a q (? & []%elem_of_nil & _)%He.
    + intros (stack & Hfold & Hres)%obind_ret.
      assert (Forall thompson stack) as Hstack.
      { revert Hfold. apply foldM_inv; [constructor|].
        intros st x st' _. apply construct_step_thompson. }
      destruct stack as [|a [|? ?]]; try discriminate.
      injection Hres as <-. apply Forall_cons_1 in Hstack as [(_ & _ & ? & ?) _].
      done.
Qed.

Lemma thompson_invariant_witness :
  ∃ N, parsing.parse_regex_as_nfa "a(aa)*b*" = Ret N
       ∧ no_into_start N ∧ no_from_final N.
Proof.
  destruct (parsing.parse_regex "a(aa)*b*") as [postfix| |] eqn:Hp;
    try (vm_compute in Hp; discriminate).
  unfold parsing.parse_regex_as_nfa. rewrite Hp. simpl.
  destruct (parsing.construct_nfa postfix) as [N| |] eqn:HN;
    try (vm_compute in Hp; injection Hp as <-; vm_compute in HN; discriminate).
  exists N. split; [done|].
  destruct thompson_invariant as (_ & _ & _ & _ & _ & _ & _ & _ & H).
  exact (H postfix N HN).
Defined.

(** ** Termination of the subset construction *)

Lemma all_vecs_length n : length (all_vecs n) = (2 ^ n)%nat.
Proof.
  induction n as [|n IH]; simpl; [done|].
  rewrite length_app, !length_fmap, IH. lia.
Qed.

Lemma all_vecs_complete (v : list bool) : v ∈ all_vecs (length v).
Proof.
  induction v as [|b v IH]; simpl; [left|].
  apply elem_of_app. destruct b; [left|right]; by apply list_elem_of_fmap_2.
Qed.

Lemma charvec_length U s : length (charvec U s) = length U.
Proof. unfold charvec. by rewrite length_fmap. Qed.

Lemma charvec_eq U s t :
  (∀ x, x ∈ s → x ∈ U) → (∀ x, x ∈ t → x ∈ U) →
  charvec U s = charvec U t → set_eqb s t = true.
Proof.
  intros Hs Ht Heq. apply set_eqb_true.
  assert (∀ u, u ∈ U → (u ∈ s ↔ u ∈ t)) as H.
  { unfold charvec in Heq. clear Hs Ht. induction U as [|a U IH]; intros u Hu.
    - by apply elem_of_nil in Hu.
    - simpl in Heq. injection Heq as Ha Heq.
      apply elem_of_cons in Hu as [->|Hu]; [|by apply IH].
      rewrite <- (bool_decide_eq_true (a ∈ s)), <- (bool_decide_eq_true (a ∈ t)).
      by rewrite Ha. }
  intros x. split; intros Hx; [apply (H x (Hs x Hx))|apply (H x (Ht x Hx))]; done.
Qed.

Lemma distinct_subsets_bound (U : list Z) (l : list (list Z)) :
  distinct_sets l → Forall (λ s, ∀ x, x ∈ s → x ∈ U) l →
  (length l ≤ 2 ^ length U)%nat.
Proof.
  intros Hdist Hsub.
  rewrite <- all_vecs_length, <- (length_fmap (charvec U) l).
  apply submseteq_length, NoDup_submseteq.
  - apply NoDup_alt. intros i j v Hi Hj.
    rewrite list_lookup_fmap in Hi, Hj.
    destruct (l !! i) as [s|] eqn:Hsi; [|done].
    destruct (l !! j) as [t|] eqn:Htj; [|done].
    simpl in Hi, Hj. injection Hi as <-. injection Hj as Hj.
    apply (Hdist i j s t Hsi Htj).
    rewrite Forall_forall in Hsub.
    apply (charvec_eq U); [| |done].
    + apply Hsub. by eapply list_elem_of_lookup_2.
    + apply Hsub. by eapply list_elem_of_lookup_2.
  - intros v (s & -> & _)%list_elem_of_fmap.
    rewrite <- (charvec_length U s). apply all_vecs_complete.
Qed.

Lemma eps_loop_subset N (U : Z → Prop) fuel wl rv res :
  (∀ p a q, edge N p a q → U q) →
  (∀ x, x ∈ wl → U x) → (∀ x, x ∈ rv → U x) →
  NFA.eps_loop N fuel wl rv = Some res → ∀ x, x ∈ res → U x.
Proof.
  intros Hedge. revert wl rv.
  induction fuel as [|fuel IH]; intros wl rv Hwl Hrv; simpl.
  - destruct wl; [|done]. by intros [= <-].
  - destruct wl as [|curr wl]; [by intros [= <-]|].
    apply IH.
    + destruct (dict_get (curr, eps) (NFA.transitions N)) as [dsts|] eqn:Hget.
      * apply (foldl_inv (λ w, ∀ x, x ∈ w → U x)).
        -- intros x Hx. apply Hwl. by right.
        -- intros w st Hst Hw. destruct (decide _); [done|].
           intros x [->|Hx]%elem_of_set_add; [|by apply Hw].
           apply (Hedge curr eps). exists dsts. split; [|done].
           by apply dict_get_Some_elem.
      * intros x Hx. apply Hwl. by right.
    + intros x [->|Hx]%elem_of_set_add; [|by apply Hrv]. apply Hwl. left.
Qed.

Lemma eps_closure_subset N s inc :
  (∀ p a q, edge N p a q → q ∈ NFA.states N) → s ∈ NFA.states N →
  ∀ x, x ∈ NFA.eps_closure N s inc → x ∈ NFA.states N.
Proof.
  intros Hedge Hs x. unfold NFA.eps_closure.
  assert (∀ y, y ∈ (if inc then [s] else []) → y ∈ NFA.states N) as Hrv.
  { intros y Hy. destruct inc.
    - by apply list_elem_of_singleton in Hy as ->.
    - by apply elem_of_nil in Hy. }
  destruct (dict_get (s, eps) (NFA.transitions N)) as [dsts|] eqn:Hget; [|by apply Hrv].
  destruct (NFA.eps_loop _ _ _ _) as [res|] eqn:Hloop; simpl; [|by apply Hrv].
  revert x. eapply eps_loop_subset; [exact Hedge| |exact Hrv|exact Hloop].
  intros y Hy. apply (proj1 (elem_of_set_of y dsts)) in Hy.
  apply (Hedge s eps). exists dsts.
  split; [|done]. by apply dict_get_Some_elem.
Qed.

(** The loop of [eps_closure] never runs out of its fuel: the states it
    has popped ([popped]) are distinct epsilon destinations. *)
Lemma eps_loop_fuel N fuel wl rv (popped : list Z) :
  NoDup wl → NoDup popped →
  (∀ x, x ∈ wl → x ∈ mjoin (NFA.transitions N).*2) →
  (∀ x, x ∈ popped → x ∈ mjoin (NFA.transitions N).*2 ∧ x ∈ rv ∧ x ∉ wl) →
  (length (mjoin (NFA.transitions N).*2) ≤ fuel + length popped)%nat →
  is_Some (NFA.eps_loop N fuel wl rv).
Proof.
  revert wl rv popped.
  induction fuel as [|fuel IH]; intros wl rv popped Hwl Hdone HwlU Hd Hlen;
    destruct wl as [|curr wl]; simpl; try done.
  - exfalso.
    assert (NoDup (curr :: popped)) as Hnd.
    { constructor; [|done]. intros Hc. apply (Hd _ Hc). left. }
    assert (curr :: popped ⊆ mjoin (NFA.transitions N).*2) as Hsub.
    { intros x [->|Hx]%elem_of_cons; [apply HwlU; left|by apply Hd]. }
    pose proof (submseteq_length _ _ (NoDup_submseteq _ _ Hnd Hsub)) as Hle.
    simpl in Hle. lia.
  - apply NoDup_cons in Hwl as [Hcurr Hwl].
    assert (curr ∉ popped) as Hcd by (intros Hc; apply (Hd _ Hc); left).
    set (I := λ w : list Z,
           NoDup w ∧ (∀ x, x ∈ w → x ∈ mjoin (NFA.transitions N).*2)
           ∧ ∀ x, x ∈ w → x ≠ curr ∧ x ∉ popped).
    assert (I wl) as Hwl0.
    { split; [done|]. split; [intros x Hx; apply HwlU; by right|].
      intros x Hx. split; [by intros ->|].
      intros Hxd. apply (Hd _ Hxd). by right. }
    assert (I (match dict_get (curr, eps) (NFA.transitions N) with
               | Some dsts =>
                   foldl (λ wl st, if decide (st ∈ set_add curr rv) then wl
                                   else set_add st wl) wl dsts
               | None => wl
               end)) as (Hnd' & HU' & Hfresh).
    { destruct (dict_get (curr, eps) (NFA.transitions N)) as [dsts|] eqn:Hget;
        [|done].
      apply (foldl_inv I); [done|].
      intros w st Hst (Hw1 & Hw2 & Hw3). destruct (decide _) as [|Hnew]; [done|].
      split; [by apply NoDup_set_add|].
      split.
      - intros x [->|Hx]%elem_of_set_add; [|by apply Hw2].
        apply list_elem_of_join. exists dsts. split; [done|].
        apply list_elem_of_fmap. exists ((curr, eps), dsts).
        split; [done|]. by apply dict_get_Some_elem.
      - intros x [->|Hx]%elem_of_set_add; [|by apply Hw3].
        split.
        + intros ->. apply Hnew. apply elem_of_set_add. by left.
        + intros Hxd. apply Hnew. apply elem_of_set_add. right. by apply Hd. }
    apply (IH _ _ (curr :: popped)).
    + done.
    + by constructor.
    + done.
    + intros x [->|Hx]%elem_of_cons.
      * split; [apply HwlU; left|]. split; [apply elem_of_set_add; by left|].
        intros Hc. by destruct (Hfresh _ Hc).
      * destruct (Hd _ Hx) as (H1 & H2 & H3).
        split; [done|]. split; [apply elem_of_set_add; by right|].
        intros Hc. by destruct (Hfresh _ Hc).
    + simpl. lia.
Qed.

Lemma eps_loop_enough_fuel N state include_state dsts :
  dict_get (state, eps) (NFA.transitions N) = Some dsts →
  ∃ res, NFA.eps_loop N (NFA.eps_fuel N) (set_of dsts)
           (if include_state : bool then [state] else []) = Some res
         ∧ NFA.eps_closure N state include_state = res.
Proof.
  intros Hget.
  destruct (eps_loop_fuel N (NFA.eps_fuel N) (set_of dsts)
              (if include_state then [state] else []) []) as [res Hres].
  - apply NoDup_set_of.
  - constructor.
  - intros x Hx. apply (proj1 (elem_of_set_of x dsts)) in Hx.
    apply list_elem_of_join. exists dsts. split; [done|].
    apply list_elem_of_fmap. exists ((state, eps), dsts).
    split; [done|]. by apply dict_get_Some_elem.
  - intros x Hx. by apply elem_of_nil in Hx.
  - unfold NFA.eps_fuel. simpl. lia.
  - exists res. split; [done|].
    unfold NFA.eps_closure. by rewrite Hget, Hres.
Qed.

Lemma foldM_returns {A B} (I : A → Prop) (f : A → B → outcome A) (a : A)
    (l : list B) :
  I a →
  (∀ a x, x ∈ l → I a → ∃ a', f a x = Ret a' ∧ I a') →
  ∃ r, foldM f a l = Ret r ∧ I r.
Proof.
  revert a. induction l as [|x l IH]; intros a Ha Hf; simpl; [eauto|].
  destruct (Hf a x (list_elem_of_here _ _) Ha) as (a' & -> & Ha'). simpl.
  apply IH; [done|]. intros. apply Hf; [by right|done].
Qed.

Lemma set_eqb_sym (s t : list Z) : set_eqb s t = set_eqb t s.
Proof. unfold set_eqb. apply andb_comm. Qed.

Lemma distinct_sets_snoc (l : list (list Z)) (s : list Z) :
  distinct_sets l → set_index s l = None → distinct_sets (l ++ [s]).
Proof.
  intros Hdist Hnone. apply set_index_None in Hnone.
  rewrite Forall_forall in Hnone.
  intros i j u v Hi Hj Heq.
  apply lookup_snoc_Some in Hi as [[Hi Hu]|[-> <-]];
    apply lookup_snoc_Some in Hj as [[Hj Hv]|[-> <-]].
  - by apply (Hdist i j u v).
  - rewrite (Hnone u) in Heq; [done|]. by eapply list_elem_of_lookup_2.
  - rewrite set_eqb_sym, (Hnone v) in Heq; [done|].
    by eapply list_elem_of_lookup_2.
  - done.
Qed.

Lemma to_dfa_sym_ok N complete cur b sym :
  (∀ p a q, edge N p a q → q ∈ NFA.states N) →
  build_inv N b → (cur < length (NFA.state_list b))%nat →
  ∃ b', NFA.to_dfa_sym N complete cur b sym = Ret b'
        ∧ build_inv N b'
        ∧ (length (NFA.state_list b') + length (NFA.worklist b)
           = length (NFA.state_list b) + length (NFA.worklist b'))%nat
        ∧ (length (NFA.state_list b) ≤ length (NFA.state_list b'))%nat.
Proof.
  intros Hedge (Hdist & Hsub & Hwl & Hmemo & Hpos) Hcur.
  unfold NFA.to_dfa_sym, py_nth.
  destruct (lookup_lt_is_Some_2 _ _ Hcur) as [current Hcurrent].
  rewrite Hcurrent. simpl.
  assert (∀ x, x ∈ current → x ∈ NFA.states N) as Hcurrent_sub.
  { rewrite Forall_forall in Hsub. apply Hsub.
    by eapply list_elem_of_lookup_2. }
  set (result_states := foldl _ [] current).
  assert (∀ x, x ∈ result_states → x ∈ NFA.states N) as Hres.
  { unfold result_states.
    apply (foldl_inv (λ rs, ∀ x, x ∈ rs → x ∈ NFA.states N)).
    - by intros x ?%elem_of_nil.
    - intros rs st Hst Hrs.
      destruct (dict_get (st, sym) (NFA.transitions N)) as [dsts|] eqn:Hget;
        [|done].
      intros x [Hx|Hx]%elem_of_set_update; [by apply Hrs|].
      apply (Hedge st sym). exists dsts. split; [|done].
      by apply dict_get_Some_elem. }
  set (acc := foldl _ (NFA.eps_memo b, []) result_states).
  assert (Forall (λ e, ∀ x, x ∈ e.2 → x ∈ NFA.states N) acc.1
          ∧ ∀ x, x ∈ acc.2 → x ∈ NFA.states N) as [Hmemo' Hnext].
  { unfold acc.
    apply (foldl_inv (λ acc : list (Z * list Z) * list Z,
             Forall (λ e, ∀ x, x ∈ e.2 → x ∈ NFA.states N) acc.1
             ∧ ∀ x, x ∈ acc.2 → x ∈ NFA.states N)).
    - split; [done|]. by intros x ?%elem_of_nil.
    - intros [memo ns] st Hst [Hm Hns]. simpl in *.
      destruct (dict_get st memo) as [c|] eqn:Hget; simpl.
      + split; [done|].
        intros x [Hx|Hx]%elem_of_set_update; [by apply Hns|].
        by apply (dict_get_Forall _ _ _ _ Hm Hget).
      + pose proof (eps_closure_subset N st true Hedge (Hres _ Hst)) as Hcl.
        split; [by apply dict_set_Forall|].
        intros x [Hx|Hx]%elem_of_set_update; [by apply Hns|by apply Hcl]. }
  destruct acc as [memo next_state]. simpl in Hmemo', Hnext.
  destruct (negb complete && (length next_state =? 0)%nat).
  { eexists. split; [done|]. simpl. split; [|lia]. by split_and!. }
  destruct (set_index next_state (NFA.state_list b)) as [i|] eqn:Hidx.
  { eexists. split; [done|]. simpl. split; [|lia]. by split_and!. }
  eexists. split; [done|]. simpl. rewrite !length_app. simpl.
  split; [|lia]. unfold build_inv. simpl. rewrite !length_app. simpl.
  split_and!; try done.
  - by apply distinct_sets_snoc.
  - apply Forall_app. split; [done|]. by constructor.
  - constructor; [lia|]. eapply Forall_impl; [exact Hwl|]. simpl. lia.
  - lia.
Qed.

Lemma to_dfa_loop_terminates N complete fuel b :
  (∀ p a q, edge N p a q → q ∈ NFA.states N) →
  build_inv N b →
  (2 ^ length (NFA.states N) + length (NFA.worklist b)
   ≤ fuel + length (NFA.state_list b))%nat →
  ∃ b', NFA.to_dfa_loop N complete fuel b = Ret b' ∧ build_inv N b'.
Proof.
  intros Hedge. revert b. induction fuel as [|fuel IH]; intros b Hinv Hfuel.
  - pose proof Hinv as (Hdist & Hsub & _).
    pose proof (distinct_subsets_bound _ _ Hdist Hsub) as Hbound.
    simpl. destruct (NFA.worklist b) eqn:Hw; simpl in Hfuel; [|lia].
    by eexists.
  - simpl. destruct (NFA.worklist b) as [|cur wl] eqn:Hw; [by eexists|].
    pose proof Hinv as (Hdist & Hsub & Hwl & Hmemo & Hpos).
    rewrite Hw in Hwl. apply Forall_cons_1 in Hwl as [Hcur Hwl].
    simpl in Hfuel. unfold py_nth.
    destruct (lookup_lt_is_Some_2 _ _ Hcur) as [current Hcurrent].
    rewrite Hcurrent. simpl.
    set (b1 := NFA.mk_build (NFA.eps_memo b) (NFA.state_list b)
                 (NFA.dfa_transitions b) wl).
    assert (build_inv N b1) as Hinv1 by (by split_and!).
    destruct (length current =? 0)%nat.
    + apply IH; [by split_and!|simpl; lia].
    + destruct (foldM_returns
                  (λ b', build_inv N b'
                         ∧ (length (NFA.state_list b') + length (NFA.worklist b1)
                            = length (NFA.state_list b1) + length (NFA.worklist b'))%nat
                         ∧ (length (NFA.state_list b1) ≤ length (NFA.state_list b'))%nat)
                  (NFA.to_dfa_sym N complete cur) b1 (NFA.alphabet N))
        as (b' & -> & Hinv' & Hlen & Hmono).
      * split_and!; [done|lia|lia].
      * intros b2 sym _ (Hinv2 & Hlen2 & Hmono2).
        destruct (to_dfa_sym_ok N complete cur b2 sym Hedge Hinv2)
          as (b3 & Hb3 & Hinv3 & Hlen3 & Hmono3).
        { simpl in Hmono2. lia. }
        exists b3. split; [done|]. split_and!; [done|lia|lia].
      * simpl. apply IH; [done|]. simpl in Hlen. lia.
Qed.

Lemma enumerate_lt {A} (l : list A) (i : nat) (x : A) :
  (i, x) ∈ DFA.enumerate l → (i < length l)%nat.
Proof.
  unfold DFA.enumerate. intros H%elem_of_zip_l.
  apply elem_of_seq in H. lia.
Qed.

Lemma to_dfa_terminates N complete fuel :
  closed N → (2 ^ length (NFA.states N) ≤ fuel)%nat →
  ∃ b D, NFA.to_dfa_build fuel N complete = Ret b
         ∧ NFA.to_dfa fuel N complete = Ret D
         ∧ distinct_sets (NFA.state_list b)
         ∧ Forall (λ s, ∀ x, x ∈ s → x ∈ NFA.states N) (NFA.state_list b)
         ∧ (length (NFA.state_list b) ≤ 2 ^ length (NFA.states N))%nat.
Proof.
  intros (Hs & Hf & Hcl) Hfuel.
  assert (∀ p a q, edge N p a q → q ∈ NFA.states N) as Hedge.
  { intros p a q H. by destruct (Hcl p a q H). }
  unfold NFA.to_dfa, NFA.to_dfa_build.
  pose proof (eps_closure_subset N (NFA.start_state N) true Hedge Hs) as Hc0.
  destruct (to_dfa_loop_terminates N complete fuel
              (NFA.mk_build
                 [(NFA.start_state N, NFA.eps_closure N (NFA.start_state N) true)]
                 [NFA.eps_closure N (NFA.start_state N) true] [] [0%nat]) Hedge)
    as (b & Hb & Hinv).
  { unfold build_inv. simpl. split_and!.
    - intros i j s t Hi Hj _.
      apply list_lookup_singleton_Some in Hi as [-> _].
      apply list_lookup_singleton_Some in Hj as [-> _]. done.
    - by constructor.
    - constructor; [lia|constructor].
    - by constructor.
    - lia. }
  { simpl. lia. }
  rewrite Hb. simpl.
  destruct Hinv as (Hdist & Hsub & _ & _ & Hpos).
  unfold DFA.init.
  rewrite decide_True.
  2:{ apply elem_of_set_of, elem_of_seq. lia. }
  rewrite (proj2 (forallb_forall _ _)).
  2:{ intros i Hi%list_elem_of_In. apply bool_decide_eq_true.
      apply (proj1 (elem_of_set_of _ _)) in Hi.
      apply list_elem_of_fmap in Hi as ([j s] & -> & Hin).
      apply list_elem_of_filter in Hin as [_ Hin]. simpl.
      apply elem_of_set_of, elem_of_seq. apply enumerate_lt in Hin. lia. }
  eexists _, _. split_and!; try done.
  by apply distinct_subsets_bound.
Qed.

(** ** Termination of the minimization *)

Lemma closed_at_mono D (S S' : list nat) x :
  (∀ y, y ∈ S → y ∈ S') → closed_at D S x → closed_at D S' x.
Proof. intros Hsub Hc sym d Hsym Hd. apply Hsub. by apply (Hc sym d). Qed.

Lemma reach_sym_ok D curr wl rs rf sym wl' rs' rf' :
  DFA.reach_sym D curr (wl, rs, rf) sym = (wl', rs', rf') →
  reach_inv D [curr] wl rs rf → curr ∈ rs ++ rf → sym ∈ DFA.alphabet D →
  reach_inv D [curr] wl' rs' rf'
  ∧ (∀ x, x ∈ rs ++ rf → x ∈ rs' ++ rf')
  ∧ (∀ d, dict_get (curr, sym) (DFA.transitions D) = Some d → d ∈ rs' ++ rf')
  ∧ (length (rs' ++ rf') + length wl = length (rs ++ rf) + length wl')%nat.
Proof.
  intros Hstep (Hnd & Hsound & Hwl & Hclosed) Hcurr Hsym.
  unfold DFA.reach_sym in Hstep.
  destruct (dict_get (curr, sym) (DFA.transitions D)) as [dst|] eqn:Hget.
  2:{ injection Hstep as <- <- <-. split_and!; try done; by split_and!. }
  destruct (bool_decide (dst ∉ rs) && bool_decide (dst ∉ rf)) eqn:Hnew.
  2:{ injection Hstep as <- <- <-. split_and!; [by split_and!|done| |done].
      intros d [= <-]. apply elem_of_app.
      apply andb_false_iff in Hnew as [Hn|Hn];
        apply bool_decide_eq_false in Hn;
        [left; by destruct (decide (dst ∈ rs))
        |right; by destruct (decide (dst ∈ rf))]. }
  apply andb_true_iff in Hnew as [Hrs%bool_decide_eq_true Hrf%bool_decide_eq_true].
  assert (dfa_reachable D dst) as Hreach.
  { eapply reach_step; [by apply Hsound| |]; done. }
  assert (rs' ++ rf' ≡ₚ dst :: (rs ++ rf) ∧ wl' = dst :: wl) as [Hperm ->].
  { destruct (decide (dst ∈ DFA.final_states D)); injection Hstep as <- <- <-.
    - split; [|done]. unfold set_add. rewrite decide_False by done.
      rewrite app_assoc. by rewrite <- Permutation_cons_append.
    - split; [|done]. unfold set_add. rewrite decide_False by done.
      rewrite <- app_assoc. simpl. by rewrite <- Permutation_middle. }
  assert (∀ x, x ∈ rs' ++ rf' ↔ x = dst ∨ x ∈ rs ++ rf) as Hmem.
  { intros x. by rewrite Hperm, elem_of_cons. }
  split_and!.
  - split_and!.
    + rewrite Hperm. apply NoDup_cons. split; [|done].
      rewrite elem_of_app. tauto.
    + intros x [->|Hx]%Hmem; [done|by apply Hsound].
    + intros x [->|Hx]%elem_of_cons; apply Hmem; [by left|right; by apply Hwl].
    + intros x [->|Hx]%Hmem; [left; left|].
      destruct (Hclosed x Hx) as [?|[?|Hc]]; [left; by right|by right; left|].
      right. right. eapply closed_at_mono; [|exact Hc].
      intros y Hy. apply Hmem. by right.
  - intros x Hx. apply Hmem. by right.
  - intros d [= <-]. apply Hmem. by left.
  - rewrite Hperm. simpl. lia.
Qed.

#[local] Arguments DFA.reach_sym : simpl never.

Lemma reach_fold_ok D curr syms wl rs rf wl' rs' rf' :
  foldl (DFA.reach_sym D curr) (wl, rs, rf) syms = (wl', rs', rf') →
  (∀ sym, sym ∈ syms → sym ∈ DFA.alphabet D) →
  reach_inv D [curr] wl rs rf → curr ∈ rs ++ rf →
  reach_inv D [curr] wl' rs' rf'
  ∧ (∀ x, x ∈ rs ++ rf → x ∈ rs' ++ rf')
  ∧ (∀ sym d, sym ∈ syms →
       dict_get (curr, sym) (DFA.transitions D) = Some d → d ∈ rs' ++ rf')
  ∧ (length (rs' ++ rf') + length wl = length (rs ++ rf) + length wl')%nat.
Proof.
  revert wl rs rf. induction syms as [|sym syms IH]; intros wl rs rf; simpl.
  - intros [= <- <- <-] _ Hinv Hcurr. split_and!; try done.
    by intros sym d ?%elem_of_nil.
  - intros Hfold Hal Hinv Hcurr.
    destruct (DFA.reach_sym D curr (wl, rs, rf) sym) as [[wl1 rs1] rf1] eqn:Hstep.
    destruct (reach_sym_ok _ _ _ _ _ _ _ _ _ Hstep Hinv Hcurr)
      as (Hinv1 & Hmono1 & Hdst1 & Hlen1); [apply Hal; left|].
    destruct (IH _ _ _ Hfold) as (Hinv' & Hmono' & Hdst' & Hlen');
      [intros; apply Hal; by right|done|by apply Hmono1|].
    split_and!; [done|by auto| |lia].
    intros sym' d [->|Hin]%elem_of_cons Hd; [|by eapply Hdst'].
    apply Hmono'. by apply Hdst1.
Qed.

Lemma dfa_reachable_universe D x :
  dfa_reachable D x → x ∈ DFA.start_state D :: (DFA.transitions D).*2.
Proof.
  intros [|s sym d _ _ Hget]; [left|right].
  apply list_elem_of_fmap. exists ((s, sym), d). split; [done|].
  by apply dict_get_Some_elem.
Qed.

Lemma reach_inv_bound D busy wl rs rf :
  reach_inv D busy wl rs rf →
  (length (rs ++ rf) ≤ S (length (DFA.transitions D)))%nat.
Proof.
  intros (Hnd & Hsound & _).
  replace (S (length (DFA.transitions D)))
    with (length (DFA.start_state D :: (DFA.transitions D).*2))
    by (simpl; by rewrite length_fmap).
  apply submseteq_length, NoDup_submseteq; [done|].
  intros x Hx. by apply dfa_reachable_universe, Hsound.
Qed.

Lemma reach_loop_terminates D fuel wl rs rf :
  reach_inv D [] wl rs rf →
  (S (length (DFA.transitions D)) + length wl ≤ fuel + length (rs ++ rf))%nat →
  ∃ rs' rf', DFA.reach_loop D fuel wl rs rf = Ret (rs', rf')
             ∧ reach_inv D [] [] rs' rf'
             ∧ (∀ x, x ∈ rs ++ rf → x ∈ rs' ++ rf').
Proof.
  revert wl rs rf. induction fuel as [|fuel IH]; intros wl rs rf Hinv Hfuel.
  - pose proof (reach_inv_bound _ _ _ _ _ Hinv) as Hbound.
    destruct wl; simpl in *; [|lia]. by eexists _, _.
  - destruct wl as [|curr wl]; simpl; [by eexists _, _|].
    destruct Hinv as (Hnd & Hsound & Hwl & Hclosed).
    assert (curr ∈ rs ++ rf) as Hcurr by (apply Hwl; left).
    assert (reach_inv D [curr] wl rs rf) as Hinv0.
    { split_and!; try done.
      - intros x Hx. apply Hwl. by right.
      - intros x Hx.
        destruct (Hclosed x Hx) as [[->|?]%elem_of_cons|[?%elem_of_nil|?]];
          [right; left; left|by left|done|by right; right]. }
    destruct (foldl _ _ _) as [[wl1 rs1] rf1] eqn:Hfold.
    destruct (reach_fold_ok _ _ _ _ _ _ _ _ _ Hfold) as (Hinv1 & Hmono & Hdst & Hlen);
      [done..|].
    destruct (IH wl1 rs1 rf1) as (rs' & rf' & -> & Hinv' & Hmono').
    + destruct Hinv1 as (Hnd1 & Hsound1 & Hwl1 & Hclosed1). split_and!; try done.
      intros x Hx. destruct (Hclosed1 x Hx) as [?|[->%list_elem_of_singleton|?]];
        [by left| |by right; right].
      right. right. intros sym d Hsym Hd. by apply (Hdst sym d).
    + simpl in Hfuel. lia.
    + eexists _, _. split; [done|]. split; [done|]. auto.
Qed.

Lemma reach_inv_complete D rs rf x :
  reach_inv D [] [] rs rf → DFA.start_state D ∈ rs ++ rf →
  dfa_reachable D x → x ∈ rs ++ rf.
Proof.
  intros (_ & _ & _ & Hclosed) Hstart Hx.
  induction Hx as [|s sym d _ IH Hsym Hget]; [done|].
  destruct (Hclosed s IH) as [?%elem_of_nil|[?%elem_of_nil|Hc]]; try done.
  by apply (Hc sym d).
Qed.

Lemma mjoin_split_perm (parts : list (list nat)) index part tc ntc :
  parts !! index = Some part → tc ++ ntc ≡ₚ part →
  mjoin (<[index:=tc]> parts ++ [ntc]) ≡ₚ mjoin parts.
Proof.
  intros Hidx Hperm.
  rewrite insert_take_drop by (by eapply lookup_lt_Some).
  rewrite <- (take_drop_middle parts index part Hidx) at 3.
  rewrite !join_app. simpl. rewrite app_nil_r, <- Hperm.
  rewrite <- !app_assoc. apply Permutation_app_head.
  apply Permutation_app_head. apply Permutation_app_comm.
Qed.

Lemma length_le_mjoin (l : list (list nat)) :
  Forall (λ c, c ≠ []) l → (length l ≤ length (mjoin l))%nat.
Proof.
  induction 1 as [|c l Hc _ IH]; simpl; [done|].
  rewrite length_app. destruct c; [done|]. simpl. lia.
Qed.

Lemma refine_index_ok R D curr_part sym r index :
  refine_inv R r → (index < length (DFA.partitions r))%nat →
  ∃ r', DFA.refine_index D curr_part sym r index = Ret r'
        ∧ refine_inv R r'
        ∧ (length (DFA.partitions r') + length (DFA.worklist r)
           = length (DFA.partitions r) + length (DFA.worklist r'))%nat
        ∧ (length (DFA.partitions r) ≤ length (DFA.partitions r'))%nat.
Proof.
  intros (Hne & Hperm & Hwl) Hidx.
  destruct (lookup_lt_is_Some_2 _ _ Hidx) as [part Hpart].
  destruct (DFA.refine_index D curr_part sym r index) as [r'| |] eqn:Hrun.
  2,3: unfold DFA.refine_index, py_nth in Hrun; rewrite Hpart in Hrun;
       simpl in Hrun; destruct (DFA.split_cell _ _ _ _);
       destruct (_ || _); discriminate.
  destruct (refine_index_cases D curr_part sym r r' index part Hpart Hrun)
    as [Hsame Hsplit].
  set (to_curr := filter (λ st, DFA.lands_in D curr_part sym st = true) part) in *.
  set (not_to_curr := filter (λ st, DFA.lands_in D curr_part sym st ≠ true) part) in *.
  exists r'. split; [done|].
  destruct (decide (to_curr = [])) as [Htc|Htc].
  { rewrite (Hsame (or_introl Htc)). split; [by split_and!|lia]. }
  destruct (decide (not_to_curr = [])) as [Hntc|Hntc].
  { rewrite (Hsame (or_intror Hntc)). split; [by split_and!|lia]. }
  destruct (Hsplit Htc Hntc) as (Hparts & _ & Hwork).
  assert (length (DFA.partitions r') = S (length (DFA.partitions r))) as Hlen.
  { rewrite Hparts, length_app, length_insert. simpl. lia. }
  split_and!.
  - unfold refine_inv. rewrite Hparts. split_and!.
    + apply Forall_app. split; [|by constructor].
      apply Forall_insert; done.
    + rewrite <- Hperm. eapply mjoin_split_perm; [done|].
      apply filter_app_complement.
    + rewrite <- Hparts, Hwork, Hlen.
      destruct (_ || _); (constructor; [lia|]);
        (eapply Forall_impl; [exact Hwl|]); simpl; lia.
  - rewrite Hwork, Hlen. destruct (_ || _); simpl; lia.
  - lia.
Qed.

Lemma refine_sym_ok R D curr_part r sym :
  refine_inv R r →
  ∃ r', DFA.refine_sym D curr_part r sym = Ret r'
        ∧ refine_inv R r'
        ∧ (length (DFA.partitions r') + length (DFA.worklist r)
           = length (DFA.partitions r) + length (DFA.worklist r'))%nat
        ∧ (length (DFA.partitions r) ≤ length (DFA.partitions r'))%nat.
Proof.
  intros Hinv. unfold DFA.refine_sym.
  apply (foldM_returns
           (λ r', refine_inv R r'
                  ∧ (length (DFA.partitions r') + length (DFA.worklist r)
                     = length (DFA.partitions r) + length (DFA.worklist r'))%nat
                  ∧ (length (DFA.partitions r) ≤ length (DFA.partitions r'))%nat)).
  - split_and!; [done|lia|lia].
  - intros r1 index Hindex%elem_of_seq (Hinv1 & Hlen1 & Hmono1).
    destruct (refine_index_ok R D curr_part sym r1 index Hinv1)
      as (r2 & Hr2 & Hinv2 & Hlen2 & Hmono2); [lia|].
    exists r2. split; [done|]. split_and!; [done|lia|lia].
Qed.

Lemma refine_loop_terminates R D fuel r :
  refine_inv R r →
  (length R + length (DFA.worklist r) ≤ fuel + length (DFA.partitions r))%nat →
  ∃ r', DFA.refine_loop D fuel r = Ret r' ∧ refine_inv R r'.
Proof.
  revert r. induction fuel as [|fuel IH]; intros r Hinv Hfuel.
  - pose proof Hinv as (Hne & Hperm & _).
    pose proof (length_le_mjoin _ Hne) as Hle. rewrite Hperm in Hle.
    simpl. destruct (DFA.worklist r); simpl in Hfuel; [|lia]. by eexists.
  - simpl. destruct (DFA.worklist r) as [|top wl] eqn:Hw; [by eexists|].
    pose proof Hinv as (Hne & Hperm & Hwl).
    rewrite Hw in Hwl. apply Forall_cons_1 in Hwl as [Htop Hwl].
    unfold py_nth.
    destruct (lookup_lt_is_Some_2 _ _ Htop) as [curr_part ->]. simpl.
    set (r1 := DFA.mk_refinement (DFA.partitions r) (DFA.part_finals r) wl).
    assert (refine_inv R r1) as Hinv1 by (by split_and!).
    destruct (foldM_returns
                (λ r', refine_inv R r'
                       ∧ (length (DFA.partitions r') + length (DFA.worklist r1)
                          = length (DFA.partitions r1) + length (DFA.worklist r'))%nat)
                (DFA.refine_sym D curr_part) r1 (DFA.alphabet D))
      as (r' & -> & Hinv' & Hlen).
    + split; [done|lia].
    + intros r2 sym _ (Hinv2 & Hlen2).
      destruct (refine_sym_ok R D curr_part r2 sym Hinv2)
        as (r3 & Hr3 & Hinv3 & Hlen3 & _).
      exists r3. split; [done|]. split; [done|lia].
    + simpl. apply IH; [done|]. simpl in Hlen, Hfuel. lia.
Qed.

Lemma state_map_inner (i x : nat) (sts : list nat) (m : list (nat * nat)) :
  is_Some (dict_get x m) ∨ x ∈ sts →
  is_Some (dict_get x (foldl (λ m state, dict_set state i m) m sts)).
Proof.
  revert m. induction sts as [|s sts IH]; intros m; simpl.
  - intros [?|?%elem_of_nil]; done.
  - intros H. apply IH. rewrite dict_get_set.
    destruct (decide (x = s)) as [->|Hne]; [by left|].
    destruct H as [?|[?|?]%elem_of_cons]; [by left|done|by right].
Qed.

Lemma state_map_keys (parts : list (list nat)) (x : nat) :
  x ∈ mjoin parts → is_Some (dict_get x (DFA.build_state_map parts)).
Proof.
  intros (sts & Hx & Hsts)%list_elem_of_join.
  apply list_elem_of_lookup in Hsts as [i Hi].
  assert ((i, sts) ∈ DFA.enumerate parts) as Hin.
  { unfold DFA.enumerate. apply elem_of_lookup_zip_with.
    exists i, i, sts. split_and!; [done| |done].
    apply lookup_seq. split; [done|]. by eapply lookup_lt_Some. }
  unfold DFA.build_state_map.
  assert (∀ (l : list (nat * list nat)) m,
            is_Some (dict_get x m) ∨ (∃ j c, (j, c) ∈ l ∧ x ∈ c) →
            is_Some (dict_get x
              (foldl (λ m '(index, sts),
                        foldl (λ m state, dict_set state index m) m sts) m l)))
    as Hgen.
  { induction l as [|[j c] l IH]; intros m; simpl.
    - intros [?|(? & ? & ?%elem_of_nil & _)]; done.
    - intros H. apply IH.
      destruct H as [H|(j' & c' & [[= -> ->]|Hin']%elem_of_cons & Hx')].
      + left. apply state_map_inner. by left.
      + left. apply state_map_inner. by right.
      + right. eauto. }
  apply Hgen. right. eauto.
Qed.

Lemma build_transitions_returns D (parts : list (list nat))
    (state_map : list (nat * nat)) :
  (∀ state sym dst, state ∈ mjoin parts → sym ∈ DFA.alphabet D →
     dict_get (state, sym) (DFA.transitions D) = Some dst →
     is_Some (dict_get dst state_map)) →
  ∃ tr, DFA.build_transitions D parts state_map = Ret tr.
Proof.
  intros Hkeys. unfold DFA.build_transitions.
  destruct (foldM_returns (λ _, True)
    (λ tr '(index, sts),
       foldM (λ tr state,
                foldM (λ tr sym,
                         match dict_get (state, sym) (DFA.transitions D) with
                         | Some dst =>
                             i <- py_item state_map dst;;
                             Ret (dict_set (index, sym) i tr)
                         | None => Ret tr
                         end) tr (DFA.alphabet D)) tr sts)
    [] (DFA.enumerate parts)) as (tr & Htr & _); [done| |by exists tr].
  intros tr [index sts] Hin _.
  assert (sts ∈ parts) as Hsts.
  { unfold DFA.enumerate in Hin. by apply elem_of_zip_r in Hin. }
  apply (foldM_returns (λ _, True)); [done|].
  intros tr1 state Hstate _.
  apply (foldM_returns (λ _, True)); [done|].
  intros tr2 sym Hsym _.
  destruct (dict_get (state, sym) (DFA.transitions D)) as [dst|] eqn:Hget;
    [|by eexists].
  destruct (Hkeys state sym dst) as [i Hi]; [|done..|].
  { apply list_elem_of_join. eauto. }
  unfold py_item. rewrite Hi. simpl. by eexists.
Qed.

Lemma minimize_terminates D fuel :
  (S (length (DFA.transitions D)) ≤ fuel)%nat →
  ∃ M o, DFA.minimize fuel D = Ret M
         ∧ DFA.minimize_partitions fuel D = Ret o
         ∧ ∀ r, o = Some r →
             ∃ R, NoDup R
                  ∧ (∀ x, x ∈ R ↔ dfa_reachable D x)
                  ∧ Forall (λ c, c ≠ []) (DFA.partitions r)
                  ∧ mjoin (DFA.partitions r) ≡ₚ R
                  ∧ (length (DFA.partitions r) ≤ length R)%nat.
Proof.
  intros Hfuel. unfold DFA.minimize, DFA.minimize_partitions.
  set (init := if decide (DFA.start_state D ∈ DFA.final_states D)
               then ([], [DFA.start_state D]) else ([DFA.start_state D], [])).
  assert (reach_inv D [] [DFA.start_state D] init.1 init.2
          ∧ DFA.start_state D ∈ init.1 ++ init.2
          ∧ length (init.1 ++ init.2) = 1%nat) as (Hinv0 & Hstart0 & Hlen0).
  { unfold init. destruct (decide _); simpl.
    - split_and!; [|left|done]. split_and!.
      + apply NoDup_singleton.
      + intros x ->%list_elem_of_singleton. constructor.
      + done.
      + intros x Hx. by left.
    - split_and!; [|left|done]. split_and!.
      + apply NoDup_singleton.
      + intros x ->%list_elem_of_singleton. constructor.
      + done.
      + intros x Hx. by left. }
  destruct init as [rs0 rf0]. simpl in Hinv0, Hstart0, Hlen0.
  destruct (reach_loop_terminates D fuel [DFA.start_state D] rs0 rf0 Hinv0)
    as (rs & rf & -> & Hinv & Hmono); [simpl; lia|].
  simpl.
  pose proof (reach_inv_bound _ _ _ _ _ Hinv) as Hbound.
  pose proof Hinv as (Hnd & Hsound & _).
  assert (∀ x, x ∈ rf ++ rs ↔ dfa_reachable D x) as Hreach.
  { intros x. split.
    - intros Hx. apply Hsound. rewrite elem_of_app in *. tauto.
    - intros Hx. apply (reach_inv_complete D rs rf x Hinv (Hmono _ Hstart0)) in Hx.
      rewrite elem_of_app in *. tauto. }
  assert (NoDup (rf ++ rs)) as HndR.
  { by rewrite (Permutation_app_comm rf rs). }
  assert (length (rf ++ rs) ≤ fuel)%nat as HlenR.
  { rewrite length_app in *. lia. }
  destruct (length rf =? 0)%nat eqn:Hrf.
  { simpl. eexists _, _. split_and!; [done..|]. intros r [=]. }
  apply Nat.eqb_neq in Hrf.
  set (parts := if (length rs =? 0)%nat then [rf] else [rf; rs]).
  assert (refine_inv (rf ++ rs)
            (DFA.mk_refinement parts [0%nat] (rev (seq 0 (length parts)))))
    as Hrinv.
  { unfold refine_inv, parts. simpl.
    destruct (length rs =? 0)%nat eqn:Hrs.
    - apply Nat.eqb_eq in Hrs. destruct rs; [|done]. simpl.
      split_and!.
      + constructor; [|done]. by destruct rf.
      + by rewrite !app_nil_r.
      + constructor; [lia|done].
    - apply Nat.eqb_neq in Hrs. simpl. split_and!.
      + constructor; [by destruct rf|]. constructor; [by destruct rs|done].
      + by rewrite app_nil_r.
      + repeat constructor; lia. }
  destruct (refine_loop_terminates (rf ++ rs) D fuel _ Hrinv) as (r & -> & Hr).
  { simpl. rewrite length_rev, length_seq. lia. }
  simpl.
  pose proof Hr as (Hne & Hperm & _).
  destruct (build_transitions_returns D (DFA.partitions r)
              (DFA.build_state_map (DFA.partitions r))) as [tr ->].
  { intros state sym dst Hstate Hsym Hget. apply state_map_keys.
    rewrite Hperm. apply Hreach. eapply reach_step; [|done..].
    apply Hreach. by rewrite <- Hperm. }
  simpl. unfold py_item.
  destruct (state_map_keys (DFA.partitions r) (DFA.start_state D)) as [i ->].
  { rewrite Hperm. apply Hreach. constructor. }
  simpl. eexists _, _. split_and!; [done..|].
  intros r' [= <-]. exists (rf ++ rs). split_and!; try done.
  rewrite <- Hperm. by apply length_le_mjoin.
Qed.

(** C8. With fuel for [2 ^ |states|] iterations, the loop of [to_dfa]
    ends on every automaton whose transitions run between its states and
    [to_dfa] returns a DFA: the subsets it lists are pairwise distinct
    sets of states of the automaton, so there are at most [2 ^ |states|]
    of them.  With fuel for [|transitions| + 1] iterations, both loops of
    [minimize] end on every DFA and [minimize] returns: the cells of the
    final partition are non-empty, together they hold each reachable
    state exactly once, so they are disjoint and there are no more cells
    than reachable states. *)
Theorem termination_bounds :
  (∀ N complete fuel,
     closed N → (2 ^ length (NFA.states N) ≤ fuel)%nat →
     ∃ b D, NFA.to_dfa_build fuel N complete = Ret b
            ∧ NFA.to_dfa fuel N complete = Ret D
            ∧ distinct_sets (NFA.state_list b)
            ∧ Forall (λ s, ∀ x, x ∈ s → x ∈ NFA.states N) (NFA.state_list b)
            ∧ (length (NFA.state_list b) ≤ 2 ^ length (NFA.states N))%nat)
  ∧ (∀ D fuel,
       (S (length (DFA.transitions D)) ≤ fuel)%nat →
       ∃ M o, DFA.minimize fuel D = Ret M
              ∧ DFA.minimize_partitions fuel D = Ret o
              ∧ ∀ r, o = Some r →
                  ∃ R, NoDup R
                       ∧ (∀ x, x ∈ R ↔ dfa_reachable D x)
                       ∧ Forall (λ c, c ≠ []) (DFA.partitions r)
                       ∧ mjoin (DFA.partitions r) ≡ₚ R
                       ∧ (length (DFA.partitions r) ≤ length R)%nat).
Proof.
  split.
  - apply to_dfa_terminates.
  - apply minimize_terminates.
Qed.

Lemma closed_ab_nfa : closed ab_nfa.
Proof.
  unfold closed, edge, edge_in. simpl. split_and!.
  - left.
  - right. right. left.
  - intros p a q (ds & Hin & Hq).
    rewrite !elem_of_cons, elem_of_nil in Hin.
    destruct Hin as [[= -> -> ->]|[[= -> -> ->]|[]]];
      apply list_elem_of_singleton in Hq as ->;
      rewrite !elem_of_cons; auto.
Qed.

Lemma termination_bounds_witness :
  (∃ b D, NFA.to_dfa_build 8 ab_nfa false = Ret b
          ∧ NFA.to_dfa 8 ab_nfa false = Ret D
          ∧ distinct_sets (NFA.state_list b)
          ∧ Forall (λ s, ∀ x, x ∈ s → x ∈ NFA.states ab_nfa) (NFA.state_list b)
          ∧ (length (NFA.state_list b) ≤ 2 ^ length (NFA.states ab_nfa))%nat)
  ∧ (∃ M o, DFA.minimize 4 chain_dfa = Ret M
            ∧ DFA.minimize_partitions 4 chain_dfa = Ret o
            ∧ ∀ r, o = Some r →
                ∃ R, NoDup R
                     ∧ (∀ x, x ∈ R ↔ dfa_reachable chain_dfa x)
                     ∧ Forall (λ c, c ≠ []) (DFA.partitions r)
                     ∧ mjoin (DFA.partitions r) ≡ₚ R
                     ∧ (length (DFA.partitions r) ≤ length R)%nat).
Proof.
  destruct termination_bounds as [Hdfa Hmin]. split.
  - apply (Hdfa ab_nfa false 8%nat).
    + exact closed_ab_nfa.
    + simpl. lia.
  - apply (Hmin chain_dfa 4%nat). simpl. lia.
Defined.

(** ** Round trips through the minimized DFA and through state elimination *)

(** The order in which Python iterates over the set of states does not
    matter for [a+a]: whatever it is, the loop of test.py leaves [a+]. *)
Lemma state_elimination_a_plus_a_any_order (sts : list Z) :
  sts ≡ₚ [0; 1; 2; 3; 5] →
  test.state_elimination
    (NFA.mk sts ["a"]
       [((0, "a"), [1]); ((2, ""), [0]); ((1, ""), [0; 3]); ((3, "a"), [5])]
       2 5)
  = Ret [parsing.Sym "a"; parsing.Op 3].
Proof.
  intros Hperm. symmetry in Hperm.
  apply permutations_Permutation in Hperm. revert sts Hperm.
  apply (proj1 (Forall_forall _ (permutations [0; 1; 2; 3; 5]))).
  match goal with |- ?G => apply (bool_decide_unpack G) end.
  vm_compute. reflexivity.
Qed.

(** C1 (does not hold of the code).  The three acceptance tests disagree
    for the regular expression [a+a] on the input [a].  The compiled
    automaton and its minimized DFA reject.  Eliminating the states of
    the compiled automaton with the loop of test.py (its heuristic picks
    the states 3, 0, 1, never on a tie) leaves the label [a+], as a
    postfix expression and as the string [construct_string] renders, and
    the automaton compiled from either accepts: when state 1 is removed
    the label of its incoming edge, of its loop and of its outgoing edge
    are all [a], and for three equal labels the combiner answers
    [repeat+] where [pre repeat* post] is [a a* a].  The default
    combiner does the same in that order and leaves [(a)+].  On the
    automaton that test.py itself hands to the loop, rebuilt from the
    minimized DFA, the loop leaves [aa+], which rejects. *)
Theorem round_trip_a_plus_a :
  ∃ onfa dfa mdfa,
    parsing.parse_regex_as_nfa "a+a" = Ret onfa
    ∧ NFA.to_dfa 4 onfa false = Ret dfa
    ∧ DFA.minimize 4 dfa = Ret mdfa
    ∧ NFA.accept onfa ["a"] = false
    ∧ DFA.accept mdfa ["a"] = false
    ∧ test.state_elimination onfa = Ret [parsing.Sym "a"; parsing.Op 3]
    ∧ parsing.construct_string [parsing.Sym "a"; parsing.Op 3] = Ret "a+"
    ∧ (∃ N, parsing.construct_nfa [parsing.Sym "a"; parsing.Op 3] = Ret N
            ∧ NFA.accept N ["a"] = true)
    ∧ (∃ N, parsing.parse_regex_as_nfa "a+" = Ret N
            ∧ NFA.accept N ["a"] = true)
    ∧ (∃ N, test.rip_all [3; 0; 1] onfa = (NFA.RipSelf, N)
            ∧ NFA.states N = [2; 5]
            ∧ NFA.transitions N = [((2, "(a)+"), [5])])
    ∧ (∃ N, parsing.parse_regex_as_nfa "(a)+" = Ret N
            ∧ NFA.accept N ["a"] = true)
    ∧ (∃ nfa N,
         test.detour 4 onfa = Ret nfa
         ∧ test.state_elimination nfa
           = Ret [parsing.Sym "a"; parsing.Sym "a"; parsing.Op 3; parsing.Op 0]
         ∧ parsing.construct_string
             [parsing.Sym "a"; parsing.Sym "a"; parsing.Op 3; parsing.Op 0]
           = Ret "aa+"
         ∧ parsing.construct_nfa
             [parsing.Sym "a"; parsing.Sym "a"; parsing.Op 3; parsing.Op 0]
           = Ret N
         ∧ NFA.accept N ["a"] = false).
Proof.
  eexists _, _, _.
  split; [vm_compute; reflexivity|].
  split; [vm_compute; reflexivity|].
  split; [vm_compute; reflexivity|].
  split; [vm_compute; reflexivity|].
  split; [vm_compute; reflexivity|].
  split; [vm_compute; reflexivity|].
  split; [vm_compute; reflexivity|].
  split; [eexists; split; vm_compute; reflexivity|].
  split; [eexists; split; vm_compute; reflexivity|].
  split; [eexists; split; [vm_compute; reflexivity|split; reflexivity]|].
  split; [eexists; split; vm_compute; reflexivity|].
  eexists _, _.
  split; [vm_compute; reflexivity|].
  split; [vm_compute; reflexivity|].
  split; [vm_compute; reflexivity|].
  split; vm_compute; reflexivity.
Qed.

(** ** The fuel of [parse_regex] *)

Lemma get_Some_lt n s a : String.get n s = Some a → (n < String.length s)%nat.
Proof.
  revert s. induction n as [|n IH]; intros [|c s]; simpl; try done; [lia|].
  intros H%IH. lia.
Qed.

Lemma char_at_cases regex i :
  (∃ c, parsing.char_at regex i = Ret c ∧ (i < String.length regex)%nat)
  ∨ parsing.char_at regex i = Raise IndexError.
Proof.
  unfold parsing.char_at. destruct (String.get i regex) eqn:Hget; [|by right].
  left. eexists. split; [done|]. by eapply get_Some_lt.
Qed.

Lemma skip_group_name_fuel regex fuel pos :
  (1 ≤ pos)%nat → (String.length regex ≤ fuel + (pos - 1))%nat →
  match parsing.skip_group_name regex fuel pos with
  | Ret p => (pos ≤ p)%nat
  | Raise _ => True
  | OutOfFuel => False
  end.
Proof.
  revert pos. induction fuel as [|fuel IH]; intros pos Hpos Hlen; simpl.
  - destruct (char_at_cases regex (pos - 1)) as [(c & -> & Hlt)| ->]; simpl; [lia|done].
  - destruct (char_at_cases regex (pos - 1)) as [(c & -> & Hlt)| ->]; simpl; [|done].
    destruct (decide (c = ">")); [done|].
    specialize (IH (pos + 1)%nat). 
    destruct (parsing.skip_group_name regex fuel (pos + 1)); [|done|]; 
      (lapply IH; [|lia]; intros IH'; lapply IH'; [|lia]; lia).
Qed.

Lemma pop_to_open_fuel stack out : parsing.pop_to_open stack out ≠ OutOfFuel.
Proof.
  revert out. induction stack as [|x stack IH]; intros out; simpl; [done|].
  destruct (decide _); [done|]. apply IH.
Qed.

Lemma pop_higher_fuel prec stack out :
  parsing.pop_higher prec stack out ≠ OutOfFuel.
Proof.
  revert out. induction stack as [|x stack IH]; intros out; simpl; [done|].
  destruct (parsing._operators_id x); [|done].
  destruct (decide _); [apply IH|done].
Qed.

Lemma parse_step_measure regex st :
  (parsing.current_pos st < String.length regex)%nat →
  match parsing.parse_step regex st with
  | Ret st' => (parse_measure regex st' < parse_measure regex st)%nat
  | Raise _ => True
  | OutOfFuel => False
  end.
Proof.
  intros Hpos. unfold parsing.parse_step, parse_measure.
  destruct (char_at_cases regex (parsing.current_pos st)) as [(c & -> & _)| ->];
    [|done].
  unfold obind at 1.
  match goal with
  | |- match obind _ ?k with _ => _ end =>
      assert (∀ sym0 escape pos1, (parsing.current_pos st ≤ pos1)%nat →
              match k (sym0, escape, pos1) with
              | Ret st' =>
                  (2 * (String.length regex - parsing.current_pos st')
                   + (if parsing.concatenate_next st' then 1 else 0)
                   < 2 * (String.length regex - parsing.current_pos st)
                     + (if parsing.concatenate_next st then 1 else 0))%nat
              | Raise _ => True
              | OutOfFuel => False
              end) as Htail
  end.
  { intros sym0 escape pos1 Hpos1. cbv beta iota.
    destruct (parsing.concatenate_next st && _) eqn:Hb.
    - apply andb_true_iff in Hb as [-> _].
      destruct (decide (None = Some "(")) as [?|_]; [done|].
      destruct (decide (None = Some ")")) as [?|_]; [done|].
      cbn [parsing._operators_sym].
      pose proof (pop_higher_fuel (parsing.precedence parsing.op_concat)
                    (parsing.stack st) (parsing.postfix_output st)) as Hf.
      destruct (parsing.pop_higher _ _ _) as [[stack' out']| |]; simpl;
        [lia|done|done].
    - clear Hb.
      destruct (decide (Some sym0 = Some "(")) as [_|_].
      + destruct (char_at_cases regex (pos1 + 1)) as [(c3 & -> & _)| ->];
          [|done].
        unfold obind at 1.
        destruct (decide (c3 = "?")) as [_|_]; [|simpl; lia].
        destruct (char_at_cases regex (pos1 + 1 + 2 - 1))
          as [(c4 & -> & _)| ->]; [|done].
        unfold obind at 2.
        destruct (decide (c4 = "<")) as [_|_]; [|simpl; lia].
        destruct (char_at_cases regex (pos1 + 1 + 2)) as [(c5 & -> & _)| ->];
          [|done].
        unfold obind at 2.
        destruct (_ && _); [|simpl; lia].
        pose proof (skip_group_name_fuel regex (String.length regex)
                      (pos1 + 1 + 2)) as Hskip.
        destruct (parsing.skip_group_name _ _ _) as [p| |]; simpl.
        * lapply Hskip; [|lia]. intros H. lapply H; [|lia]. lia.
        * done.
        * apply Hskip; lia.
      + destruct (decide (Some sym0 = Some ")")) as [_|_].
        * pose proof (pop_to_open_fuel (parsing.stack st)
                        (parsing.postfix_output st)) as Hf.
          destruct (parsing.pop_to_open _ _) as [[stack' out']| |]; simpl;
            [|done|done].
          destruct (parsing.concatenate_next st); lia.
        * destruct (parsing._operators_sym (Some sym0)) as [op_param|].
          -- pose proof (pop_higher_fuel (parsing.precedence op_param)
                           (parsing.stack st) (parsing.postfix_output st)) as Hf.
             destruct (parsing.pop_higher _ _ _) as [[stack' out']| |]; simpl;
               [|done|done].
             destruct (parsing.suffix op_param); simpl;
               destruct (parsing.concatenate_next st); lia.
          -- simpl. destruct (parsing.concatenate_next st); lia. }
  destruct (decide (c = "\")) as [_|_].
  - destruct (char_at_cases regex (parsing.current_pos st + 1))
      as [(c2 & -> & _)| ->]; [|done].
    apply (Htail (c +:+ c2) true (parsing.current_pos st + 1)%nat). lia.
  - apply (Htail c false (parsing.current_pos st)). lia.
Qed.

Lemma parse_loop_fuel regex fuel st :
  (parse_measure regex st ≤ fuel)%nat →
  parsing.parse_loop regex fuel st ≠ OutOfFuel.
Proof.
  revert st. induction fuel as [|fuel IH]; intros st Hm; simpl.
  - destruct (_ <? _)%nat eqn:Hlt; [|done].
    apply Nat.ltb_lt in Hlt. unfold parse_measure in Hm. lia.
  - destruct (_ <? _)%nat eqn:Hlt; [|done].
    apply Nat.ltb_lt in Hlt.
    pose proof (parse_step_measure regex st Hlt) as Hstep.
    destruct (parsing.parse_step regex st) as [st'| |]; simpl; [|done|done].
    apply IH. lia.
Qed.

(** [parse_regex] returns or raises: the fuel of its loop is never used
    up. *)
Lemma parse_regex_fuel regex : parsing.parse_regex regex ≠ OutOfFuel.
Proof.
  apply parse_loop_fuel. unfold parse_measure. simpl. lia.
Qed.

(** * Further properties of the code *)

(** ** Epsilon closures and acceptance *)

Lemma eps_path_closed N (S : Z → Prop) p q :
  (∀ x y, S x → step N x eps y → S y) →
  (∀ y, step N p eps y → S y) →
  eps_path N p q → S q.
Proof.
  intros Hcl Hp Hpath. induction Hpath as [p q Hs|p q r Hs _ IH].
  - by apply Hp.
  - apply IH. intros y Hy. eapply Hcl; [|done]. by apply Hp.
Qed.

Lemma eps_path_snoc N p q r : eps_path N p q → step N q eps r → eps_path N p r.
Proof.
  intros Hpath Hs. induction Hpath as [p q Hs'|p q r' Hs' _ IH].
  - eapply eps_path_cons; [done|]. by apply eps_path_one.
  - eapply eps_path_cons; [done|]. by apply IH.
Qed.

Lemma eps_path_trans N p q r : eps_path N p q → eps_path N q r → eps_path N p r.
Proof.
  intros H1 H2. induction H1 as [p q Hs|p q r' Hs _ IH].
  - by eapply eps_path_cons.
  - eapply eps_path_cons; [done|]. by apply IH.
Qed.

Lemma eps_loop_spec N (P : Z → Prop) (rv0 : list Z) fuel wl rv res :
  (∀ x y, P x → step N x eps y → P y) →
  (∀ x, x ∈ wl → P x) →
  (∀ x, x ∈ rv → P x ∨ x ∈ rv0) →
  (∀ x y, x ∈ rv → step N x eps y → y ∈ wl ∨ y ∈ rv) →
  NFA.eps_loop N fuel wl rv = Some res →
  (∀ x, x ∈ res → P x ∨ x ∈ rv0)
  ∧ (∀ x, x ∈ rv → x ∈ res)
  ∧ (∀ x, x ∈ wl → x ∈ res)
  ∧ (∀ x y, x ∈ res → step N x eps y → y ∈ res).
Proof.
  intros Hcl. revert wl rv.
  induction fuel as [|fuel IH]; intros wl rv Hwl Hrv Hsucc; simpl.
  - destruct wl; [|done]. intros [= <-].
    split; [done|]. split; [done|]. split; [by intros x Hx%elem_of_nil|].
    intros x y Hx Hs. destruct (Hsucc x y Hx Hs) as [H|H]; [|done].
    by apply elem_of_nil in H.
  - destruct wl as [|curr wl].
    { intros [= <-]. split; [done|]. split; [done|].
      split; [by intros x Hx%elem_of_nil|].
      intros x y Hx Hs. destruct (Hsucc x y Hx Hs) as [H|H]; [|done].
      by apply elem_of_nil in H. }
    intros Hres.
    set (wl' := match dict_get (curr, eps) (NFA.transitions N) with
                | Some dsts =>
                    foldl (λ wl st, if decide (st ∈ set_add curr rv) then wl
                                    else set_add st wl) wl dsts
                | None => wl
                end) in *.
    assert ((∀ x, x ∈ wl → x ∈ wl') ∧ (∀ x, x ∈ wl' → P x)
            ∧ ∀ y, step N curr eps y → y ∈ wl' ∨ y ∈ set_add curr rv)
      as (Hmono & HwlP & Hcurr).
    { unfold wl', step.
      destruct (dict_get (curr, eps) (NFA.transitions N)) as [dsts|] eqn:Hget.
      - assert (∀ seen todo w0,
                  dsts = seen ++ todo →
                  (∀ x, x ∈ wl → x ∈ w0) → (∀ x, x ∈ w0 → P x) →
                  (∀ y, y ∈ seen → y ∈ w0 ∨ y ∈ set_add curr rv) →
                  let w := foldl (λ wl st, if decide (st ∈ set_add curr rv)
                                           then wl else set_add st wl) w0 todo in
                  (∀ x, x ∈ wl → x ∈ w) ∧ (∀ x, x ∈ w → P x)
                  ∧ ∀ y, y ∈ dsts → y ∈ w ∨ y ∈ set_add curr rv) as Hfold.
        { intros dn todo. revert dn.
          induction todo as [|st todo IHt]; intros dn w0 Hd H1 H2 H3; simpl.
          - rewrite app_nil_r in Hd. subst dn. done.
          - apply (IHt (dn ++ [st])).
            + by rewrite <- app_assoc.
            + intros x Hx. destruct (decide _); [by apply H1|].
              apply elem_of_set_add. right. by apply H1.
            + intros x. destruct (decide _); [by apply H2|].
              intros [->|Hx]%elem_of_set_add; [|by apply H2].
              apply (Hcl curr); [apply Hwl; left|].
              exists dsts. split; [done|]. rewrite Hd.
              apply elem_of_app. right. left.
            + intros y [Hy| ->%list_elem_of_singleton]%elem_of_app.
              * destruct (H3 y Hy) as [H|H]; [|by right].
                left. destruct (decide _); [done|].
                apply elem_of_set_add. by right.
              * destruct (decide (st ∈ set_add curr rv)); [by right|].
                left. apply elem_of_set_add. by left. }
        destruct (Hfold [] dsts wl eq_refl) as (H1 & H2 & H3).
        + done.
        + intros x Hx. apply Hwl. by right.
        + intros y Hy. by apply elem_of_nil in Hy.
        + split; [done|]. split; [done|].
          intros y (dsts' & [= <-] & Hy). by apply H3.
      - split; [done|]. split; [intros x Hx; apply Hwl; by right|].
        intros y (dsts' & ? & _). done. }
    destruct (IH wl' (set_add curr rv)) as (R1 & R2 & R3 & R4).
    + done.
    + intros x [->|Hx]%elem_of_set_add; [left; apply Hwl; left|by apply Hrv].
    + intros x y [->|Hx]%elem_of_set_add Hs.
      * by apply Hcurr.
      * destruct (Hsucc x y Hx Hs) as [[->|Hy]%elem_of_cons|Hy].
        -- right. apply elem_of_set_add. by left.
        -- left. by apply Hmono.
        -- right. apply elem_of_set_add. by right.
    + done.
    + split; [done|]. split.
      { intros x Hx. apply R2. apply elem_of_set_add. by right. }
      split; [|done].
      intros x [->|Hx]%elem_of_cons.
      * apply R2. apply elem_of_set_add. by left.
      * by apply R3, Hmono.
Qed.

Lemma eps_closure_elem N state include_state x :
  x ∈ NFA.eps_closure N state include_state
  ↔ (include_state = true ∧ x = state) ∨ eps_path N state x.
Proof.
  assert (∀ y, y ∈ (if include_state then [state] else [])
               ↔ include_state = true ∧ y = state) as Hrv0.
  { intros y. destruct include_state.
    - rewrite list_elem_of_singleton. split; [by intros ->|by intros [_ ->]].
    - split; [by intros ?%elem_of_nil|by intros [? _]]. }
  destruct (dict_get (state, eps) (NFA.transitions N)) as [dsts|] eqn:Hget.
  - destruct (eps_loop_enough_fuel N state include_state dsts Hget)
      as (res & Hloop & ->).
    destruct (eps_loop_spec N (eps_path N state)
                (if include_state then [state] else [])
                (NFA.eps_fuel N) (set_of dsts)
                (if include_state then [state] else []) res)
      as (R1 & R2 & R3 & R4).
    + intros a b Ha Hb. by eapply eps_path_snoc.
    + intros y Hy. apply (proj1 (elem_of_set_of y dsts)) in Hy.
      apply eps_path_one. by exists dsts.
    + by right.
    + intros y z Hy%Hrv0 (dsts' & Hget' & Hz). destruct Hy as [_ ->].
      rewrite Hget in Hget'. injection Hget' as <-.
      left. by apply elem_of_set_of.
    + done.
    + split.
      * intros Hx. destruct (R1 x Hx) as [H|H%Hrv0]; [by right|by left].
      * intros [H|Hpath]; [by apply R2, Hrv0|].
        apply (eps_path_closed N (λ y, y ∈ res) state x); [done| |done].
        intros y (dsts' & Hget' & Hy).
        rewrite Hget in Hget'. injection Hget' as <-.
        apply R3. by apply elem_of_set_of.
  - unfold NFA.eps_closure. rewrite Hget. rewrite Hrv0.
    split; [by left|]. intros [H|Hpath]; [done|].
    destruct Hpath as [p q (dsts & Hg & _)|p q r (dsts & Hg & _) _];
      by rewrite Hget in Hg.
Qed.

(** X1.  [eps_closure(state, include_state)] holds exactly the states
    that one or more epsilon transitions reach from [state], and [state]
    itself when [include_state] is set. *)
Theorem eps_closure_spec N state include_state x :
  x ∈ NFA.eps_closure N state include_state
  ↔ (include_state = true ∧ x = state) ∨ eps_path N state x.
Proof. apply eps_closure_elem. Qed.

Lemma elem_of_foldl_union {A B} (g : B → list A → list A)
    (contrib : B → A → Prop) :
  (∀ x acc y, y ∈ g x acc ↔ y ∈ acc ∨ contrib x y) →
  ∀ l acc y, y ∈ foldl (λ acc x, g x acc) acc l
             ↔ y ∈ acc ∨ ∃ x, x ∈ l ∧ contrib x y.
Proof.
  intros Hg l. induction l as [|x l IH]; intros acc y; simpl.
  - split; [by left|]. intros [H|(x & Hx%elem_of_nil & _)]; done.
  - rewrite IH, Hg. split.
    + intros [[H|H]|(x' & Hx' & H)].
      * by left.
      * right. exists x. split; [left|done].
      * right. exists x'. split; [by right|done].
    + intros [H|(x' & [->|Hx']%elem_of_cons & H)].
      * left. by left.
      * left. by right.
      * right. by exists x'.
Qed.

Lemma next_states_elem N p a incl_eps q :
  q ∈ NFA.next_states N p a incl_eps
  ↔ a ∈ NFA.alphabet N
    ∧ ∃ p' q', eps_star N p p' ∧ step N p' a q'
               ∧ (q = q' ∨ (incl_eps = true ∧ eps_path N q' q)).
Proof.
  unfold NFA.next_states.
  destruct (decide (a ∈ NFA.alphabet N)) as [Ha|Ha].
  - rewrite (elem_of_foldl_union
               (λ state retval,
                  match dict_get (state, a) (NFA.transitions N) with
                  | Some dsts =>
                      foldl (λ retval next_state,
                               let retval := set_add next_state retval in
                               if incl_eps
                               then set_update retval
                                      (NFA.eps_closure N next_state false)
                               else retval) retval dsts
                  | None => retval
                  end)
               (λ p' y, ∃ q', step N p' a q'
                              ∧ (y = q' ∨ (incl_eps = true ∧ eps_path N q' y)))).
    + split.
      * intros [H%elem_of_nil|(p' & Hp' & q' & Hs & Hq)]; [done|].
        split; [done|]. exists p', q'. split; [|done].
        apply elem_of_cons in Hp' as [->|Hp']; [by left|].
        right. apply eps_closure_elem in Hp' as [[? _]|?]; done.
      * intros (_ & p' & q' & Hstar & Hs & Hq). right.
        exists p'. split; [|by exists q'].
        destruct Hstar as [->|Hpath]; [left|].
        right. apply eps_closure_elem. by right.
    + intros state acc y. unfold step.
      destruct (dict_get (state, a) (NFA.transitions N)) as [dsts|] eqn:Hget.
      * rewrite (elem_of_foldl_union
                   (λ next_state retval,
                      let retval := set_add next_state retval in
                      if incl_eps
                      then set_update retval (NFA.eps_closure N next_state false)
                      else retval)
                   (λ q' y, y = q' ∨ (incl_eps = true ∧ eps_path N q' y))).
        -- split.
           ++ intros [H|(q' & Hq' & H)]; [by left|].
              right. exists q'. split; [by exists dsts|done].
           ++ intros [Hy|(q' & (dsts' & Hd & Hq') & Hz)]; [by left|].
              injection Hd as <-. right. by exists q'.
        -- intros ns acc' z. cbv zeta. destruct incl_eps.
           ++ rewrite elem_of_set_update, elem_of_set_add, eps_closure_elem.
              split.
              ** intros [[->|H1]|[[H2 _]|H3]]; try done.
                 --- right. by left.
                 --- by left.
                 --- right. right. done.
              ** intros [H|[->|[_ H]]].
                 --- left. by right.
                 --- left. by left.
                 --- right. by right.
           ++ rewrite elem_of_set_add. split.
              ** intros [->|H]; [right; by left|by left].
              ** intros [H|[->|[? _]]]; [by right|by left|done].
      * split; [by left|]. intros [H|(q' & (dsts' & ? & _) & _)]; done.
  - split; [by intros ?%elem_of_nil|]. by intros [? _].
Qed.

(** X2.  [next_states(p, a, incl_eps)] is empty for a symbol outside the
    alphabet; otherwise it holds the states that an [a]-transition reaches
    from [p] or from a state of its epsilon closure, and with [incl_eps]
    also the epsilon closures of these. *)
Theorem next_states_spec N p a incl_eps q :
  q ∈ NFA.next_states N p a incl_eps
  ↔ a ∈ NFA.alphabet N
    ∧ ∃ p' q', eps_star N p p' ∧ step N p' a q'
               ∧ (q = q' ∨ (incl_eps = true ∧ eps_path N q' q)).
Proof. apply next_states_elem. Qed.

Lemma _accept_spec N w p :
  NFA._accept N w p = true
  ↔ ∃ q, run N p w q ∧ eps_star N q (NFA.final_state N).
Proof.
  revert p. induction w as [|a w IH]; intros p; simpl.
  - rewrite orb_true_iff, !bool_decide_eq_true, eps_closure_elem. split.
    + intros [->|[[? _]|Hpath]]; [|done|].
      * exists (NFA.final_state N). split; [constructor|by left].
      * exists p. split; [constructor|by right].
    + intros (q & Hrun & Hstar). inversion Hrun; subst.
      destruct Hstar as [->|Hpath]; [by left|right; by right].
  - rewrite existsb_exists. split.
    + intros (q & Hq%list_elem_of_In & Hacc).
      apply IH in Hacc as (r & Hrun & Hfin).
      apply next_states_elem in Hq as (Ha & p' & q' & Hstar & Hs & [->|[? _]]);
        [|done].
      exists r. split; [|done]. econstructor; [|done].
      split; [done|]. by exists p'.
    + intros (r & Hrun & Hfin). inversion Hrun as [|? ? q ? ? Hreads Hrest]; subst.
      exists q. split.
      * apply list_elem_of_In. apply next_states_elem.
        destruct Hreads as (Ha & p' & Hstar & Hs).
        split; [done|]. exists p', q. split; [done|]. split; [done|by left].
      * apply IH. by exists r.
Qed.

(** X3.  [accept(string)] is true exactly when the automaton has a run:
    from the start state, epsilon transitions and a transition for each
    symbol of the string in turn (each a symbol of the alphabet), then
    epsilon transitions to the final state. *)
Theorem accept_spec N w : NFA.accept N w = true ↔ accepts N w.
Proof. apply _accept_spec. Qed.

(** ** The subset construction *)

Lemma eps_star_trans N p q r : eps_star N p q → eps_star N q r → eps_star N p r.
Proof.
  intros [->|H1] [->|H2]; [by left|by right|by right|].
  right. by eapply eps_path_trans.
Qed.

Lemma eps_star_step N p q r : eps_star N p q → step N q eps r → eps_star N p r.
Proof.
  intros [->|H] Hs; right; [by apply eps_path_one|by eapply eps_path_snoc].
Qed.

Lemma eps_closure_star N p q : q ∈ NFA.eps_closure N p true ↔ eps_star N p q.
Proof.
  rewrite eps_closure_elem. unfold eps_star. split.
  - intros [[_ ->]|H]; [by left|by right].
  - intros [->|H]; [by left|by right].
Qed.

Lemma run_after_eps N p q w r f :
  eps_star N p q → run N q w r → eps_star N r f →
  ∃ r', run N p w r' ∧ eps_star N r' f.
Proof.
  intros Hpq Hrun Hf. inversion Hrun as [|? a q1 w' ? Hreads Hrest]; subst.
  - exists p. split; [constructor|]. by eapply eps_star_trans.
  - exists r. split; [|done]. econstructor; [|done].
    destruct Hreads as (Ha & p' & Hstar & Hs).
    split; [done|]. exists p'. split; [|done]. by eapply eps_star_trans.
Qed.

Lemma foldM_each {A B} (I : A → Prop) (Q : B → A → Prop)
    (f : A → B → outcome A) (a r : A) (l : list B) :
  I a →
  (∀ a x a', x ∈ l → I a → f a x = Ret a' → I a' ∧ Q x a') →
  (∀ a x y a', x ∈ l → I a → Q y a → f a x = Ret a' → Q y a') →
  foldM f a l = Ret r → I r ∧ ∀ x, x ∈ l → Q x r.
Proof.
  intros Ha Hstep Hkeep Hfold.
  assert (∀ (seen : list B) a,
            (∀ a x a', x ∈ l → I a → f a x = Ret a' → I a' ∧ Q x a') →
            (∀ a x y a', x ∈ l → I a → Q y a → f a x = Ret a' → Q y a') →
            I a → (∀ y, y ∈ seen → Q y a) → foldM f a l = Ret r →
            I r ∧ ∀ y, y ∈ seen ∨ y ∈ l → Q y r) as Hgen.
  { clear a Ha Hstep Hkeep Hfold.
    induction l as [|x l IH]; intros seen a Hstep Hkeep Ha Hseen; simpl.
    - intros [= <-]. split; [done|].
      intros y [Hy|Hy%elem_of_nil]; [by apply Hseen|done].
    - intros (a' & Hf & Hr)%obind_ret.
      destruct (Hstep a x a' (list_elem_of_here _ _) Ha Hf) as [Ha' Hq].
      destruct (IH (x :: seen) a') as [Hr1 Hr2].
      + intros a0 x0 a0' Hx0 Ha0 Hf0. by apply (Hstep a0); [right|..].
      + intros a0 x0 y a0' Hx0 Ha0 Hq0 Hf0.
        by apply (Hkeep a0 x0); [right|..].
      + done.
      + intros y [->|Hy]%elem_of_cons; [done|].
        eapply (Hkeep a x); [left|exact Ha| |exact Hf]. by apply Hseen.
      + done.
      + split; [done|]. intros y [Hy|[->|Hy]%elem_of_cons].
        * apply Hr2. left. by right.
        * apply Hr2. left. left.
        * apply Hr2. by right. }
  destruct (Hgen [] a Hstep Hkeep Ha) as [H1 H2];
    [by intros y ?%elem_of_nil|done|].
  split; [done|]. intros x Hx. apply H2. by right.
Qed.

Lemma result_states_spec N sym (current : list Z) x :
  x ∈ foldl (λ rs state,
               match dict_get (state, sym) (NFA.transitions N) with
               | Some dsts => set_update rs dsts
               | None => rs
               end) [] current
  ↔ ∃ p, p ∈ current ∧ step N p sym x.
Proof.
  rewrite (elem_of_foldl_union
             (λ state rs,
                match dict_get (state, sym) (NFA.transitions N) with
                | Some dsts => set_update rs dsts
                | None => rs
                end)
             (λ p y, step N p sym y)).
  - split; [|by right]. by intros [?%elem_of_nil|?].
  - intros state acc y. unfold step.
    destruct (dict_get (state, sym) (NFA.transitions N)) as [dsts|].
    + rewrite elem_of_set_update. split.
      * intros [H|H]; [by left|right; by exists dsts].
      * intros [H|(dsts' & [= <-] & H)]; [by left|by right].
    + split; [by left|]. by intros [H|(dsts' & ? & _)].
Qed.

Lemma closure_fold_spec N (l : list Z) memo ns :
  (∀ s c, dict_get s memo = Some c → c = NFA.eps_closure N s true) →
  let r :=
    foldl (λ '(memo, next_state) state,
             let '(memo', closure) :=
               match dict_get state memo with
               | Some c => (memo, c)
               | None =>
                   let c := NFA.eps_closure N state true in
                   (dict_set state c memo, c)
               end in
             (memo', set_update next_state closure))
          (memo, ns) l in
  (∀ s c, dict_get s r.1 = Some c → c = NFA.eps_closure N s true)
  ∧ ∀ q, q ∈ r.2 ↔ q ∈ ns ∨ ∃ q', q' ∈ l ∧ eps_star N q' q.
Proof.
  revert memo ns. induction l as [|st l IH]; intros memo ns Hmemo; simpl.
  - split; [done|]. intros q. split; [by left|].
    by intros [?|(q' & ?%elem_of_nil & _)].
  - destruct (dict_get st memo) as [c|] eqn:Hget.
    + destruct (IH memo (set_update ns c) Hmemo) as [H1 H2].
      split; [done|]. intros q. rewrite H2, elem_of_set_update.
      rewrite (Hmemo _ _ Hget), eps_closure_star. split.
      * intros [[H|H]|(q' & Hq' & H)].
        -- by left.
        -- right. exists st. split; [left|done].
        -- right. exists q'. split; [by right|done].
      * intros [H|(q' & [->|Hq']%elem_of_cons & H)].
        -- left. by left.
        -- left. by right.
        -- right. by exists q'.
    + destruct (IH (dict_set st (NFA.eps_closure N st true) memo)
                  (set_update ns (NFA.eps_closure N st true))) as [H1 H2].
      { intros s c. rewrite dict_get_set.
        destruct (decide (s = st)) as [->|_]; [by intros [= <-]|apply Hmemo]. }
      split; [done|]. intros q. rewrite H2, elem_of_set_update.
      rewrite eps_closure_star. split.
      * intros [[H|H]|(q' & Hq' & H)].
        -- by left.
        -- right. exists st. split; [left|done].
        -- right. exists q'. split; [by right|done].
      * intros [H|(q' & [->|Hq']%elem_of_cons & H)].
        -- left. by left.
        -- left. by right.
        -- right. by exists q'.
Qed.

Lemma to_dfa_sym_inv N complete c b sym b' Sc :
  sym ∈ NFA.alphabet N →
  subset_inv N complete (Some c) b → NFA.state_list b !! c = Some Sc →
  NFA.to_dfa_sym N complete c b sym = Ret b' →
  subset_inv N complete (Some c) b'
  ∧ NFA.state_list b' !! c = Some Sc
  ∧ (is_Some (dict_get (c, sym) (NFA.dfa_transitions b'))
     ∨ (complete = false ∧ ∀ q, ¬ target N Sc sym q))
  ∧ (∀ k, is_Some (dict_get k (NFA.dfa_transitions b))
          → is_Some (dict_get k (NFA.dfa_transitions b'))).
Proof.
  intros Hsym (Hclosed & Hmemo & Htr & Hnone & Hstart & Hnd) Hc.
  unfold NFA.to_dfa_sym, py_nth. rewrite Hc. simpl.
  pose proof (closure_fold_spec N
                (foldl (λ rs state,
                          match dict_get (state, sym) (NFA.transitions N) with
                          | Some dsts => set_update rs dsts
                          | None => rs
                          end) [] Sc)
                (NFA.eps_memo b) [] Hmemo) as Hfold.
  cbv zeta in Hfold.
  destruct (foldl _ (NFA.eps_memo b, []) _) as [memo next_state].
  destruct Hfold as [Hmemo' Hnext]. simpl in Hmemo', Hnext.
  assert (∀ q, q ∈ next_state ↔ target N Sc sym q) as Hns.
  { intros q. rewrite Hnext. unfold target. split.
    - intros [?%elem_of_nil|(q' & (p & Hp & Hs)%result_states_spec & Hstar)];
        [done|].
      split; [done|]. by exists p, q'.
    - intros (_ & p & q' & Hp & Hs & Hstar). right. exists q'.
      split; [|done]. apply result_states_spec. by exists p. }
  destruct (negb complete && (length next_state =? 0)%nat) eqn:Hskip.
  { intros [= <-]. unfold subset_inv. simpl.
    split; [by split_and!|]. split; [done|].
    split; [|done]. right.
    apply andb_true_iff in Hskip as [Hcomp%negb_true_iff Hlen%Nat.eqb_eq].
    split; [done|]. intros q Hq%Hns.
    destruct next_state; [by apply elem_of_nil in Hq|done]. }
  destruct (set_index next_state (NFA.state_list b)) as [i|] eqn:Hidx.
  - intros [= <-]. unfold subset_inv. simpl.
    apply set_index_Some in Hidx as (t & Hti & Heq).
    pose proof (proj1 (set_eqb_true _ _) Heq) as Ht.
    split; [|split; [done|split]].
    + split_and!; try done.
      * intros i0 a j. rewrite dict_get_set.
        destruct (decide ((i0, a) = (c, sym))) as [[= -> ->]|_]; [|apply Htr].
        intros [= <-]. split; [done|]. exists Sc, t.
        split; [done|]. split; [done|].
        intros q. by rewrite Ht.
      * intros i0 S a HS. rewrite dict_get_set.
        destruct (decide ((i0, a) = (c, sym))); [done|]. by apply Hnone.
      * by apply dict_set_NoDup.
    + left. rewrite dict_get_set. by rewrite decide_True.
    + intros k Hk. rewrite dict_get_set. by destruct (decide _).
  - intros [= <-]. unfold subset_inv. simpl.
    split; [|split; [by apply lookup_app_l_Some|split]].
    + split_and!.
      * intros i0 S [[_ HS]|[_ <-]]%lookup_snoc_Some; [by eapply Hclosed|].
        intros p q Hp%Hns Hs. apply Hns.
        destruct Hp as (Ha & p0 & q' & Hp0 & Hs0 & Hstar).
        split; [done|]. exists p0, q'. split; [done|]. split; [done|].
        by eapply eps_star_step.
      * done.
      * intros i0 a j. rewrite dict_get_set.
        destruct (decide ((i0, a) = (c, sym))) as [[= -> ->]|_].
        -- intros [= <-]. split; [done|]. exists Sc, next_state.
           split; [by apply lookup_app_l_Some|].
           split; [|done]. apply lookup_snoc_Some. by right.
        -- intros (Ha & S & S' & HS & HS' & Hq)%Htr. split; [done|].
           exists S, S'. split; [by apply lookup_app_l_Some|].
           split; [by apply lookup_app_l_Some|done].
      * intros i0 S a HS. rewrite dict_get_set.
        destruct (decide ((i0, a) = (c, sym))); [done|]. intros Hget.
        apply lookup_snoc_Some in HS as [[_ HS]|[-> _]].
        -- destruct (Hnone i0 S a HS Hget) as [H|[H|H]].
           ++ left. by right.
           ++ right. by left.
           ++ right. by right.
        -- left. left.
      * destruct Hstart as (S0 & HS0 & H0). exists S0.
        split; [by apply lookup_app_l_Some|done].
      * by apply dict_set_NoDup.
    + left. rewrite dict_get_set. by rewrite decide_True.
    + intros k Hk. rewrite dict_get_set. by destruct (decide _).
Qed.

Lemma elem_of_enumerate {A} (l : list A) (i : nat) (x : A) :
  (i, x) ∈ DFA.enumerate l ↔ l !! i = Some x.
Proof.
  unfold DFA.enumerate. rewrite elem_of_lookup_zip_with. split.
  - intros (j & y & z & [= -> ->] & Hy & Hz).
    apply lookup_seq in Hy as [-> _]. done.
  - intros Hx. exists i, i, x. split; [done|]. split; [|done].
    apply lookup_seq. split; [done|]. by eapply lookup_lt_Some.
Qed.

Lemma dict_set_fresh {K V} `{EqDecision K} (k : K) (v : V) (d : list (K * V)) :
  k ∉ d.*1 → dict_set k v d = d ++ [(k, v)].
Proof.
  induction d as [|[k0 v0] d IH]; simpl; [done|].
  intros Hk. apply not_elem_of_cons in Hk as [Hne Hk].
  destruct (decide (k = k0)); [done|]. by rewrite IH.
Qed.

(** [dict(d)] of a dictionary is that dictionary *)
Lemma dict_rebuild {K V} `{EqDecision K} (d : list (K * V)) :
  NoDup d.*1 → foldl (λ d '(k, v), dict_set k v d) [] d = d.
Proof.
  assert (∀ acc, NoDup (acc ++ d).*1 →
                 foldl (λ d '(k, v), dict_set k v d) acc d = acc ++ d) as Hgen.
  { induction d as [|[k v] d IH]; intros acc Hnd; simpl.
    - by rewrite app_nil_r.
    - rewrite dict_set_fresh.
      + rewrite IH; [by rewrite <- app_assoc|]. by rewrite <- app_assoc.
      + rewrite fmap_app in Hnd. apply NoDup_app in Hnd as (_ & Hdisj & _).
        intros Hk. apply (Hdisj _ Hk). left. }
  intros Hnd. by apply (Hgen []).
Qed.

Lemma self_loops_get (c : nat) (al : list symbol)
    (tr : list ((nat * symbol) * nat)) i a :
  dict_get (i, a) (foldl (λ tr sym, dict_set (c, sym) c tr) tr al)
  = if decide (i = c ∧ a ∈ al) then Some c else dict_get (i, a) tr.
Proof.
  revert tr. induction al as [|s al IH]; intros tr; simpl.
  - destruct (decide _) as [[_ H%elem_of_nil]|]; done.
  - rewrite IH, dict_get_set.
    destruct (decide (i = c ∧ a ∈ al)) as [[-> Ha]|Hn].
    + rewrite decide_True; [done|]. split; [done|by right].
    + destruct (decide ((i, a) = (c, s))) as [[= -> ->]|Hne].
      * rewrite decide_True; [done|]. split; [done|left].
      * rewrite decide_False; [done|].
        intros [-> [->|Ha]%elem_of_cons]; [done|]. by apply Hn.
Qed.

Lemma self_loops_NoDup (c : nat) (al : list symbol)
    (tr : list ((nat * symbol) * nat)) :
  NoDup tr.*1 → NoDup (foldl (λ tr sym, dict_set (c, sym) c tr) tr al).*1.
Proof.
  revert tr. induction al as [|s al IH]; intros tr Hnd; simpl; [done|].
  apply IH. by apply dict_set_NoDup.
Qed.

Lemma to_dfa_loop_inv N complete fuel b r :
  subset_inv N complete None b → NFA.to_dfa_loop N complete fuel b = Ret r →
  subset_inv N complete None r ∧ NFA.worklist r = [].
Proof.
  revert b. induction fuel as [|fuel IH]; intros b Hinv; simpl.
  - destruct (NFA.worklist b) eqn:Hwl; [|done]. by intros [= <-].
  - destruct (NFA.worklist b) as [|c wl'] eqn:Hwl; [by intros [= <-]|].
    unfold py_nth. simpl.
    destruct (NFA.state_list b !! c) as [Sc|] eqn:Hc; simpl; [|done].
    destruct Hinv as (Hclosed & Hmemo & Htr & Hnone & Hstart & Hnd).
    destruct (length Sc =? 0)%nat eqn:Hlen.
    + apply Nat.eqb_eq in Hlen. destruct Sc; [|done].
      apply IH. unfold subset_inv. simpl. split_and!; try done.
      * intros i a j. rewrite self_loops_get.
        destruct (decide _) as [[-> Ha]|_]; [|apply Htr].
        intros [= <-]. split; [done|]. exists [], [].
        split; [done|]. split; [done|].
        intros q. split; [by intros ?%elem_of_nil|].
        by intros (_ & p & q' & ?%elem_of_nil & _).
      * intros i S a HS. rewrite self_loops_get.
        destruct (decide _) as [|Hn]; [done|]. intros Hget.
        destruct (decide (i = c)) as [->|Hne].
        -- right. right. rewrite Hc in HS. injection HS as <-. split.
           ++ by intros q (_ & p & q' & ?%elem_of_nil & _).
           ++ intros _ Ha. by apply Hn.
        -- destruct (Hnone i S a HS Hget) as [H|[H|H]].
           ++ rewrite Hwl in H. apply elem_of_cons in H as [->|H]; [done|by left].
           ++ done.
           ++ right. by right.
      * by apply self_loops_NoDup.
    + intros (b' & Hfold & Hloop)%obind_ret.
      apply IH in Hloop; [done|].
      destruct (foldM_each
                  (λ b0, subset_inv N complete (Some c) b0
                         ∧ NFA.state_list b0 !! c = Some Sc)
                  (λ a b0, is_Some (dict_get (c, a) (NFA.dfa_transitions b0))
                           ∨ (complete = false ∧ ∀ q, ¬ target N Sc a q))
                  (NFA.to_dfa_sym N complete c)
                  (NFA.mk_build (NFA.eps_memo b) (NFA.state_list b)
                     (NFA.dfa_transitions b) wl')
                  b' (NFA.alphabet N))
        as [[Hinv' Hc'] Hall].
      * split; [|done]. unfold subset_inv. simpl. split_and!; try done.
        intros i S a HS Hget. destruct (Hnone i S a HS Hget) as [H|[H|H]].
        -- rewrite Hwl in H. apply elem_of_cons in H as [->|H];
             [right; by left|by left].
        -- done.
        -- right. by right.
      * intros b0 a b0' Ha [Hb0 Hc0] Hstep.
        destruct (to_dfa_sym_inv N complete c b0 a b0' Sc Ha Hb0 Hc0 Hstep)
          as (H1 & H2 & H3 & _). done.
      * intros b0 a y b0' Ha [Hb0 Hc0] Hq Hstep.
        destruct (to_dfa_sym_inv N complete c b0 a b0' Sc Ha Hb0 Hc0 Hstep)
          as (_ & _ & _ & H4).
        destruct Hq as [Hq|Hq]; [left; by apply H4|by right].
      * done.
      * destruct Hinv' as (Hclosed' & Hmemo' & Htr' & Hnone' & Hstart' & Hnd').
        unfold subset_inv. split_and!; try done.
        intros i S a HS Hget. destruct (Hnone' i S a HS Hget) as [H|[H|H]].
        -- by left.
        -- injection H as <-. right. right.
           rewrite Hc' in HS. injection HS as <-.
           destruct (decide (a ∈ NFA.alphabet N)) as [Ha|Ha].
           ++ destruct (Hall a Ha) as [Hs|[Hcomp Hs]].
              ** rewrite Hget in Hs. by destruct Hs.
              ** split; [done|]. by rewrite Hcomp.
           ++ split; [|done]. by intros q [? _].
        -- right. by right.
Qed.

Lemma subset_accept_from N complete b D :
  subset_inv N complete None b → NFA.worklist b = [] →
  DFA.transitions D = NFA.dfa_transitions b →
  (∀ i, i ∈ DFA.final_states D
        ↔ ∃ S, NFA.state_list b !! i = Some S ∧ NFA.final_state N ∈ S) →
  ∀ w i S, NFA.state_list b !! i = Some S →
    DFA.accept_from D i w = true
    ↔ ∃ p, p ∈ S ∧ ∃ q, run N p w q ∧ eps_star N q (NFA.final_state N).
Proof.
  intros (Hclosed & _ & Htr & Hnone & _ & _) Hwl HtrD Hfin.
  assert (∀ i S p q, NFA.state_list b !! i = Some S → p ∈ S →
                     eps_star N p q → q ∈ S) as Hstar.
  { intros i S p q HS Hp [->|Hpath]; [done|].
    apply (eps_path_closed N (λ y, y ∈ S) p q); [|by eauto|done].
    intros x y Hx Hs. by eapply Hclosed. }
  induction w as [|a w IH]; intros i S HS; simpl.
  - rewrite bool_decide_eq_true, Hfin. split.
    + intros (S' & HS' & Hf). rewrite HS in HS'. injection HS' as <-.
      exists (NFA.final_state N). split; [done|].
      exists (NFA.final_state N). split; [constructor|by left].
    + intros (p & Hp & q & Hrun & Hq). inversion Hrun; subst.
      exists S. split; [done|]. by eapply Hstar.
  - rewrite HtrD.
    destruct (dict_get (i, a) (NFA.dfa_transitions b)) as [j|] eqn:Hget.
    + destruct (Htr i a j Hget) as (_ & S1 & S' & HS1 & HS' & Htarget).
      rewrite HS in HS1. injection HS1 as <-.
      rewrite (IH j S' HS'). split.
      * intros (p' & (Ha & p & q' & Hp & Hs & Hq')%Htarget & r & Hrun & Hr).
        exists p. split; [done|].
        destruct (run_after_eps N q' p' w r (NFA.final_state N) Hq' Hrun Hr)
          as (r' & Hrun' & Hr').
        exists r'. split; [|done]. econstructor; [|done].
        split; [done|]. exists p. split; [by left|done].
      * intros (p & Hp & r & Hrun & Hr).
        inversion Hrun as [|? ? q1 ? ? (Ha & p' & Hpp' & Hs) Hrest]; subst.
        exists q1. split; [|by exists r].
        apply Htarget. split; [done|]. exists p', q1.
        split; [by eapply Hstar|]. split; [done|by left].
    + split; [done|]. intros (p & Hp & r & Hrun & Hr).
      inversion Hrun as [|? ? q1 ? ? (Ha & p' & Hpp' & Hs) Hrest]; subst.
      destruct (Hnone i S a HS Hget) as [H|[H|H]].
      * rewrite Hwl in H. by apply elem_of_nil in H.
      * done.
      * exfalso. apply (proj1 H q1). split; [done|]. exists p', q1.
        split; [by eapply Hstar|]. split; [done|by left].
Qed.

Lemma to_dfa_language N complete fuel D w :
  NFA.to_dfa fuel N complete = Ret D →
  DFA.accept D w = NFA.accept N w.
Proof.
  unfold NFA.to_dfa, NFA.to_dfa_build.
  intros (b & Hloop & Hinit)%obind_ret.
  apply to_dfa_loop_inv in Hloop as [Hinv Hwl].
  2:{ unfold subset_inv. simpl. split_and!.
      - intros i S [-> <-]%list_lookup_singleton_Some p q Hp Hs.
        apply eps_closure_star. apply eps_closure_star in Hp.
        by eapply eps_star_step.
      - intros s c. destruct (decide _) as [->|]; [by intros [= <-]|done].
      - done.
      - intros i S a [-> _]%list_lookup_singleton_Some _. left. left.
      - eexists. split; [done|]. intros q. apply eps_closure_star.
      - constructor. }
  unfold DFA.init in Hinit.
  destruct (decide _) as [_|]; [|done].
  destruct (forallb _ _); [|done]. injection Hinit as <-.
  assert (NoDup (NFA.dfa_transitions b).*1) as Hnd by apply Hinv.
  apply eq_true_iff_eq.
  unfold DFA.accept. simpl.
  destruct Hinv as (Hclosed & Hmemo & Htr & Hnone & (S0 & HS0 & Hstart) & ?).
  rewrite (subset_accept_from N complete b _ (conj Hclosed (conj Hmemo (conj Htr
             (conj Hnone (conj (ex_intro _ S0 (conj HS0 Hstart)) Hnd)))))
             Hwl) with (S := S0); [|by simpl; rewrite dict_rebuild| |done].
  - unfold NFA.accept. rewrite _accept_spec. split.
    + intros (p & Hp%Hstart & q & Hrun & Hq).
      by eapply run_after_eps.
    + intros (q & Hrun & Hq). exists (NFA.start_state N).
      split; [apply Hstart; by left|]. by exists q.
  - intros i. simpl. rewrite elem_of_set_of, list_elem_of_fmap. split.
    + intros ([i' S] & -> & [Hf Hin%elem_of_enumerate]%list_elem_of_filter).
      by exists S.
    + intros (S & HS & Hf). exists (i, S). split; [done|].
      apply list_elem_of_filter. split; [done|]. by apply elem_of_enumerate.
Qed.

(** X4.  The subset construction keeps the language: when [to_dfa]
    returns, with [complete] set or not, the DFA accepts a string exactly
    when the automaton does. *)
Theorem to_dfa_accept N complete fuel D w :
  NFA.to_dfa fuel N complete = Ret D →
  DFA.accept D w = NFA.accept N w.
Proof. apply to_dfa_language. Qed.

Lemma to_dfa_accept_witness :
  ∃ D, NFA.to_dfa 8 ab_nfa false = Ret D
       ∧ DFA.accept D ["a"; "b"] = NFA.accept ab_nfa ["a"; "b"].
Proof.
  eexists. split; [vm_compute; reflexivity|].
  apply (to_dfa_accept ab_nfa false 8). vm_compute. reflexivity.
Defined.

Lemma to_dfa_well_formed N complete fuel D :
  NFA.to_dfa fuel N complete = Ret D →
  dfa_wf D
  ∧ DFA.start_state D = 0%nat
  ∧ DFA.states D = seq 0 (length (DFA.states D))
  ∧ (∀ a, a ∈ DFA.alphabet D ↔ a ∈ NFA.alphabet N)
  ∧ (complete = true → dfa_complete D).
Proof.
  unfold NFA.to_dfa, NFA.to_dfa_build.
  intros (b & Hloop & Hinit)%obind_ret.
  apply to_dfa_loop_inv in Hloop as [Hinv Hwl].
  2:{ unfold subset_inv. simpl. split_and!.
      - intros i S [-> <-]%list_lookup_singleton_Some p q Hp Hs.
        apply eps_closure_star. apply eps_closure_star in Hp.
        by eapply eps_star_step.
      - intros s c. destruct (decide _) as [->|]; [by intros [= <-]|done].
      - done.
      - intros i S a [-> _]%list_lookup_singleton_Some _. left. left.
      - eexists. split; [done|]. intros q. apply eps_closure_star.
      - constructor. }
  unfold DFA.init in Hinit.
  destruct (decide _) as [Hstart|]; [|done].
  destruct (forallb _ _) eqn:Hfin; [|done]. injection Hinit as <-.
  destruct Hinv as (Hclosed & Hmemo & Htr & Hnone & (S0 & HS0 & _) & Hnd).
  assert (set_of (seq 0 (length (NFA.state_list b)))
          = seq 0 (length (NFA.state_list b))) as Hseq.
  { apply set_update_NoDup_nil, NoDup_seq. }
  assert (∀ i, i ∈ seq 0 (length (NFA.state_list b))
               ↔ is_Some (NFA.state_list b !! i)) as Hin.
  { intros i. rewrite elem_of_seq, lookup_lt_is_Some. lia. }
  unfold dfa_wf, dfa_complete. simpl. rewrite !Hseq, dict_rebuild by done.
  split_and!.
  - apply Hin. by rewrite HS0.
  - intros f Hf. rewrite forallb_forall in Hfin.
    apply list_elem_of_In, Hfin in Hf. apply bool_decide_eq_true in Hf.
    by rewrite Hseq in Hf.
  - done.
  - intros s a d (Ha & S & S' & HS & HS' & _)%Htr. split_and!.
    + apply Hin. by rewrite HS.
    + by apply elem_of_set_of.
    + apply Hin. by rewrite HS'.
  - done.
  - by rewrite length_seq.
  - intros a. apply elem_of_set_of.
  - intros -> s a [S HS]%Hin Ha.
    apply (proj1 (elem_of_set_of a (NFA.alphabet N))) in Ha.
    destruct (dict_get (s, a) (NFA.dfa_transitions b)) as [d|] eqn:Hget;
      [done|].
    destruct (Hnone s S a HS Hget) as [H|[H|[_ H]]].
    + rewrite Hwl in H. by apply elem_of_nil in H.
    + done.
    + exfalso. by apply H.
Qed.

(** X5.  The DFA that [to_dfa] returns is well formed: its states are
    [0 .. n-1] with start state 0, its final states are states and its
    transitions run between states on symbols of the alphabet.  With
    [complete] set it has a transition for every state and symbol. *)
Theorem to_dfa_wf N complete fuel D :
  NFA.to_dfa fuel N complete = Ret D →
  dfa_wf D
  ∧ DFA.start_state D = 0%nat
  ∧ DFA.states D = seq 0 (length (DFA.states D))
  ∧ (∀ a, a ∈ DFA.alphabet D ↔ a ∈ NFA.alphabet N)
  ∧ (complete = true → dfa_complete D).
Proof. apply to_dfa_well_formed. Qed.

Lemma to_dfa_wf_witness :
  ∃ D, NFA.to_dfa 8 ab_nfa true = Ret D
       ∧ dfa_wf D
       ∧ DFA.start_state D = 0%nat
       ∧ DFA.states D = seq 0 (length (DFA.states D))
       ∧ (∀ a, a ∈ DFA.alphabet D ↔ a ∈ NFA.alphabet ab_nfa)
       ∧ (true = true → dfa_complete D).
Proof.
  eexists. split; [vm_compute; reflexivity|].
  apply (to_dfa_wf ab_nfa true 8). vm_compute. reflexivity.
Defined.

(** ** Paths *)

Lemma path_app N p u q v r : path N p u q → path N q v r → path N p (u ++ v) r.
Proof.
  intros H1 H2. induction H1 as [p|p q w r' Hs _ IH|p a q w r' Ha Hs _ IH]; simpl.
  - done.
  - eapply path_eps; [done|]. by apply IH.
  - eapply path_sym; [done..|]. by apply IH.
Qed.

Lemma eps_path_path N p q : eps_path N p q → path N p [] q.
Proof.
  induction 1 as [p q Hs|p q r Hs _ IH].
  - eapply path_eps; [done|constructor].
  - by eapply path_eps.
Qed.

Lemma eps_star_path N p q : eps_star N p q → path N p [] q.
Proof. intros [->|H]; [constructor|by apply eps_path_path]. Qed.

Lemma path_nil_eps_star N p w q : path N p w q → w = [] → eps_star N p q.
Proof.
  induction 1 as [p|p q w r Hs _ IH|p a q w r Ha Hs _ IH]; intros Hw.
  - by left.
  - right. destruct (IH Hw) as [<-|Hpath].
    + by apply eps_path_one.
    + by eapply eps_path_cons.
  - done.
Qed.

Lemma run_path N p w q f :
  run N p w q → eps_star N q f → path N p w f.
Proof.
  intros Hrun Hf. induction Hrun as [p|p a q w r (Ha & p' & Hstar & Hs) _ IH].
  - by apply eps_star_path.
  - apply (path_app N p [] p' (a :: w) f); [by apply eps_star_path|].
    eapply path_sym; [done..|]. by apply IH.
Qed.

Lemma path_run N p w f :
  path N p w f → ∃ q, run N p w q ∧ eps_star N q f.
Proof.
  induction 1 as [p|p q w r Hs _ IH|p a q w r Ha Hs _ IH].
  - exists p. split; [constructor|by left].
  - destruct IH as (q' & Hrun & Hf).
    eapply run_after_eps; [|done..]. right. by apply eps_path_one.
  - destruct IH as (q' & Hrun & Hf). exists q'. split; [|done].
    econstructor; [|done]. split; [done|]. exists p. split; [by left|done].
Qed.

Lemma accept_lang N w : NFA.accept N w = true ↔ lang N w.
Proof.
  unfold NFA.accept, lang. rewrite _accept_spec. split.
  - intros (q & Hrun & Hf). by eapply run_path.
  - apply path_run.
Qed.

(** ** Transition tables *)

Lemma step_in_dd_update tr k xs p a q :
  step_in (dd_update tr k xs) p a q ↔ step_in tr p a q ∨ ((p, a) = k ∧ q ∈ xs).
Proof.
  unfold step_in, dd_update. rewrite dict_get_set.
  destruct (decide ((p, a) = k)) as [<-|Hne].
  - split.
    + intros (dsts & [= <-] & [Hq|Hq]%elem_of_set_update); [|by right].
      destruct (dict_get (p, a) tr) as [old|]; simpl in Hq.
      * left. by exists old.
      * by apply elem_of_nil in Hq.
    + intros [(dsts & Hget & Hq)|[_ Hq]].
      * eexists. split; [done|]. apply elem_of_set_update. left.
        by rewrite Hget.
      * eexists. split; [done|]. apply elem_of_set_update. by right.
  - split; [by left|]. by intros [H|[? _]].
Qed.

Lemma step_in_foldl {E} (f : list ((Z * symbol) * list Z) → E → _)
    (kf : E → Z * symbol) (vf : E → list Z) :
  (∀ d e, f d e = dd_update d (kf e) (vf e)) →
  ∀ l tr0 p a q,
    step_in (foldl f tr0 l) p a q
    ↔ step_in tr0 p a q ∨ ∃ e, e ∈ l ∧ (p, a) = kf e ∧ q ∈ vf e.
Proof.
  intros Hf l. induction l as [|e l IH]; intros tr0 p a q; simpl.
  - split; [by left|]. by intros [H|(e & ?%elem_of_nil & _)].
  - rewrite IH, Hf, step_in_dd_update. split.
    + intros [[H|[Hk Hq]]|(e' & He' & Hk & Hq)].
      * by left.
      * right. exists e. split; [left|done].
      * right. exists e'. split; [by right|done].
    + intros [H|(e' & [->|He']%elem_of_cons & Hk & Hq)].
      * left. by left.
      * left. by right.
      * right. by exists e'.
Qed.

Lemma NoDup_foldl_dd_update {E} (f : list ((Z * symbol) * list Z) → E → _)
    (kf : E → Z * symbol) (vf : E → list Z) :
  (∀ d e, f d e = dd_update d (kf e) (vf e)) →
  ∀ l tr0, NoDup tr0.*1 → NoDup (foldl f tr0 l).*1.
Proof.
  intros Hf l. induction l as [|e l IH]; intros tr0 Hnd; simpl; [done|].
  apply IH. rewrite Hf. by apply dict_set_NoDup.
Qed.

Lemma edge_in_step_in tr p a q :
  NoDup tr.*1 → edge_in tr p a q ↔ step_in tr p a q.
Proof.
  intros Hnd. unfold edge_in, step_in. split.
  - intros (dsts & Hin & Hq). exists dsts. split; [|done].
    by apply dict_get_elem_NoDup.
  - intros (dsts & Hget & Hq). exists dsts. split; [|done].
    by apply dict_get_Some_elem.
Qed.

Lemma path_ext N N' p w q :
  (∀ x a y, step N x a y → step N' x a y) →
  (∀ a, a ∈ NFA.alphabet N → a ∈ NFA.alphabet N') →
  path N p w q → path N' p w q.
Proof.
  intros Hs Ha. induction 1 as [p|p q w r H1 _ IH|p a q w r H0 H1 _ IH].
  - constructor.
  - eapply path_eps; [by apply Hs|done].
  - eapply path_sym; [by apply Ha|by apply Hs|done].
Qed.

(** ** The languages of the combinators *)

Lemma edge_step N p a q :
  NoDup (NFA.transitions N).*1 → edge N p a q ↔ step N p a q.
Proof. apply edge_in_step_in. Qed.

Lemma tnfa_facts N :
  tnfa N →
  NFA.start_state N ∈ NFA.states N
  ∧ NFA.final_state N ∈ NFA.states N
  ∧ NFA.start_state N ≠ NFA.final_state N
  ∧ (∀ p a q, step N p a q → p ∈ NFA.states N ∧ q ∈ NFA.states N)
  ∧ (∀ p a, ¬ step N p a (NFA.start_state N))
  ∧ (∀ a q, ¬ step N (NFA.final_state N) a q).
Proof.
  intros (((Hs & Hf & Hcl) & Hne & Hin & Hout) & Hnd & _ & _).
  split_and!; try done.
  - intros p a q Hst. apply (Hcl p a q). by apply edge_step.
  - intros p a Hst. apply (Hin p a). by apply edge_step.
  - intros a q Hst. apply (Hout a q). by apply edge_step.
Qed.

Lemma path_states N p w q :
  tnfa N → path N p w q → p ∈ NFA.states N → q ∈ NFA.states N.
Proof.
  intros HN. destruct (tnfa_facts N HN) as (_ & _ & _ & Hcl & _ & _).
  induction 1 as [p|p q w r Hs _ IH|p a q w r Ha Hs _ IH]; intros Hp.
  - done.
  - apply IH. by apply (Hcl p eps q).
  - apply IH. by apply (Hcl p a q).
Qed.

Lemma init_facts sts al tr start final N :
  NFA.init sts al tr start final = Ret N →
  NFA.start_state N = start ∧ NFA.final_state N = final
  ∧ (∀ x, x ∈ NFA.states N ↔ x ∈ sts)
  ∧ (∀ a, a ∈ NFA.alphabet N ↔ a ∈ al)
  ∧ NoDup (NFA.transitions N).*1
  ∧ (∀ p a q, step N p a q ↔ edge_in tr p a q).
Proof.
  unfold NFA.init. destruct (decide _); [|done]. destruct (decide _); [|done].
  intros [= <-]. simpl. split_and!; try done.
  - intros x. apply elem_of_set_of.
  - intros a. apply elem_of_set_of.
  - apply (NoDup_foldl_dd_update _ fst snd); [by intros d [k v]|constructor].
  - intros p a q. unfold step. simpl.
    change (step_in (foldl (λ d '(key, dsts), dd_update d key dsts) [] tr) p a q
            ↔ edge_in tr p a q).
    rewrite (step_in_foldl _ fst snd) by (by intros d [k v]).
    unfold edge_in. split.
    + intros [(dsts & ? & _)|([k v] & Hin & Hk & Hq)]; [done|].
      simpl in *. subst k. by exists v.
    + intros (dsts & Hin & Hq). right. by exists ((p, a), dsts).
Qed.

Lemma copy_tnfa A :
  tnfa A →
  ∃ A', NFA.copy A = Ret A' ∧ tnfa A'
        ∧ NFA.start_state A' = NFA.start_state A
        ∧ NFA.final_state A' = NFA.final_state A
        ∧ (∀ x, x ∈ NFA.states A' ↔ x ∈ NFA.states A)
        ∧ (∀ a, a ∈ NFA.alphabet A' ↔ a ∈ NFA.alphabet A)
        ∧ (∀ p a q, step A' p a q ↔ step A p a q).
Proof.
  intros HA. pose proof HA as (Hth & Hnd & Heps & Hlab).
  destruct (copy_thompson A Hth) as (A' & Hcopy & Hth').
  exists A'. split; [done|]. unfold NFA.copy in Hcopy.
  apply init_facts in Hcopy as (Hs & Hf & Hst & Hal & Hnd' & Hstep).
  assert (∀ p a q, step A' p a q ↔ step A p a q) as Hstep'.
  { intros p a q. rewrite Hstep. by apply edge_in_step_in. }
  split_and!; try done.
  unfold tnfa. split_and!; try done.
  - by intros H%Hal.
  - intros p a q Hpq%Hstep'. rewrite Hal. by eapply Hlab.
Qed.

(** A literal *)
Lemma literal_tnfa sym :
  sym ≠ eps →
  ∃ N, parsing.literal sym = Ret N ∧ tnfa N ∧ ∀ w, lang N w ↔ w = [sym].
Proof.
  intros Hsym. destruct (literal_thompson sym) as (N & Hlit & Hth).
  exists N. split; [done|]. unfold parsing.literal in Hlit.
  apply init_facts in Hlit as (Hs & Hf & Hst & Hal & Hnd & Hstep).
  assert (∀ p a q, step N p a q ↔ p = 0 ∧ a = sym ∧ q = 1) as Hstep'.
  { intros p a q. rewrite Hstep. unfold edge_in. split.
    - intros (dsts & Hin%list_elem_of_singleton & Hq).
      injection Hin as -> -> ->. by apply list_elem_of_singleton in Hq.
    - intros (-> & -> & ->). exists [1]. split; [left|left]. }
  split.
  - unfold tnfa. split_and!; try done.
    + intros H%Hal. by apply list_elem_of_singleton in H.
    + intros p a q (_ & -> & _)%Hstep'. right. apply Hal. left.
  - intros w. unfold lang. split.
    + rewrite Hs, Hf. intros Hpath.
      inversion Hpath as [|? ? ? ? (_ & He & _)%Hstep' Hrest
                          |? ? ? ? ? Ha (_ & -> & ->)%Hstep' Hrest]; subst.
      * by destruct Hsym.
      * inversion Hrest as [|? ? ? ? (? & _)%Hstep' _
                            |? ? ? ? ? _ (? & _)%Hstep' _]; subst; done.
    + intros ->. apply (path_sym N _ sym (NFA.final_state N)).
      * apply Hal. left.
      * apply Hstep'. by rewrite Hs, Hf.
      * constructor.
Qed.

(** A path of [N] that starts at the image of a state of [B] and whose
    steps are all images of steps of [B] is the image of a path of [B]. *)
Lemma path_restrict N B (ren : Z → Z) (P : Z → Prop) (f : Z) :
  (∀ p a q, P p → step N (ren p) a q →
            ∃ q', q = ren q' ∧ step B p a q' ∧ (P q' ∨ q' = f)
                  ∧ (a ∈ NFA.alphabet N → a = eps ∨ a ∈ NFA.alphabet B)) →
  eps ∉ NFA.alphabet N →
  (∀ a q, ¬ step N (ren f) a q) →
  (∀ p, P p → ren p ≠ ren f) →
  ∀ x w, path N x w (ren f) →
         ∀ p, x = ren p → P p ∨ p = f → path B p w f.
Proof.
  intros Hstep Heps Hfin Hinj x w Hpath.
  remember (ren f) as y eqn:Hy.
  induction Hpath as [x|x q w r Hs _ IH|x a q w r Ha Hs _ IH];
    intros p -> [Hp| ->].
  - by destruct (Hinj p Hp).
  - constructor.
  - destruct (Hstep p eps q Hp Hs) as (q' & -> & Hs' & Hq' & _).
    eapply path_eps; [done|]. by apply IH.
  - subst r. by destruct (Hfin eps q).
  - destruct (Hstep p a q Hp Hs) as (q' & -> & Hs' & Hq' & Hal).
    destruct (Hal Ha) as [->|Ha']; [done|].
    eapply path_sym; [done..|]. by apply IH.
  - subst r. by destruct (Hfin a q).
Qed.

Lemma path_from_final N f w r :
  (∀ a q, ¬ step N f a q) → path N f w r → w = [] ∧ r = f.
Proof.
  intros Hfin Hpath. inversion Hpath as [|? q ? ? Hs|? a q ? ? _ Hs]; subst.
  - done.
  - by destruct (Hfin eps q).
  - by destruct (Hfin a q).
Qed.

Lemma step_step_in N p a q : step N p a q ↔ step_in (NFA.transitions N) p a q.
Proof. done. Qed.

(** [opt] *)
Lemma opt_tnfa A :
  tnfa A →
  ∃ N, NFA.opt A = Ret N ∧ tnfa N ∧ ∀ w, lang N w ↔ lang A w ∨ w = [].
Proof.
  intros HA. pose proof HA as (Hth & Hnd & Heps & Hlab).
  destruct (tnfa_facts A HA) as (Hs & Hf & Hne & Hcl & Hin & Hout).
  destruct (opt_thompson A Hth) as (N & Hopt & HthN).
  exists N. split; [done|]. unfold NFA.opt in Hopt. injection Hopt as <-.
  set (N := NFA.mk _ _ _ _ _) in *.
  assert (∀ p a q, step N p a q
                   ↔ step A p a q
                     ∨ (p = NFA.start_state A ∧ a = eps
                        ∧ q = NFA.final_state A)) as Hstep.
  { intros p a q. rewrite (step_step_in N). unfold N, dd_add. simpl.
    rewrite step_in_dd_update. split.
    - intros [H|[[= -> ->] ->%list_elem_of_singleton]]; [by left|by right].
    - intros [H|(-> & -> & ->)]; [by left|]. right. split; [done|left]. }
  assert (tnfa N) as HN.
  { unfold tnfa. split_and!; try done.
    - by apply dict_set_NoDup.
    - intros p a q [H|(_ & -> & _)]%Hstep; [by eapply Hlab|by left]. }
  split; [done|]. intros w. unfold lang. simpl. split.
  - intros Hpath.
    assert (∀ x w, path N x w (NFA.final_state A) →
                   x ∈ NFA.states A → x ≠ NFA.start_state A →
                   path A x w (NFA.final_state A)) as Hrest.
    { intros x w' Hp Hx Hxs.
      apply (path_restrict N A (λ z, z)
               (λ p, p ∈ NFA.states A ∧ p ≠ NFA.start_state A
                     ∧ p ≠ NFA.final_state A) (NFA.final_state A))
        with (x := x); try done.
      - intros p a q (Hp1 & Hp2 & Hp3) [H|(-> & _)]%Hstep; [|done].
        exists q. split; [done|]. split; [done|]. split.
        + destruct (decide (q = NFA.final_state A)); [by right|]. left.
          split; [by apply (Hcl p a q)|]. split; [|done].
          intros ->. by apply (Hin p a).
        + intros _. by eapply Hlab.
      - intros a q [H|(Heq & _)]%Hstep; [by apply (Hout a q)|done].
      - by intros p (_ & _ & ?).
      - destruct (decide (x = NFA.final_state A)); [by right|by left]. }
    inversion Hpath as [|? q ? ? [H|(_ & _ & ->)]%Hstep Hp
                        |? a q ? ? Ha [H|(_ & -> & _)]%Hstep Hp]; subst.
    + done.
    + left. eapply path_eps; [done|]. apply Hrest; [done| |].
      * by apply (Hcl _ _ _ H).
      * intros ->. by apply (Hin _ _ H).
    + right. apply path_from_final in Hp as [-> _]; [done|].
      intros a q [H|(Heq & _)]%Hstep; [by apply (Hout a q)|done].
    + left. eapply path_sym; [done..|]. apply Hrest; [done| |].
      * by apply (Hcl _ _ _ H).
      * intros ->. by apply (Hin _ _ H).
    + done.
  - intros [Hpath| ->].
    + eapply path_ext; [| |exact Hpath]; [|done].
      intros x a y H. apply Hstep. by left.
    + eapply path_eps; [|constructor]. apply Hstep. by right.
Qed.

(** [star] and [plus] wrap [A] in a fresh start state [s'] and a fresh
    final state [f'] with epsilon transitions from [s'] and from the old
    final state. *)
Section loop.
Variables (A N : NFA.t) (s' f' : Z).
Hypothesis HA : tnfa A.
Hypothesis Hs' : s' ∉ NFA.states A.
Hypothesis Hf' : f' ∉ NFA.states A.
Hypothesis Hsf : s' ≠ f'.
Hypothesis Hal : ∀ a, a ∈ NFA.alphabet N ↔ a ∈ NFA.alphabet A.
Hypothesis Hold : ∀ p a q, step A p a q → step N p a q.
Hypothesis Hnew :
  ∀ p a q, step N p a q →
    step A p a q
    ∨ (a = eps ∧ (p = s' ∨ p = NFA.final_state A)
       ∧ (q = NFA.start_state A ∨ q = f')).
Hypothesis Hback : step N (NFA.final_state A) eps (NFA.start_state A).
Hypothesis Hexit : step N (NFA.final_state A) eps f'.

Lemma loop_embed p w q : path A p w q → path N p w q.
Proof. apply path_ext; [done|]. intros a. apply Hal. Qed.

Lemma loop_exit_final a q : ¬ step N f' a q.
Proof.
  destruct (tnfa_facts A HA) as (Hs & Hf & Hne & Hcl & Hin & Hout).
  intros [H|(_ & [Heq|Heq] & _)]%Hnew.
  - apply Hf'. by apply (Hcl f' a q).
  - done.
  - apply Hf'. by rewrite Heq.
Qed.

Lemma loop_split_from x w y :
  path N x w y → y = f' → x ∈ NFA.states A →
  ∃ u v, w = u ++ v ∧ path A x u (NFA.final_state A) ∧ kstar (lang A) v.
Proof.
  destruct (tnfa_facts A HA) as (Hs & Hf & Hne & Hcl & Hin & Hout).
  destruct HA as (_ & _ & Heps & Hlab).
  induction 1 as [x|x q w r Hst Hrest IH|x a q w r Ha Hst Hrest IH];
    intros Hy Hx.
  - subst x. done.
  - apply Hnew in Hst as [Hst|(_ & [Hp|Hp] & [Hq|Hq])].
    + destruct IH as (u & v & -> & Hu & Hv); [done|by apply (Hcl x eps q)|].
      exists u, v. split; [done|]. split; [by eapply path_eps|done].
    + subst x. done.
    + subst x. done.
    + subst x q. destruct IH as (u & v & -> & Hu & Hv); [done..|].
      exists [], (u ++ v). split; [done|]. split; [constructor|].
      by constructor.
    + subst x q r. apply path_from_final in Hrest as [-> _];
        [|apply loop_exit_final].
      exists [], []. split; [done|]. split; constructor.
  - apply Hnew in Hst as [Hst|(-> & _)].
    + destruct IH as (u & v & -> & Hu & Hv); [done|by apply (Hcl x a q)|].
      exists (a :: u), v. split; [done|]. split; [|done].
      eapply path_sym; [|done..]. by apply Hal.
    + destruct Heps. by apply Hal.
Qed.

Lemma loop_split x w :
  path N x w f' → x ∈ NFA.states A →
  ∃ u v, w = u ++ v ∧ path A x u (NFA.final_state A) ∧ kstar (lang A) v.
Proof. intros H. by apply (loop_split_from x w f'). Qed.

Lemma loop_iterate v : kstar (lang A) v → path N (NFA.final_state A) v f'.
Proof.
  induction 1 as [|u v Hu _ IH].
  - eapply path_eps; [exact Hexit|constructor].
  - eapply path_eps; [exact Hback|].
    eapply path_app; [|exact IH]. by apply loop_embed.
Qed.
Lemma loop_from_start w :
  path N s' w f' →
  (w = [] ∧ step N s' eps f')
  ∨ ∃ u v, w = u ++ v ∧ lang A u ∧ kstar (lang A) v.
Proof.
  destruct (tnfa_facts A HA) as (Hs & Hf & Hne & Hcl & Hin & Hout).
  destruct HA as (_ & _ & Heps & Hlab).
  intros Hpath.
  inversion Hpath as [Heq|? q ? ? Hst Hp|? a q ? ? Ha Hst Hp].
  - done.
  - subst. pose proof Hst as Hst'.
    apply Hnew in Hst as [Hst|(_ & _ & [Hq|Hq])].
    + destruct Hs'. by apply (Hcl s' eps q).
    + subst q. right. by apply loop_split.
    + subst q. left. split; [|done].
      by apply path_from_final in Hp as [-> _]; [|apply loop_exit_final].
  - subst. apply Hnew in Hst as [Hst|(-> & _)].
    + destruct Hs'. by apply (Hcl s' a q).
    + destruct Heps. by apply Hal.
Qed.

Lemma loop_to_final u v :
  step N s' eps (NFA.start_state A) →
  lang A u → kstar (lang A) v → path N s' (u ++ v) f'.
Proof.
  intros Hent Hu Hv. eapply path_eps; [exact Hent|].
  eapply path_app; [|by apply loop_iterate]. by apply loop_embed.
Qed.
End loop.

Lemma kstar_cases L w :
  kstar L w ↔ w = [] ∨ ∃ u v, w = u ++ v ∧ L u ∧ kstar L v.
Proof.
  split.
  - intros [|u v Hu Hv]; [by left|]. right. by exists u, v.
  - intros [->|(u & v & -> & Hu & Hv)]; by constructor.
Qed.

(** [star] *)
Lemma star_tnfa A :
  tnfa A →
  ∃ N, NFA.star A = Ret N ∧ tnfa N ∧ ∀ w, lang N w ↔ kstar (lang A) w.
Proof.
  intros HA. pose proof HA as (Hth & Hnd & Heps & Hlab).
  destruct (tnfa_facts A HA) as (Hs & Hf & Hne & Hcl & Hin & Hout).
  destruct (star_thompson A Hth) as (N & Hstar & HthN).
  exists N. split; [done|]. unfold NFA.star in Hstar.
  destruct (py_max (NFA.states A)) as [m| |] eqn:Hmax; try done.
  simpl in Hstar. injection Hstar as <-.
  set (N := NFA.mk _ _ _ _ _) in *.
  pose proof (py_max_spec _ _ Hmax) as Hle.
  assert (m + 1 ∉ NFA.states A) as Hs' by (intros H%Hle; lia).
  assert (m + 2 ∉ NFA.states A) as Hf' by (intros H%Hle; lia).
  assert (∀ p a q, step N p a q
                   ↔ step A p a q
                     ∨ (a = eps ∧ (p = m + 1 ∨ p = NFA.final_state A)
                        ∧ (q = NFA.start_state A ∨ q = m + 2))) as Hstep.
  { intros p a q. rewrite (step_step_in N). unfold N. simpl.
    rewrite !step_in_dd_update. split.
    - intros [[H|[[= -> ->] Hq]]|[[= -> ->] Hq]]; [by left|right..].
      + split; [done|]. split; [by left|].
        apply elem_of_cons in Hq as [->| ->%list_elem_of_singleton]; auto.
      + split; [done|]. split; [by right|].
        apply elem_of_cons in Hq as [->| ->%list_elem_of_singleton]; auto.
    - intros [H|(-> & [->| ->] & Hq)]; [by left; left| |].
      + left. right. split; [done|].
        destruct Hq as [->| ->]; [left|right; left].
      + right. split; [done|].
        destruct Hq as [->| ->]; [left|right; left]. }
  assert (tnfa N) as HN.
  { unfold tnfa. split_and!; try done.
    - unfold N. simpl. by do 2 apply dict_set_NoDup.
    - intros p a q [H|(-> & _)]%Hstep; [by eapply Hlab|by left]. }
  split; [done|]. intros w. unfold lang.
  change (NFA.start_state N) with (m + 1).
  change (NFA.final_state N) with (m + 2).
  assert (m + 1 ≠ m + 2) as Hsf by lia.
  assert (∀ p a q, step A p a q → step N p a q) as Hold.
  { intros p a q H. apply Hstep. by left. }
  assert (∀ q, step N (NFA.final_state A) eps q
               ↔ q = NFA.start_state A ∨ q = m + 2) as Hfin.
  { intros q. rewrite Hstep. split.
    - intros [H|(_ & _ & H)]; [by destruct (Hout eps q)|done].
    - intros H. right. auto. }
  rewrite kstar_cases. split.
  - intros Hpath.
    apply (loop_from_start A N (m + 1) (m + 2)) in Hpath
      as [[-> _]|H]; try done; [by left|by right|].
    intros p a q. apply Hstep.
  - intros [->|(u & v & -> & Hu & Hv)].
    + eapply path_eps; [|constructor]. apply Hstep. right. auto.
    + apply (loop_to_final A N (m + 1) (m + 2)); try done.
      * apply Hfin. by left.
      * apply Hfin. by right.
      * apply Hstep. right. auto.
Qed.

(** [plus] *)
Lemma plus_tnfa A :
  tnfa A →
  ∃ N, NFA.plus A = Ret N ∧ tnfa N
       ∧ ∀ w, lang N w ↔ ∃ u v, w = u ++ v ∧ lang A u ∧ kstar (lang A) v.
Proof.
  intros HA. pose proof HA as (Hth & Hnd & Heps & Hlab).
  destruct (tnfa_facts A HA) as (Hs & Hf & Hne & Hcl & Hin & Hout).
  destruct (plus_thompson A Hth) as (N & Hplus & HthN).
  exists N. split; [done|]. unfold NFA.plus in Hplus.
  destruct (py_max (NFA.states A)) as [m| |] eqn:Hmax; try done.
  simpl in Hplus. injection Hplus as <-.
  set (N := NFA.mk _ _ _ _ _) in *.
  pose proof (py_max_spec _ _ Hmax) as Hle.
  assert (m + 1 ∉ NFA.states A) as Hs' by (intros H%Hle; lia).
  assert (m + 2 ∉ NFA.states A) as Hf' by (intros H%Hle; lia).
  assert (∀ p a q, step N p a q
                   ↔ step A p a q
                     ∨ (a = eps ∧ p = m + 1 ∧ q = NFA.start_state A)
                     ∨ (a = eps ∧ p = NFA.final_state A
                        ∧ (q = NFA.start_state A ∨ q = m + 2))) as Hstep.
  { intros p a q. rewrite (step_step_in N). unfold N, dd_add. simpl.
    rewrite !step_in_dd_update. split.
    - intros [[H|[[= -> ->] Hq]]|[[= -> ->] Hq]]; [by left|right..].
      + left. by apply list_elem_of_singleton in Hq.
      + right. split; [done|]. split; [done|].
        apply elem_of_cons in Hq as [->| ->%list_elem_of_singleton]; auto.
    - intros [H|[(-> & -> & ->)|(-> & -> & Hq)]]; [by left; left| |].
      + left. right. split; [done|left].
      + right. split; [done|].
        destruct Hq as [->| ->]; [left|right; left]. }
  assert (tnfa N) as HN.
  { unfold tnfa. split_and!; try done.
    - unfold N, dd_add. simpl. by do 2 apply dict_set_NoDup.
    - intros p a q [H|[(-> & _)|(-> & _)]]%Hstep;
        [by eapply Hlab|by left..]. }
  split; [done|]. intros w. unfold lang.
  change (NFA.start_state N) with (m + 1).
  change (NFA.final_state N) with (m + 2).
  assert (m + 1 ≠ m + 2) as Hsf by lia.
  assert (∀ p a q, step A p a q → step N p a q) as Hold.
  { intros p a q H. apply Hstep. by left. }
  assert (∀ p a q, step N p a q →
            step A p a q
            ∨ (a = eps ∧ (p = m + 1 ∨ p = NFA.final_state A)
               ∧ (q = NFA.start_state A ∨ q = m + 2))) as Hnew.
  { intros p a q [H|[(-> & -> & ->)|(-> & -> & Hq)]]%Hstep; auto. }
  assert (step N (NFA.final_state A) eps (NFA.start_state A)) as Hback.
  { apply Hstep. right. right. auto. }
  assert (step N (NFA.final_state A) eps (m + 2)) as Hexit.
  { apply Hstep. right. right. auto. }
  split.
  - intros Hpath.
    apply (loop_from_start A N (m + 1) (m + 2)) in Hpath
      as [[_ Hskip]|H]; try done.
    apply Hstep in Hskip as [H|[(_ & _ & H)|(_ & H & _)]].
    + destruct Hs'. by apply (Hcl _ _ _ H).
    + destruct Hf'. by rewrite H.
    + destruct Hs'. by rewrite H.
  - intros (u & v & -> & Hu & Hv).
    apply (loop_to_final A N (m + 1) (m + 2)); try done.
    apply Hstep. right. left. auto.
Qed.

(** [concat] and [union] keep the receiver [A] as it is and add the
    transitions of [B] under a renaming [ren] of its states. *)
Lemma step_in_renamed (f : Z → Z) tr0 (l : list ((Z * symbol) * list Z)) p a q :
  NoDup l.*1 →
  step_in (foldl (λ tr '((src, sym), dst), dd_update tr (f src, sym) (f <$> dst))
                 tr0 l) p a q
  ↔ step_in tr0 p a q ∨ ∃ p' q', step_in l p' a q' ∧ p = f p' ∧ q = f q'.
Proof.
  intros Hnd.
  rewrite (step_in_foldl _ (λ e, (f e.1.1, e.1.2)) (λ e, f <$> e.2))
    by (by intros d [[src sym] dst]).
  split.
  - intros [H|([[src sym] dst] & Hin & [= -> ->] & Hq)]; [by left|].
    simpl in Hq. apply list_elem_of_fmap in Hq as (q' & -> & Hq').
    right. exists src, q'. split; [|done]. exists dst. split; [|done].
    by apply dict_get_elem_NoDup.
  - intros [H|(p' & q' & (dst & Hget & Hq') & -> & ->)]; [by left|].
    right. exists ((p', a), dst). split; [by apply dict_get_Some_elem|].
    split; [done|]. simpl. apply list_elem_of_fmap. by exists q'.
Qed.

Section embed.
Variables (A B C : NFA.t) (ren : Z → Z).
Hypothesis HA : tnfa A.
Hypothesis HB : tnfa B.
Hypothesis Hal :
  ∀ a, a ∈ NFA.alphabet C ↔ a ∈ NFA.alphabet A ∨ a ∈ NFA.alphabet B.
Hypothesis Hstep :
  ∀ p a q, step C p a q
           ↔ step A p a q
             ∨ ∃ p' q', step B p' a q' ∧ p = ren p' ∧ q = ren q'.
Hypothesis Hinj :
  ∀ x y, x ∈ NFA.states B → y ∈ NFA.states B → ren x = ren y → x = y.
Hypothesis Hsep :
  ∀ x, x ∈ NFA.states B → x ≠ NFA.start_state B → x ≠ NFA.final_state B →
       ren x ∉ NFA.states A.
Hypothesis Hfin : ∀ a r, ¬ step C (ren (NFA.final_state B)) a r.

Lemma embed_eps : eps ∉ NFA.alphabet C.
Proof.
  destruct HA as (_ & _ & HepsA & _). destruct HB as (_ & _ & HepsB & _).
  by intros [H|H]%Hal.
Qed.

Lemma embed_labels p a q : step C p a q → a = eps ∨ a ∈ NFA.alphabet C.
Proof.
  destruct HA as (_ & _ & _ & HlabA). destruct HB as (_ & _ & _ & HlabB).
  intros [H|(p' & q' & H & _)]%Hstep.
  - destruct (HlabA _ _ _ H); [by left|]. right. apply Hal. by left.
  - destruct (HlabB _ _ _ H); [by left|]. right. apply Hal. by right.
Qed.

Lemma embed_left p w q : path A p w q → path C p w q.
Proof.
  apply path_ext.
  - intros x a y H. apply Hstep. by left.
  - intros a H. apply Hal. by left.
Qed.

Lemma embed_right p w q : path B p w q → path C (ren p) w (ren q).
Proof.
  induction 1 as [p|p q w r H1 _ IH|p a q w r H0 H1 _ IH].
  - constructor.
  - eapply path_eps; [|done]. apply Hstep. right. by exists p, q.
  - eapply path_sym; [| |done].
    + apply Hal. by right.
    + apply Hstep. right. by exists p, q.
Qed.

Lemma embed_restrict_right q w :
  q ∈ NFA.states B → q ≠ NFA.start_state B →
  path C (ren q) w (ren (NFA.final_state B)) →
  path B q w (NFA.final_state B).
Proof.
  destruct (tnfa_facts B HB) as (Hs & Hf & Hne & Hcl & Hin & Hout).
  destruct (tnfa_facts A HA) as (HsA & HfA & HneA & HclA & HinA & HoutA).
  pose proof HB as (_ & _ & HepsB & HlabB).
  intros Hq Hqs Hpath.
  apply (path_restrict C B ren
           (λ p, p ∈ NFA.states B ∧ p ≠ NFA.start_state B
                 ∧ p ≠ NFA.final_state B) (NFA.final_state B))
    with (x := ren q); try done.
  - intros p a r (Hp1 & Hp2 & Hp3) [H|(p' & q' & H & Heq & ->)]%Hstep.
    + destruct (Hsep p Hp1 Hp2 Hp3). by apply (HclA _ _ _ H).
    + destruct (Hcl _ _ _ H) as [Hp' Hq'].
      apply Hinj in Heq; [|done..]. subst p'.
      exists q'. split; [done|]. split; [done|]. split.
      * destruct (decide (q' = NFA.final_state B)); [by right|]. left.
        split; [done|]. split; [|done]. intros ->. by apply (Hin p a).
      * intros _. by eapply HlabB.
  - apply embed_eps.
  - intros p (Hp1 & _ & Hp3) Heq. by apply Hinj in Heq.
  - destruct (decide (q = NFA.final_state B)); [by right|by left].
Qed.

Lemma embed_restrict_left q w :
  ren (NFA.start_state B) = NFA.start_state A →
  ren (NFA.final_state B) = NFA.final_state A →
  q ∈ NFA.states A → q ≠ NFA.start_state A →
  path C q w (NFA.final_state A) → path A q w (NFA.final_state A).
Proof.
  destruct (tnfa_facts B HB) as (Hs & Hf & Hne & Hcl & Hin & Hout).
  destruct (tnfa_facts A HA) as (HsA & HfA & HneA & HclA & HinA & HoutA).
  pose proof HA as (_ & _ & HepsA & HlabA).
  intros Hrs Hrf Hq Hqs Hpath.
  apply (path_restrict C A (λ z, z)
           (λ p, p ∈ NFA.states A ∧ p ≠ NFA.start_state A
                 ∧ p ≠ NFA.final_state A) (NFA.final_state A))
    with (x := q); try done.
  - intros p a r (Hp1 & Hp2 & Hp3) [H|(p' & q' & H & -> & ->)]%Hstep.
    + exists r. split; [done|]. split; [done|]. split.
      * destruct (decide (r = NFA.final_state A)); [by right|]. left.
        split; [by apply (HclA _ _ _ H)|]. split; [|done].
        intros ->. by apply (HinA p a).
      * intros _. by eapply HlabA.
    + destruct (Hcl _ _ _ H) as [Hp' Hq'].
      destruct (decide (p' = NFA.start_state B)) as [->|]; [done|].
      destruct (decide (p' = NFA.final_state B)) as [->|]; [done|].
      by destruct (Hsep p').
  - apply embed_eps.
  - rewrite <- Hrf. apply Hfin.
  - by intros p (_ & _ & ?).
  - destruct (decide (q = NFA.final_state A)); [by right|by left].
Qed.

(** Concatenation: the start state of [B] is glued onto the final state
    of [A]. *)
Lemma embed_concat_split x w y :
  ren (NFA.start_state B) = NFA.final_state A →
  ren (NFA.final_state B) ∉ NFA.states A →
  path C x w y → y = ren (NFA.final_state B) → x ∈ NFA.states A →
  ∃ u v, w = u ++ v ∧ path A x u (NFA.final_state A)
         ∧ path B (NFA.start_state B) v (NFA.final_state B).
Proof.
  destruct (tnfa_facts B HB) as (Hs & Hf & Hne & Hcl & Hin & Hout).
  destruct (tnfa_facts A HA) as (HsA & HfA & HneA & HclA & HinA & HoutA).
  pose proof HA as (_ & _ & HepsA & HlabA).
  pose proof HB as (_ & _ & HepsB & HlabB).
  intros Hrs Hrf.
  assert (∀ p' a q' x, step B p' a q' → x = ren p' → x ∈ NFA.states A →
                       p' = NFA.start_state B ∧ x = NFA.final_state A
                       ∧ q' ∈ NFA.states B ∧ q' ≠ NFA.start_state B) as Hglue.
  { intros p' a q' x' H -> Hx. destruct (Hcl _ _ _ H) as [Hp' Hq'].
    destruct (decide (p' = NFA.start_state B)) as [->|Hp1].
    - split_and!; try done. intros ->. by apply (Hin _ _ H).
    - destruct (decide (p' = NFA.final_state B)) as [->|Hp2]; [done|].
      by destruct (Hsep p'). }
  induction 1 as [x|x q w r Hst Hrest IH|x a q w r Ha Hst Hrest IH];
    intros Hy Hx.
  - subst x. done.
  - apply Hstep in Hst as [Hst|(p' & q' & Hst & Hp & Hq)].
    + destruct IH as (u & v & -> & Hu & Hv); [done|by apply (HclA x eps q)|].
      exists u, v. split; [done|]. split; [by eapply path_eps|done].
    + destruct (Hglue _ _ _ _ Hst Hp Hx) as (-> & -> & Hq1 & Hq2).
      subst q r. exists [], w. split; [done|]. split; [constructor|].
      eapply path_eps; [done|]. by apply embed_restrict_right.
  - apply Hstep in Hst as [Hst|(p' & q' & Hst & Hp & Hq)].
    + destruct IH as (u & v & -> & Hu & Hv); [done|by apply (HclA x a q)|].
      exists (a :: u), v. split; [done|]. split; [|done].
      eapply path_sym; [|done..].
      destruct (HlabA _ _ _ Hst) as [->|]; [|done].
      by destruct embed_eps.
    + destruct (Hglue _ _ _ _ Hst Hp Hx) as (-> & -> & Hq1 & Hq2).
      subst q r. exists [], (a :: w). split; [done|]. split; [constructor|].
      eapply path_sym; [|done|by apply embed_restrict_right].
      destruct (HlabB _ _ _ Hst) as [->|]; [|done].
      by destruct embed_eps.
Qed.

Lemma embed_concat w :
  NFA.start_state C = NFA.start_state A →
  NFA.final_state C = ren (NFA.final_state B) →
  ren (NFA.start_state B) = NFA.final_state A →
  ren (NFA.final_state B) ∉ NFA.states A →
  lang C w ↔ ∃ u v, w = u ++ v ∧ lang A u ∧ lang B v.
Proof.
  destruct (tnfa_facts A HA) as (HsA & _).
  intros Hs Hf Hrs Hrf. unfold lang. rewrite Hs, Hf. split.
  - intros Hpath. by eapply embed_concat_split.
  - intros (u & v & -> & Hu & Hv). eapply path_app; [by apply embed_left|].
    rewrite <- Hrs. by apply embed_right.
Qed.

(** Union: the start states are glued together, and so are the final
    states. *)
Lemma embed_union w :
  NFA.start_state C = NFA.start_state A →
  NFA.final_state C = NFA.final_state A →
  ren (NFA.start_state B) = NFA.start_state A →
  ren (NFA.final_state B) = NFA.final_state A →
  lang C w ↔ lang A w ∨ lang B w.
Proof.
  destruct (tnfa_facts B HB) as (Hs & Hf & Hne & Hcl & Hin & Hout).
  destruct (tnfa_facts A HA) as (HsA & HfA & HneA & HclA & HinA & HoutA).
  pose proof HA as (_ & _ & HepsA & HlabA).
  pose proof HB as (_ & _ & HepsB & HlabB).
  intros HsC HfC Hrs Hrf. unfold lang. rewrite HsC, HfC. split.
  - intros Hpath.
    inversion Hpath as [Heq|? q ? ? Hst Hp|? a q ? ? Ha Hst Hp].
    + done.
    + subst. apply Hstep in Hst as [Hst|(p' & q' & Hst & Heq & ->)].
      * left. eapply path_eps; [done|].
        apply embed_restrict_left; try done.
        -- by apply (HclA _ _ _ Hst).
        -- intros ->. by apply (HinA _ _ Hst).
      * right. destruct (Hcl _ _ _ Hst) as [Hp' Hq'].
        rewrite <- Hrs in Heq. apply Hinj in Heq; [|done..]. subst p'.
        eapply path_eps; [done|]. apply embed_restrict_right; [done| |].
        -- intros ->. by apply (Hin _ _ Hst).
        -- by rewrite Hrf.
    + subst. apply Hstep in Hst as [Hst|(p' & q' & Hst & Heq & ->)].
      * left. eapply path_sym; [|done|].
        -- destruct (HlabA _ _ _ Hst) as [->|]; [|done].
           by destruct embed_eps.
        -- apply embed_restrict_left; try done.
           ++ by apply (HclA _ _ _ Hst).
           ++ intros ->. by apply (HinA _ _ Hst).
      * right. destruct (Hcl _ _ _ Hst) as [Hp' Hq'].
        rewrite <- Hrs in Heq. apply Hinj in Heq; [|done..]. subst p'.
        eapply path_sym; [|done|].
        -- destruct (HlabB _ _ _ Hst) as [->|]; [|done].
           by destruct embed_eps.
        -- apply embed_restrict_right; [done| |].
           ++ intros ->. by apply (Hin _ _ Hst).
           ++ by rewrite Hrf.
  - intros [H|H]; [by apply embed_left|].
    rewrite <- Hrs, <- Hrf. by apply embed_right.
Qed.
End embed.

Lemma lang_ext N N' w :
  NFA.start_state N' = NFA.start_state N →
  NFA.final_state N' = NFA.final_state N →
  (∀ a, a ∈ NFA.alphabet N' ↔ a ∈ NFA.alphabet N) →
  (∀ p a q, step N' p a q ↔ step N p a q) →
  lang N' w ↔ lang N w.
Proof.
  intros Hs Hf Hal Hstep. unfold lang. rewrite Hs, Hf.
  split; apply path_ext; intros; try apply Hstep; try apply Hal; done.
Qed.

(** [concat] *)
Lemma concat_tnfa A B :
  tnfa A → tnfa B →
  ∃ C, NFA.concat A B = Ret C ∧ tnfa C
       ∧ ∀ w, lang C w ↔ ∃ u v, w = u ++ v ∧ lang A u ∧ lang B v.
Proof.
  intros HA HB. pose proof HA as (HthA & HndA & HepsA & HlabA).
  pose proof HB as (HthB & HndB & HepsB & HlabB).
  destruct (tnfa_facts A HA) as (HsA & HfA & HneA & HclA & HinA & HoutA).
  destruct (tnfa_facts B HB) as (HsB & HfB & HneB & HclB & HinB & HoutB).
  destruct (concat_thompson A B HthA HthB) as (C & Hc & HthC).
  exists C. split; [done|]. unfold NFA.concat in Hc.
  destruct (py_max (NFA.states A)) as [max_s| |] eqn:Hmax; try done.
  destruct (py_min (NFA.states B)) as [min_o| |] eqn:Hmin; try done.
  simpl in Hc. injection Hc as <-.
  pose proof (py_max_spec _ _ Hmax) as Hle.
  pose proof (py_min_spec _ _ Hmin) as Hge.
  set (corr := max_s - min_o + 1) in *.
  set (ren := λ x, if decide (x = NFA.start_state B)
                   then NFA.final_state A else x + corr).
  set (C := NFA.mk _ _ _ _ _) in *.
  assert (∀ a, a ∈ NFA.alphabet C
               ↔ a ∈ NFA.alphabet A ∨ a ∈ NFA.alphabet B) as Hal.
  { intros a. apply elem_of_set_update. }
  assert (∀ p a q, step C p a q
                   ↔ step A p a q
                     ∨ ∃ p' q', step B p' a q' ∧ p = ren p' ∧ q = ren q')
    as Hstep.
  { intros p a q. rewrite (step_step_in C). unfold C. simpl.
    by apply (step_in_renamed ren). }
  assert (∀ x, x ∈ NFA.states B → x ≠ NFA.start_state B →
               ren x ∉ NFA.states A) as Hfresh.
  { intros x Hx Hxs H%Hle. specialize (Hge _ Hx). unfold ren in H.
    rewrite decide_False in H by done. lia. }
  assert (∀ x y, x ∈ NFA.states B → y ∈ NFA.states B → ren x = ren y → x = y)
    as Hinj.
  { intros x y Hx Hy Heq.
    destruct (decide (x = NFA.start_state B)) as [Hx1|Hx1];
      destruct (decide (y = NFA.start_state B)) as [Hy1|Hy1].
    - congruence.
    - destruct (Hfresh y Hy Hy1). rewrite <- Heq. unfold ren.
      by rewrite decide_True.
    - destruct (Hfresh x Hx Hx1). rewrite Heq. unfold ren.
      by rewrite decide_True.
    - unfold ren in Heq. rewrite !decide_False in Heq by done. lia. }
  assert (ren (NFA.start_state B) = NFA.final_state A) as Hrs.
  { unfold ren. by rewrite decide_True. }
  assert (NFA.final_state C = ren (NFA.final_state B)) as Hrf.
  { unfold ren. by rewrite decide_False. }
  assert (∀ a r, ¬ step C (ren (NFA.final_state B)) a r) as Hfin.
  { intros a r [H|(p' & q' & H & Heq & _)]%Hstep.
    - destruct (Hfresh (NFA.final_state B)); [done..|].
      by apply (HclA _ _ _ H).
    - apply Hinj in Heq; [|done|by apply (HclB _ _ _ H)]. subst p'.
      by apply (HoutB a q'). }
  split.
  - unfold tnfa. split_and!; try done.
    + unfold C. simpl.
      by apply (NoDup_foldl_dd_update _ (λ e, (ren e.1.1, e.1.2))
                  (λ e, ren <$> e.2)); [intros d [[src sym] dst]|].
    + by apply (embed_eps A B C).
    + by apply (embed_labels A B C ren).
  - intros w. apply (embed_concat A B C ren); try done.
    + intros x Hx Hx1 _. by apply Hfresh.
    + by apply Hfresh.
Qed.

(** [__add__] *)
Lemma add_tnfa A B :
  tnfa A → tnfa B →
  ∃ C, NFA.add A B = Ret C ∧ tnfa C
       ∧ ∀ w, lang C w ↔ ∃ u v, w = u ++ v ∧ lang A u ∧ lang B v.
Proof.
  intros HA HB.
  destruct (copy_tnfa A HA) as (A' & Hcopy & HA' & Hs & Hf & _ & Hal & Hstep).
  destruct (concat_tnfa A' B HA' HB) as (C & Hc & HC & Hlang).
  exists C. unfold NFA.add. rewrite Hcopy. simpl. split; [done|].
  split; [done|]. intros w. rewrite Hlang.
  by setoid_rewrite (lang_ext A A' _ Hs Hf Hal Hstep).
Qed.

(** [union] *)
Lemma union_tnfa A B :
  tnfa A → tnfa B →
  ∃ C, NFA.union A B = Ret C ∧ tnfa C ∧ ∀ w, lang C w ↔ lang A w ∨ lang B w.
Proof.
  intros HA HB. pose proof HA as (HthA & HndA & HepsA & HlabA).
  pose proof HB as (HthB & HndB & HepsB & HlabB).
  destruct (tnfa_facts A HA) as (HsA & HfA & HneA & HclA & HinA & HoutA).
  destruct (tnfa_facts B HB) as (HsB & HfB & HneB & HclB & HinB & HoutB).
  destruct (union_thompson A B HthA HthB) as (C & Hc & HthC).
  exists C. split; [done|]. unfold NFA.union in Hc.
  destruct (py_max (NFA.states A)) as [max_s| |] eqn:Hmax; try done.
  destruct (py_min (NFA.states B)) as [min_o| |] eqn:Hmin; try done.
  simpl in Hc. injection Hc as <-.
  pose proof (py_max_spec _ _ Hmax) as Hle.
  pose proof (py_min_spec _ _ Hmin) as Hge.
  set (corr := max_s - min_o + 1) in *.
  set (ren := λ st, if decide (st = NFA.final_state B) then NFA.final_state A
                    else if decide (st = NFA.start_state B)
                         then NFA.start_state A else st + corr).
  set (C := NFA.mk _ _ _ _ _) in *.
  assert (∀ a, a ∈ NFA.alphabet C
               ↔ a ∈ NFA.alphabet A ∨ a ∈ NFA.alphabet B) as Hal.
  { intros a. apply elem_of_set_update. }
  assert (∀ p a q, step C p a q
                   ↔ step A p a q
                     ∨ ∃ p' q', step B p' a q' ∧ p = ren p' ∧ q = ren q')
    as Hstep.
  { intros p a q. rewrite (step_step_in C). unfold C. simpl.
    by apply (step_in_renamed ren). }
  assert (ren (NFA.start_state B) = NFA.start_state A) as Hrs.
  { unfold ren. rewrite decide_False by done. by rewrite decide_True. }
  assert (ren (NFA.final_state B) = NFA.final_state A) as Hrf.
  { unfold ren. by rewrite decide_True. }
  assert (∀ x, x ∈ NFA.states B → x ≠ NFA.start_state B →
               x ≠ NFA.final_state B → ren x ∉ NFA.states A) as Hsep.
  { intros x Hx Hx1 Hx2 H%Hle. specialize (Hge _ Hx). unfold ren in H.
    rewrite !decide_False in H by done. lia. }
  assert (∀ x y, x ∈ NFA.states B → y ∈ NFA.states B → ren x = ren y → x = y)
    as Hinj.
  { assert (∀ x y, x ∈ NFA.states B → y ∈ NFA.states B → ren x = ren y →
                   x = NFA.start_state B ∨ x = NFA.final_state B → x = y) as H.
    { intros x y Hx Hy Heq Hxc.
      destruct (decide (y = NFA.start_state B)) as [Hy1|Hy1];
        [|destruct (decide (y = NFA.final_state B)) as [Hy2|Hy2]].
      - destruct Hxc as [->| ->]; [done|]. subst y. congruence.
      - destruct Hxc as [->| ->]; [|done]. subst y. congruence.
      - destruct (Hsep y Hy Hy1 Hy2). rewrite <- Heq.
        destruct Hxc as [->| ->]; by rewrite ?Hrs, ?Hrf. }
    intros x y Hx Hy Heq.
    destruct (decide (x = NFA.start_state B ∨ x = NFA.final_state B))
      as [Hxc|Hxc]; [by apply H|].
    destruct (decide (y = NFA.start_state B ∨ y = NFA.final_state B))
      as [Hyc|Hyc]; [symmetry; by apply H|].
    unfold ren in Heq. rewrite !decide_False in Heq by tauto. lia. }
  assert (∀ a r, ¬ step C (ren (NFA.final_state B)) a r) as Hfin.
  { intros a r [H|(p' & q' & H & Heq & _)]%Hstep.
    - rewrite Hrf in H. by apply (HoutA a r).
    - apply Hinj in Heq; [|done|by apply (HclB _ _ _ H)]. subst p'.
      by apply (HoutB a q'). }
  split.
  - unfold tnfa. split_and!; try done.
    + unfold C. simpl.
      by apply (NoDup_foldl_dd_update _ (λ e, (ren e.1.1, e.1.2))
                  (λ e, ren <$> e.2)); [intros d [[src sym] dst]|].
    + by apply (embed_eps A B C).
    + by apply (embed_labels A B C ren).
  - intros w. by apply (embed_union A B C ren).
Qed.

(** [__or__] *)
Lemma or_tnfa A B :
  tnfa A → tnfa B →
  ∃ C, NFA.or A B = Ret C ∧ tnfa C ∧ ∀ w, lang C w ↔ lang A w ∨ lang B w.
Proof.
  intros HA HB.
  destruct (copy_tnfa A HA) as (A' & Hcopy & HA' & Hs & Hf & _ & Hal & Hstep).
  destruct (union_tnfa A' B HA' HB) as (C & Hc & HC & Hlang).
  exists C. unfold NFA.or. rewrite Hcopy. simpl. split; [done|].
  split; [done|]. intros w. rewrite Hlang.
  by rewrite (lang_ext A A' _ Hs Hf Hal Hstep).
Qed.

(** ** The compiled automaton of a regular expression *)

Lemma tnfa_entries_tnfa N : tnfa_entries N → tnfa N.
Proof.
  intros (Hs & Hf & Hne & Hnd & Heps & Hall).
  assert (∀ p a q, edge N p a q →
            p ∈ NFA.states N ∧ p ≠ NFA.final_state N
            ∧ (a = eps ∨ a ∈ NFA.alphabet N)
            ∧ q ∈ NFA.states N ∧ q ≠ NFA.start_state N) as Hedge.
  { intros p a q (dsts & Hin & Hq).
    apply (proj1 (Forall_forall _ _) Hall) in Hin as (H1 & H2 & H3 & H4).
    simpl in *. apply (proj1 (Forall_forall _ _) H4) in Hq as [H5 H6].
    done. }
  unfold tnfa, thompson, closed, no_into_start, no_from_final.
  split_and!; try done.
  - intros p a q H%Hedge. tauto.
  - intros p a H%Hedge. tauto.
  - intros a q H%Hedge. tauto.
  - intros p a q H%edge_step; [|done]. apply Hedge in H. tauto.
Qed.

Lemma kstar_ext (L L' : list symbol → Prop) w :
  (∀ u, L u ↔ L' u) → kstar L w ↔ kstar L' w.
Proof.
  intros HL. split; induction 1; constructor; try done; by apply HL.
Qed.

Lemma postfix_of_regex_nonempty r : postfix_of_regex r ≠ [].
Proof.
  destruct r; simpl; try done; intros H%(f_equal length);
    rewrite ?length_app in H; simpl in H; lia.
Qed.

Lemma construct_regex r stack :
  nonempty_syms r →
  ∃ N, foldM parsing.construct_step stack (postfix_of_regex r) = Ret (N :: stack)
       ∧ tnfa N ∧ ∀ w, lang N w ↔ matches r w.
Proof.
  revert stack.
  induction r as [s|r1 IH1 r2 IH2|r1 IH1 r2 IH2|r IH|r IH|r IH];
    intros stack Hr; simpl in Hr; cbn [postfix_of_regex].
  - destruct (literal_tnfa s Hr) as (N & Hlit & HN & Hlang). exists N.
    split; [|done]. unfold foldM, parsing.construct_step. by rewrite Hlit.
  - destruct Hr as [Hr1 Hr2].
    destruct (IH1 stack Hr1) as (A & HfA & HA & HlA).
    destruct (IH2 (A :: stack) Hr2) as (B & HfB & HB & HlB).
    destruct (add_tnfa A B HA HB) as (C & HC & HtC & HlC).
    exists C. rewrite foldM_app, HfA. simpl. rewrite foldM_app, HfB. simpl.
    rewrite HC. simpl. split; [done|]. split; [done|].
    intros w. rewrite HlC. by setoid_rewrite HlA; setoid_rewrite HlB.
  - destruct Hr as [Hr1 Hr2].
    destruct (IH1 stack Hr1) as (A & HfA & HA & HlA).
    destruct (IH2 (A :: stack) Hr2) as (B & HfB & HB & HlB).
    destruct (or_tnfa A B HA HB) as (C & HC & HtC & HlC).
    exists C. rewrite foldM_app, HfA. simpl. rewrite foldM_app, HfB. simpl.
    rewrite HC. simpl. split; [done|]. split; [done|].
    intros w. by rewrite HlC, HlA, HlB.
  - destruct (IH stack Hr) as (A & HfA & HA & HlA).
    destruct (star_tnfa A HA) as (C & HC & HtC & HlC).
    exists C. rewrite foldM_app, HfA. simpl. rewrite HC. simpl.
    split; [done|]. split; [done|].
    intros w. rewrite HlC. by apply kstar_ext.
  - destruct (IH stack Hr) as (A & HfA & HA & HlA).
    destruct (plus_tnfa A HA) as (C & HC & HtC & HlC).
    exists C. rewrite foldM_app, HfA. simpl. rewrite HC. simpl.
    split; [done|]. split; [done|].
    intros w. rewrite HlC. setoid_rewrite HlA.
    by setoid_rewrite (kstar_ext (lang A) (matches r) _ HlA).
  - destruct (IH stack Hr) as (A & HfA & HA & HlA).
    destruct (opt_tnfa A HA) as (C & HC & HtC & HlC).
    exists C. rewrite foldM_app, HfA. simpl.
    split; [unfold NFA.opt in HC; congruence|]. split; [done|].
    intros w. by rewrite HlC, HlA.
Qed.

Lemma construct_nfa_regex r :
  nonempty_syms r →
  ∃ N, parsing.construct_nfa (postfix_of_regex r) = Ret N
       ∧ tnfa N ∧ ∀ w, NFA.accept N w = true ↔ matches r w.
Proof.
  intros Hr. destruct (construct_regex r [] Hr) as (N & Hfold & HN & Hlang).
  exists N. unfold parsing.construct_nfa.
  destruct (postfix_of_regex r) as [|tok l] eqn:Hp.
  - by destruct (postfix_of_regex_nonempty r).
  - rewrite Hfold. simpl. split; [done|]. split; [done|].
    intros w. by rewrite accept_lang.
Qed.

Lemma accepted_ext A (L : list symbol → Prop) :
  (∀ w, lang A w ↔ L w) → ∀ w, NFA.accept A w = true ↔ L w.
Proof. intros H w. by rewrite accept_lang. Qed.

(** X6. Concatenation.  For automata [A] and [B] of the form that
    [construct_nfa] builds, [A + B] (a copy of [A] concatenated in place
    with [B]) returns an automaton of that form which accepts exactly the
    strings [u ++ v] with [u] accepted by [A] and [v] accepted by [B]. *)
Theorem add_accept A B :
  tnfa A → tnfa B →
  ∃ C, NFA.add A B = Ret C ∧ tnfa C
       ∧ ∀ w, NFA.accept C w = true
              ↔ ∃ u v, w = u ++ v ∧ NFA.accept A u = true
                       ∧ NFA.accept B v = true.
Proof.
  intros HA HB. destruct (add_tnfa A B HA HB) as (C & HC & HtC & Hl).
  exists C. split; [done|]. split; [done|]. intros w.
  rewrite accept_lang, Hl. by setoid_rewrite accept_lang.
Qed.

Lemma add_accept_witness :
  tnfa (operand_nfa "a") ∧ tnfa (operand_nfa "b")
  ∧ ∃ C, NFA.add (operand_nfa "a") (operand_nfa "b") = Ret C ∧ tnfa C
         ∧ ∀ w, NFA.accept C w = true
                ↔ ∃ u v, w = u ++ v ∧ NFA.accept (operand_nfa "a") u = true
                         ∧ NFA.accept (operand_nfa "b") v = true.
Proof.
  assert (tnfa (operand_nfa "a")) as HA.
  { apply tnfa_entries_tnfa, (bool_decide_unpack _). vm_compute. exact I. }
  assert (tnfa (operand_nfa "b")) as HB.
  { apply tnfa_entries_tnfa, (bool_decide_unpack _). vm_compute. exact I. }
  split; [exact HA|]. split; [exact HB|].
  exact (add_accept (operand_nfa "a") (operand_nfa "b") HA HB).
Defined.

(** X7. Union.  For automata [A] and [B] of the form that
    [construct_nfa] builds, [A | B] returns an automaton of that form
    which accepts exactly the strings that [A] or [B] accepts. *)
Theorem or_accept A B :
  tnfa A → tnfa B →
  ∃ C, NFA.or A B = Ret C ∧ tnfa C
       ∧ ∀ w, NFA.accept C w = true
              ↔ NFA.accept A w = true ∨ NFA.accept B w = true.
Proof.
  intros HA HB. destruct (or_tnfa A B HA HB) as (C & HC & HtC & Hl).
  exists C. split; [done|]. split; [done|]. intros w.
  by rewrite !accept_lang, Hl.
Qed.

Lemma or_accept_witness :
  tnfa (operand_nfa "a") ∧ tnfa (operand_nfa "b")
  ∧ ∃ C, NFA.or (operand_nfa "a") (operand_nfa "b") = Ret C ∧ tnfa C
         ∧ ∀ w, NFA.accept C w = true
                ↔ NFA.accept (operand_nfa "a") w = true
                  ∨ NFA.accept (operand_nfa "b") w = true.
Proof.
  assert (tnfa (operand_nfa "a")) as HA.
  { apply tnfa_entries_tnfa, (bool_decide_unpack _). vm_compute. exact I. }
  assert (tnfa (operand_nfa "b")) as HB.
  { apply tnfa_entries_tnfa, (bool_decide_unpack _). vm_compute. exact I. }
  split; [exact HA|]. split; [exact HB|].
  exact (or_accept (operand_nfa "a") (operand_nfa "b") HA HB).
Defined.

(** X8. Kleene star.  For an automaton [A] of the form that
    [construct_nfa] builds, [A.star()] returns an automaton of that form
    which accepts exactly the concatenations of any number (zero
    included) of strings that [A] accepts. *)
Theorem star_accept A :
  tnfa A →
  ∃ C, NFA.star A = Ret C ∧ tnfa C
       ∧ ∀ w, NFA.accept C w = true ↔ kstar (λ u, NFA.accept A u = true) w.
Proof.
  intros HA. destruct (star_tnfa A HA) as (C & HC & HtC & Hl).
  exists C. split; [done|]. split; [done|]. intros w.
  rewrite accept_lang, Hl. apply kstar_ext. intros u. by rewrite accept_lang.
Qed.

Lemma star_accept_witness :
  tnfa (operand_nfa "a")
  ∧ ∃ C, NFA.star (operand_nfa "a") = Ret C ∧ tnfa C
         ∧ ∀ w, NFA.accept C w = true
                ↔ kstar (λ u, NFA.accept (operand_nfa "a") u = true) w.
Proof.
  assert (tnfa (operand_nfa "a")) as HA.
  { apply tnfa_entries_tnfa, (bool_decide_unpack _). vm_compute. exact I. }
  split; [exact HA|]. exact (star_accept (operand_nfa "a") HA).
Defined.

(** X9. Plus.  For an automaton [A] of the form that [construct_nfa]
    builds, [A.plus()] returns an automaton of that form which accepts
    exactly the concatenations of one or more strings that [A] accepts. *)
Theorem plus_accept A :
  tnfa A →
  ∃ C, NFA.plus A = Ret C ∧ tnfa C
       ∧ ∀ w, NFA.accept C w = true
              ↔ ∃ u v, w = u ++ v ∧ NFA.accept A u = true
                       ∧ kstar (λ u, NFA.accept A u = true) v.
Proof.
  intros HA. destruct (plus_tnfa A HA) as (C & HC & HtC & Hl).
  exists C. split; [done|]. split; [done|]. intros w.
  rewrite accept_lang, Hl.
  split; intros (u & v & -> & Hu & Hv); exists u, v; split; try done;
    (split; [by apply accept_lang|]);
    by apply (kstar_ext (λ u, NFA.accept A u = true) (lang A) v
                (accept_lang A)).
Qed.

Lemma plus_accept_witness :
  tnfa (operand_nfa "a")
  ∧ ∃ C, NFA.plus (operand_nfa "a") = Ret C ∧ tnfa C
         ∧ ∀ w, NFA.accept C w = true
                ↔ ∃ u v, w = u ++ v ∧ NFA.accept (operand_nfa "a") u = true
                         ∧ kstar (λ u, NFA.accept (operand_nfa "a") u = true) v.
Proof.
  assert (tnfa (operand_nfa "a")) as HA.
  { apply tnfa_entries_tnfa, (bool_decide_unpack _). vm_compute. exact I. }
  split; [exact HA|]. exact (plus_accept (operand_nfa "a") HA).
Defined.

(** X10. Option.  For an automaton [A] of the form that [construct_nfa]
    builds, [A.opt()] returns an automaton of that form which accepts
    exactly the strings that [A] accepts and the empty string. *)
Theorem opt_accept A :
  tnfa A →
  ∃ C, NFA.opt A = Ret C ∧ tnfa C
       ∧ ∀ w, NFA.accept C w = true ↔ NFA.accept A w = true ∨ w = [].
Proof.
  intros HA. destruct (opt_tnfa A HA) as (C & HC & HtC & Hl).
  exists C. split; [done|]. split; [done|]. intros w.
  by rewrite !accept_lang, Hl.
Qed.

Lemma opt_accept_witness :
  tnfa (operand_nfa "a")
  ∧ ∃ C, NFA.opt (operand_nfa "a") = Ret C ∧ tnfa C
         ∧ ∀ w, NFA.accept C w = true
                ↔ NFA.accept (operand_nfa "a") w = true ∨ w = [].
Proof.
  assert (tnfa (operand_nfa "a")) as HA.
  { apply tnfa_entries_tnfa, (bool_decide_unpack _). vm_compute. exact I. }
  split; [exact HA|]. exact (opt_accept (operand_nfa "a") HA).
Defined.

(** X11. [construct_nfa] is correct on the postfix form of every regular
    expression whose operands are not the empty string: it returns an
    automaton, and the automaton accepts exactly the strings that the
    expression matches. *)
Theorem construct_nfa_matches r :
  nonempty_syms r →
  ∃ N, parsing.construct_nfa (postfix_of_regex r) = Ret N
       ∧ ∀ w, NFA.accept N w = true ↔ matches r w.
Proof.
  intros Hr. destruct (construct_nfa_regex r Hr) as (N & HN & _ & Hl).
  by exists N.
Qed.

Lemma construct_nfa_matches_witness :
  nonempty_syms (RCat (RSym "a") (RStar (RAlt (RSym "b") (RSym "c"))))
  ∧ ∃ N, parsing.construct_nfa
           (postfix_of_regex
              (RCat (RSym "a") (RStar (RAlt (RSym "b") (RSym "c"))))) = Ret N
         ∧ ∀ w, NFA.accept N w = true
                ↔ matches (RCat (RSym "a") (RStar (RAlt (RSym "b") (RSym "c"))))
                          w.
Proof.
  assert (nonempty_syms (RCat (RSym "a") (RStar (RAlt (RSym "b") (RSym "c")))))
    as Hr by (simpl; done).
  split; [exact Hr|]. exact (construct_nfa_matches _ Hr).
Defined.

(** ** From a DFA back to an NFA *)

Lemma dfa_entries_wf D : dfa_entries D → dfa_wf D.
Proof.
  intros (Hs & Hf & Hnd & Hall). split_and!; try done.
  - intros f Hin. by apply (proj1 (Forall_forall _ _) Hf).
  - intros s a d Hget%dict_get_Some_elem.
    by apply (proj1 (Forall_forall _ _) Hall) in Hget.
Qed.

Lemma to_nfa_table_get (tr : list ((nat * symbol) * nat)) p a :
  dict_get (p, a)
    ((λ '((src, sym), val), ((Z.of_nat src, sym), [Z.of_nat val])) <$> tr)
  = if decide (0 ≤ p)
    then (λ d, [Z.of_nat d]) <$> dict_get (Z.to_nat p, a) tr
    else None.
Proof.
  induction tr as [|[[src sym] val] tr IH].
  - simpl. by destruct (decide _).
  - rewrite fmap_cons. cbn [dict_get]. rewrite IH.
    destruct (decide (0 ≤ p)) as [Hp|Hp].
    + destruct (decide ((p, a) = (Z.of_nat src, sym))) as [[= -> ->]|Hne].
      * rewrite Nat2Z.id. by rewrite decide_True.
      * rewrite decide_False; [done|]. intros [= <- ->]. apply Hne.
        by rewrite Z2Nat.id.
    + rewrite decide_False; [done|]. intros [= -> _]. lia.
Qed.

Lemma to_nfa_table_NoDup (tr : list ((nat * symbol) * nat)) :
  NoDup tr.*1 →
  NoDup ((λ '((src, sym), val), ((Z.of_nat src, sym), [Z.of_nat val])) <$> tr).*1.
Proof.
  induction tr as [|[[src sym] val] tr IH]; [constructor|].
  rewrite !fmap_cons. cbn [fst].
  intros [Hnotin Hnd]%NoDup_cons. apply NoDup_cons. split; [|by apply IH].
  intros Hin. apply Hnotin. apply dict_get_is_Some.
  apply dict_get_is_Some in Hin. rewrite to_nfa_table_get in Hin.
  rewrite decide_True in Hin by lia. rewrite Nat2Z.id in Hin.
  destruct (dict_get (src, sym) tr); [done|]. by destruct Hin.
Qed.

Lemma step_in_dict_set tr k v p a q :
  step_in (dict_set k v tr) p a q
  ↔ if decide ((p, a) = k) then q ∈ v else step_in tr p a q.
Proof.
  unfold step_in. rewrite dict_get_set. destruct (decide _); [|done]. split.
  - by intros (dsts & [= <-] & Hq).
  - intros Hq. by exists v.
Qed.

Lemma to_nfa_finals_step (finals : list nat) (f : Z) tr0 p a q :
  (∀ p q, step_in tr0 p eps q → q = f) →
  step_in (foldl (λ tr state, dict_set (Z.of_nat state, eps) [f] tr) tr0 finals)
          p a q
  ↔ step_in tr0 p a q
    ∨ (a = eps ∧ q = f ∧ ∃ s, s ∈ finals ∧ p = Z.of_nat s).
Proof.
  revert tr0. induction finals as [|s finals IH]; intros tr0 Hinv; simpl.
  - split; [by left|]. by intros [H|(_ & _ & s & ?%elem_of_nil & _)].
  - rewrite IH.
    + rewrite step_in_dict_set. split.
      * intros [H|(-> & -> & s' & Hs' & ->)].
        -- destruct (decide _) as [[= -> ->]|]; [|by left].
           apply list_elem_of_singleton in H as ->. right.
           split; [done|]. split; [done|]. exists s. split; [left|done].
        -- right. split; [done|]. split; [done|]. exists s'.
           split; [by right|done].
      * intros [H|(-> & -> & s' & [->|Hs']%elem_of_cons & ->)].
        -- left. destruct (decide _) as [[= -> ->]|]; [|done].
           apply Hinv in H as ->. left.
        -- left. rewrite decide_True by done. left.
        -- right. split; [done|]. split; [done|]. by exists s'.
    + intros p' q' H%step_in_dict_set.
      destruct (decide _); [by apply list_elem_of_singleton in H|].
      by eapply Hinv.
Qed.

Lemma to_nfa_finals_NoDup (finals : list nat) (f : Z)
    (tr0 : list ((Z * symbol) * list Z)) :
  NoDup tr0.*1 →
  NoDup (foldl (λ tr state, dict_set (Z.of_nat state, eps) [f] tr) tr0 finals).*1.
Proof.
  revert tr0. induction finals as [|s finals IH]; intros tr0 Hnd; simpl; [done|].
  apply IH. by apply dict_set_NoDup.
Qed.

Lemma to_nfa_language D :
  dfa_wf D → eps ∉ DFA.alphabet D →
  ∃ N, to_nfa D = Ret N ∧ ∀ w, NFA.accept N w = true ↔ DFA.accept D w = true.
Proof.
  intros (Hs & Hf & Hnd & Htr) Heps. unfold to_nfa.
  assert (Z.of_nat (DFA.start_state D) ∈ Z.of_nat <$> DFA.states D) as Hs'.
  { by apply list_elem_of_fmap_2. }
  destruct (py_max_returns _ _ Hs') as [m Hmax]. rewrite Hmax. simpl.
  pose proof (py_max_spec _ _ Hmax) as Hle.
  assert (∀ s, s ∈ DFA.states D → Z.of_nat s ≠ m + 1) as Hfresh.
  { intros s Hin Heq. specialize (Hle (Z.of_nat s)).
    rewrite Heq in Hle. 
    assert (m + 1 ≤ m); [|lia]. apply Hle. rewrite <- Heq.
    by apply list_elem_of_fmap_2. }
  set (tr0 := (λ '((src, sym), val), ((Z.of_nat src, sym), [Z.of_nat val]))
                <$> DFA.transitions D).
  set (tr := foldl _ tr0 (DFA.final_states D)).
  destruct (NFA.init _ (DFA.alphabet D) tr (Z.of_nat (DFA.start_state D)) (m + 1))
    as [N| |] eqn:Hinit.
  2,3: unfold NFA.init in Hinit;
       rewrite !decide_True in Hinit
         by (apply elem_of_set_of, elem_of_set_add; auto);
       done.
  exists N. split; [done|].
  apply init_facts in Hinit as (HsN & HfN & _ & Hal & _ & Hstep).
  assert (∀ p a q, step_in tr0 p a q
                   ↔ ∃ s d, p = Z.of_nat s ∧ q = Z.of_nat d
                            ∧ dict_get (s, a) (DFA.transitions D) = Some d)
    as Htr0.
  { intros p a q. unfold step_in, tr0. rewrite to_nfa_table_get. split.
    - intros (dsts & Hget & Hq). destruct (decide (0 ≤ p)); [|done].
      destruct (dict_get (Z.to_nat p, a) (DFA.transitions D)) as [d|] eqn:Hd;
        [|done].
      injection Hget as <-. apply list_elem_of_singleton in Hq as ->.
      exists (Z.to_nat p), d. split; [by rewrite Z2Nat.id|done].
    - intros (s & d & -> & -> & Hget). exists [Z.of_nat d].
      rewrite decide_True by lia. rewrite Nat2Z.id, Hget.
      split; [done|left]. }
  assert (∀ p a q, step N p a q
            ↔ (∃ s d, p = Z.of_nat s ∧ q = Z.of_nat d
                      ∧ dict_get (s, a) (DFA.transitions D) = Some d)
              ∨ (a = eps ∧ q = m + 1
                 ∧ ∃ s, s ∈ DFA.final_states D ∧ p = Z.of_nat s)) as HstepN.
  { intros p a q. rewrite Hstep, edge_in_step_in.
    - unfold tr. rewrite to_nfa_finals_step, Htr0; [done|].
      intros p' q' (s & d & _ & _ & Hget)%Htr0.
      destruct Heps. by apply (Htr _ _ _ Hget).
    - by apply to_nfa_finals_NoDup, to_nfa_table_NoDup. }
  assert (∀ a q, ¬ step N (m + 1) a q) as Hfin.
  { intros a q [(s & d & Heq & _ & Hget)|(_ & _ & s & Hin & Heq)]%HstepN.
    - apply (Hfresh s); [by apply (Htr _ _ _ Hget)|done].
    - apply (Hfresh s); [by apply Hf|done]. }
  intros w. rewrite accept_lang. unfold lang, DFA.accept. rewrite HsN, HfN.
  generalize (DFA.start_state D), Hs. clear Hs Hs' HsN. intros s Hs. split.
  - assert (∀ x w y, path N x w y → y = m + 1 →
                     ∀ s, s ∈ DFA.states D → x = Z.of_nat s →
                          DFA.accept_from D s w = true) as Hto.
    { clear s Hs.
      induction 1 as [x|x q w' r Hst Hrest IH|x a q w' r Ha Hst Hrest IH];
        intros Hy s Hs Hx; subst.
      - by destruct (Hfresh s).
      - apply HstepN in Hst
          as [(s' & d & _ & _ & Hget)|(_ & -> & s' & Hin & <-%(inj Z.of_nat))].
        + destruct Heps. by apply (Htr _ _ _ Hget).
        + apply path_from_final in Hrest as [-> _]; [|done].
          simpl. by apply bool_decide_eq_true.
      - apply HstepN in Hst
          as [(s' & d & <-%(inj Z.of_nat) & -> & Hget)|(-> & _)].
        + simpl. rewrite Hget. apply IH; [done| |done].
          by apply (Htr _ _ _ Hget).
        + destruct Heps. by apply Hal. }
    intros Hpath. by eapply Hto.
  - revert s Hs. induction w as [|a w IH]; intros s Hs; simpl.
    + intros Hin%bool_decide_eq_true. eapply path_eps; [|constructor].
      apply HstepN. right. split; [done|]. split; [done|]. by exists s.
    + destruct (dict_get (s, a) (DFA.transitions D)) as [d|] eqn:Hget; [|done].
      intros Hacc. destruct (Htr _ _ _ Hget) as (_ & Ha & Hd).
      apply (path_sym N _ a (Z.of_nat d)).
      * by apply Hal.
      * apply HstepN. left. by exists s, d.
      * by apply IH.
Qed.

(** X12. [DFA.to_nfa] keeps the language.  For a DFA whose start and
    final states are states, whose transitions run between states on
    symbols of the alphabet, and whose alphabet does not hold the empty
    string, [to_nfa] returns an NFA, and [NFA.accept] on it agrees with
    [DFA.accept] on every string. *)
Theorem to_nfa_accept D :
  dfa_wf D → eps ∉ DFA.alphabet D →
  ∃ N, to_nfa D = Ret N ∧ ∀ w, NFA.accept N w = DFA.accept D w.
Proof.
  intros HD Heps. destruct (to_nfa_language D HD Heps) as (N & HN & Hacc).
  exists N. split; [done|]. intros w. specialize (Hacc w).
  destruct (NFA.accept N w), (DFA.accept D w); intuition congruence.
Qed.

Lemma to_nfa_accept_witness :
  dfa_wf chain_dfa ∧ (eps ∉ DFA.alphabet chain_dfa)
  ∧ ∃ N, to_nfa chain_dfa = Ret N
         ∧ ∀ w, NFA.accept N w = DFA.accept chain_dfa w.
Proof.
  assert (dfa_wf chain_dfa) as HD.
  { apply dfa_entries_wf, (bool_decide_unpack _). vm_compute. exact I. }
  assert (eps ∉ DFA.alphabet chain_dfa) as Heps.
  { apply (bool_decide_unpack _). vm_compute. exact I. }
  split; [exact HD|]. split; [exact Heps|].
  exact (to_nfa_accept chain_dfa HD Heps).
Defined.

(** ** Parsing a printed regular expression *)

Lemma sdrop_lt pos regex c r :
  sdrop pos regex = String c r → (pos < String.length regex)%nat.
Proof.
  intros H. pose proof (sdrop_length pos regex) as Hl. rewrite H in Hl.
  simpl in Hl. lia.
Qed.

Lemma sdrop_end pos regex :
  sdrop pos regex = "" → ¬ (pos < String.length regex)%nat.
Proof.
  intros H. pose proof (sdrop_length pos regex) as Hl. rewrite H in Hl.
  simpl in Hl. lia.
Qed.

Lemma sdrop_next pos regex c r :
  sdrop pos regex = String c r → sdrop (pos + 1) regex = r.
Proof. rewrite Nat.add_1_r. apply sdrop_S. Qed.

Lemma sapp_nil (b : string) : "" +:+ b = b.
Proof. reflexivity. Qed.

Lemma sapp_cons x (a b : string) : String x a +:+ b = String x (a +:+ b).
Proof. reflexivity. Qed.

Lemma sapp_assoc (a b c : string) : (a +:+ b) +:+ c = a +:+ (b +:+ c).
Proof.
  induction a as [|x a IH]; [done|]. rewrite !sapp_cons. by f_equal.
Qed.

Lemma sapp_empty (a : string) : a +:+ "" = a.
Proof.
  induction a as [|x a IH]; [done|]. rewrite sapp_cons. by f_equal.
Qed.

Ltac sapp_norm :=
  repeat first [rewrite sapp_assoc | rewrite sapp_cons | rewrite sapp_nil].

Ltac sapp_norm_in H :=
  repeat first [rewrite sapp_assoc in H | rewrite sapp_cons in H
               | rewrite sapp_nil in H].

Lemma steps_trans regex a b c :
  steps regex a b → steps regex b c → steps regex a c.
Proof.
  induction 1 as [|st st' st'' Hlt Hstep _ IH]; [done|].
  intros H. eapply steps_step; [done..|]. by apply IH.
Qed.

Lemma steps_one regex st st' :
  (parsing.current_pos st < String.length regex)%nat →
  parsing.parse_step regex st = Ret st' → steps regex st st'.
Proof. intros. eapply steps_step; [done..|constructor]. Qed.

Lemma steps_loop regex st st' :
  steps regex st st' →
  ∃ k, ∀ fuel, parsing.parse_loop regex (k + fuel) st
               = parsing.parse_loop regex fuel st'.
Proof.
  induction 1 as [|st st' st'' Hlt Hstep _ [k Hk]].
  - by exists 0%nat.
  - exists (S k). intros fuel. simpl.
    rewrite (proj2 (Nat.ltb_lt _ _)) by done. rewrite Hstep. simpl. apply Hk.
Qed.

Lemma parse_loop_more_fuel regex fuel fuel' st :
  parsing.parse_loop regex fuel st ≠ OutOfFuel → (fuel ≤ fuel')%nat →
  parsing.parse_loop regex fuel' st = parsing.parse_loop regex fuel st.
Proof.
  revert fuel' st. induction fuel as [|fuel IH]; intros fuel' st H Hle.
  - destruct fuel'; simpl in *; destruct (_ <? _)%nat; done.
  - destruct fuel' as [|fuel']; [lia|]. simpl in *.
    destruct (_ <? _)%nat; [|done].
    destruct (parsing.parse_step regex st); simpl in *; try done.
    apply IH; [done|lia].
Qed.

Lemma pop_to_open_ops ops stack out :
  Forall (λ x, x ≠ 5) ops →
  parsing.pop_to_open (ops ++ 5 :: stack) out
  = Ret (stack, out ++ (parsing.Op <$> ops)).
Proof.
  revert out. induction ops as [|x ops IH]; intros out Hops; simpl.
  - by rewrite app_nil_r.
  - apply Forall_cons_1 in Hops as [Hx Hops].
    rewrite decide_False by done. rewrite IH by done.
    by rewrite <- app_assoc.
Qed.

Lemma pop_higher_keep prec stack out :
  stack_for (Z.to_nat prec) stack → 1 ≤ prec ≤ 3 →
  parsing.pop_higher prec stack out = Ret (stack, out).
Proof.
  destruct stack as [|x stack]; simpl; [done|].
  intros [->|[->|[-> Hl]]] Hprec; simpl; rewrite decide_False; done || lia.
Qed.

Lemma pop_higher_concats ops stack out :
  Forall (pending_op 2) ops → stack_for 1 stack →
  parsing.pop_higher 1 (ops ++ stack) out
  = Ret (stack, out ++ (parsing.Op <$> ops)).
Proof.
  intros Hops Hst. revert out.
  induction ops as [|x ops IH]; intros out; simpl.
  - rewrite app_nil_r. by apply pop_higher_keep.
  - apply Forall_cons_1 in Hops as [[[-> _]|[_ ?]] Hops]; [|lia].
    simpl. rewrite IH by done. by rewrite <- app_assoc.
Qed.

Lemma stack_for_mono l l' stack :
  stack_for l stack → (l ≤ l')%nat → stack_for l' stack.
Proof.
  destruct stack as [|x stack]; simpl; [done|].
  intros [->|[->|[-> Hl]]] Hle; auto. right. right. split; [done|lia].
Qed.

Lemma pending_op_mono l l' x : pending_op l x → (l' ≤ l)%nat → pending_op l' x.
Proof. intros [[-> ?]|[-> ?]] Hle; [left|right]; split; done || lia. Qed.

Lemma pending_op_not_open l x : pending_op l x → x ≠ 5.
Proof. by intros [[-> _]|[-> _]]. Qed.

Lemma pending_none ops : Forall (pending_op 3) ops → ops = [].
Proof.
  destruct ops as [|x ops]; [done|].
  intros [[[_ ?]|[_ ?]] _]%Forall_cons_1; lia.
Qed.

Lemma ordinary_sym_char s :
  ordinary_sym s = true →
  ∃ c, s = String c "" ∧ parsing._operators_sym (Some s) = None
       ∧ c ≠ "\"%char ∧ c ≠ "("%char ∧ c ≠ ")"%char ∧ c ≠ "?"%char.
Proof.
  destruct s as [|c [|? ?]]; simpl; try done.
  intros [Hop%bool_decide_eq_true Hbs%negb_true_iff]%andb_true_iff.
  apply Ascii.eqb_neq in Hbs. exists c. split_and!; try done.
  - intros ->. by vm_compute in Hop.
  - intros ->. by vm_compute in Hop.
  - intros ->. by vm_compute in Hop.
Qed.

(** A written expression starts with an opening parenthesis or with a
    symbol. *)
Lemma written_first l r s :
  written l r s →
  ∃ c s', s = String c s'
          ∧ (c = "("%char ∨ ordinary_sym (String c "") = true).
Proof.
  induction 1 as [l s Hs|l r s _ _|l r s _ _ (c & s' & -> & Hc)
                  |l r s _ _ (c & s' & -> & Hc)|l r s _ _ (c & s' & -> & Hc)
                  |l r1 r2 s1 s2 _ _ (c & s' & -> & Hc) _ _
                  |l r1 r2 s1 s2 _ _ (c & s' & -> & Hc) _ _];
    try (rewrite sapp_cons; by eexists _, _).
  - pose proof Hs as (c & -> & _)%ordinary_sym_char. exists c, "". auto.
  - rewrite sapp_cons. eexists _, _. split; [done|by left].
Qed.

Lemma written_nonempty_syms l r s : written l r s → nonempty_syms r.
Proof.
  induction 1 as [l s Hs| | | | | |]; simpl; auto.
  by apply ordinary_sym_char in Hs as (c & -> & _).
Qed.

Lemma parse_step_open regex stack out pos c r :
  sdrop pos regex = String "(" (String c r) → c ≠ "?"%char →
  parsing.parse_step regex (parsing.mk_parser stack out false pos)
  = Ret (parsing.mk_parser (5 :: stack) out false (pos + 1)).
Proof.
  intros Hsd Hc. unfold parsing.parse_step.
  cbn [parsing.current_pos parsing.stack parsing.postfix_output
       parsing.concatenate_next].
  rewrite char_at_sdrop, Hsd. simpl.
  rewrite char_at_sdrop, (sdrop_next _ _ _ _ Hsd). simpl.
  rewrite decide_False by congruence. done.
Qed.

Lemma parse_step_close regex ops stack out pos r :
  sdrop pos regex = String ")" r → Forall (λ x, x ≠ 5) ops →
  parsing.parse_step regex (parsing.mk_parser (ops ++ 5 :: stack) out true pos)
  = Ret (parsing.mk_parser stack (out ++ (parsing.Op <$> ops)) true (pos + 1)).
Proof.
  intros Hsd Hops. unfold parsing.parse_step.
  cbn [parsing.current_pos parsing.stack parsing.postfix_output
       parsing.concatenate_next].
  rewrite char_at_sdrop, Hsd. simpl. by rewrite pop_to_open_ops.
Qed.

(** Between two operands the loop inserts a concatenation without
    consuming a character. *)
Lemma parse_step_concat regex stack out pos c r :
  sdrop pos regex = String c r →
  c = "("%char ∨ ordinary_sym (String c "") = true →
  stack_for 2 stack →
  parsing.parse_step regex (parsing.mk_parser stack out true pos)
  = Ret (parsing.mk_parser (0 :: stack) out false pos).
Proof.
  intros Hsd Hc Hst. unfold parsing.parse_step.
  cbn [parsing.current_pos parsing.stack parsing.postfix_output
       parsing.concatenate_next].
  rewrite char_at_sdrop, Hsd.
  destruct Hc as [->|(c' & [= <-] & Hop & Hbs & _)%ordinary_sym_char].
  - simpl. by rewrite (pop_higher_keep 2).
  - cbn [obind].
    rewrite (decide_False (P := String c "" = "\")) by congruence.
    cbn [obind andb]. rewrite Hop.
    rewrite (bool_decide_eq_false_2 (is_Some None)) by (intros [? [=]]).
    rewrite orb_true_r.
    rewrite !(decide_False (P := None = Some _)) by congruence.
    cbn [parsing._operators_sym parsing.precedence parsing.op_concat
         parsing.suffix parsing.id].
    by rewrite (pop_higher_keep 2).
Qed.

Lemma parse_step_union regex ops stack out pos r :
  sdrop pos regex = String "|" r →
  Forall (pending_op 2) ops → stack_for 1 stack →
  parsing.parse_step regex (parsing.mk_parser (ops ++ stack) out true pos)
  = Ret (parsing.mk_parser (1 :: stack) (out ++ (parsing.Op <$> ops)) false
           (pos + 1)).
Proof.
  intros Hsd Hops Hst. unfold parsing.parse_step.
  cbn [parsing.current_pos parsing.stack parsing.postfix_output
       parsing.concatenate_next].
  rewrite char_at_sdrop, Hsd. simpl. by rewrite pop_higher_concats.
Qed.

Lemma parse_step_suffix regex stack out pos c n r :
  sdrop pos regex = String c r → stack_for 3 stack →
  (c = "*"%char ∧ n = 2) ∨ (c = "+"%char ∧ n = 3) ∨ (c = "?"%char ∧ n = 4) →
  parsing.parse_step regex (parsing.mk_parser stack out true pos)
  = Ret (parsing.mk_parser stack (out ++ [parsing.Op n]) true (pos + 1)).
Proof.
  intros Hsd Hst Hc. unfold parsing.parse_step.
  cbn [parsing.current_pos parsing.stack parsing.postfix_output
       parsing.concatenate_next].
  rewrite char_at_sdrop, Hsd.
  destruct Hc as [[-> ->]|[[-> ->]|[-> ->]]]; simpl;
    by rewrite (pop_higher_keep 3).
Qed.

Lemma parse_step_sym regex stack out pos s r :
  sdrop pos regex = s +:+ r → ordinary_sym s = true →
  parsing.parse_step regex (parsing.mk_parser stack out false pos)
  = Ret (parsing.mk_parser stack (out ++ [parsing.Sym s]) true (pos + 1))
  ∧ sdrop (pos + 1) regex = r ∧ (pos < String.length regex)%nat.
Proof.
  intros Hsd (c & -> & Hop & Hbs & Hopen & Hclose & _)%ordinary_sym_char.
  rewrite sapp_cons, sapp_nil in Hsd.
  split; [|split; [by eapply sdrop_next|by eapply sdrop_lt]].
  unfold parsing.parse_step.
  cbn [parsing.current_pos parsing.stack parsing.postfix_output
       parsing.concatenate_next].
  rewrite char_at_sdrop, Hsd. cbn [obind].
  rewrite (decide_False (P := String c "" = "\")) by congruence.
  cbn [obind andb].
  rewrite !(decide_False (P := Some (String c "") = Some _)) by congruence.
  by rewrite Hop.
Qed.

(** A suffix operator after its operand *)
Lemma suffix_content l r s (c : ascii) n :
  parses_content 3 r s → (l ≤ 3)%nat →
  (c = "*"%char ∧ n = 2) ∨ (c = "+"%char ∧ n = 3) ∨ (c = "?"%char ∧ n = 4) →
  ∀ regex pos rest stack out,
    sdrop pos regex = (s +:+ String c "") +:+ rest → stack_for l stack →
    ∃ ops out' pos',
      steps regex (parsing.mk_parser stack out false pos)
                  (parsing.mk_parser (ops ++ stack) (out ++ out') true pos')
      ∧ sdrop pos' regex = rest
      ∧ out' ++ (parsing.Op <$> ops) = postfix_of_regex r ++ [parsing.Op n]
      ∧ Forall (pending_op l) ops.
Proof.
  intros IH Hl Hc regex pos rest stack out Hsd Hst.
  rewrite sapp_assoc, sapp_cons, sapp_nil in Hsd.
  pose proof (stack_for_mono _ 3 _ Hst Hl) as Hst3.
  destruct (IH regex pos _ stack out Hsd Hst3)
    as (ops & out' & pos1 & Hsteps & Hsd1 & Hout & Hops).
  apply pending_none in Hops as ->. rewrite app_nil_r in Hout. subst out'.
  exists [], (postfix_of_regex r ++ [parsing.Op n]), (pos1 + 1)%nat.
  split_and!; [|by eapply sdrop_next|by rewrite app_nil_r|constructor].
  eapply steps_trans; [exact Hsteps|]. rewrite app_assoc.
  eapply steps_one; [by eapply sdrop_lt|]. by eapply parse_step_suffix.
Qed.

Lemma written_parses l r s : written l r s → parses_content l r s.
Proof.
  induction 1 as [l s Hs|l r s Hw IH|l r s Hl Hw IH|l r s Hl Hw IH
                  |l r s Hl Hw IH|l r1 r2 s1 s2 Hl Hw1 IH1 Hw2 IH2
                  |l r1 r2 s1 s2 Hl Hw1 IH1 Hw2 IH2].
  - intros regex pos rest stack out Hsd Hst. cbn [postfix_of_regex].
    destruct (parse_step_sym regex stack out pos s rest Hsd Hs)
      as (Hstep & Hsd' & Hlt).
    exists [], [parsing.Sym s], (pos + 1)%nat. split_and!; try done.
    by apply steps_one.
  - intros regex pos rest stack out Hsd Hst.
    destruct (written_first _ _ _ Hw) as (c & s' & -> & Hc).
    assert (c ≠ "?"%char) as Hq.
    { destruct Hc as [->|(c' & [= <-] & Hc)%ordinary_sym_char]; [done|].
      tauto. }
    sapp_norm_in Hsd.
    pose proof (parse_step_open regex stack out pos c _ Hsd Hq) as Hopen.
    destruct (IH regex (pos + 1)%nat (String ")" rest) (5 :: stack) out)
      as (ops & out' & pos1 & Hsteps & Hsd1 & Hout & Hops).
    { rewrite (sdrop_next _ _ _ _ Hsd). by sapp_norm. }
    { by left. }
    assert (Forall (λ x, x ≠ 5) ops) as Hops'.
    { eapply Forall_impl; [exact Hops|]. intros x. apply pending_op_not_open. }
    pose proof (parse_step_close regex ops stack (out ++ out') pos1 rest
                  Hsd1 Hops') as Hclose.
    exists [], (postfix_of_regex r), (pos1 + 1)%nat.
    split_and!; [|by eapply sdrop_next|by rewrite app_nil_r|constructor].
    eapply steps_step; [by eapply sdrop_lt|exact Hopen|].
    eapply steps_trans; [exact Hsteps|].
    rewrite <- Hout, app_assoc.
    eapply steps_one; [|exact Hclose]. by eapply sdrop_lt.
  - intros regex pos rest stack out Hsd Hst. cbn [postfix_of_regex].
    eapply (suffix_content l r s "*" 2); eauto.
  - intros regex pos rest stack out Hsd Hst. cbn [postfix_of_regex].
    eapply (suffix_content l r s "+" 3); eauto.
  - intros regex pos rest stack out Hsd Hst. cbn [postfix_of_regex].
    eapply (suffix_content l r s "?" 4); eauto.
  - intros regex pos rest stack out Hsd Hst. cbn [postfix_of_regex].
    rewrite sapp_assoc in Hsd.
    destruct (IH1 regex pos _ stack out Hsd (stack_for_mono _ 3 _ Hst ltac:(lia)))
      as (ops1 & out1 & pos1 & Hsteps1 & Hsd1 & Hout1 & Hops1).
    apply pending_none in Hops1 as ->. rewrite app_nil_r in Hout1. subst out1.
    destruct (written_first _ _ _ Hw2) as (c & s' & Hs2 & Hc).
    pose proof Hsd1 as Hsd1'. rewrite Hs2, sapp_cons in Hsd1'.
    pose proof (stack_for_mono _ 2 _ Hst Hl) as Hst2.
    pose proof (parse_step_concat regex stack (out ++ postfix_of_regex r1)
                  pos1 c _ Hsd1' Hc Hst2) as Hconcat.
    destruct (IH2 regex pos1 rest (0 :: stack) (out ++ postfix_of_regex r1) Hsd1)
      as (ops2 & out2 & pos2 & Hsteps2 & Hsd2 & Hout2 & Hops2).
    { right. right. done. }
    exists (ops2 ++ [0]), (postfix_of_regex r1 ++ out2), pos2.
    split_and!; try done.
    + eapply steps_trans; [exact Hsteps1|].
      eapply steps_step; [by eapply sdrop_lt|exact Hconcat|].
      by rewrite <- !app_assoc in *.
    + rewrite fmap_app, <- Hout2, <- !app_assoc. done.
    + apply Forall_app. split.
      * eapply Forall_impl; [exact Hops2|]. intros x Hx.
        by eapply pending_op_mono.
      * constructor; [|constructor]. by left.
  - intros regex pos rest stack out Hsd Hst. cbn [postfix_of_regex].
    rewrite sapp_assoc in Hsd.
    destruct (IH1 regex pos _ stack out Hsd (stack_for_mono _ 2 _ Hst ltac:(lia)))
      as (ops1 & out1 & pos1 & Hsteps1 & Hsd1 & Hout1 & Hops1).
    sapp_norm_in Hsd1.
    pose proof (stack_for_mono _ 1 _ Hst Hl) as Hst1.
    pose proof (parse_step_union regex ops1 stack (out ++ out1) pos1 _
                  Hsd1 Hops1 Hst1) as Hunion.
    destruct (IH2 regex (pos1 + 1)%nat rest (1 :: stack)
                (out ++ postfix_of_regex r1))
      as (ops2 & out2 & pos2 & Hsteps2 & Hsd2 & Hout2 & Hops2).
    { by eapply sdrop_next. }
    { right. by left. }
    exists (ops2 ++ [1]), (postfix_of_regex r1 ++ out2), pos2.
    split_and!; try done.
    + eapply steps_trans; [exact Hsteps1|].
      eapply steps_step; [by eapply sdrop_lt|exact Hunion|].
      rewrite <- (app_assoc out out1), Hout1, <- (app_assoc ops2 [1] stack),
        (app_assoc out). exact Hsteps2.
    + rewrite fmap_app, <- Hout2, <- !app_assoc. done.
    + apply Forall_app. split.
      * eapply Forall_impl; [exact Hops2|]. intros x Hx.
        by eapply pending_op_mono.
      * constructor; [|constructor]. by right.
Qed.

Lemma parse_regex_written r s :
  written 1 r s → parsing.parse_regex s = Ret (postfix_of_regex r).
Proof.
  intros Hw.
  destruct (written_parses 1 r s Hw s 0%nat "" [] [])
    as (ops & out & pos & Hsteps & Hsd & Hout & _).
  { by rewrite sapp_empty. }
  { done. }
  apply steps_loop in Hsteps as [k Hk].
  assert (parsing.parse_loop s k (parsing.mk_parser [] [] false 0)
          = Ret (postfix_of_regex r)) as Hrun.
  { specialize (Hk 0%nat). rewrite Nat.add_0_r in Hk. rewrite Hk. simpl.
    rewrite (proj2 (Nat.ltb_ge _ _)).
    - by rewrite app_nil_r, Hout.
    - apply sdrop_end in Hsd. lia. }
  pose proof (parse_regex_fuel s) as Hfuel.
  unfold parsing.parse_regex in *.
  destruct (Nat.le_ge_cases k (2 * String.length s)) as [Hle|Hle].
  - rewrite (parse_loop_more_fuel _ k) by (by rewrite ?Hrun). done.
  - by rewrite <- (parse_loop_more_fuel _ _ k) by done.
Qed.

(** X13. [parse_regex] is correct on the written regular expressions: on
    every string of the grammar (symbols, parentheses, the suffix
    operators, concatenation and alternation, both nesting to the right)
    whose symbols are single characters other than the operator
    characters and the backslash, it returns the postfix form of the
    expression that the string denotes. *)
Theorem parse_regex_correct r s :
  written 1 r s → parsing.parse_regex s = Ret (postfix_of_regex r).
Proof. apply parse_regex_written. Qed.

Lemma parse_regex_correct_witness :
  written 1 (RCat (RSym "a") (RCat (RStar (RCat (RSym "a") (RSym "a")))
                                   (RStar (RSym "b"))))
          "a(aa)*b*"
  ∧ parsing.parse_regex "a(aa)*b*"
    = Ret (postfix_of_regex
             (RCat (RSym "a") (RCat (RStar (RCat (RSym "a") (RSym "a")))
                                    (RStar (RSym "b"))))).
Proof.
  assert (written 1 (RCat (RSym "a") (RCat (RStar (RCat (RSym "a") (RSym "a")))
                                           (RStar (RSym "b"))))
                  "a(aa)*b*") as Hw.
  { apply (written_cat 1 _ _ "a" "(aa)*b*"); [lia|by constructor|].
    apply (written_cat 2 _ _ "(aa)*" "b*"); [lia| |].
    - apply (written_star 3 _ "(aa)"); [lia|].
      apply (written_paren 3 _ "aa").
      apply (written_cat 1 _ _ "a" "a"); [lia|by constructor..].
    - apply (written_star 2 _ "b"); [lia|by constructor]. }
  split; [exact Hw|]. exact (parse_regex_correct _ _ Hw).
Defined.

(** X14. The compiler from regular expressions to automata is correct:
    on a written regular expression [parse_regex_as_nfa] returns an
    automaton, and the automaton accepts a string exactly when the
    expression matches it. *)
Theorem parse_regex_as_nfa_matches r s :
  written 1 r s →
  ∃ N, parsing.parse_regex_as_nfa s = Ret N
       ∧ ∀ w, NFA.accept N w = true ↔ matches r w.
Proof.
  intros Hw.
  destruct (construct_nfa_regex r (written_nonempty_syms _ _ _ Hw))
    as (N & HN & _ & Hl).
  exists N. split; [|done].
  unfold parsing.parse_regex_as_nfa. by rewrite (parse_regex_written r).
Qed.

Lemma parse_regex_as_nfa_matches_witness :
  written 1 (RAlt (RCat (RSym "a") (RPlus (RSym "b"))) (ROpt (RSym "c")))
          "ab+|c?"
  ∧ ∃ N, parsing.parse_regex_as_nfa "ab+|c?" = Ret N
         ∧ ∀ w, NFA.accept N w = true
                ↔ matches (RAlt (RCat (RSym "a") (RPlus (RSym "b")))
                                (ROpt (RSym "c"))) w.
Proof.
  assert (written 1 (RAlt (RCat (RSym "a") (RPlus (RSym "b")))
                          (ROpt (RSym "c")))
                  "ab+|c?") as Hw.
  { apply (written_alt 1 _ _ "ab+" "c?"); [lia| |].
    - apply (written_cat 2 _ _ "a" "b+"); [lia|by constructor|].
      apply (written_plus 2 _ "b"); [lia|by constructor].
    - apply (written_opt 1 _ "c"); [lia|by constructor]. }
  split; [exact Hw|]. exact (parse_regex_as_nfa_matches _ _ Hw).
Defined.

(** ** The minimized DFA *)

Lemma lands_in_goes D A a s :
  DFA.lands_in D A a s = true ↔ goes D (λ d, d ∈ A) a s.
Proof.
  unfold DFA.lands_in, goes.
  destruct (dict_get (s, a) (DFA.transitions D)) as [d|].
  - rewrite bool_decide_eq_true. split; [by exists d|].
    by intros (d' & [= <-] & ?).
  - split; [done|]. by intros (? & ? & _).
Qed.

Lemma cell_stable_subset D X a (c c' : list nat) :
  (∀ d, d ∈ c' → d ∈ c) → cell_stable D X a c → cell_stable D X a c'.
Proof. intros Hsub Hc s t Hs Ht. apply Hc; auto. Qed.

Lemma stable_refines D parts parts' X a :
  refines parts parts' → stable D parts X a → stable D parts' X a.
Proof.
  intros Href Hst c' Hc'. destruct (Href c' Hc') as (c & Hc & Hsub).
  eapply cell_stable_subset; [exact Hsub|]. by apply Hst.
Qed.

Lemma stable_ext D parts (X Y : nat → Prop) a :
  (∀ d, X d ↔ Y d) → stable D parts X a → stable D parts Y a.
Proof.
  intros HXY Hst c Hc s t Hs Ht (d & Hd & Hy).
  destruct (Hst c Hc s t Hs Ht) as (d' & Hd' & Hx).
  - exists d. split; [done|]. by apply HXY.
  - exists d'. split; [done|]. by apply HXY.
Qed.

Lemma refines_refl parts : refines parts parts.
Proof. intros c Hc. by exists c. Qed.

Lemma refines_trans p1 p2 p3 : refines p1 p2 → refines p2 p3 → refines p1 p3.
Proof.
  intros H12 H23 c3 Hc3. destruct (H23 c3 Hc3) as (c2 & Hc2 & Hsub2).
  destruct (H12 c2 Hc2) as (c1 & Hc1 & Hsub1). exists c1. split; auto.
Qed.

Lemma cells_disjoint (parts : list (list nat)) i j c c' d :
  NoDup (mjoin parts) → parts !! i = Some c → parts !! j = Some c' →
  d ∈ c → d ∈ c' → i = j.
Proof.
  revert i j. induction parts as [|c0 parts IH]; intros i j Hnd Hi Hj Hc Hc';
    [done|].
  simpl in Hnd. apply NoDup_app in Hnd as (_ & Hdisj & Hnd).
  destruct i as [|i], j as [|j]; simpl in *.
  - done.
  - injection Hi as ->. destruct (Hdisj d Hc).
    apply list_elem_of_join. exists c'. split; [done|].
    by eapply list_elem_of_lookup_2.
  - injection Hj as ->. destruct (Hdisj d Hc').
    apply list_elem_of_join. exists c. split; [done|].
    by eapply list_elem_of_lookup_2.
  - f_equal. by apply IH.
Qed.

Lemma split_lookup (parts : list (list nat)) idx tc ntc k :
  (idx < length parts)%nat →
  (<[idx := tc]> parts ++ [ntc]) !! k
  = if decide (k = idx) then Some tc
    else if decide (k = length parts) then Some ntc else parts !! k.
Proof.
  intros Hidx. destruct (decide (k = idx)) as [->|Hne].
  - rewrite lookup_app_l by (by rewrite length_insert).
    rewrite list_lookup_insert. by rewrite decide_True.
  - destruct (decide (k = length parts)) as [->|Hne'].
    + rewrite lookup_app_r by (by rewrite length_insert).
      by rewrite length_insert, Nat.sub_diag.
    + destruct (decide (k < length parts)%nat).
      * rewrite lookup_app_l by (by rewrite length_insert).
        by rewrite list_lookup_insert_ne.
      * rewrite (proj2 (lookup_ge_None parts k)) by lia.
        apply lookup_ge_None. rewrite length_app, length_insert. simpl. lia.
Qed.

(** One split keeps the invariant of the splitter at work. *)
Lemma hop_split D R A a r r' idx part :
  refine_inv R r → hop_core D A r →
  DFA.partitions r !! idx = Some part →
  DFA.refine_index D A a r idx = Ret r' →
  hop_core D A r'
  ∧ (length (DFA.partitions r) ≤ length (DFA.partitions r'))%nat
  ∧ (∀ k c', DFA.partitions r' !! k = Some c' →
       (∃ c, DFA.partitions r !! k = Some c ∧ ∀ d, d ∈ c' → d ∈ c)
       ∨ ((length (DFA.partitions r) ≤ k)%nat
          ∧ cell_stable D (λ d, d ∈ A) a c'
          ∧ ∀ d, d ∈ c' → d ∈ part))
  ∧ (∀ c', DFA.partitions r' !! idx = Some c' →
           cell_stable D (λ d, d ∈ A) a c').
Proof.
  intros (Hne & Hperm & Hwl) Hcore Hpart Hrun.
  pose proof (lookup_lt_Some _ _ _ Hpart) as Hidx.
  destruct (refine_index_cases D A a r r' idx part Hpart Hrun)
    as [Hsame Hsplit].
  set (tc := filter (λ st, DFA.lands_in D A a st = true) part) in *.
  set (ntc := filter (λ st, DFA.lands_in D A a st ≠ true) part) in *.
  assert (∀ d, d ∈ tc ↔ d ∈ part ∧ goes D (λ d, d ∈ A) a d) as Htc.
  { intros d. unfold tc. rewrite list_elem_of_filter, lands_in_goes. tauto. }
  assert (∀ d, d ∈ ntc ↔ d ∈ part ∧ ¬ goes D (λ d, d ∈ A) a d) as Hntc.
  { intros d. unfold ntc. rewrite list_elem_of_filter, lands_in_goes. tauto. }
  assert (cell_stable D (λ d, d ∈ A) a tc) as Hstc.
  { intros s t _ Ht _. by apply Htc in Ht as [_ ?]. }
  assert (cell_stable D (λ d, d ∈ A) a ntc) as Hsntc.
  { intros s t Hs _ Hg. by apply Hntc in Hs as [_ ?]. }
  assert (∀ d, d ∈ part → d ∈ tc ∨ d ∈ ntc) as Hhalves.
  { intros d Hd. rewrite Htc, Hntc.
    destruct (DFA.lands_in D A a d) eqn:Hl.
    - left. split; [done|]. by apply lands_in_goes.
    - right. split; [done|]. intros Hg%lands_in_goes. congruence. }
  destruct (decide (tc = [])) as [Htc0|Htc0].
  { rewrite (Hsame (or_introl Htc0)). split_and!; try done.
    - intros k c' Hk. left. by exists c'.
    - intros c' Hc'. assert (c' = part) as -> by congruence.
      intros s t Hs _ Hg. assert (s ∈ tc) as Hin by (by apply Htc).
      rewrite Htc0 in Hin. by apply elem_of_nil in Hin. }
  destruct (decide (ntc = [])) as [Hntc0|Hntc0].
  { rewrite (Hsame (or_intror Hntc0)). split_and!; try done.
    - intros k c' Hk. left. by exists c'.
    - intros c' Hc'. assert (c' = part) as -> by congruence.
      intros s t _ Ht _. destruct (Hhalves t Ht) as [Hin|Hin].
      + by apply Htc in Hin as [_ ?].
      + rewrite Hntc0 in Hin. by apply elem_of_nil in Hin. }
  destruct (Hsplit Htc0 Hntc0) as (Hparts & Hfinals & Hwork). clear Hsame Hsplit.
  set (new := length (DFA.partitions r)) in *.
  assert (∀ k, DFA.partitions r' !! k
               = if decide (k = idx) then Some tc
                 else if decide (k = new) then Some ntc
                      else DFA.partitions r !! k) as Hlook.
  { intros k. rewrite Hparts. by apply split_lookup. }
  assert (idx ≠ new) as Hin by (unfold new; lia).
  assert (∃ x, DFA.worklist r' = x :: DFA.worklist r
               ∧ (x = new ∨ x = idx)
               ∧ (idx ∈ DFA.worklist r → x = new)
               ∧ (x = idx → idx ∉ DFA.worklist r)) as (x & Hw' & Hx & Hx1 & Hx2).
  { rewrite Hwork. destruct (bool_decide (idx ∈ DFA.worklist r)) eqn:Hb; simpl.
    - apply bool_decide_eq_true in Hb. exists new. split_and!; auto; by intros ->.
    - apply bool_decide_eq_false in Hb.
      destruct (_ <? _)%nat.
      + exists new. split_and!; auto; by intros ->.
      + exists idx. split_and!; auto; by intros ?. }
  assert (new ∉ DFA.worklist r) as Hnew.
  { intros Hn. apply (proj1 (Forall_forall _ _) Hwl) in Hn. unfold new in Hn. lia. }
  assert (∃ y, y ≠ x ∧ (y = new ∨ y = idx)) as (y & Hyx & Hy).
  { destruct Hx as [->| ->]; [exists idx|exists new]; auto. }
  assert (∀ d, in_worklist_cell r d → in_worklist_cell r' d) as Hinwl.
  { intros d (j & Hj & cj & Hcj & Hd).
    destruct (decide (j = idx)) as [->|Hji].
    - assert (cj = part) as -> by congruence.
      specialize (Hx1 Hj). subst x.
      destruct (Hhalves d Hd) as [Ht|Ht].
      + exists idx. split; [rewrite Hw'; by right|].
        exists tc. split; [|done]. rewrite Hlook. by rewrite decide_True.
      + exists new. split; [rewrite Hw'; left|].
        exists ntc. split; [|done]. rewrite Hlook.
        rewrite decide_False by done. by rewrite decide_True.
    - exists j. split; [rewrite Hw'; by right|]. exists cj. split; [|done].
      rewrite Hlook. rewrite decide_False by done.
      rewrite decide_False; [done|].
      intros ->. by apply lookup_lt_Some in Hcj; unfold new in Hcj; lia. }
  assert (refines (DFA.partitions r) (DFA.partitions r')) as Href.
  { intros c' [k Hk]%list_elem_of_lookup_1. rewrite Hlook in Hk.
    destruct (decide (k = idx)); [|destruct (decide (k = new))].
    - injection Hk as <-. exists part. split; [by eapply list_elem_of_lookup_2|].
      intros d Hd. by apply Htc in Hd as [? _].
    - injection Hk as <-. exists part. split; [by eapply list_elem_of_lookup_2|].
      intros d Hd. by apply Hntc in Hd as [? _].
    - exists c'. split; [by eapply list_elem_of_lookup_2|done]. }
  destruct Hcore as (HndW & [Hfin Hfinb] & Hwhole & [k0 Hk0] & Hcov).
  assert (∃ d0, d0 ∈ tc) as [dt Hdt] by (destruct tc; [done|eexists; left]).
  assert (∃ d0, d0 ∈ ntc) as [dn Hdn] by (destruct ntc; [done|eexists; left]).
  pose proof (Hwhole part (list_elem_of_lookup_2 _ _ _ Hpart)) as Hpw.
  split_and!.
  - unfold hop_core. split_and!.
    + rewrite Hw'. apply NoDup_cons. split; [|done].
      destruct Hx as [->| ->]; [done|]. by apply Hx2.
    + split.
      * intros i c s Hi Hs. rewrite Hlook in Hi. rewrite Hfinals.
        assert (∀ j, j ≠ new →
                     j ∈ (if decide (idx ∈ DFA.part_finals r)
                          then set_add new (DFA.part_finals r)
                          else DFA.part_finals r)
                     ↔ j ∈ DFA.part_finals r) as Hpf.
        { intros j Hj. destruct (decide _); [|done].
          rewrite elem_of_set_add. tauto. }
        destruct (decide (i = idx)) as [->|Hii];
          [|destruct (decide (i = new)) as [->|Hinew]].
        -- injection Hi as <-. rewrite Hpf by done.
           apply (Hfin idx part); [done|]. by apply Htc in Hs as [? _].
        -- injection Hi as <-. apply Hntc in Hs as [Hs _].
           rewrite (Hfin idx part s Hpart Hs).
           destruct (decide (idx ∈ DFA.part_finals r)) as [Hi|Hi].
           ++ rewrite elem_of_set_add. tauto.
           ++ split; [done|]. intros Hn.
              apply (proj1 (Forall_forall _ _) Hfinb) in Hn. unfold new in Hn. lia.
        -- rewrite Hpf by done. by apply (Hfin i c).
      * rewrite Hfinals, Hparts, length_app, length_insert. simpl.
        destruct (decide _).
        -- apply Forall_forall. intros j [->|Hj]%elem_of_set_add; [unfold new; lia|].
           apply (proj1 (Forall_forall _ _) Hfinb) in Hj. lia.
        -- eapply Forall_impl; [exact Hfinb|]. simpl. lia.
    + intros c' Hc'. destruct (Href c' Hc') as (c & Hc & Hsub).
      destruct (Hwhole c Hc) as [Hall|Hnone]; [left|right]; auto.
    + destruct Hpw as [Hall|Hnone].
      * assert (idx = k0 ∨ idx ∈ DFA.worklist r) as Hidx0.
        { apply (Hk0 idx part dt); [done|by apply Htc in Hdt as [? _]|].
          apply Hall. by apply Htc in Hdt as [? _]. }
        exists (if decide (idx ∈ DFA.worklist r) then k0 else y).
        intros k c d Hk Hd HdA. rewrite Hlook in Hk. rewrite Hw'.
        destruct (decide (k = idx)) as [->|Hki];
          [|destruct (decide (k = new)) as [->|Hkn]].
        -- destruct (decide (idx ∈ DFA.worklist r)) as [Hiw|Hiw].
           ++ right. by right.
           ++ destruct Hy as [->| ->]; [|by left].
              destruct Hx as [->| ->]; [done|]. right. left.
        -- destruct (decide (idx ∈ DFA.worklist r)) as [Hiw|Hiw].
           ++ right. rewrite (Hx1 Hiw). left.
           ++ destruct Hy as [->| ->]; [by left|].
              destruct Hx as [->| ->]; [|done]. right. left.
        -- destruct (Hk0 k c d Hk Hd HdA) as [->|Hkw]; [|right; by right].
           destruct Hidx0 as [<-|Hiw]; [done|].
           rewrite decide_True by done. by left.
      * exists k0. intros k c d Hk Hd HdA. rewrite Hlook in Hk. rewrite Hw'.
        destruct (decide (k = idx)) as [->|Hki];
          [|destruct (decide (k = new)) as [->|Hkn]].
        -- injection Hk as <-. apply Htc in Hd as [Hd _]. by destruct (Hnone d).
        -- injection Hk as <-. apply Hntc in Hd as [Hd _]. by destruct (Hnone d).
        -- destruct (Hk0 k c d Hk Hd HdA) as [->|Hkw]; [by left|right; by right].
    + intros i c Hi Hiw HcA. rewrite Hlook in Hi. rewrite Hw' in Hiw.
      apply not_elem_of_cons in Hiw as [Hix Hiw].
      assert (i = idx ∨ i = new →
              ∃ X : nat → Prop,
                (∀ d, d ∈ part → X d)
                ∧ (∀ d, X d → d ∈ part ∨ in_worklist_cell r d ∨ d ∈ A)
                ∧ (∀ a, a ∈ DFA.alphabet D → stable D (DFA.partitions r) X a)
                ∧ i = y) as Hhalf.
      { intros Hi'.
        assert (idx ∉ DFA.worklist r) as Hidxw.
        { intros Hiw'. specialize (Hx1 Hiw'). subst x.
          destruct Hi' as [->| ->]; done. }
        assert (∃ d0, d0 ∈ c ∧ d0 ∈ part) as (d0 & Hd0 & Hd0').
        { destruct Hi' as [->| ->].
          - rewrite decide_True in Hi by done. injection Hi as <-.
            exists dt. split; [done|]. by apply Htc in Hdt as [? _].
          - rewrite decide_False, decide_True in Hi by done. injection Hi as <-.
            exists dn. split; [done|]. by apply Hntc in Hdn as [? _]. }
        destruct (Hcov idx part Hpart Hidxw) as (X & HX1 & HX2 & HX3).
        { destruct Hpw as [Hall|Hnone]; [|done].
          destruct (HcA d0 Hd0). by apply Hall. }
        exists X. split_and!; try done.
        destruct Hi' as [->| ->], Hy as [->| ->], Hx as [->| ->]; done. }
      destruct (decide (i = idx)) as [->|Hii];
        [|destruct (decide (i = new)) as [->|Hinew]].
      * injection Hi as <-.
        destruct Hhalf as (X & HX1 & HX2 & HX3 & Hiy); [by left|].
        exists X. split_and!.
        -- intros d Hd. apply HX1. by apply Htc in Hd as [? _].
        -- intros d [Hd|[Hd|Hd]]%HX2; [|right; left; by apply Hinwl|by right; right].
           destruct (Hhalves d Hd) as [Ht|Ht]; [by left|]. right. left.
           assert (x = new) as -> by (destruct Hx as [->| ->]; done).
           exists new. split; [rewrite Hw'; left|]. exists ntc. split; [|done].
           rewrite Hlook. rewrite decide_False by done. by rewrite decide_True.
        -- intros b Hb. eapply stable_refines; [exact Href|]. by apply HX3.
      * injection Hi as <-.
        destruct Hhalf as (X & HX1 & HX2 & HX3 & Hiy); [by right|].
        exists X. split_and!.
        -- intros d Hd. apply HX1. by apply Hntc in Hd as [? _].
        -- intros d [Hd|[Hd|Hd]]%HX2; [|right; left; by apply Hinwl|by right; right].
           destruct (Hhalves d Hd) as [Ht|Ht]; [|by left]. right. left.
           assert (x = idx) as -> by (destruct Hx as [->| ->]; done).
           exists idx. split; [rewrite Hw'; left|]. exists tc. split; [|done].
           rewrite Hlook. by rewrite decide_True.
        -- intros b Hb. eapply stable_refines; [exact Href|]. by apply HX3.
      * destruct (Hcov i c Hi Hiw HcA) as (X & HX1 & HX2 & HX3).
        exists X. split_and!; [done| |].
        -- intros d [Hd|[Hd|Hd]]%HX2; [by left|right; left; by apply Hinwl|].
           by right; right.
        -- intros b Hb. eapply stable_refines; [exact Href|]. by apply HX3.
  - rewrite Hparts, length_app, length_insert. simpl. lia.
  - intros k c' Hk. rewrite Hlook in Hk.
    destruct (decide (k = idx)) as [->|Hki];
      [|destruct (decide (k = new)) as [->|Hkn]].
    + injection Hk as <-. left. exists part. split; [done|].
      intros d Hd. by apply Htc in Hd as [? _].
    + injection Hk as <-. right. split; [done|]. split; [done|].
      intros d Hd. by apply Hntc in Hd as [? _].
    + left. by exists c'.
  - intros c' Hc'. rewrite Hlook in Hc'. rewrite decide_True in Hc' by done.
    by injection Hc' as <-.
Qed.

Lemma hop_split_refines D R A a r r' idx :
  refine_inv R r → hop_core D A r →
  (idx < length (DFA.partitions r))%nat →
  DFA.refine_index D A a r idx = Ret r' →
  hop_core D A r' ∧ refine_inv R r'
  ∧ refines (DFA.partitions r) (DFA.partitions r')
  ∧ (length (DFA.partitions r) ≤ length (DFA.partitions r'))%nat
  ∧ (∀ k c', DFA.partitions r' !! k = Some c' →
       (∃ c, DFA.partitions r !! k = Some c ∧ ∀ d, d ∈ c' → d ∈ c)
       ∨ ((length (DFA.partitions r) ≤ k)%nat
          ∧ cell_stable D (λ d, d ∈ A) a c'))
  ∧ (∀ c', DFA.partitions r' !! idx = Some c' →
           cell_stable D (λ d, d ∈ A) a c').
Proof.
  intros Hinv Hcore Hidx Hrun.
  destruct (lookup_lt_is_Some_2 _ _ Hidx) as [part Hpart].
  destruct (hop_split D R A a r r' idx part Hinv Hcore Hpart Hrun)
    as (Hcore' & Hlen & Hcells & Hcell).
  destruct (refine_index_ok R D A a r idx Hinv Hidx) as (r2 & Hr2 & Hinv2 & _).
  assert (r2 = r') as -> by congruence.
  split_and!; try done.
  - intros c' [k Hk]%list_elem_of_lookup_1.
    destruct (Hcells k c' Hk) as [(c & Hc & Hsub)|(_ & _ & Hsub)].
    + exists c. split; [by eapply list_elem_of_lookup_2|done].
    + exists part. split; [by eapply list_elem_of_lookup_2|done].
  - intros k c' Hk.
    destruct (Hcells k c' Hk) as [?|(? & ? & _)]; [by left|by right].
Qed.

(** The splitter [A] at work on one symbol *)
Lemma hop_refine_sym D R A a r r' :
  refine_inv R r → hop_core D A r →
  DFA.refine_sym D A r a = Ret r' →
  hop_core D A r' ∧ refine_inv R r'
  ∧ refines (DFA.partitions r) (DFA.partitions r')
  ∧ stable D (DFA.partitions r') (λ d, d ∈ A) a.
Proof.
  intros Hinv Hcore Hrun. unfold DFA.refine_sym in Hrun.
  set (len0 := length (DFA.partitions r)) in *.
  destruct (foldM_each
    (λ r1, hop_core D A r1 ∧ refine_inv R r1
           ∧ refines (DFA.partitions r) (DFA.partitions r1)
           ∧ (len0 ≤ length (DFA.partitions r1))%nat
           ∧ ∀ k c, (len0 ≤ k)%nat → DFA.partitions r1 !! k = Some c →
                    cell_stable D (λ d, d ∈ A) a c)
    (λ k r1, ∀ c, DFA.partitions r1 !! k = Some c →
                  cell_stable D (λ d, d ∈ A) a c)
    (DFA.refine_index D A a) r r' (seq 0 len0))
    as [(Hcore' & Hinv' & Href & Hlen & Hnew) Hold]; try done.
  - split_and!; try done; [apply refines_refl|].
    intros k c Hk Hc. apply lookup_lt_Some in Hc. unfold len0 in Hk. lia.
  - intros r1 x r2 Hx%elem_of_seq (Hc1 & Hi1 & Hr1 & Hl1 & Hn1) Hrun1.
    destruct (hop_split_refines D R A a r1 r2 x Hi1 Hc1) as
      (Hc2 & Hi2 & Hr2 & Hl2 & Hcells & Hcell); [lia|done|].
    split; [|done]. split_and!; try done.
    + by eapply refines_trans.
    + lia.
    + intros k c Hk Hc.
      destruct (Hcells k c Hc) as [(c1 & Hc1' & Hsub)|[_ ?]]; [|done].
      eapply cell_stable_subset; [exact Hsub|]. by eapply Hn1.
  - intros r1 x y r2 Hx%elem_of_seq (Hc1 & Hi1 & Hr1 & Hl1 & Hn1) Hq Hrun1.
    destruct (hop_split_refines D R A a r1 r2 x Hi1 Hc1) as
      (Hc2 & Hi2 & Hr2 & Hl2 & Hcells & Hcell); [lia|done|].
    intros c Hc.
    destruct (Hcells y c Hc) as [(c1 & Hc1' & Hsub)|[_ ?]]; [|done].
    eapply cell_stable_subset; [exact Hsub|]. by apply Hq.
  - split_and!; try done.
    intros c [k Hk]%list_elem_of_lookup_1.
    destruct (decide (k < len0)%nat).
    + apply (Hold k); [|done]. apply elem_of_seq. lia.
    + apply (Hnew k); [lia|done].
Qed.

(** The splitter [A] at work on the whole alphabet *)
Lemma hop_refine_syms D R A r r' :
  refine_inv R r → hop_core D A r →
  foldM (DFA.refine_sym D A) r (DFA.alphabet D) = Ret r' →
  hop_core D A r' ∧ refine_inv R r'
  ∧ ∀ a, a ∈ DFA.alphabet D → stable D (DFA.partitions r') (λ d, d ∈ A) a.
Proof.
  intros Hinv Hcore Hrun.
  destruct (foldM_each
    (λ r1, hop_core D A r1 ∧ refine_inv R r1)
    (λ a r1, stable D (DFA.partitions r1) (λ d, d ∈ A) a)
    (DFA.refine_sym D A) r r' (DFA.alphabet D))
    as [[Hcore' Hinv'] Hst]; try done.
  - intros r1 a r2 _ [Hc1 Hi1] Hrun1.
    destruct (hop_refine_sym D R A a r1 r2 Hi1 Hc1 Hrun1) as (? & ? & _ & ?).
    done.
  - intros r1 a b r2 _ [Hc1 Hi1] Hq Hrun1.
    destruct (hop_refine_sym D R A a r1 r2 Hi1 Hc1 Hrun1) as (_ & _ & Href & _).
    by eapply stable_refines.
Qed.

(** Taking a splitter off the worklist *)
Lemma hop_pop D R r top wl A :
  NoDup R → refine_inv R r → hop_inv D r →
  DFA.worklist r = top :: wl → DFA.partitions r !! top = Some A →
  hop_core D A (DFA.mk_refinement (DFA.partitions r) (DFA.part_finals r) wl)
  ∧ refine_inv R (DFA.mk_refinement (DFA.partitions r) (DFA.part_finals r) wl).
Proof.
  intros HndR (Hne & Hperm & Hwl) (HndW & Hfin & Hcov) Hw HA.
  assert (NoDup (mjoin (DFA.partitions r))) as Hnd by (by rewrite Hperm).
  rewrite Hw in HndW, Hwl. apply NoDup_cons in HndW as [Htop HndW].
  apply Forall_cons_1 in Hwl as [_ Hwl].
  split; [|by split_and!].
  unfold hop_core. simpl. split_and!; try done.
  - intros c [k Hk]%list_elem_of_lookup_1.
    destruct (decide (k = top)) as [->|Hkt].
    + left. by assert (c = A) as -> by congruence.
    + right. intros d Hd HdA. apply Hkt.
      by eapply (cells_disjoint (DFA.partitions r) k top c A d).
  - exists top. intros k c d Hk Hd HdA. left.
    by eapply (cells_disjoint (DFA.partitions r) k top c A d).
  - intros i c Hi Hiw HcA.
    assert (i ≠ top) as Hit.
    { intros ->. assert (c = A) as -> by congruence.
      pose proof (proj1 (Forall_forall _ _) Hne A
                    (list_elem_of_lookup_2 _ _ _ HA)) as HAne.
      destruct A as [|d0 A]; [done|]. apply (HcA d0); left. }
    destruct (Hcov i c Hi) as (X & HX1 & HX2 & HX3).
    { rewrite Hw. by intros [->|?]%elem_of_cons. }
    exists X. split_and!; [done| |done].
    intros d [Hd|(j & Hj & cj & Hcj & Hd)]%HX2; [by left|].
    rewrite Hw in Hj. apply elem_of_cons in Hj as [->|Hj].
    + right. right. by assert (cj = A) as -> by congruence.
    + right. left. exists j. split; [done|]. by exists cj.
Qed.

(** When the splitter has worked on the whole alphabet *)
Lemma hop_done D R A r :
  NoDup R → refine_inv R r → (∀ d, d ∈ A → d ∈ R) → hop_core D A r →
  (∀ a, a ∈ DFA.alphabet D → stable D (DFA.partitions r) (λ d, d ∈ A) a) →
  hop_inv D r.
Proof.
  intros HndR (Hne & Hperm & Hwl) HAR (HndW & Hfin & Hwhole & [k0 Hk0] & Hcov) HstA.
  unfold hop_inv. split_and!; try done.
  intros i c Hi Hiw.
  pose proof (list_elem_of_lookup_2 _ _ _ Hi) as Hc.
  destruct (Hwhole c Hc) as [Hall|Hnone].
  - exists (λ d, d ∈ A). split_and!; [done| |done].
    intros d HdA.
    assert (∃ d0, d0 ∈ c) as [d0 Hd0].
    { apply (proj1 (Forall_forall _ _) Hne) in Hc.
      destruct c; [done|eexists; left]. }
    assert (i = k0) as ->.
    { destruct (Hk0 i c d0 Hi Hd0 (Hall d0 Hd0)); done. }
    assert (d ∈ mjoin (DFA.partitions r)) as Hd.
    { rewrite Hperm. by apply HAR. }
    apply list_elem_of_join in Hd as (cd & Hd & [k Hk]%list_elem_of_lookup_1).
    destruct (Hk0 k cd d Hk Hd HdA) as [->|Hkw].
    + left. by assert (cd = c) as -> by congruence.
    + right. exists k. split; [done|]. by exists cd.
  - destruct (Hcov i c Hi Hiw Hnone) as (X & HX1 & HX2 & HX3).
    exists (λ d, X d ∧ d ∉ A). split_and!.
    + intros d Hd. split; [by apply HX1|by apply Hnone].
    + intros d [[Hd|[Hd|Hd]]%HX2 HdA]; [by left|by right|done].
    + intros a Ha c1 Hc1 s t Hs Ht (d & Hd & HXd & HdA).
      destruct (HX3 a Ha c1 Hc1 s t Hs Ht) as (d' & Hd' & HXd').
      { by exists d. }
      exists d'. split; [done|]. split; [done|]. intros Hd'A.
      destruct (HstA a Ha c1 Hc1 t s Ht Hs) as (d'' & Hd'' & Hd''A).
      { by exists d'. }
      congruence.
Qed.

(** The refinement loop ends with a congruence. *)
Lemma hop_loop D R fuel r r' :
  NoDup R → refine_inv R r → hop_inv D r →
  DFA.refine_loop D fuel r = Ret r' →
  refine_inv R r' ∧ final_ok D r' ∧ congruence D (DFA.partitions r').
Proof.
  intros HndR. revert r.
  induction fuel as [|fuel IH]; intros r Hinv Hhop Hrun; simpl in Hrun.
  - destruct (DFA.worklist r) as [|top wl] eqn:Hw; [|done].
    injection Hrun as <-. destruct Hhop as (_ & Hfin & Hcov).
    split_and!; try done. intros c a [i Hi]%list_elem_of_lookup_1 Ha.
    destruct (Hcov i c Hi) as (X & HX1 & HX2 & HX3).
    { rewrite Hw. apply not_elem_of_nil. }
    eapply stable_ext; [|by apply HX3]. intros d. split; [|by apply HX1].
    intros [?|(j & Hj & _)]%HX2; [done|]. rewrite Hw in Hj.
    by apply elem_of_nil in Hj.
  - destruct (DFA.worklist r) as [|top wl] eqn:Hw.
    + injection Hrun as <-. destruct Hhop as (_ & Hfin & Hcov).
      split_and!; try done. intros c a [i Hi]%list_elem_of_lookup_1 Ha.
      destruct (Hcov i c Hi) as (X & HX1 & HX2 & HX3).
      { rewrite Hw. apply not_elem_of_nil. }
      eapply stable_ext; [|by apply HX3]. intros d. split; [|by apply HX1].
      intros [?|(j & Hj & _)]%HX2; [done|]. rewrite Hw in Hj.
      by apply elem_of_nil in Hj.
    + apply obind_ret in Hrun as (A & HA & Hrun).
      apply obind_ret in Hrun as (r1 & Hr1 & Hrun).
      unfold py_nth in HA.
      destruct (DFA.partitions r !! top) as [A'|] eqn:Htop; [|done].
      injection HA as ->.
      destruct (hop_pop D R r top wl A HndR Hinv Hhop Hw Htop) as [Hcore0 Hinv0].
      destruct (hop_refine_syms D R A _ r1 Hinv0 Hcore0 Hr1)
        as (Hcore1 & Hinv1 & Hst1).
      apply (IH r1); [done| |done].
      apply (hop_done D R A); try done.
      intros d Hd. destruct Hinv as (_ & Hperm & _). rewrite <- Hperm.
      apply list_elem_of_join. exists A. split; [done|].
      by eapply list_elem_of_lookup_2.
Qed.

(** The first loop keeps the final states apart. *)
Lemma reach_loop_finals D fuel wl rs rf rs' rf' :
  DFA.reach_loop D fuel wl rs rf = Ret (rs', rf') →
  (∀ x, x ∈ rs → x ∉ DFA.final_states D) →
  (∀ x, x ∈ rf → x ∈ DFA.final_states D) →
  (∀ x, x ∈ rs' → x ∉ DFA.final_states D)
  ∧ (∀ x, x ∈ rf' → x ∈ DFA.final_states D).
Proof.
  revert wl rs rf. induction fuel as [|fuel IH]; intros wl rs rf Hrun Hrs Hrf;
    simpl in Hrun.
  - destruct wl; [|done]. by injection Hrun as <- <-.
  - destruct wl as [|curr wl]; [by injection Hrun as <- <-|].
    destruct (foldl _ _ _) as [[wl1 rs1] rf1] eqn:Hfold.
    assert ((∀ x, x ∈ rs1 → x ∉ DFA.final_states D)
            ∧ (∀ x, x ∈ rf1 → x ∈ DFA.final_states D)) as [Hrs1 Hrf1].
    { change ((λ acc : list nat * list nat * list nat,
                 (∀ x, x ∈ acc.1.2 → x ∉ DFA.final_states D)
                 ∧ (∀ x, x ∈ acc.2 → x ∈ DFA.final_states D)) (wl1, rs1, rf1)).
      rewrite <- Hfold. apply foldl_inv; [done|].
      intros [[wl0 rs0] rf0] sym _ [H1 H2]. unfold DFA.reach_sym.
      destruct (dict_get _ _) as [dst|]; [|done].
      destruct (_ && _); [|done].
      destruct (decide (dst ∈ DFA.final_states D)); simpl; split; try done.
      - intros x [->|Hx]%elem_of_set_add; auto.
      - intros x [->|Hx]%elem_of_set_add; auto. }
    by eapply IH.
Qed.

(** What [minimize] has when its two loops are over: no reachable state
    is final, or the reachable states are split into cells that form a
    congruence and whose flags are right. *)
Lemma minimize_partitions_spec D fuel o :
  (S (length (DFA.transitions D)) ≤ fuel)%nat →
  DFA.minimize_partitions fuel D = Ret o →
  match o with
  | None => ∀ x, dfa_reachable D x → x ∉ DFA.final_states D
  | Some r =>
      ∃ R, NoDup R ∧ (∀ x, x ∈ R ↔ dfa_reachable D x)
           ∧ refine_inv R r ∧ final_ok D r
           ∧ congruence D (DFA.partitions r)
  end.
Proof.
  intros Hfuel. unfold DFA.minimize_partitions.
  set (init := if decide (DFA.start_state D ∈ DFA.final_states D)
               then ([], [DFA.start_state D]) else ([DFA.start_state D], [])).
  assert (reach_inv D [] [DFA.start_state D] init.1 init.2
          ∧ DFA.start_state D ∈ init.1 ++ init.2
          ∧ length (init.1 ++ init.2) = 1%nat
          ∧ (∀ x, x ∈ init.1 → x ∉ DFA.final_states D)
          ∧ (∀ x, x ∈ init.2 → x ∈ DFA.final_states D))
    as (Hinv0 & Hstart0 & Hlen0 & Hrs0 & Hrf0).
  { unfold init. destruct (decide _); simpl.
    - split_and!; [|left|done|by intros x ?%elem_of_nil
                   |by intros x ->%list_elem_of_singleton]. split_and!.
      + apply NoDup_singleton.
      + intros x ->%list_elem_of_singleton. constructor.
      + done.
      + intros x Hx. by left.
    - split_and!; [|left|done|by intros x ->%list_elem_of_singleton
                   |by intros x ?%elem_of_nil]. split_and!.
      + apply NoDup_singleton.
      + intros x ->%list_elem_of_singleton. constructor.
      + done.
      + intros x Hx. by left. }
  destruct init as [rs0 rf0]. simpl in Hinv0, Hstart0, Hlen0, Hrs0, Hrf0.
  destruct (reach_loop_terminates D fuel [DFA.start_state D] rs0 rf0 Hinv0)
    as (rs & rf & Hreach_run & Hinv & Hmono); [simpl; lia|].
  rewrite Hreach_run. simpl.
  destruct (reach_loop_finals D fuel _ _ _ _ _ Hreach_run Hrs0 Hrf0)
    as [Hrs Hrf].
  pose proof Hinv as (Hnd & Hsound & _).
  assert (∀ x, x ∈ rf ++ rs ↔ dfa_reachable D x) as Hreach.
  { intros x. split.
    - intros Hx. apply Hsound. rewrite elem_of_app in *. tauto.
    - intros Hx. apply (reach_inv_complete D rs rf x Hinv (Hmono _ Hstart0)) in Hx.
      rewrite elem_of_app in *. tauto. }
  assert (NoDup (rf ++ rs)) as HndR.
  { by rewrite (Permutation_app_comm rf rs). }
  destruct (length rf =? 0)%nat eqn:Hrf0'.
  { intros [= <-]. apply Nat.eqb_eq in Hrf0'. destruct rf; [|done].
    intros x Hx%Hreach. simpl in Hx. by apply Hrs. }
  apply Nat.eqb_neq in Hrf0'.
  set (parts := if (length rs =? 0)%nat then [rf] else [rf; rs]).
  intros (r & Hloop & [= <-])%obind_ret.
  exists (rf ++ rs). split; [done|]. split; [done|].
  assert (refine_inv (rf ++ rs)
            (DFA.mk_refinement parts [0%nat] (rev (seq 0 (length parts)))))
    as Hrinv.
  { unfold refine_inv, parts. simpl.
    destruct (length rs =? 0)%nat eqn:Hrs'.
    - apply Nat.eqb_eq in Hrs'. destruct rs; [|done]. simpl.
      split_and!.
      + constructor; [|done]. by destruct rf.
      + by rewrite !app_nil_r.
      + constructor; [lia|done].
    - apply Nat.eqb_neq in Hrs'. simpl. split_and!.
      + constructor; [by destruct rf|]. constructor; [by destruct rs|done].
      + by rewrite app_nil_r.
      + repeat constructor; lia. }
  apply (hop_loop D (rf ++ rs) fuel _ r HndR Hrinv); [|done].
  unfold hop_inv. simpl. split_and!.
  - rewrite <- Permutation_rev. apply NoDup_seq.
  - split; simpl.
    + intros i c s Hi Hs. rewrite list_elem_of_singleton. unfold parts in Hi.
      destruct (length rs =? 0)%nat; destruct i as [|[|i]]; simpl in Hi;
        try done; injection Hi as <-.
      * split; [done|]. intros _. by apply Hrf.
      * split; [done|]. intros _. by apply Hrf.
      * split; [|done]. intros Hf. by destruct (Hrs s Hs).
    + constructor; [|done]. unfold parts. destruct (_ =? _)%nat; simpl; lia.
  - intros i c Hi Hiw. destruct Hiw.
    rewrite <- Permutation_rev. apply elem_of_seq.
    apply lookup_lt_Some in Hi. lia.
Qed.

(** [state_map] sends a state to the index of its cell. *)
Lemma state_map_sound (parts : list (list nat)) x i :
  dict_get x (DFA.build_state_map parts) = Some i → in_cell parts i x.
Proof.
  unfold DFA.build_state_map.
  assert (∀ j sts m,
            dict_get x (foldl (λ m state, dict_set state j m) m sts) = Some i →
            dict_get x m = Some i ∨ (i = j ∧ x ∈ sts)) as Hinner.
  { intros j sts. induction sts as [|s sts IH]; intros m; simpl; [by left|].
    intros [H|[-> Hx]]%IH; [|right; split; [done|by right]].
    rewrite dict_get_set in H. destruct (decide (x = s)) as [->|]; [|by left].
    injection H as <-. right. split; [done|left]. }
  assert (∀ (l : list (nat * list nat)) m,
            dict_get x
              (foldl (λ m '(index, sts),
                        foldl (λ m state, dict_set state index m) m sts) m l)
            = Some i →
            dict_get x m = Some i ∨ ∃ c, (i, c) ∈ l ∧ x ∈ c) as Houter.
  { induction l as [|[j c] l IH]; intros m; simpl; [by left|].
    intros [H|(c' & Hin & Hx)]%IH.
    - apply Hinner in H as [H|[-> Hx]]; [by left|].
      right. exists c. split; [left|done].
    - right. exists c'. split; [by right|done]. }
  intros [H|(c & Hin & Hx)]%Houter; [done|].
  exists c. split; [|done]. unfold DFA.enumerate in Hin.
  apply elem_of_lookup_zip_with in Hin as (k & k' & c' & [= <- <-] & Hk & Hc).
  apply lookup_seq in Hk as [-> _]. done.
Qed.

Lemma state_map_value (parts : list (list nat)) x i :
  NoDup (mjoin parts) → in_cell parts i x →
  dict_get x (DFA.build_state_map parts) = Some i.
Proof.
  intros Hnd (c & Hc & Hx).
  destruct (state_map_keys parts x) as [j Hj].
  { apply list_elem_of_join. exists c. split; [done|].
    by eapply list_elem_of_lookup_2. }
  pose proof Hj as (c' & Hc' & Hx')%state_map_sound.
  by rewrite (cells_disjoint parts i j c c' x).
Qed.

(** A loop that fills a dictionary: what its entries come from, and
    which keys it is sure to set. *)
Lemma foldM_table {B K V} `{EqDecision K}
    (f : list (K * V) → B → outcome (list (K * V)))
    (S : B → K → V → Prop) (C : B → K → Prop) (l : list B) tr tr' :
  (∀ tr x tr', x ∈ l → f tr x = Ret tr' →
     (∀ k v, dict_get k tr' = Some v → dict_get k tr = Some v ∨ S x k v)
     ∧ (∀ k, is_Some (dict_get k tr) → is_Some (dict_get k tr'))
     ∧ (∀ k, C x k → is_Some (dict_get k tr'))) →
  foldM f tr l = Ret tr' →
  (∀ k v, dict_get k tr' = Some v →
          dict_get k tr = Some v ∨ ∃ x, x ∈ l ∧ S x k v)
  ∧ (∀ k, is_Some (dict_get k tr) → is_Some (dict_get k tr'))
  ∧ (∀ x k, x ∈ l → C x k → is_Some (dict_get k tr')).
Proof.
  revert tr. induction l as [|x l IH]; intros tr Hstep; simpl.
  - intros [= <-]. split_and!; [by left|done|by intros x k ?%elem_of_nil].
  - intros (tr1 & Hf & Hrest)%obind_ret.
    destruct (Hstep tr x tr1 (list_elem_of_here _ _) Hf) as (Hs1 & Hm1 & Hc1).
    destruct (IH tr1) as (Hs & Hm & Hc); [|done|].
    { intros tr0 y tr0' Hy. apply Hstep. by right. }
    split_and!.
    + intros k v [H|(y & Hy & HS)]%Hs.
      * apply Hs1 in H as [H|H]; [by left|]. right. exists x. split; [left|done].
      * right. exists y. split; [by right|done].
    + intros k Hk. by apply Hm, Hm1.
    + intros y k [->|Hy]%elem_of_cons HC; [by apply Hm, Hc1|by eapply Hc].
Qed.

Lemma build_transitions_spec D (parts : list (list nat)) sm tr :
  DFA.build_transitions D parts sm = Ret tr →
  (∀ i a j, dict_get (i, a) tr = Some j →
     a ∈ DFA.alphabet D
     ∧ ∃ s d, in_cell parts i s
              ∧ dict_get (s, a) (DFA.transitions D) = Some d
              ∧ dict_get d sm = Some j)
  ∧ (∀ i s a d, in_cell parts i s → a ∈ DFA.alphabet D →
       dict_get (s, a) (DFA.transitions D) = Some d →
       is_Some (dict_get (i, a) tr)).
Proof.
  unfold DFA.build_transitions. intros Hrun.
  apply (foldM_table _
    (λ '(index, sts) k j,
       ∃ s a d, k = (index, a) ∧ s ∈ sts ∧ a ∈ DFA.alphabet D
                ∧ dict_get (s, a) (DFA.transitions D) = Some d
                ∧ dict_get d sm = Some j)
    (λ '(index, sts) k,
       ∃ s a d, k = (index, a) ∧ s ∈ sts ∧ a ∈ DFA.alphabet D
                ∧ dict_get (s, a) (DFA.transitions D) = Some d)) in Hrun
    as (Hsound & _ & Hcomplete).
  - split.
    + intros i a j [H|([index sts] & Hin & s & a' & d & [= <- <-] & Hs & Ha & Hd & Hj)]
        %Hsound; [done|].
      split; [done|]. exists s, d. split; [|done]. exists sts. split; [|done].
      unfold DFA.enumerate in Hin.
      apply elem_of_lookup_zip_with in Hin as (k & k' & c' & [= <- <-] & Hk & Hc).
      by apply lookup_seq in Hk as [-> _].
    + intros i s a d (c & Hc & Hs) Ha Hd.
      apply (Hcomplete (i, c)).
      * unfold DFA.enumerate. apply elem_of_lookup_zip_with.
        exists i, i, c. split_and!; [done| |done].
        apply lookup_seq. split; [done|]. by eapply lookup_lt_Some.
      * by exists s, a, d.
  - intros tr0 [index sts] tr0' _ Hmid.
    apply (foldM_table _
      (λ s k j, ∃ a d, k = (index, a) ∧ a ∈ DFA.alphabet D
                       ∧ dict_get (s, a) (DFA.transitions D) = Some d
                       ∧ dict_get d sm = Some j)
      (λ s k, ∃ a d, k = (index, a) ∧ a ∈ DFA.alphabet D
                     ∧ dict_get (s, a) (DFA.transitions D) = Some d)) in Hmid
      as (Hsound & Hmono & Hcomplete).
    + split_and!; [|done|].
      * intros k v [H|(s & Hs & a & d & -> & Ha & Hd & Hj)]%Hsound; [by left|].
        right. by exists s, a, d.
      * intros k (s & a & d & -> & Hs & Ha & Hd).
        apply (Hcomplete s); [done|]. by exists a, d.
    + intros tr1 s tr1' _ Hin.
      apply (foldM_table _
        (λ a k j, ∃ d, k = (index, a)
                       ∧ dict_get (s, a) (DFA.transitions D) = Some d
                       ∧ dict_get d sm = Some j)
        (λ a k, ∃ d, k = (index, a)
                     ∧ dict_get (s, a) (DFA.transitions D) = Some d)) in Hin
        as (Hsound & Hmono & Hcomplete).
      * split_and!; [|done|].
        -- intros k v [H|(a & Ha & d & -> & Hd & Hj)]%Hsound; [by left|].
           right. by exists a, d.
        -- intros k (a & d & -> & Ha & Hd). apply (Hcomplete a); [done|].
           by exists d.
      * intros tr2 a tr2' _ Hstep.
        destruct (dict_get (s, a) (DFA.transitions D)) as [d|] eqn:Hd.
        -- apply obind_ret in Hstep as (j & Hj & [= <-]).
           unfold py_item in Hj.
           destruct (dict_get d sm) as [j'|] eqn:Hsm; [|done].
           injection Hj as ->. split_and!.
           ++ intros k v. rewrite dict_get_set.
              destruct (decide (k = (index, a))) as [->|]; [|by left].
              intros [= <-]. right. by exists d.
           ++ intros k Hk. rewrite dict_get_set. by destruct (decide _).
           ++ intros k (d' & -> & _). rewrite dict_get_set.
              by rewrite decide_True.
        -- injection Hstep as <-. split_and!; [by left|done|].
           by intros k (d' & _ & ?).
Qed.

Lemma accept_from_final D s w :
  (∀ s a d, dict_get (s, a) (DFA.transitions D) = Some d → a ∈ DFA.alphabet D) →
  dfa_reachable D s → DFA.accept_from D s w = true →
  ∃ f, dfa_reachable D f ∧ f ∈ DFA.final_states D.
Proof.
  intros Hlab. revert s. induction w as [|a w IH]; intros s Hs; simpl.
  - intros Hf%bool_decide_eq_true. by exists s.
  - destruct (dict_get (s, a) (DFA.transitions D)) as [d|] eqn:Hd; [|done].
    apply IH. eapply reach_step; [exact Hs| |exact Hd]. by eapply Hlab.
Qed.

(** The quotient by a congruence whose flags are right accepts the same
    strings. *)
Lemma quotient_accept D M (parts : list (list nat)) w :
  (∀ s a d, dict_get (s, a) (DFA.transitions D) = Some d → a ∈ DFA.alphabet D) →
  congruence D parts →
  (∀ i c s, parts !! i = Some c → s ∈ c →
            s ∈ DFA.final_states D ↔ i ∈ DFA.final_states M) →
  (∀ i a j, dict_get (i, a) (DFA.transitions M) = Some j →
     a ∈ DFA.alphabet D
     ∧ ∃ s d, in_cell parts i s
              ∧ dict_get (s, a) (DFA.transitions D) = Some d
              ∧ in_cell parts j d) →
  (∀ i s a d, in_cell parts i s → a ∈ DFA.alphabet D →
     dict_get (s, a) (DFA.transitions D) = Some d →
     is_Some (dict_get (i, a) (DFA.transitions M))) →
  ∀ s i, in_cell parts i s → DFA.accept_from M i w = DFA.accept_from D s w.
Proof.
  intros Hlab Hcong Hfin Hsound Hcomplete.
  assert (∀ i a j s, dict_get (i, a) (DFA.transitions M) = Some j →
                     in_cell parts i s →
                     ∃ d, dict_get (s, a) (DFA.transitions D) = Some d
                          ∧ in_cell parts j d) as Hstep.
  { intros i a j s Hj (ci & Hci & Hs).
    destruct (Hsound i a j Hj)
      as (Ha & s' & d' & (ci' & Hci' & Hs') & Hd' & cj & Hcj & Hd'j).
    assert (ci' = ci) as -> by congruence.
    destruct (Hcong cj a (list_elem_of_lookup_2 _ _ _ Hcj) Ha ci
                (list_elem_of_lookup_2 _ _ _ Hci) s' s Hs' Hs)
      as (d & Hd & Hdj); [by exists d'|].
    exists d. split; [done|]. by exists cj. }
  induction w as [|a w IH]; intros s i Hi; simpl.
  - destruct Hi as (c & Hc & Hs). apply bool_decide_ext. symmetry.
    by apply (Hfin i c s).
  - destruct (dict_get (i, a) (DFA.transitions M)) as [j|] eqn:Hj.
    + destruct (Hstep i a j s Hj Hi) as (d & -> & Hd). by apply IH.
    + destruct (dict_get (s, a) (DFA.transitions D)) as [d|] eqn:Hd; [|done].
      destruct (Hcomplete i s a d Hi) as [j' Hj']; [by eapply Hlab|done|].
      congruence.
Qed.

Lemma minimize_language D fuel M :
  (∀ s a d, dict_get (s, a) (DFA.transitions D) = Some d → a ∈ DFA.alphabet D) →
  DFA.minimize fuel D = Ret M →
  ∀ w, DFA.accept M w = DFA.accept D w.
Proof.
  intros Hlab Hrun w.
  apply (minimize_more_fuel _ (fuel + S (length (DFA.transitions D)))) in Hrun;
    [|lia].
  unfold DFA.minimize in Hrun.
  apply obind_ret in Hrun as (o & Ho & Hrun).
  apply minimize_partitions_spec in Ho; [|lia].
  destruct o as [r|].
  - destruct Ho as (R & HndR & HR & (Hne & Hperm & _) & [Hfin _] & Hcong).
    apply obind_ret in Hrun as (tr & Htr & Hrun).
    apply obind_ret in Hrun as (start & Hstart & [= <-]).
    apply build_transitions_spec in Htr as [Hsound Hcomplete].
    unfold py_item in Hstart.
    destruct (dict_get (DFA.start_state D) _) as [i|] eqn:Hi; [|done].
    injection Hstart as ->. apply state_map_sound in Hi.
    unfold DFA.accept. simpl.
    apply (quotient_accept D _ (DFA.partitions r)); try done.
    intros i a j Hj. destruct (Hsound i a j Hj) as (Ha & s & d & Hs & Hd & Hsm).
    split; [done|]. exists s, d. split; [done|]. split; [done|].
    by apply state_map_sound.
  - injection Hrun as <-.
    assert (DFA.accept D w = false) as ->.
    { destruct (DFA.accept D w) eqn:Hacc; [|done].
      apply accept_from_final in Hacc as (f & Hf & Hfin); [|done|constructor].
      by destruct (Ho f Hf). }
    unfold DFA.accept. by destruct w.
Qed.

(** X15. [DFA.minimize] keeps the language.  For a DFA whose transitions
    all carry symbols of its alphabet, the DFA that [minimize] returns
    accepts exactly the strings that the given DFA accepts. *)
Theorem minimize_accept D fuel M :
  (∀ s a d, dict_get (s, a) (DFA.transitions D) = Some d → a ∈ DFA.alphabet D) →
  DFA.minimize fuel D = Ret M →
  ∀ w, DFA.accept M w = DFA.accept D w.
Proof. apply minimize_language. Qed.

Lemma minimize_accept_witness :
  (∀ s a d, dict_get (s, a) (DFA.transitions chain_dfa) = Some d →
            a ∈ DFA.alphabet chain_dfa)
  ∧ ∃ M, DFA.minimize 4 chain_dfa = Ret M
         ∧ ∀ w, DFA.accept M w = DFA.accept chain_dfa w.
Proof.
  assert (∀ s a d, dict_get (s, a) (DFA.transitions chain_dfa) = Some d →
                   a ∈ DFA.alphabet chain_dfa) as Hlab.
  { intros s a d Hget%dict_get_Some_elem.
    assert (Forall (λ e, e.1.2 ∈ DFA.alphabet chain_dfa)
              (DFA.transitions chain_dfa)) as Hall.
    { apply (bool_decide_unpack _). vm_compute. exact I. }
    by apply (proj1 (Forall_forall _ _) Hall) in Hget. }
  split; [exact Hlab|].
  eexists. split; [vm_compute; reflexivity|].
  apply (minimize_accept chain_dfa 4); [exact Hlab|]. vm_compute. reflexivity.
Defined.

Lemma build_transitions_NoDup D (parts : list (list nat)) sm tr :
  DFA.build_transitions D parts sm = Ret tr → NoDup tr.*1.
Proof.
  unfold DFA.build_transitions.
  apply (foldM_inv (λ tr, NoDup tr.*1)); [constructor|].
  intros tr0 [index sts] tr0' _ Hnd0.
  apply (foldM_inv (λ tr, NoDup tr.*1)); [done|].
  intros tr1 s tr1' _ Hnd1.
  apply (foldM_inv (λ tr, NoDup tr.*1)); [done|].
  intros tr2 a tr2' _ Hnd2.
  destruct (dict_get (s, a) (DFA.transitions D)) as [d|]; [|by intros [= <-]].
  intros (j & _ & [= <-])%obind_ret. by apply dict_set_NoDup.
Qed.

Lemma minimize_well_formed D fuel M :
  DFA.minimize fuel D = Ret M →
  dfa_wf M ∧ DFA.alphabet M = DFA.alphabet D
  ∧ ∃ n, (0 < n)%nat ∧ ∀ i, i ∈ DFA.states M ↔ (i < n)%nat.
Proof.
  intros Hrun.
  apply (minimize_more_fuel _ (fuel + S (length (DFA.transitions D)))) in Hrun;
    [|lia].
  unfold DFA.minimize in Hrun.
  apply obind_ret in Hrun as (o & Ho & Hrun).
  apply minimize_partitions_spec in Ho; [|lia].
  destruct o as [r|].
  - destruct Ho as (R & HndR & HR & (Hne & Hperm & _) & [Hfin Hfinb] & Hcong).
    apply obind_ret in Hrun as (tr & Htr & Hrun).
    apply obind_ret in Hrun as (start & Hstart & [= <-]).
    pose proof (build_transitions_NoDup _ _ _ _ Htr) as Hnd.
    apply build_transitions_spec in Htr as [Hsound Hcomplete].
    unfold py_item in Hstart.
    destruct (dict_get (DFA.start_state D) _) as [i|] eqn:Hi; [|done].
    injection Hstart as ->. apply state_map_sound in Hi.
    assert (∀ i, i ∈ set_of (seq 0 (length (DFA.partitions r)))
                 ↔ (i < length (DFA.partitions r))%nat) as Hstates.
    { intros j. rewrite elem_of_set_of, elem_of_seq. lia. }
    assert (∀ i s, in_cell (DFA.partitions r) i s →
                   (i < length (DFA.partitions r))%nat) as Hlt.
    { intros j s (c & Hc & _). by eapply lookup_lt_Some. }
    split; [|split; [done|]].
    + unfold dfa_wf. simpl. split_and!; try done.
      * apply Hstates. by eapply Hlt.
      * intros f Hf. apply Hstates.
        by apply (proj1 (Forall_forall _ _) Hfinb).
      * intros s a d Hget.
        destruct (Hsound s a d Hget) as (Ha & s' & d' & Hs' & Hd' & Hsm).
        apply state_map_sound in Hsm.
        split_and!; [|done|]; apply Hstates; by eapply Hlt.
    + exists (length (DFA.partitions r)). split; [|done].
      specialize (Hlt _ _ Hi). lia.
  - injection Hrun as <-. split; [|split; [done|]].
    + unfold dfa_wf. simpl. split_and!; try done.
      * left.
      * by intros f ?%elem_of_nil.
      * constructor.
    + exists 1%nat. split; [lia|]. intros i. simpl.
      rewrite list_elem_of_singleton. lia.
Qed.

(** X16. The DFA that [DFA.minimize] returns is well formed, whatever
    the given DFA: its states are the indices 0..n-1 of the cells (n at
    least 1), its start state and its final states are among them, its
    alphabet is the given one, and every transition runs between its
    states on a symbol of the alphabet. *)
Theorem minimize_wf D fuel M :
  DFA.minimize fuel D = Ret M →
  dfa_wf M ∧ DFA.alphabet M = DFA.alphabet D
  ∧ ∃ n, (0 < n)%nat ∧ ∀ i, i ∈ DFA.states M ↔ (i < n)%nat.
Proof. apply minimize_well_formed. Qed.

Lemma minimize_wf_witness :
  ∃ M, DFA.minimize 4 chain_dfa = Ret M
       ∧ dfa_wf M ∧ DFA.alphabet M = DFA.alphabet chain_dfa
       ∧ ∃ n, (0 < n)%nat ∧ ∀ i, i ∈ DFA.states M ↔ (i < n)%nat.
Proof.
  eexists. split; [vm_compute; reflexivity|].
  apply (minimize_wf chain_dfa 4). vm_compute. reflexivity.
Defined.

Lemma determinize_minimize N complete fuel fuel' D M :
  NFA.to_dfa fuel N complete = Ret D →
  DFA.minimize fuel' D = Ret M →
  (∀ w, DFA.accept M w = NFA.accept N w)
  ∧ (eps ∉ NFA.alphabet N →
     ∃ N', to_nfa M = Ret N' ∧ ∀ w, NFA.accept N' w = NFA.accept N w).
Proof.
  intros HD HM.
  destruct (to_dfa_well_formed N complete fuel D HD)
    as ((_ & _ & _ & Htr) & _ & _ & Hal & _).
  assert (∀ w, DFA.accept M w = NFA.accept N w) as Hacc.
  { intros w. rewrite (minimize_language D fuel' M); [|by eapply Htr|done].
    by eapply to_dfa_language. }
  split; [done|]. intros Heps.
  destruct (minimize_well_formed D fuel' M HM) as (HwfM & HalM & _).
  destruct (to_nfa_language M HwfM) as (N' & HN' & Hacc').
  { rewrite HalM. by intros H%Hal. }
  exists N'. split; [done|]. intros w. specialize (Hacc' w).
  rewrite <- Hacc.
  destruct (NFA.accept N' w), (DFA.accept M w); intuition congruence.
Qed.

(** X17. Determinizing and minimizing an NFA keeps its language:
    whenever [to_dfa] and then [minimize] return, the minimized DFA
    accepts exactly the strings that the NFA accepts; and when the empty
    string is not a symbol of the alphabet, [to_nfa] turns it back into
    an NFA that accepts the same strings again. *)
Theorem to_dfa_minimize_to_nfa N complete fuel fuel' D M :
  NFA.to_dfa fuel N complete = Ret D →
  DFA.minimize fuel' D = Ret M →
  (∀ w, DFA.accept M w = NFA.accept N w)
  ∧ (eps ∉ NFA.alphabet N →
     ∃ N', to_nfa M = Ret N' ∧ ∀ w, NFA.accept N' w = NFA.accept N w).
Proof. apply determinize_minimize. Qed.

Lemma to_dfa_minimize_to_nfa_witness :
  ∃ D M, NFA.to_dfa 8 ab_nfa false = Ret D ∧ DFA.minimize 8 D = Ret M
         ∧ (∀ w, DFA.accept M w = NFA.accept ab_nfa w)
         ∧ (eps ∉ NFA.alphabet ab_nfa →
            ∃ N', to_nfa M = Ret N'
                  ∧ ∀ w, NFA.accept N' w = NFA.accept ab_nfa w).
Proof.
  eexists _, _. split; [vm_compute; reflexivity|].
  split; [vm_compute; reflexivity|].
  eapply (to_dfa_minimize_to_nfa ab_nfa false 8 8).
  - vm_compute. reflexivity.
  - vm_compute. reflexivity.
Defined.

(** ** Writing a postfix program out and reading it again *)

Lemma written_mono l l' r s : written l r s → (l' ≤ l)%nat → written l' r s.
Proof.
  intros Hw Hle. destruct Hw; econstructor; try done; lia.
Qed.

Lemma kstar_app_r (L : list symbol → Prop) u v :
  kstar L u → kstar L v → kstar L (u ++ v).
Proof.
  induction 1 as [|u1 u2 H1 _ IH]; intros Hv; [done|].
  rewrite <- app_assoc. constructor; auto.
Qed.

(** A concatenation written after a concatenation *)
Lemma written_cat_append r1 s1 r2 s2 l :
  written l r1 s1 → l = 2%nat → written 2 r2 s2 →
  ∃ r, written 2 r (s1 +:+ s2)
       ∧ ∀ w, matches r w ↔ ∃ u v, w = u ++ v ∧ matches r1 u ∧ matches r2 v.
Proof.
  intros Hw. revert r2 s2.
  induction Hw as [l s Hs|l r s Hw _|l r s Hl Hw _|l r s Hl Hw _
                   |l r s Hl Hw _|l ra rb sa sb Hl Hwa _ Hwb IHb
                   |l ra rb sa sb Hl Hwa _ Hwb _]; intros r2 s2 -> Hw2.
  - exists (RCat (RSym s) r2). split; [|done].
    apply written_cat; [lia|by constructor|done].
  - exists (RCat r r2). split; [|done].
    apply written_cat; [lia|by constructor|done].
  - exists (RCat (RStar r) r2). split; [|done].
    apply written_cat; [lia|by constructor|done].
  - exists (RCat (RPlus r) r2). split; [|done].
    apply written_cat; [lia|by constructor|done].
  - exists (RCat (ROpt r) r2). split; [|done].
    apply written_cat; [lia|by constructor|done].
  - destruct (IHb r2 s2 eq_refl Hw2) as (rc & Hwc & Hsem).
    exists (RCat ra rc). split.
    + rewrite sapp_assoc. by apply written_cat.
    + intros w. simpl. split.
      * intros (u & v & -> & Hu & (v1 & v2 & -> & Hv1 & Hv2)%Hsem).
        exists (u ++ v1), v2. rewrite app_assoc. split; [done|].
        split; [|done]. by exists u, v1.
      * intros (u & v & -> & (u1 & u2 & -> & Hu1 & Hu2) & Hv).
        exists u1, (u2 ++ v). rewrite app_assoc. split; [done|].
        split; [done|]. apply Hsem. by exists u2, v.
  - lia.
Qed.

(** An alternation written after an alternation *)
Lemma written_alt_append r1 s1 r2 s2 l :
  written l r1 s1 → l = 1%nat → written 1 r2 s2 →
  ∃ r, written 1 r (s1 +:+ "|" +:+ s2)
       ∧ ∀ w, matches r w ↔ matches r1 w ∨ matches r2 w.
Proof.
  intros Hw. revert r2 s2.
  induction Hw as [l s Hs|l r s Hw _|l r s Hl Hw _|l r s Hl Hw _
                   |l r s Hl Hw _|l ra rb sa sb Hl Hwa _ Hwb _
                   |l ra rb sa sb Hl Hwa _ Hwb IHb]; intros r2 s2 -> Hw2.
  - exists (RAlt (RSym s) r2). split; [|done].
    apply written_alt; [lia|by apply written_sym|done].
  - exists (RAlt r r2). split; [|done].
    apply written_alt; [lia|by apply written_paren|done].
  - exists (RAlt (RStar r) r2). split; [|done].
    apply written_alt; [lia|apply written_star; [lia|done]|done].
  - exists (RAlt (RPlus r) r2). split; [|done].
    apply written_alt; [lia|apply written_plus; [lia|done]|done].
  - exists (RAlt (ROpt r) r2). split; [|done].
    apply written_alt; [lia|apply written_opt; [lia|done]|done].
  - exists (RAlt (RCat ra rb) r2). split; [|done].
    apply written_alt; [lia|apply written_cat; [lia|done..]|done].
  - destruct (IHb r2 s2 eq_refl Hw2) as (rc & Hwc & Hsem).
    exists (RAlt ra rc). split.
    + rewrite !sapp_assoc. by apply written_alt.
    + intros w. simpl. rewrite Hsem. tauto.
Qed.

Lemma wrap_written prec op r s :
  op = None ∨ (∃ o, op = Some o ∧ 0 ≤ o ≤ 4) →
  written (level_of op) r s → 1 ≤ prec ≤ 3 →
  written (Z.to_nat prec) r (wrap prec (s, op)).
Proof.
  intros [->|(o & -> & Ho)] Hw Hprec; unfold wrap; simpl in *.
  - eapply written_mono; [done|lia].
  - assert (o = 0 ∨ o = 1 ∨ o = 2 ∨ o = 3 ∨ o = 4) as Hcases by lia.
    destruct Hcases as [->|[->|[->|[->| ->]]]]; simpl in *;
      destruct (_ <? _) eqn:Hlt;
      try (apply Z.ltb_lt in Hlt); try (apply Z.ltb_ge in Hlt);
      try (apply written_paren; eapply written_mono; [done|lia]);
      (eapply written_mono; [done|lia]).
Qed.

Lemma pop_string_args_two p a b stack :
  (a.2 = None ∨ ∃ o, a.2 = Some o ∧ 0 ≤ o ≤ 4) →
  (b.2 = None ∨ ∃ o, b.2 = Some o ∧ 0 ≤ o ≤ 4) →
  parsing.pop_string_args 2 p (b :: a :: stack)
  = Ret ([wrap (parsing.precedence p) b; wrap (parsing.precedence p) a], stack).
Proof.
  assert (∀ o, 0 ≤ o ≤ 4 → ∃ q, parsing._operators_id o = Some q) as Hid.
  { intros o Ho.
    assert (o = 0 ∨ o = 1 ∨ o = 2 ∨ o = 3 ∨ o = 4) as Hcases by lia.
    destruct Hcases as [->|[->|[->|[->| ->]]]]; by eexists. }
  destruct a as [sa opa], b as [sb opb]. simpl.
  intros [->|(oa & -> & [qa Hqa]%Hid)] [->|(ob & -> & [qb Hqb]%Hid)];
    unfold wrap; simpl; rewrite ?Hqa, ?Hqb; done.
Qed.

Lemma pop_string_args_one p a stack :
  (a.2 = None ∨ ∃ o, a.2 = Some o ∧ 0 ≤ o ≤ 4) →
  parsing.pop_string_args 1 p (a :: stack)
  = Ret ([wrap (parsing.precedence p) a], stack).
Proof.
  assert (∀ o, 0 ≤ o ≤ 4 → ∃ q, parsing._operators_id o = Some q) as Hid.
  { intros o Ho.
    assert (o = 0 ∨ o = 1 ∨ o = 2 ∨ o = 3 ∨ o = 4) as Hcases by lia.
    destruct Hcases as [->|[->|[->|[->| ->]]]]; by eexists. }
  destruct a as [sa opa]. simpl.
  intros [->|(oa & -> & [qa Hqa]%Hid)]; unfold wrap; simpl; rewrite ?Hqa; done.
Qed.

Lemma string_step_concat a b stack :
  (a.2 = None ∨ ∃ o, a.2 = Some o ∧ 0 ≤ o ≤ 4) →
  (b.2 = None ∨ ∃ o, b.2 = Some o ∧ 0 ≤ o ≤ 4) →
  parsing.string_step (b :: a :: stack) (parsing.Op 0)
  = Ret ((wrap 2 a +:+ wrap 2 b, Some 0) :: stack).
Proof.
  intros Ha Hb. unfold parsing.string_step.
  change (parsing._operators_id 0) with (Some parsing.op_concat).
  cbn [obind]. change (parsing.num_args parsing.op_concat) with 2%nat.
  by rewrite pop_string_args_two.
Qed.

Lemma string_step_union a b stack :
  (a.2 = None ∨ ∃ o, a.2 = Some o ∧ 0 ≤ o ≤ 4) →
  (b.2 = None ∨ ∃ o, b.2 = Some o ∧ 0 ≤ o ≤ 4) →
  parsing.string_step (b :: a :: stack) (parsing.Op 1)
  = Ret ((wrap 1 a +:+ "|" +:+ wrap 1 b, Some 1) :: stack).
Proof.
  intros Ha Hb. unfold parsing.string_step.
  change (parsing._operators_id 1) with (Some parsing.op_union).
  cbn [obind]. change (parsing.num_args parsing.op_union) with 2%nat.
  by rewrite pop_string_args_two.
Qed.

Lemma string_step_suffix a stack n (c : string) :
  (a.2 = None ∨ ∃ o, a.2 = Some o ∧ 0 ≤ o ≤ 4) →
  (n = 2 ∧ c = "*") ∨ (n = 3 ∧ c = "+") ∨ (n = 4 ∧ c = "?") →
  parsing.string_step (a :: stack) (parsing.Op n)
  = Ret ((wrap 3 a +:+ c, Some n) :: stack).
Proof.
  intros Ha Hn. unfold parsing.string_step.
  destruct Hn as [[-> ->]|[[-> ->]|[-> ->]]].
  - change (parsing._operators_id 2) with (Some parsing.op_star).
    cbn [obind]. change (parsing.num_args parsing.op_star) with 1%nat.
    by rewrite pop_string_args_one.
  - change (parsing._operators_id 3) with (Some parsing.op_plus).
    cbn [obind]. change (parsing.num_args parsing.op_plus) with 1%nat.
    by rewrite pop_string_args_one.
  - change (parsing._operators_id 4) with (Some parsing.op_opt).
    cbn [obind]. change (parsing.num_args parsing.op_opt) with 1%nat.
    by rewrite pop_string_args_one.
Qed.

Lemma string_of_regex r stack :
  ordinary r = true →
  ∃ s op r',
    foldM parsing.string_step stack (postfix_of_regex r) = Ret ((s, op) :: stack)
    ∧ (op = None ∨ ∃ o, op = Some o ∧ 0 ≤ o ≤ 4)
    ∧ written (level_of op) r' s
    ∧ ∀ w, matches r' w ↔ matches r w.
Proof.
  revert stack.
  induction r as [s|r1 IH1 r2 IH2|r1 IH1 r2 IH2|r IH|r IH|r IH];
    intros stack Hr; simpl in Hr; cbn [postfix_of_regex].
  - exists s, None, (RSym s). split_and!; [done|by left| |done].
    by constructor.
  - apply andb_true_iff in Hr as [Hr1 Hr2].
    destruct (IH1 stack Hr1) as (s1 & op1 & r1' & Hf1 & Hop1 & Hw1 & Hm1).
    destruct (IH2 ((s1, op1) :: stack) Hr2)
      as (s2 & op2 & r2' & Hf2 & Hop2 & Hw2 & Hm2).
    pose proof (wrap_written 2 op1 r1' s1 Hop1 Hw1 ltac:(lia)) as Hwa.
    pose proof (wrap_written 2 op2 r2' s2 Hop2 Hw2 ltac:(lia)) as Hwb.
    destruct (written_cat_append _ _ _ _ _ Hwa eq_refl Hwb) as (rc & Hwc & Hmc).
    eexists _, (Some 0), rc. split_and!; [|right; exists 0; split; [done|lia]
                                         |exact Hwc|].
    + rewrite foldM_app, Hf1. cbn [obind]. rewrite foldM_app, Hf2.
      cbn [obind foldM].
      by rewrite (string_step_concat (s1, op1) (s2, op2)).
    + intros w. rewrite Hmc. simpl. by setoid_rewrite Hm1; setoid_rewrite Hm2.
  - apply andb_true_iff in Hr as [Hr1 Hr2].
    destruct (IH1 stack Hr1) as (s1 & op1 & r1' & Hf1 & Hop1 & Hw1 & Hm1).
    destruct (IH2 ((s1, op1) :: stack) Hr2)
      as (s2 & op2 & r2' & Hf2 & Hop2 & Hw2 & Hm2).
    pose proof (wrap_written 1 op1 r1' s1 Hop1 Hw1 ltac:(lia)) as Hwa.
    pose proof (wrap_written 1 op2 r2' s2 Hop2 Hw2 ltac:(lia)) as Hwb.
    destruct (written_alt_append _ _ _ _ _ Hwa eq_refl Hwb) as (rc & Hwc & Hmc).
    eexists _, (Some 1), rc. split_and!; [|right; exists 1; split; [done|lia]
                                         |exact Hwc|].
    + rewrite foldM_app, Hf1. cbn [obind]. rewrite foldM_app, Hf2.
      cbn [obind foldM].
      by rewrite (string_step_union (s1, op1) (s2, op2)).
    + intros w. rewrite Hmc. simpl. by rewrite Hm1, Hm2.
  - destruct (IH stack Hr) as (s1 & op1 & r1' & Hf1 & Hop1 & Hw1 & Hm1).
    pose proof (wrap_written 3 op1 r1' s1 Hop1 Hw1 ltac:(lia)) as Hwa.
    eexists _, (Some 2), (RStar r1').
    split_and!; [|right; exists 2; split; [done|lia]| |].
    + rewrite foldM_app, Hf1. cbn [obind foldM].
      rewrite (string_step_suffix (s1, op1) stack 2 "*") by auto. done.
    + by apply written_star.
    + intros w. simpl. by apply kstar_ext.
  - destruct (IH stack Hr) as (s1 & op1 & r1' & Hf1 & Hop1 & Hw1 & Hm1).
    pose proof (wrap_written 3 op1 r1' s1 Hop1 Hw1 ltac:(lia)) as Hwa.
    eexists _, (Some 3), (RPlus r1').
    split_and!; [|right; exists 3; split; [done|lia]| |].
    + rewrite foldM_app, Hf1. cbn [obind foldM].
      rewrite (string_step_suffix (s1, op1) stack 3 "+") by auto. done.
    + by apply written_plus.
    + intros w. simpl.
      split; intros (u & v & -> & Hu & Hv); exists u, v; split; try done;
        (split; [by apply Hm1|]);
        by apply (kstar_ext (matches r1') (matches r) v Hm1).
  - destruct (IH stack Hr) as (s1 & op1 & r1' & Hf1 & Hop1 & Hw1 & Hm1).
    pose proof (wrap_written 3 op1 r1' s1 Hop1 Hw1 ltac:(lia)) as Hwa.
    eexists _, (Some 4), (ROpt r1').
    split_and!; [|right; exists 4; split; [done|lia]| |].
    + rewrite foldM_app, Hf1. cbn [obind foldM].
      rewrite (string_step_suffix (s1, op1) stack 4 "?") by auto. done.
    + by apply written_opt.
    + intros w. simpl. by rewrite Hm1.
Qed.

Lemma construct_string_written r :
  ordinary r = true →
  ∃ s r', parsing.construct_string (postfix_of_regex r) = Ret s
          ∧ written 1 r' s ∧ ∀ w, matches r' w ↔ matches r w.
Proof.
  intros Hr.
  destruct (string_of_regex r [] Hr) as (s & op & r' & Hf & Hop & Hw & Hm).
  exists s, r'. split; [|split; [|done]].
  - unfold parsing.construct_string.
    destruct (postfix_of_regex r) as [|tok l] eqn:Hp.
    + by destruct (postfix_of_regex_nonempty r).
    + by rewrite Hf.
  - eapply written_mono; [done|].
    destruct Hop as [->|(o & -> & Ho)]; simpl; [lia|].
    repeat destruct (decide _); lia.
Qed.

Lemma construct_string_compiles r :
  ordinary r = true →
  ∃ s N N', parsing.construct_string (postfix_of_regex r) = Ret s
            ∧ parsing.parse_regex_as_nfa s = Ret N
            ∧ parsing.construct_nfa (postfix_of_regex r) = Ret N'
            ∧ (∀ w, NFA.accept N w = true ↔ matches r w)
            ∧ ∀ w, NFA.accept N w = NFA.accept N' w.
Proof.
  intros Hr.
  destruct (construct_string_written r Hr) as (s & r' & Hs & Hw & Hm).
  destruct (construct_nfa_regex r' (written_nonempty_syms _ _ _ Hw))
    as (N & HN & _ & Hl).
  assert (nonempty_syms r) as Hne.
  { clear -Hr. induction r as [s| | | | |]; simpl in *; auto.
    - by apply ordinary_sym_char in Hr as (c & -> & _).
    - apply andb_true_iff in Hr as [? ?]. auto.
    - apply andb_true_iff in Hr as [? ?]. auto. }
  destruct (construct_nfa_regex r Hne) as (N' & HN' & _ & Hl').
  exists s, N, N'. split; [done|]. split.
  { unfold parsing.parse_regex_as_nfa. by rewrite (parse_regex_written r'). }
  split; [done|]. split.
  - intros w. by rewrite Hl, Hm.
  - intros w. specialize (Hl w). specialize (Hl' w). specialize (Hm w).
    destruct (NFA.accept N w), (NFA.accept N' w); intuition congruence.
Qed.

(** X18. Writing a postfix program out and reading it again keeps the
    language.  For the postfix form [p] of a regular expression over
    ordinary characters, [construct_string p] returns a string,
    [parse_regex_as_nfa] compiles that string, and the automaton accepts
    exactly the strings the expression matches: the same strings as the
    automaton [construct_nfa p] built from the program itself. *)
Theorem construct_string_round_trip r :
  ordinary r = true →
  ∃ s N N', parsing.construct_string (postfix_of_regex r) = Ret s
            ∧ parsing.parse_regex_as_nfa s = Ret N
            ∧ parsing.construct_nfa (postfix_of_regex r) = Ret N'
            ∧ (∀ w, NFA.accept N w = true ↔ matches r w)
            ∧ ∀ w, NFA.accept N w = NFA.accept N' w.
Proof. apply construct_string_compiles. Qed.

Lemma construct_string_round_trip_witness :
  ordinary (RStar (RCat (RAlt (RSym "a") (RSym "b")) (RCat (RSym "c") (RSym "d"))))
  = true
  ∧ ∃ s N N',
      parsing.construct_string
        (postfix_of_regex
           (RStar (RCat (RAlt (RSym "a") (RSym "b"))
                        (RCat (RSym "c") (RSym "d"))))) = Ret s
      ∧ parsing.parse_regex_as_nfa s = Ret N
      ∧ parsing.construct_nfa
          (postfix_of_regex
             (RStar (RCat (RAlt (RSym "a") (RSym "b"))
                          (RCat (RSym "c") (RSym "d"))))) = Ret N'
      ∧ (∀ w, NFA.accept N w = true
              ↔ matches (RStar (RCat (RAlt (RSym "a") (RSym "b"))
                                     (RCat (RSym "c") (RSym "d")))) w)
      ∧ ∀ w, NFA.accept N w = NFA.accept N' w.
Proof.
  split; [reflexivity|].
  apply (construct_string_round_trip
           (RStar (RCat (RAlt (RSym "a") (RSym "b"))
                        (RCat (RSym "c") (RSym "d"))))).
  reflexivity.
Defined.

(** ** The symbolic combiners of state elimination *)

Lemma operands_count (args : list (list parsing.token)) rv0 k0 :
  ∃ rv k,
    foldl (λ '(rv, num_operands) arg,
             if (0 <? length arg)%nat then (rv ++ arg, num_operands + 1)
             else (rv, num_operands)) (rv0, k0) args = (rv, k)
    ∧ k0 ≤ k ≤ k0 + Z.of_nat (length args).
Proof.
  revert rv0 k0. induction args as [|a args IH]; intros rv0 k0; simpl.
  - exists rv0, k0. split; [done|lia].
  - destruct (0 <? length a)%nat.
    + destruct (IH (rv0 ++ a) (k0 + 1)) as (rv & k & -> & Hk).
      exists rv, k. split; [done|lia].
    + destruct (IH rv0 k0) as (rv & k & -> & Hk).
      exists rv, k. split; [done|lia].
Qed.

Lemma sorted_by_len_length (args : list (list parsing.token)) :
  length (parsing.sorted_by_len args) = length args.
Proof.
  unfold parsing.sorted_by_len.
  assert (∀ a l, length (parsing.insert_by_len a l) = S (length l)) as Hins.
  { intros a l. induction l as [|b l IH]; simpl; [done|].
    destruct (_ <? _)%nat; simpl; by rewrite ?IH. }
  assert (∀ acc, length (foldl (λ acc a, parsing.insert_by_len a acc) acc args)
                 = (length acc + length args)%nat) as H.
  { induction args as [|a args IH]; intros acc; simpl; [lia|].
    rewrite IH, Hins. lia. }
  by rewrite H.
Qed.

(** [_op_if_nonempty] returns for the operators that the combiners pass
    to it: a binary operator with any number of arguments, a suffix
    operator with one argument. *)
Lemma op_if_nonempty_returns op args simplify :
  op = None ∨ op = Some "|"
  ∨ ((op = Some "*" ∨ op = Some "+" ∨ op = Some "?") ∧ (length args ≤ 1)%nat) →
  ∃ l, parsing._op_if_nonempty op args simplify = Ret l.
Proof.
  intros Hop. unfold parsing._op_if_nonempty.
  assert (∃ p, parsing._operators_sym op = Some p
               ∧ ((parsing.num_args p = 2%nat)
                  ∨ (parsing.num_args p = 1%nat ∧ parsing.commutative p = false
                     ∧ (length args ≤ 1)%nat))) as (p & -> & Hp).
  { destruct Hop as [->|[->|[[->|[->| ->]] Hlen]]]; eexists; split; try done;
      auto. }
  cbn [obind].
  set (args' := if parsing.commutative p then parsing.sorted_by_len args
                else args).
  destruct (operands_count args' [] 0) as (rv & k & -> & Hk).
  destruct (decide (k = 0)); [by eexists|].
  assert (length args' = length args) as Hlen.
  { unfold args'. destruct (parsing.commutative p); [|done].
    apply sorted_by_len_length. }
  destruct Hp as [Hn|(Hn & _ & Hargs)]; rewrite Hn.
  - change (Z.of_nat 2) with 2.
    destruct (decide (k ≠ 2)).
    + rewrite decide_False by lia.
      rewrite decide_False by (rewrite Z.mod_1_r; by intros []).
      cbn [obind]. destruct (last rv) as [l|];
        [destruct (if simplify then _ else _)|]; by eexists.
    + cbn [obind]. destruct (last rv) as [l|];
        [destruct (if simplify then _ else _)|]; by eexists.
  - change (Z.of_nat 1) with 1.
    rewrite decide_False by lia.
    cbn [obind]. destruct (last rv) as [l|];
      [destruct (if simplify then _ else _)|]; by eexists.
Qed.

Lemma postfix_rip_combiner_returns pre_t star post_t :
  ∃ l, parsing.postfix_rip_combiner pre_t star post_t = Ret (parsing.LTup l).
Proof.
  unfold parsing.postfix_rip_combiner.
  destruct (foldM_returns (λ _, True)
    (λ repeat loop,
       match loop with
       | parsing.LTup l =>
           parsing._op_if_nonempty (Some "|") [l; repeat] true
       | parsing.LStr s =>
           if decide (s ≠ "")
           then parsing._op_if_nonempty (Some "|") [[parsing.Sym s]; repeat] true
           else Ret repeat
       end) [] star) as (repeat & -> & _); [done| |].
  { intros repeat [s|l] _ _.
    - destruct (decide (s ≠ "")); [|by eexists].
      destruct (op_if_nonempty_returns (Some "|")
                  [[parsing.Sym s]; repeat] true) as [r ->]; [auto|].
      by eexists.
    - destruct (op_if_nonempty_returns (Some "|") [l; repeat] true)
        as [r ->]; [auto|]. by eexists. }
  cbn [obind].
  destruct (op_if_nonempty_returns (Some "+") [repeat] true) as [rp Hrp].
  { right. right. split; [auto|simpl; lia]. }
  destruct (op_if_nonempty_returns (Some "*") [repeat] true) as [rs Hrs].
  { right. right. split; [auto|simpl; lia]. }
  rewrite Hrp, Hrs. cbn [obind].
  destruct (op_if_nonempty_returns None [rp; parsing.operand post_t] true)
    as [r1 Hr1]; [auto|].
  destruct (op_if_nonempty_returns None [parsing.operand pre_t; rp] true)
    as [r2 Hr2]; [auto|].
  destruct (op_if_nonempty_returns None
              [parsing.operand pre_t; rs; parsing.operand post_t] true)
    as [r3 Hr3]; [auto|].
  rewrite Hr1, Hr2, Hr3.
  destruct (_ && _); [by eexists|].
  destruct (bool_decide (parsing.operand pre_t = repeat)); [by eexists|].
  destruct (bool_decide (parsing.operand post_t = repeat)); by eexists.
Qed.

Lemma postfix_union_combiner_returns options :
  ∃ l, parsing.postfix_union_combiner options = Ret (parsing.LTup l).
Proof.
  unfold parsing.postfix_union_combiner.
  destruct (foldM_returns (λ _, True)
    (λ '(union, optional) loop,
       match loop with
       | parsing.LTup l =>
           if decide (l = []) then Ret (union, true)
           else
             u <- parsing._op_if_nonempty (Some "|") [union; l] true;;
             Ret (u, optional)
       | parsing.LStr s =>
           if decide (s = "") then Ret (union, true)
           else
             u <- parsing._op_if_nonempty (Some "|") [union; [parsing.Sym s]] true;;
             Ret (u, optional)
       end) ([], false) options) as ([union optional] & -> & _); [done| |].
  { intros [union optional] [s|l] _ _.
    - destruct (decide (s = "")); [by eexists|].
      destruct (op_if_nonempty_returns (Some "|")
                  [union; [parsing.Sym s]] true) as [r ->]; [auto|].
      by eexists.
    - destruct (decide (l = [])); [by eexists|].
      destruct (op_if_nonempty_returns (Some "|") [union; l] true)
        as [r ->]; [auto|]. by eexists. }
  cbn [obind]. destruct optional; [|by eexists].
  destruct (op_if_nonempty_returns (Some "?") [union] true) as [r ->].
  { right. right. split; [auto|simpl; lia]. }
  by eexists.
Qed.

(** ** The elimination loop returns *)

Lemma rip_returns (self : GNFA.t) (state : Z) :
  state ∈ GNFA.states self →
  state ≠ GNFA.start_state self → state ≠ GNFA.final_state self →
  ∃ r, GNFA.rip self state parsing.postfix_rip_combiner = Ret r
       ∧ GNFA.states r = set_discard state (GNFA.states self)
       ∧ GNFA.start_state r = GNFA.start_state self
       ∧ GNFA.final_state r = GNFA.final_state self.
Proof.
  intros Hin Hs Hf. unfold GNFA.rip.
  rewrite !bool_decide_eq_false_2 by done. cbn [orb].
  destruct (GNFA.rip_outgoing self state) as [outgoing self_loops].
  match goal with
  | |- ∃ r, obind (foldM ?f ?a ?l) _ = _ ∧ _ =>
      destruct (foldM_returns (λ _, True) f a l) as ([al tr] & -> & _)
  end; [done| |].
  { intros [al tr] [[src sym] dsts] _ _.
    destruct (decide (src = state)); [by eexists|].
    destruct (decide (state ∈ dsts)); [|by eexists].
    match goal with
    | |- ∃ a', obind (foldM ?f ?a ?l) _ = _ ∧ _ =>
        destruct (foldM_returns (λ _, True) f a l) as ([al' tr'] & -> & _)
    end; [done| |by eexists].
    intros [al' tr'] [out_sym out_dsts] _ _.
    destruct (postfix_rip_combiner_returns sym self_loops out_sym) as [l ->].
    by eexists. }
  cbn [obind]. unfold set_remove. rewrite decide_True by done. cbn [obind].
  by eexists.
Qed.

Lemma union_edges_returns (self : GNFA.t) :
  ∃ r, GNFA.union_edges self parsing.postfix_union_combiner = Ret r
       ∧ GNFA.states r = GNFA.states self
       ∧ GNFA.start_state r = GNFA.start_state self
       ∧ GNFA.final_state r = GNFA.final_state self.
Proof.
  unfold GNFA.union_edges.
  match goal with
  | |- ∃ r, obind (foldM ?f ?a ?l) _ = _ ∧ _ =>
      destruct (foldM_returns (λ _, True) f a l) as ([al tr] & -> & _)
  end; [done| |by eexists].
  intros [al tr] [[src dst] syms] _ _.
  destruct (postfix_union_combiner_returns syms) as [l ->]. by eexists.
Qed.

Lemma py_min_by_elem {A} (key : A → Z) (xs : list A) :
  xs ≠ [] → ∃ x, test.py_min_by key xs = Ret x ∧ x ∈ xs.
Proof.
  destruct xs as [|x r]; [done|]. intros _. simpl. eexists. split; [done|].
  apply (foldl_inv (λ b, b ∈ x :: r)); [left|].
  intros b y Hy Hb. destruct (_ <? _); [by right|done].
Qed.

Lemma third_state (l : list Z) (s f : Z) :
  NoDup l → (2 < length l)%nat → filter (λ x, x ≠ s ∧ x ≠ f) l ≠ [].
Proof.
  intros Hnd Hlen.
  destruct l as [|x [|y [|z l]]]; simpl in Hlen; try lia.
  apply NoDup_cons in Hnd as [Hx Hnd]. apply NoDup_cons in Hnd as [Hy _].
  assert (x ≠ y ∧ x ≠ z ∧ y ≠ z) as (Hxy & Hxz & Hyz).
  { apply not_elem_of_cons in Hx as [Hxy [Hxz _]%not_elem_of_cons].
    by apply not_elem_of_cons in Hy as [Hyz _]. }
  assert (∃ q, q ∈ x :: y :: z :: l ∧ q ≠ s ∧ q ≠ f) as (q & Hq & Hqs).
  { destruct (decide (x = s ∨ x = f)) as [Hx'|Hx'].
    - destruct (decide (y = s ∨ y = f)) as [Hy'|Hy'].
      + exists z. split; [do 2 right; left|].
        split; intros ->; destruct Hx' as [->| ->], Hy' as [->| ->]; done.
      + exists y. split; [right; left|]. split; intros ->; tauto.
    - exists x. split; [left|]. split; intros ->; tauto. }
  intros Hnil.
  assert (q ∈ filter (λ x, x ≠ s ∧ x ≠ f) (x :: y :: z :: l)) as Hq'
    by by apply list_elem_of_filter.
  rewrite Hnil in Hq'. by apply elem_of_nil in Hq'.
Qed.

Lemma set_discard_length (x : Z) (l : list Z) :
  NoDup l → x ∈ l → S (length (set_discard x l)) = length l.
Proof.
  unfold set_discard. induction l as [|y l IH]; intros Hnd Hx.
  - by apply elem_of_nil in Hx.
  - apply NoDup_cons in Hnd as [Hy Hnd]. rewrite filter_cons.
    destruct (decide (y ≠ x)) as [Hne|Heq].
    + simpl. rewrite IH; [done..|].
      apply elem_of_cons in Hx as [->|Hx]; done.
    + assert (y = x) as -> by (by destruct (decide (y = x))).
      simpl. f_equal.
      assert (filter (λ y, y ≠ x) l = l) as ->; [|done].
      clear IH Hnd Hx Heq. induction l as [|z l IH]; [done|].
      apply not_elem_of_cons in Hy as [Hz Hl].
      rewrite filter_cons, decide_True by done. by rewrite IH.
Qed.

Lemma eliminate_returns (fuel : nat) (nfa : GNFA.t) :
  NoDup (GNFA.states nfa) →
  (length (GNFA.states nfa) ≤ fuel + 2)%nat →
  ∃ r, test.eliminate fuel nfa = Ret r
       ∧ NoDup (GNFA.states r)
       ∧ (length (GNFA.states r) ≤ 2)%nat
       ∧ (∀ s, s ∈ GNFA.states r → s ∈ GNFA.states nfa)
       ∧ (∀ s, s ∈ GNFA.states nfa →
               s = GNFA.start_state nfa ∨ s = GNFA.final_state nfa →
               s ∈ GNFA.states r)
       ∧ GNFA.start_state r = GNFA.start_state nfa
       ∧ GNFA.final_state r = GNFA.final_state nfa.
Proof.
  revert nfa. induction fuel as [|fuel IH]; intros nfa Hnd Hlen.
  - exists nfa. simpl.
    destruct (2 <? length (GNFA.states nfa))%nat eqn:Hlt;
      [apply Nat.ltb_lt in Hlt; lia|].
    split_and!; [done|done|lia|done..].
  - simpl. destruct (2 <? length (GNFA.states nfa))%nat eqn:Hlt.
    + apply Nat.ltb_lt in Hlt.
      match goal with
      | |- ∃ r, obind (test.py_min_by ?key ?xs) _ = _ ∧ _ =>
          destruct (py_min_by_elem key xs) as (q & -> & Hq)
      end; [by apply third_state|].
      apply list_elem_of_filter in Hq as [[Hqs Hqf] Hq]. cbn [obind].
      destruct (rip_returns nfa q Hq Hqs Hqf) as (n1 & -> & Hst1 & Hs1 & Hf1).
      cbn [obind].
      destruct (union_edges_returns n1) as (n2 & -> & Hst2 & Hs2 & Hf2).
      cbn [obind].
      pose proof (set_discard_length q _ Hnd Hq) as Hl.
      destruct (IH n2) as (r & -> & Hndr & Hr & Hsub & Hin & Hsr & Hfr).
      { rewrite Hst2, Hst1. by apply NoDup_filter. }
      { rewrite Hst2, Hst1. lia. }
      exists r. split; [done|]. split; [done|]. split; [done|].
      rewrite Hsr, Hfr, Hs2, Hf2, Hs1, Hf1.
      rewrite Hs2, Hf2, Hs1, Hf1, Hst2, Hst1 in Hin.
      rewrite Hst2, Hst1 in Hsub.
      split_and!; [|
                   |done..].
      * intros s Hs%Hsub. by apply list_elem_of_filter in Hs as [_ Hs].
      * intros s Hs Hsf. apply Hin; [|done].
        apply list_elem_of_filter. split; [|done].
        by destruct Hsf as [-> | ->].
    + apply Nat.ltb_ge in Hlt. exists nfa. split_and!; [done|done|lia|done..].
Qed.

(** With distinct start and final states among the states, what is left
    of the states is these two. *)
Lemma eliminate_two_states (nfa : GNFA.t) :
  NoDup (GNFA.states nfa) →
  GNFA.start_state nfa ∈ GNFA.states nfa →
  GNFA.final_state nfa ∈ GNFA.states nfa →
  GNFA.start_state nfa ≠ GNFA.final_state nfa →
  ∃ r, test.eliminate (length (GNFA.states nfa)) nfa = Ret r
       ∧ (∀ s, s ∈ GNFA.states r ↔
               s = GNFA.start_state nfa ∨ s = GNFA.final_state nfa)
       ∧ length (GNFA.states r) = 2%nat
       ∧ GNFA.start_state r = GNFA.start_state nfa
       ∧ GNFA.final_state r = GNFA.final_state nfa.
Proof.
  intros Hnd Hs Hf Hsf.
  destruct (eliminate_returns (length (GNFA.states nfa)) nfa)
    as (r & Hr & Hndr & Hlen & Hsub & Hin & Hsr & Hfr); [done|lia|].
  exists r. split; [done|].
  pose proof (Hin _ Hs (or_introl eq_refl)) as Hs'.
  pose proof (Hin _ Hf (or_intror eq_refl)) as Hf'.
  assert (∀ s, s ∈ GNFA.states r →
               s = GNFA.start_state nfa ∨ s = GNFA.final_state nfa) as Hall.
  { intros s Hsr'.
    destruct (decide (s = GNFA.start_state nfa)) as [|Hns]; [by left|].
    destruct (decide (s = GNFA.final_state nfa)) as [|Hnf]; [by right|].
    exfalso.
    assert (NoDup [s; GNFA.start_state nfa; GNFA.final_state nfa]) as Hnd3.
    { repeat constructor; rewrite ?not_elem_of_cons, ?elem_of_nil; tauto. }
    assert ([s; GNFA.start_state nfa; GNFA.final_state nfa] ⊆ GNFA.states r)
      as Hincl.
    { intros x Hx. repeat (apply elem_of_cons in Hx as [->|Hx]; [done|]).
      by apply elem_of_nil in Hx. }
    pose proof (submseteq_length _ _ (NoDup_submseteq _ _ Hnd3 Hincl)) as Hl.
    simpl in Hl. lia. }
  split_and!; [|
               |done..].
  - intros s. split; [apply Hall|]. by intros [-> | ->].
  - assert (NoDup [GNFA.start_state nfa; GNFA.final_state nfa]) as Hnd2.
    { repeat constructor; rewrite ?not_elem_of_cons, ?elem_of_nil; tauto. }
    assert ([GNFA.start_state nfa; GNFA.final_state nfa] ⊆ GNFA.states r)
      as Hincl.
    { intros x Hx. repeat (apply elem_of_cons in Hx as [->|Hx]; [done|]).
      by apply elem_of_nil in Hx. }
    pose proof (submseteq_length _ _ (NoDup_submseteq _ _ Hnd2 Hincl)) as Hl.
    simpl in Hl. lia.
Qed.

(** ** What the combined labels stand for *)

Lemma kstar_one (L : list symbol → Prop) w : L w → kstar L w.
Proof.
  intros Hw. rewrite <- (app_nil_r w). constructor; [done|constructor].
Qed.

Lemma kstar_sub (L L' : list symbol → Prop) w :
  (∀ u, L u → kstar L' u) → kstar L w → kstar L' w.
Proof.
  intros HL. induction 1 as [|u v Hu _ IH]; [constructor|].
  apply kstar_app_r; auto.
Qed.

Lemma kplus_kstar (L : list symbol → Prop) w : kplus L w → kstar L w.
Proof. intros (u & v & -> & Hu & Hv). by constructor. Qed.

Lemma kstar_kplus (L : list symbol → Prop) w :
  kstar L w ↔ w = [] ∨ kplus L w.
Proof. apply kstar_cases. Qed.

Lemma kstar_kstar (L : list symbol → Prop) w : kstar (kstar L) w ↔ kstar L w.
Proof. split; [by apply kstar_sub|apply kstar_one]. Qed.

Lemma kstar_of_kplus (L : list symbol → Prop) w :
  kstar (kplus L) w ↔ kstar L w.
Proof.
  split.
  - apply kstar_sub. apply kplus_kstar.
  - apply kstar_sub. intros u Hu. apply kstar_one.
    exists u, []. rewrite app_nil_r. split_and!; [done..|constructor].
Qed.

Lemma kstar_of_opt (L : list symbol → Prop) w :
  kstar (λ w, L w ∨ w = []) w ↔ kstar L w.
Proof.
  split.
  - apply kstar_sub. intros u [Hu| ->]; [by apply kstar_one|constructor].
  - apply kstar_sub. intros u Hu. apply kstar_one. by left.
Qed.

Lemma kplus_of_kstar (L : list symbol → Prop) w :
  kplus (kstar L) w ↔ kstar L w.
Proof.
  split.
  - intros H%kplus_kstar. by apply kstar_kstar.
  - intros H. exists w, []. rewrite app_nil_r. split_and!; [done..|constructor].
Qed.

Lemma kplus_of_kplus (L : list symbol → Prop) w :
  kplus (kplus L) w ↔ kplus L w.
Proof.
  split.
  - intros (u & v & -> & (u1 & u2 & -> & Hu1 & Hu2) & Hv).
    exists u1, (u2 ++ v). rewrite app_assoc. split_and!; [done..|].
    apply kstar_app_r; [done|]. by apply kstar_of_kplus.
  - intros H. exists w, []. rewrite app_nil_r. split_and!; [done..|constructor].
Qed.

Lemma kplus_of_opt (L : list symbol → Prop) w :
  kplus (λ w, L w ∨ w = []) w ↔ kstar L w.
Proof.
  split.
  - intros H%kplus_kstar. by apply kstar_of_opt.
  - intros [->|(u & v & -> & Hu & Hv)]%kstar_cases.
    + exists [], []. split_and!; [done|by right|constructor].
    + exists u, v. split_and!; [done|by left|by apply kstar_of_opt].
Qed.

Lemma opt_of_kstar (L : list symbol → Prop) w :
  kstar L w ∨ w = [] ↔ kstar L w.
Proof. split; [intros [H| ->]; [done|constructor]|by left]. Qed.

Lemma opt_of_kplus (L : list symbol → Prop) w :
  kplus L w ∨ w = [] ↔ kstar L w.
Proof. rewrite kstar_kplus. tauto. Qed.

(** The star read from the right *)
Lemma kstar_snoc (L : list symbol → Prop) u v :
  kstar L u → L v → kplus L (u ++ v).
Proof.
  induction 1 as [|u1 u2 H1 H2 IH]; intros Hv.
  - exists v, []. simpl. rewrite app_nil_r. split_and!; [done..|constructor].
  - destruct (IH Hv) as (a & b & Hab & Ha & Hb).
    exists u1, (u2 ++ v). rewrite app_assoc. split_and!; [done..|].
    rewrite Hab. by constructor.
Qed.

Lemma matches_inhabited (r : regex) : ∃ w, matches r w.
Proof.
  induction r as [s|r1 [w1 H1] r2 [w2 H2]|r1 [w1 H1] r2 _|r _|r [w H]|r _];
    simpl.
  - by eexists.
  - exists (w1 ++ w2), w1, w2. done.
  - exists w1. by left.
  - exists []. constructor.
  - exists (w ++ []), w, []. split_and!; [done..|constructor].
  - exists []. by right.
Qed.

(** A postfix form has one reading *)
Lemma postfix_of_regex_inj r1 :
  ∀ r2 l1 l2,
    l1 ++ postfix_of_regex r1 = l2 ++ postfix_of_regex r2 → r1 = r2 ∧ l1 = l2.
Proof.
  induction r1 as [s|a IHa b IHb|a IHa b IHb|a IHa|a IHa|a IHa];
    intros [s'|a' b'|a' b'|a'|a'|a'] l1 l2; cbn [postfix_of_regex];
    rewrite ?app_assoc; intros H;
    apply app_inj_tail in H as [H Hlast]; try discriminate Hlast.
  - injection Hlast as ->. by subst.
  - rewrite <- !app_assoc, !(app_assoc _ _ (postfix_of_regex _)) in H.
    apply IHb in H as [-> H]. by apply IHa in H as [-> ->].
  - rewrite <- !app_assoc, !(app_assoc _ _ (postfix_of_regex _)) in H.
    apply IHb in H as [-> H]. by apply IHa in H as [-> ->].
  - by apply IHa in H as [-> ->].
  - by apply IHa in H as [-> ->].
  - by apply IHa in H as [-> ->].
Qed.

Lemma postfix_of_regex_eq r1 r2 :
  postfix_of_regex r1 = postfix_of_regex r2 → r1 = r2.
Proof. intros H. by apply (postfix_of_regex_inj r1 r2 [] []). Qed.

(** The first loop of [_op_if_nonempty] *)
Lemma operands_fold (args : list (list parsing.token)) rv0 k0 :
  foldl (λ '(rv, num_operands) arg,
           if (0 <? length arg)%nat then (rv ++ arg, num_operands + 1)
           else (rv, num_operands)) (rv0, k0) args
  = (rv0 ++ concat (filter (λ a, a ≠ []) args),
     k0 + Z.of_nat (length (filter (λ a, a ≠ []) args))).
Proof.
  revert rv0 k0. induction args as [|a args IH]; intros rv0 k0; simpl.
  - rewrite app_nil_r. f_equal. lia.
  - rewrite filter_cons. destruct a as [|x a]; simpl.
    + apply IH.
    + rewrite IH. rewrite <- app_assoc. f_equal. lia.
Qed.

Lemma duplicate_quantifiers_binary l id :
  id = 0 ∨ id = 1 → parsing._duplicate_quantifiers l id = None.
Proof.
  intros Hid. destruct l as [a|s]; [|done]. simpl.
  repeat (destruct (decide _); try lia); done.
Qed.

(** [_op_if_nonempty] with a binary operator: the operands that are not
    empty, then one operator less than there are of them. *)
Lemma op_if_nonempty_binary op p args :
  parsing._operators_sym op = Some p →
  parsing.num_args p = 2%nat →
  parsing.id p = 0 ∨ parsing.id p = 1 →
  parsing._op_if_nonempty op args true
  = Ret (let xs := filter (λ a, a ≠ [])
                     (if parsing.commutative p then parsing.sorted_by_len args
                      else args) in
         concat xs
         ++ replicate (length xs - 1) (parsing.Op (parsing.id p))).
Proof.
  intros Hop Hn Hid. unfold parsing._op_if_nonempty. rewrite Hop. cbn [obind].
  rewrite operands_fold. cbn zeta.
  set (xs := filter _ _). rewrite Hn. simpl app.
  destruct (decide (0 + Z.of_nat (length xs) = 0)) as [H0|H0].
  - destruct xs; [done|simpl in H0; lia].
  - change (Z.of_nat 2) with 2.
    assert (Z.to_nat ((0 + Z.of_nat (length xs) - 1) / (2 - 1))
            = (length xs - 1)%nat) as Hk.
    { change (2 - 1) with 1. rewrite Z.div_1_r. lia. }
    assert (∀ rv : list parsing.token,
              match last rv with
              | Some l =>
                  match parsing._duplicate_quantifiers l (parsing.id p) with
                  | Some i => (removelast rv, i)
                  | None => (rv, parsing.id p)
                  end
              | None => (rv, parsing.id p)
              end = (rv, parsing.id p)) as Hlast.
    { intros rv. destruct (last rv) as [l|]; [|done].
      by rewrite duplicate_quantifiers_binary. }
    destruct (decide (0 + Z.of_nat (length xs) ≠ 2)) as [H2|H2].
    + rewrite ?decide_False by lia.
      rewrite ?decide_False by (rewrite Z.mod_1_r; by intros []).
      cbn [obind]. rewrite ?decide_False by lia. by rewrite Hk, Hlast.
    + cbn [obind]. rewrite ?decide_False by lia. by rewrite Hk, Hlast.
Qed.

(** [_op_if_nonempty] with a suffix operator and one argument *)
Lemma op_if_nonempty_suffix op p x l :
  parsing._operators_sym op = Some p →
  parsing.num_args p = 1%nat → parsing.commutative p = false →
  parsing._op_if_nonempty op [l ++ [x]] true
  = Ret (match parsing._duplicate_quantifiers x (parsing.id p) with
         | Some i => l ++ [parsing.Op i]
         | None => l ++ [x; parsing.Op (parsing.id p)]
         end).
Proof.
  intros Hop Hn Hc. unfold parsing._op_if_nonempty. rewrite Hop. cbn [obind].
  rewrite Hc, operands_fold. rewrite Hn.
  assert (filter (λ a : list parsing.token, a ≠ []) [l ++ [x]] = [l ++ [x]])
    as ->.
  { rewrite filter_cons, decide_True; [done|]. by destruct l. }
  simpl concat. simpl length. rewrite app_nil_r.
  simpl app. change (0 + Z.of_nat 1) with 1. change (Z.of_nat 1) with 1.
  cbn [obind]. rewrite last_snoc, removelast_last.
  destruct (parsing._duplicate_quantifiers x (parsing.id p)); simpl; [done|].
  by rewrite <- app_assoc.
Qed.

Lemma op_if_nonempty_suffix_nil op p :
  parsing._operators_sym op = Some p →
  parsing.commutative p = false →
  parsing._op_if_nonempty op [[]] true = Ret [].
Proof.
  intros Hop Hc. unfold parsing._op_if_nonempty. rewrite Hop. cbn [obind].
  by rewrite Hc.
Qed.

Lemma filter_nonempty_nil (l : list (list parsing.token)) :
  filter (λ a, a ≠ []) ([] :: l) = filter (λ a, a ≠ []) l.
Proof. rewrite filter_cons. by rewrite decide_False by (intros H; by apply H). Qed.

Lemma filter_nonempty_regex r (l : list (list parsing.token)) :
  filter (λ a, a ≠ []) (postfix_of_regex r :: l)
  = postfix_of_regex r :: filter (λ a, a ≠ []) l.
Proof.
  rewrite filter_cons. by rewrite decide_True by apply postfix_of_regex_nonempty.
Qed.

(** [_op_if_nonempty('|', a, b)] on two accumulators *)
Lemma alt_collects p1 p2 L1 L2 :
  collects p1 L1 → collects p2 L2 →
  ∃ p, parsing._op_if_nonempty (Some "|") [p1; p2] true = Ret p
       ∧ collects p (λ w, L1 w ∨ L2 w).
Proof.
  intros H1 H2.
  rewrite (op_if_nonempty_binary (Some "|") parsing.op_union)
    by (done || by right).
  eexists. split; [done|]. cbn zeta.
  change (parsing.commutative parsing.op_union) with true. cbn iota.
  change (parsing.id parsing.op_union) with 1.
  assert (parsing.sorted_by_len [p1; p2]
          = if (length p2 <? length p1)%nat then [p2; p1] else [p1; p2])
    as -> by done.
  destruct H1 as [[-> HL1]|(r1 & -> & HL1)],
           H2 as [[-> HL2]|(r2 & -> & HL2)].
  - left. split; [done|]. intros w [H|H]; [by apply (HL1 w)|by apply (HL2 w)].
  - right. exists r2.
    destruct (_ <? _)%nat;
      rewrite ?filter_nonempty_nil, filter_nonempty_regex,
        ?filter_nonempty_nil, filter_nil;
      simpl; rewrite !app_nil_r; (split; [done|]);
      intros w; rewrite <- HL2; specialize (HL1 w); tauto.
  - right. exists r1.
    destruct (_ <? _)%nat;
      rewrite ?filter_nonempty_nil, filter_nonempty_regex,
        ?filter_nonempty_nil, filter_nil;
      simpl; rewrite !app_nil_r; (split; [done|]);
      intros w; rewrite <- HL1; specialize (HL2 w); tauto.
  - right. destruct (_ <? _)%nat;
      rewrite !filter_nonempty_regex, filter_nil; simpl; rewrite app_nil_r.
    + exists (RAlt r2 r1). split; [by rewrite <- app_assoc|]. intros w. simpl.
      rewrite <- HL1, <- HL2. tauto.
    + exists (RAlt r1 r2). split; [by rewrite <- app_assoc|]. intros w. simpl.
      by rewrite <- HL1, <- HL2.
Qed.

Lemma lcat_nil_l (L1 L2 : list symbol → Prop) w :
  (∀ u, L1 u ↔ u = []) → lcat L1 L2 w ↔ L2 w.
Proof.
  intros H1. split.
  - intros (u & v & -> & ->%H1 & Hv). done.
  - intros Hw. exists [], w. split_and!; [done| |done]. by apply H1.
Qed.

Lemma lcat_nil_r (L1 L2 : list symbol → Prop) w :
  (∀ u, L2 u ↔ u = []) → lcat L1 L2 w ↔ L1 w.
Proof.
  intros H2. split.
  - intros (u & v & -> & Hu & ->%H2). by rewrite app_nil_r.
  - intros Hw. exists w, []. rewrite app_nil_r. split_and!; [done..|].
    by apply H2.
Qed.

Lemma lcat_ext (L1 L2 L1' L2' : list symbol → Prop) w :
  (∀ u, L1 u ↔ L1' u) → (∀ u, L2 u ↔ L2' u) →
  lcat L1 L2 w ↔ lcat L1' L2' w.
Proof.
  intros H1 H2.
  split; intros (u & v & -> & Hu & Hv); exists u, v;
    (split_and!; [done|by apply H1|by apply H2]).
Qed.

Lemma lcat_assoc (L1 L2 L3 : list symbol → Prop) w :
  lcat (lcat L1 L2) L3 w ↔ lcat L1 (lcat L2 L3) w.
Proof.
  split.
  - intros (u & v & -> & (u1 & u2 & -> & H1 & H2) & H3).
    exists u1, (u2 ++ v). rewrite app_assoc. split_and!; [done..|].
    by exists u2, v.
  - intros (u & v & -> & H1 & (v1 & v2 & -> & H2 & H3)).
    exists (u ++ v1), v2. rewrite app_assoc. split_and!; [done| |done].
    by exists u, v1.
Qed.

(** [_op_if_nonempty(None, a, b)] on two labels *)
Lemma cat2_denotes p1 p2 L1 L2 :
  denotes p1 L1 → denotes p2 L2 →
  ∃ p, parsing._op_if_nonempty None [p1; p2] true = Ret p
       ∧ denotes p (lcat L1 L2).
Proof.
  intros H1 H2.
  rewrite (op_if_nonempty_binary None parsing.op_concat)
    by (done || by left).
  eexists. split; [done|]. cbn zeta.
  change (parsing.commutative parsing.op_concat) with false. cbn iota.
  change (parsing.id parsing.op_concat) with 0.
  destruct H1 as [[-> HL1]|(r1 & -> & HL1)],
           H2 as [[-> HL2]|(r2 & -> & HL2)];
    rewrite ?filter_nonempty_nil, ?filter_nonempty_regex,
      ?filter_nonempty_nil, ?filter_nonempty_regex, filter_nil;
    simpl; rewrite ?app_nil_r.
  - left. split; [done|]. intros w. rewrite lcat_nil_l by done. apply HL2.
  - right. exists r2. split; [done|]. intros w. rewrite lcat_nil_l by done.
    apply HL2.
  - right. exists r1. split; [done|]. intros w. rewrite lcat_nil_r by done.
    apply HL1.
  - right. exists (RCat r1 r2). split; [by rewrite <- app_assoc|]. intros w.
    by apply lcat_ext.
Qed.

(** [_op_if_nonempty(None, a, b, c)] on three labels *)
Lemma cat3_denotes p1 p2 p3 L1 L2 L3 :
  denotes p1 L1 → denotes p2 L2 → denotes p3 L3 →
  ∃ p, parsing._op_if_nonempty None [p1; p2; p3] true = Ret p
       ∧ denotes p (lcat L1 (lcat L2 L3)).
Proof.
  intros H1 H2 H3.
  rewrite (op_if_nonempty_binary None parsing.op_concat)
    by (done || by left).
  eexists. split; [done|]. cbn zeta.
  change (parsing.commutative parsing.op_concat) with false. cbn iota.
  change (parsing.id parsing.op_concat) with 0.
  destruct H1 as [[-> HL1]|(r1 & -> & HL1)],
           H2 as [[-> HL2]|(r2 & -> & HL2)],
           H3 as [[-> HL3]|(r3 & -> & HL3)];
    rewrite ?filter_nonempty_nil, ?filter_nonempty_regex,
      ?filter_nonempty_nil, ?filter_nonempty_regex,
      ?filter_nonempty_nil, ?filter_nonempty_regex, filter_nil;
    simpl; rewrite ?app_nil_r.
  - left. split; [done|]. intros w.
    rewrite lcat_nil_l by done. rewrite lcat_nil_l by done. apply HL3.
  - right. exists r3. split; [done|]. intros w.
    rewrite lcat_nil_l by done. rewrite lcat_nil_l by done. apply HL3.
  - right. exists r2. split; [done|]. intros w.
    rewrite lcat_nil_l by done. rewrite lcat_nil_r by done. apply HL2.
  - right. exists (RCat r2 r3). split; [by rewrite <- app_assoc|]. intros w.
    rewrite lcat_nil_l by done. by apply lcat_ext.
  - right. exists r1. split; [done|]. intros w.
    rewrite lcat_nil_r; [apply HL1|]. intros u. rewrite lcat_nil_l by done.
    apply HL3.
  - right. exists (RCat r1 r3). split; [by rewrite <- app_assoc|]. intros w.
    apply lcat_ext; [done|]. intros u. rewrite lcat_nil_l by done. apply HL3.
  - right. exists (RCat r1 r2). split; [by rewrite <- app_assoc|]. intros w.
    apply lcat_ext; [done|]. intros u. rewrite lcat_nil_r by done. apply HL2.
  - right. exists (RCat r1 (RCat r2 r3)). split.
    + simpl. by rewrite <- !app_assoc.
    + intros w. apply lcat_ext; [done|]. intros u. by apply lcat_ext.
Qed.

(** [_op_if_nonempty] with a quantifier, on the postfix form of a regular
    expression; the table [_duplicate_quantifiers] merges it with a
    quantifier that is already there. *)
Lemma star_regex r :
  ∃ r', parsing._op_if_nonempty (Some "*") [postfix_of_regex r] true
        = Ret (postfix_of_regex r')
        ∧ ∀ w, matches r' w ↔ kstar (matches r) w.
Proof.
  destruct r as [s|a b|a b|a|a|a]; cbn [postfix_of_regex]; rewrite ?app_assoc;
    try change [parsing.Sym s] with ([] ++ [parsing.Sym s]);
    rewrite (op_if_nonempty_suffix (Some "*") parsing.op_star) by done; cbn.
  - by exists (RStar (RSym s)).
  - exists (RStar (RCat a b)). split; [|done]. simpl. by rewrite <- !app_assoc.
  - exists (RStar (RAlt a b)). split; [|done]. simpl. by rewrite <- !app_assoc.
  - exists (RStar a). split; [done|]. intros w. symmetry.
    exact (kstar_kstar (matches a) w).
  - exists (RStar a). split; [done|]. intros w. symmetry.
    exact (kstar_of_kplus (matches a) w).
  - exists (RStar a). split; [done|]. intros w. symmetry.
    exact (kstar_of_opt (matches a) w).
Qed.

Lemma plus_regex r :
  ∃ r', parsing._op_if_nonempty (Some "+") [postfix_of_regex r] true
        = Ret (postfix_of_regex r')
        ∧ ∀ w, matches r' w ↔ kplus (matches r) w.
Proof.
  destruct r as [s|a b|a b|a|a|a]; cbn [postfix_of_regex]; rewrite ?app_assoc;
    try change [parsing.Sym s] with ([] ++ [parsing.Sym s]);
    rewrite (op_if_nonempty_suffix (Some "+") parsing.op_plus) by done; cbn.
  - by exists (RPlus (RSym s)).
  - exists (RPlus (RCat a b)). split; [|done]. simpl. by rewrite <- !app_assoc.
  - exists (RPlus (RAlt a b)). split; [|done]. simpl. by rewrite <- !app_assoc.
  - exists (RStar a). split; [done|]. intros w. symmetry.
    exact (kplus_of_kstar (matches a) w).
  - exists (RPlus a). split; [done|]. intros w. symmetry.
    exact (kplus_of_kplus (matches a) w).
  - exists (RStar a). split; [done|]. intros w. symmetry.
    exact (kplus_of_opt (matches a) w).
Qed.

Lemma opt_regex r :
  ∃ r', parsing._op_if_nonempty (Some "?") [postfix_of_regex r] true
        = Ret (postfix_of_regex r')
        ∧ ∀ w, matches r' w ↔ matches r w ∨ w = [].
Proof.
  destruct r as [s|a b|a b|a|a|a]; cbn [postfix_of_regex]; rewrite ?app_assoc;
    try change [parsing.Sym s] with ([] ++ [parsing.Sym s]);
    rewrite (op_if_nonempty_suffix (Some "?") parsing.op_opt) by done; cbn.
  - by exists (ROpt (RSym s)).
  - exists (ROpt (RCat a b)). split; [|done]. simpl. by rewrite <- !app_assoc.
  - exists (ROpt (RAlt a b)). split; [|done]. simpl. by rewrite <- !app_assoc.
  - exists (RStar a). split; [done|]. intros w. symmetry.
    exact (opt_of_kstar (matches a) w).
  - exists (RStar a). split; [done|]. intros w. symmetry.
    exact (opt_of_kplus (matches a) w).
  - exists (ROpt a). split; [done|]. intros w. simpl. tauto.
Qed.

Lemma any_of_cons L Ls w : any_of (L :: Ls) w ↔ L w ∨ any_of Ls w.
Proof.
  unfold any_of. split.
  - intros (L' & [->|HL']%elem_of_cons & Hw); [by left|]. right. by exists L'.
  - intros [Hw|(L' & HL' & Hw)].
    + exists L. split; [left|done].
    + exists L'. split; [by right|done].
Qed.

Lemma any_of_nil w : ¬ any_of [] w.
Proof. intros (L & HL & _). by apply elem_of_nil in HL. Qed.

Lemma denotes_inhabited p L : denotes p L → ∃ w, L w.
Proof.
  intros [[_ HL]|(r & _ & HL)].
  - exists []. by apply HL.
  - destruct (matches_inhabited r) as [w Hw]. exists w. by apply HL.
Qed.

(** A label is folded in as an option (the empty one) or as an operand. *)
Lemma denotes_cases p L :
  denotes p L →
  (p = [] ∧ ∀ w, L w ↔ w = []) ∨ (p ≠ [] ∧ collects p L).
Proof.
  intros [[-> HL]|(r & -> & HL)]; [by left|]. right.
  split; [apply postfix_of_regex_nonempty|]. right. by exists r.
Qed.

Lemma union_step_eq union optional (o : parsing.label) :
  match o with
  | parsing.LTup l =>
      if decide (l = []) then Ret (union, true)
      else
        u <- parsing._op_if_nonempty (Some "|") [union; l] true;;
        Ret (u, optional)
  | parsing.LStr s =>
      if decide (s = "") then Ret (union, true)
      else
        u <- parsing._op_if_nonempty (Some "|") [union; [parsing.Sym s]] true;;
        Ret (u, optional)
  end
  = if decide (parsing.operand o = []) then Ret (union, true : bool)
    else
      u <- parsing._op_if_nonempty (Some "|") [union; parsing.operand o] true;;
      Ret (u, optional).
Proof.
  destruct o as [s|l]; simpl; [|done].
  destruct (decide (s = "")); [by rewrite decide_True|].
  by rewrite decide_False.
Qed.

Lemma union_fold options Ls :
  Forall2 label_denotes options Ls →
  ∀ union (optional : bool) U,
    collects union U →
    ∃ union' (optional' : bool) U',
      foldM (λ '(union, optional) loop,
               match loop with
               | parsing.LTup l =>
                   if decide (l = []) then Ret (union, true)
                   else
                     u <- parsing._op_if_nonempty (Some "|") [union; l] true;;
                     Ret (u, optional)
               | parsing.LStr s =>
                   if decide (s = "") then Ret (union, true)
                   else
                     u <- parsing._op_if_nonempty (Some "|")
                            [union; [parsing.Sym s]] true;;
                     Ret (u, optional)
               end) (union, optional) options = Ret (union', optional')
      ∧ collects union' U'
      ∧ ∀ w, U' w ∨ (optional' = true ∧ w = [])
             ↔ U w ∨ (optional = true ∧ w = []) ∨ any_of Ls w.
Proof.
  induction 1 as [|o L options Ls Ho _ IH]; intros union optional U HU.
  - exists union, optional, U. split_and!; [done..|].
    intros w. pose proof (any_of_nil w). tauto.
  - cbn [foldM]. rewrite union_step_eq.
    destruct (denotes_cases _ _ Ho) as [[-> HL]|[Hne HoL]].
    + rewrite decide_True by done. cbn [obind].
      destruct (IH union true U HU) as (union' & optional' & U' & -> & HU' & H).
      exists union', optional', U'. split_and!; [done..|].
      intros w. rewrite H, any_of_cons, HL. intuition congruence.
    + rewrite decide_False by done.
      destruct (alt_collects _ _ _ _ HU HoL) as (u & -> & Hu). cbn [obind].
      destruct (IH u optional _ Hu) as (union' & optional' & U' & -> & HU' & H).
      exists union', optional', U'. split_and!; [done..|].
      intros w. rewrite H, any_of_cons. tauto.
Qed.

(** [postfix_union_combiner]: the label of the union of the options *)
Lemma union_combiner_denotes options Ls :
  Forall2 label_denotes options Ls → options ≠ [] →
  ∃ p, parsing.postfix_union_combiner options = Ret (parsing.LTup p)
       ∧ denotes p (any_of Ls).
Proof.
  intros Hall Hne. unfold parsing.postfix_union_combiner.
  destruct (union_fold _ _ Hall [] false (λ _, False))
    as (union & optional & U & -> & HU & H).
  { left. split; [done|]. by intros w []. }
  cbn [obind].
  assert (∀ w, any_of Ls w ↔ U w ∨ (optional = true ∧ w = [])) as HLs.
  { intros w. rewrite H. intuition congruence. }
  destruct optional.
  - destruct HU as [[-> HU]|(r & -> & HU)].
    + rewrite (op_if_nonempty_suffix_nil (Some "?") parsing.op_opt) by done.
      cbn [obind]. eexists. split; [done|]. left. split; [done|].
      intros w. rewrite HLs. specialize (HU w). tauto.
    + destruct (opt_regex r) as (r' & -> & Hr'). cbn [obind].
      eexists. split; [done|]. right. exists r'. split; [done|].
      intros w. rewrite HLs, Hr', HU. tauto.
  - cbn [obind]. eexists. split; [done|].
    destruct HU as [[-> HU]|(r & -> & HU)].
    + exfalso. destruct Hall as [|o L options Ls Ho _]; [done|].
      destruct (denotes_inhabited _ _ Ho) as [w Hw].
      assert (any_of (L :: Ls) w) as Hany by (apply any_of_cons; by left).
      apply HLs in Hany as [HUw|[? _]]; [|done]. by apply (HU w).
    + right. exists r. split; [done|]. intros w. rewrite HLs, <- HU.
      intuition congruence.
Qed.

Lemma denotes_ext p (L L' : list symbol → Prop) :
  denotes p L → (∀ w, L w ↔ L' w) → denotes p L'.
Proof.
  intros [[-> HL]|(r & -> & HL)] Hext.
  - left. split; [done|]. intros w. by rewrite <- Hext.
  - right. exists r. split; [done|]. intros w. by rewrite <- Hext.
Qed.

Lemma denotes_nil (L : list symbol → Prop) w : denotes [] L → L w ↔ w = [].
Proof.
  intros [[_ HL]|(r & Hr & _)]; [done|].
  symmetry in Hr. by apply postfix_of_regex_nonempty in Hr.
Qed.

Lemma denotes_regex r (L : list symbol → Prop) w :
  denotes (postfix_of_regex r) L → L w ↔ matches r w.
Proof.
  intros [[Hr _]|(r' & Hr & HL)].
  - by apply postfix_of_regex_nonempty in Hr.
  - apply postfix_of_regex_eq in Hr as ->. apply HL.
Qed.

Lemma kstar_modulo_nil (A B : list symbol → Prop) w :
  (∀ u, A u ∨ u = [] ↔ B u ∨ u = []) → kstar A w ↔ kstar B w.
Proof.
  intros H. rewrite <- (kstar_of_opt A), <- (kstar_of_opt B).
  by apply kstar_ext.
Qed.

Lemma kstar_empty (L : list symbol → Prop) w :
  (∀ u, ¬ L u) → kstar L w ↔ w = [].
Proof.
  intros HL. split; [|intros ->; constructor].
  intros [|u v Hu _]; [done|]. by apply HL in Hu.
Qed.

Lemma kplus_snoc (L : list symbol → Prop) w :
  kplus L w ↔ lcat (kstar L) L w.
Proof.
  split.
  - intros (u & v & -> & Hu & Hv). revert u Hu.
    induction Hv as [|v1 v2 H1 H2 IH]; intros u Hu.
    + exists [], u. rewrite app_nil_r. split_and!; [done|constructor|done].
    + destruct (IH v1 H1) as (a & b & Hab & Ha & Hb).
      exists (u ++ a), b. rewrite Hab, app_assoc. split_and!; [done| |done].
      by constructor.
  - intros (u & v & -> & Hu & Hv). by apply kstar_snoc.
Qed.

Lemma alt_nil_r p :
  p ≠ [] → parsing._op_if_nonempty (Some "|") [p; []] true = Ret p.
Proof.
  intros Hp.
  rewrite (op_if_nonempty_binary (Some "|") parsing.op_union)
    by (done || by right).
  cbn zeta. change (parsing.commutative parsing.op_union) with true. cbn iota.
  assert (filter (λ a : list parsing.token, a ≠ [])
            (parsing.sorted_by_len [p; []]) = [p]) as ->.
  { change (parsing.sorted_by_len [p; []])
      with (if (0 <? length p)%nat then [[]; p] else [p; []]).
    destruct (_ <? _)%nat;
      rewrite ?filter_nonempty_nil, filter_cons, decide_True by done;
      by rewrite ?filter_nonempty_nil, filter_nil. }
  simpl. by rewrite !app_nil_r.
Qed.

(** One self loop more in [repeat] *)
Lemma repeat_step repeat U (loop : parsing.label) L :
  collects repeat U → label_denotes loop L →
  ∃ repeat' U',
    match loop with
    | parsing.LTup l =>
        parsing._op_if_nonempty (Some "|") [l; repeat] true
    | parsing.LStr s =>
        if decide (s ≠ "")
        then parsing._op_if_nonempty (Some "|") [[parsing.Sym s]; repeat] true
        else Ret repeat
    end = Ret repeat'
    ∧ collects repeat' U'
    ∧ ∀ w, U' w ∨ w = [] ↔ (U w ∨ L w) ∨ w = [].
Proof.
  intros HU HL. unfold label_denotes in HL.
  destruct (denotes_cases _ _ HL) as [[Hnil HLe]|[Hne HLc]].
  - assert (∃ repeat' U',
              parsing._op_if_nonempty (Some "|") [[]; repeat] true = Ret repeat'
              ∧ collects repeat' U'
              ∧ ∀ w, U' w ∨ w = [] ↔ (U w ∨ L w) ∨ w = [])
      as (repeat' & U' & Hop & HU' & HUL).
    { destruct (alt_collects [] repeat (λ _, False) U) as (p & Hp & Hc);
        [left; split; [done|by intros w []]|done|].
      exists p, (λ w, False ∨ U w). split_and!; [done..|].
      intros w. rewrite HLe. tauto. }
    destruct loop as [s|l]; simpl in Hnil.
    + destruct (decide (s = "")) as [->|]; [|done].
      rewrite decide_False by (intros H; by apply H).
      exists repeat, U. split_and!; [done..|]. intros w. rewrite HLe. tauto.
    + subst l. by exists repeat', U'.
  - assert (∃ repeat' U',
              parsing._op_if_nonempty (Some "|")
                [parsing.operand loop; repeat] true = Ret repeat'
              ∧ collects repeat' U'
              ∧ ∀ w, U' w ∨ w = [] ↔ (U w ∨ L w) ∨ w = [])
      as (repeat' & U' & Hop & HU' & HUL).
    { destruct (alt_collects _ _ _ _ HLc HU) as (p & Hp & Hc).
      exists p, (λ w, L w ∨ U w). split_and!; [done..|]. intros w. tauto. }
    destruct loop as [s|l]; simpl in Hne, Hop.
    + destruct (decide (s = "")) as [->|]; [done|].
      rewrite decide_True by done. by exists repeat', U'.
    + by exists repeat', U'.
Qed.

Lemma repeat_fold star Ls :
  Forall2 label_denotes star Ls →
  ∀ repeat U,
    collects repeat U →
    ∃ repeat' U',
      foldM (λ repeat loop,
               match loop with
               | parsing.LTup l =>
                   parsing._op_if_nonempty (Some "|") [l; repeat] true
               | parsing.LStr s =>
                   if decide (s ≠ "")
                   then parsing._op_if_nonempty (Some "|")
                          [[parsing.Sym s]; repeat] true
                   else Ret repeat
               end) repeat star = Ret repeat'
      ∧ collects repeat' U'
      ∧ ∀ w, U' w ∨ w = [] ↔ (U w ∨ any_of Ls w) ∨ w = [].
Proof.
  induction 1 as [|o L star Ls Ho _ IH]; intros repeat U HU.
  - exists repeat, U. split_and!; [done..|].
    intros w. pose proof (any_of_nil w). tauto.
  - cbn [foldM].
    destruct (repeat_step _ _ _ _ HU Ho) as (r1 & U1 & -> & HU1 & H1).
    cbn [obind].
    destruct (IH r1 U1 HU1) as (repeat' & U' & -> & HU' & H).
    exists repeat', U'. split_and!; [done..|].
    intros w. rewrite any_of_cons. specialize (H w). specialize (H1 w). tauto.
Qed.

Lemma lcat_loop_nil (M : list symbol → Prop) w :
  M [] → lcat M (lcat (kstar M) M) w ↔ kplus M w.
Proof.
  intros Hnil. split.
  - intros (u & ? & -> & Hu & (v & x & -> & Hv & Hx)).
    exists u, (v ++ x). split_and!; [done..|].
    apply kstar_app_r; [done|by apply kstar_one].
  - intros (u & v & -> & Hu & Hv).
    exists u, v. split_and!; [done..|].
    exists v, []. by rewrite app_nil_r.
Qed.

(** [postfix_rip_combiner]: the label of a path through the removed
    state, unless the edge in, the edge out and the self loops are one
    and the same label that does not match the empty word. *)
Lemma rip_combiner_denotes pre_t star post_t Lpre Ls Lpost :
  label_denotes pre_t Lpre →
  Forall2 label_denotes star Ls →
  label_denotes post_t Lpost →
  parsing.operand pre_t ≠ parsing.operand post_t ∨ Lpre [] →
  ∃ p, parsing.postfix_rip_combiner pre_t star post_t = Ret (parsing.LTup p)
       ∧ denotes p (lcat Lpre (lcat (kstar (any_of Ls)) Lpost)).
Proof.
  intros Hpre Hstar Hpost Hok. unfold label_denotes in Hpre, Hpost.
  unfold parsing.postfix_rip_combiner. cbn zeta.
  destruct (repeat_fold _ _ Hstar [] (λ _, False))
    as (repeat & U & -> & HU & HUL).
  { left. split; [done|]. by intros w []. }
  cbn [obind].
  assert (∀ w, kstar (any_of Ls) w ↔ kstar U w) as HS.
  { intros w. apply kstar_modulo_nil. intros u. rewrite HUL. tauto. }
  assert (denotes [] (λ w : list symbol, w = [])) as Dnil
    by (left; by split).
  destruct HU as [[-> HU]|(R & -> & HU)].
  - (* no self loop but epsilon ones *)
    assert (∀ u, kstar (any_of Ls) u ↔ u = []) as HS'.
    { intros u. rewrite HS. by apply kstar_empty. }
    rewrite (op_if_nonempty_suffix_nil (Some "+") parsing.op_plus) by done.
    rewrite (op_if_nonempty_suffix_nil (Some "*") parsing.op_star) by done.
    cbn [obind].
    destruct (bool_decide (parsing.operand pre_t = [])) eqn:Hp;
      [apply bool_decide_eq_true in Hp|];
      (destruct (bool_decide (parsing.operand post_t = [])) eqn:Hq;
       [apply bool_decide_eq_true in Hq|]); cbn [andb].
    + cbn [obind]. eexists. split; [done|]. left. split; [done|]. intros w.
      rewrite Hp in Hpre. rewrite Hq in Hpost.
      rewrite lcat_nil_l by (intros u; by apply denotes_nil).
      rewrite lcat_nil_l by done. by apply denotes_nil.
    + rewrite Hp in Hpre.
      destruct (cat2_denotes _ _ _ _ Dnil Hpost) as (p & -> & Hd).
      cbn [obind]. eexists. split; [done|].
      eapply denotes_ext; [exact Hd|]. intros w.
      rewrite lcat_nil_l by done.
      rewrite lcat_nil_l by (intros u; by apply denotes_nil).
      by rewrite lcat_nil_l by done.
    + rewrite Hq in Hpost.
      destruct (cat2_denotes _ _ _ _ Hpre Dnil) as (p & -> & Hd).
      cbn [obind]. eexists. split; [done|].
      eapply denotes_ext; [exact Hd|]. intros w.
      rewrite lcat_nil_r by done. symmetry. apply lcat_nil_r.
      intros u. rewrite lcat_nil_l by done. by apply denotes_nil.
    + destruct (cat3_denotes _ _ _ _ _ _ Hpre Dnil Hpost) as (p & -> & Hd).
      cbn [obind]. eexists. split; [done|].
      eapply denotes_ext; [exact Hd|]. intros w.
      apply lcat_ext; [done|]. intros u. by apply lcat_ext.
  - (* the self loops are the regular expression [R] *)
    assert (∀ u, kstar (any_of Ls) u ↔ kstar (matches R) u) as HS'.
    { intros u. rewrite HS. by apply kstar_ext. }
    destruct (plus_regex R) as (rp & -> & Hrp).
    destruct (star_regex R) as (rs & -> & Hrs). cbn [obind].
    assert (denotes (postfix_of_regex rp) (matches rp)) as Dp
      by (right; by exists rp).
    assert (denotes (postfix_of_regex rs) (matches rs)) as Ds
      by (right; by exists rs).
    destruct (bool_decide (parsing.operand pre_t = postfix_of_regex R)) eqn:Hp;
      [apply bool_decide_eq_true in Hp|];
      (destruct (bool_decide (parsing.operand post_t = postfix_of_regex R))
         eqn:Hq; [apply bool_decide_eq_true in Hq|]); cbn [andb].
    + cbn [obind]. eexists. split; [done|]. right. exists rp. split; [done|].
      intros w. rewrite Hrp.
      destruct Hok as [Hne|Hnil]; [congruence|].
      rewrite Hp in Hpre. rewrite Hq in Hpost.
      rewrite <- (lcat_loop_nil (matches R))
        by (by apply (denotes_regex R Lpre [])).
      apply lcat_ext; [intros u; by apply denotes_regex|].
      intros u. apply lcat_ext; [done|]. intros v. by apply denotes_regex.
    + rewrite Hp in Hpre.
      destruct (cat2_denotes _ _ _ _ Dp Hpost) as (p & -> & Hd).
      cbn [obind]. eexists. split; [done|].
      eapply denotes_ext; [exact Hd|]. intros w.
      rewrite (lcat_ext (matches rp) Lpost (lcat (matches R) (kstar (matches R)))
                 Lpost) by done.
      rewrite lcat_assoc. apply lcat_ext.
      * intros u. symmetry. by apply denotes_regex.
      * intros u. by apply lcat_ext.
    + rewrite Hq in Hpost.
      destruct (cat2_denotes _ _ _ _ Hpre Dp) as (p & -> & Hd).
      cbn [obind]. eexists. split; [done|].
      eapply denotes_ext; [exact Hd|]. intros w.
      apply lcat_ext; [done|]. intros u. rewrite Hrp, kplus_snoc.
      apply lcat_ext; [done|]. intros v. symmetry. by apply denotes_regex.
    + destruct (cat3_denotes _ _ _ _ _ _ Hpre Ds Hpost) as (p & -> & Hd).
      cbn [obind]. eexists. split; [done|].
      eapply denotes_ext; [exact Hd|]. intros w.
      apply lcat_ext; [done|]. intros u. apply lcat_ext; [|done].
      intros v. by rewrite Hrs.
Qed.

(** The other case: the edge in, the only self loop and the edge out
    carry one label, which does not match the empty word.  The combined
    label then stands for one or more repetitions, while a path takes
    the edge in and the edge out, so repeats at least twice. *)
Lemma rip_combiner_same_label (x : parsing.label) L :
  label_denotes x L → ¬ L [] →
  ∃ p, parsing.postfix_rip_combiner x [x] x = Ret (parsing.LTup p)
       ∧ denotes p (kplus L)
       ∧ ¬ (∀ w, kplus L w → lcat L (lcat (kstar L) L) w).
Proof.
  intros Hx Hnil. unfold label_denotes in Hx.
  destruct (denotes_cases _ _ Hx) as [[_ HL]|[Hne [[Hp _]|(R & HR & HL)]]];
    [by destruct Hnil; apply HL|done|].
  assert (foldM (λ repeat loop,
                   match loop with
                   | parsing.LTup l =>
                       parsing._op_if_nonempty (Some "|") [l; repeat] true
                   | parsing.LStr s =>
                       if decide (s ≠ "")
                       then parsing._op_if_nonempty (Some "|")
                              [[parsing.Sym s]; repeat] true
                       else Ret repeat
                   end) [] [x] = Ret (parsing.operand x)) as Hrepeat.
  { cbn [foldM]. destruct x as [s|l]; simpl in Hne |- *.
    - destruct (decide (s = "")); [done|].
      rewrite decide_True by done. by rewrite alt_nil_r.
    - by rewrite alt_nil_r. }
  unfold parsing.postfix_rip_combiner. cbn zeta. rewrite Hrepeat.
  cbn [obind]. rewrite !bool_decide_eq_true_2 by done. cbn [andb].
  rewrite HR. destruct (plus_regex R) as (rp & -> & Hrp). cbn [obind].
  eexists. split; [done|]. split.
  - right. exists rp. split; [done|]. intros w. rewrite Hrp.
    apply lcat_ext; [done|]. intros u. by apply kstar_ext.
  - intros Hall.
    assert (∀ n w, (length w ≤ n)%nat → L w → False) as Hno.
    { induction n as [|n IH]; intros w Hlen Hw.
      - destruct w; [done|simpl in Hlen; lia].
      - assert (kplus L w) as Hk.
        { exists w, []. rewrite app_nil_r. split_and!; [done..|constructor]. }
        apply Hall in Hk as (u & ? & -> & Hu & (v & y & -> & _ & Hy)).
        apply (IH u); [|done].
        destruct y; [done|]. rewrite !length_app in Hlen. simpl in Hlen. lia. }
    destruct (matches_inhabited R) as [w Hw].
    apply (Hno (length w) w); [done|]. by apply HL.
Qed.

(** X19. The symbolic combiners never raise.  Whatever the labels,
    [postfix_rip_combiner] and [postfix_union_combiner] return a tuple:
    [_op_if_nonempty] is called with a binary operator, or with a suffix
    operator and one argument, and then its check of the number of
    operands passes. *)
Theorem combiners_return pre_t star post_t options :
  (∃ l, parsing.postfix_rip_combiner pre_t star post_t = Ret (parsing.LTup l))
  ∧ ∃ l, parsing.postfix_union_combiner options = Ret (parsing.LTup l).
Proof.
  split; [apply postfix_rip_combiner_returns|apply postfix_union_combiner_returns].
Qed.

(** X20. The elimination loop of test.py returns.  On an automaton whose
    start and final states are two different states of it, the loop
    [while len(nfa.states) > 2], run with the symbolic combiners, needs
    no more iterations than there are states; no [rip], [union_edges] or
    [min] in it raises; the automaton it returns has the start and the
    final state as its only states. *)
Theorem elimination_loop_returns (nfa : GNFA.t) :
  NoDup (GNFA.states nfa) →
  GNFA.start_state nfa ∈ GNFA.states nfa →
  GNFA.final_state nfa ∈ GNFA.states nfa →
  GNFA.start_state nfa ≠ GNFA.final_state nfa →
  ∃ r, test.eliminate (length (GNFA.states nfa)) nfa = Ret r
       ∧ (∀ s, s ∈ GNFA.states r ↔
               s = GNFA.start_state nfa ∨ s = GNFA.final_state nfa)
       ∧ length (GNFA.states r) = 2%nat
       ∧ GNFA.start_state r = GNFA.start_state nfa
       ∧ GNFA.final_state r = GNFA.final_state nfa.
Proof. apply eliminate_two_states. Qed.

Lemma elimination_loop_returns_witness :
  let nfa :=
    GNFA.mk [0; 1; 2; 3] [parsing.LStr "a"; parsing.LStr "b"]
      [((0, parsing.LStr "a"), [1; 2]); ((1, parsing.LStr "b"), [1; 3]);
       ((2, parsing.LStr ""), [3])] 0 3 in
  NoDup (GNFA.states nfa)
  ∧ GNFA.start_state nfa ∈ GNFA.states nfa
  ∧ GNFA.final_state nfa ∈ GNFA.states nfa
  ∧ GNFA.start_state nfa ≠ GNFA.final_state nfa
  ∧ ∃ r, test.eliminate (length (GNFA.states nfa)) nfa = Ret r
         ∧ (∀ s, s ∈ GNFA.states r ↔
                 s = GNFA.start_state nfa ∨ s = GNFA.final_state nfa)
         ∧ length (GNFA.states r) = 2%nat
         ∧ GNFA.start_state r = GNFA.start_state nfa
         ∧ GNFA.final_state r = GNFA.final_state nfa.
Proof.
  intros nfa.
  assert (NoDup (GNFA.states nfa)) as H1.
  { apply (bool_decide_unpack _). vm_compute. exact I. }
  assert (GNFA.start_state nfa ∈ GNFA.states nfa) as H2.
  { apply (bool_decide_unpack _). vm_compute. exact I. }
  assert (GNFA.final_state nfa ∈ GNFA.states nfa) as H3.
  { apply (bool_decide_unpack _). vm_compute. exact I. }
  assert (GNFA.start_state nfa ≠ GNFA.final_state nfa) as H4.
  { apply (bool_decide_unpack _). vm_compute. exact I. }
  split; [exact H1|]. split; [exact H2|]. split; [exact H3|].
  split; [exact H4|].
  exact (elimination_loop_returns nfa H1 H2 H3 H4).
Defined.

(** X21. The label that [postfix_union_combiner] gives to parallel
    edges stands for the union of theirs.  When every option stands for
    a language (the empty string or tuple for the empty word, a symbol
    for itself, a postfix program for its regular expression) and there
    is an option, the combiner returns a tuple that stands for the words
    of one of the options. *)
Theorem union_combiner_language options Ls :
  Forall2 label_denotes options Ls → options ≠ [] →
  ∃ p, parsing.postfix_union_combiner options = Ret (parsing.LTup p)
       ∧ denotes p (any_of Ls).
Proof. apply union_combiner_denotes. Qed.

Lemma union_combiner_language_witness :
  let options :=
    [parsing.LStr "a"; parsing.LStr "";
     parsing.LTup [parsing.Sym "b"; parsing.Op 3]] in
  let Ls := [matches (RSym "a"); (λ w, w = []); matches (RPlus (RSym "b"))] in
  Forall2 label_denotes options Ls ∧ options ≠ []
  ∧ ∃ p, parsing.postfix_union_combiner options = Ret (parsing.LTup p)
         ∧ denotes p (any_of Ls).
Proof.
  intros options Ls.
  assert (Forall2 label_denotes options Ls) as H1.
  { constructor; [right; by exists (RSym "a")|].
    constructor; [by left|].
    constructor; [right; by exists (RPlus (RSym "b"))|].
    constructor. }
  assert (options ≠ []) as H2 by discriminate.
  split; [exact H1|]. split; [exact H2|].
  exact (union_combiner_language options Ls H1 H2).
Defined.

(** X22. The label that [postfix_rip_combiner] gives to a path through
    the removed state: edge in, self loops any number of times, edge
    out.  When the three arguments stand for languages, and the edge in
    and the edge out differ or the edge in matches the empty word, the
    combiner returns a tuple that stands for the words [u ++ v ++ x]
    with [u] of the edge in, [v] a sequence of words of the self loops
    and [x] of the edge out. *)
Theorem rip_combiner_language pre_t star post_t Lpre Ls Lpost :
  label_denotes pre_t Lpre →
  Forall2 label_denotes star Ls →
  label_denotes post_t Lpost →
  parsing.operand pre_t ≠ parsing.operand post_t ∨ Lpre [] →
  ∃ p, parsing.postfix_rip_combiner pre_t star post_t = Ret (parsing.LTup p)
       ∧ denotes p (lcat Lpre (lcat (kstar (any_of Ls)) Lpost)).
Proof. apply rip_combiner_denotes. Qed.

Lemma rip_combiner_language_witness :
  let pre_t := parsing.LStr "a" in
  let star := [parsing.LStr "a"; parsing.LTup [parsing.Sym "b"; parsing.Op 2]] in
  let post_t := parsing.LTup [parsing.Sym "a"; parsing.Sym "b"; parsing.Op 1] in
  let Ls := [matches (RSym "a"); matches (RStar (RSym "b"))] in
  label_denotes pre_t (matches (RSym "a"))
  ∧ Forall2 label_denotes star Ls
  ∧ label_denotes post_t (matches (RAlt (RSym "a") (RSym "b")))
  ∧ (parsing.operand pre_t ≠ parsing.operand post_t ∨ matches (RSym "a") [])
  ∧ ∃ p, parsing.postfix_rip_combiner pre_t star post_t = Ret (parsing.LTup p)
         ∧ denotes p (lcat (matches (RSym "a"))
                        (lcat (kstar (any_of Ls))
                           (matches (RAlt (RSym "a") (RSym "b"))))).
Proof.
  intros pre_t star post_t Ls.
  assert (label_denotes pre_t (matches (RSym "a"))) as H1.
  { right. by exists (RSym "a"). }
  assert (Forall2 label_denotes star Ls) as H2.
  { constructor; [right; by exists (RSym "a")|].
    constructor; [right; by exists (RStar (RSym "b"))|].
    constructor. }
  assert (label_denotes post_t (matches (RAlt (RSym "a") (RSym "b")))) as H3.
  { right. by exists (RAlt (RSym "a") (RSym "b")). }
  assert (parsing.operand pre_t ≠ parsing.operand post_t
          ∨ matches (RSym "a") []) as H4.
  { left. discriminate. }
  split; [exact H1|]. split; [exact H2|]. split; [exact H3|].
  split; [exact H4|].
  exact (rip_combiner_language pre_t star post_t _ Ls _ H1 H2 H3 H4).
Defined.

(** X23. Where [postfix_rip_combiner] is wrong.  When the edge in, the
    only self loop and the edge out carry the same label, and that label
    does not match the empty word, the combiner returns a tuple that
    stands for one or more repetitions of the label; a path through the
    state reads the label at least twice, so some word of the returned
    label is the word of no path. *)
Theorem rip_combiner_repeated_label (x : parsing.label) L :
  label_denotes x L → ¬ L [] →
  ∃ p, parsing.postfix_rip_combiner x [x] x = Ret (parsing.LTup p)
       ∧ denotes p (kplus L)
       ∧ ¬ (∀ w, kplus L w → lcat L (lcat (kstar L) L) w).
Proof. apply rip_combiner_same_label. Qed.

Lemma rip_combiner_repeated_label_witness :
  label_denotes (parsing.LStr "a") (matches (RSym "a"))
  ∧ ¬ matches (RSym "a") []
  ∧ ∃ p, parsing.postfix_rip_combiner (parsing.LStr "a") [parsing.LStr "a"]
           (parsing.LStr "a") = Ret (parsing.LTup p)
         ∧ denotes p (kplus (matches (RSym "a")))
         ∧ ¬ (∀ w, kplus (matches (RSym "a")) w →
                   lcat (matches (RSym "a"))
                     (lcat (kstar (matches (RSym "a"))) (matches (RSym "a"))) w).
Proof.
  assert (label_denotes (parsing.LStr "a") (matches (RSym "a"))) as H1.
  { right. by exists (RSym "a"). }
  assert (¬ matches (RSym "a") []) as H2 by discriminate.
  split; [exact H1|]. split; [exact H2|].
  exact (rip_combiner_repeated_label (parsing.LStr "a") _ H1 H2).
Defined.
